(** * A shallow embedding of the software-cpu assembler

    The repository holds two versions of the two-pass assembler:
    - [src/assembler/assembler.cpp], with [pass1] and [pass2] as functions
      of their own over an [AsmContext], embedded in module [A];
    - the scratch assembler, whose [assemble] holds both passes and keeps
      the symbol table in a [std::unordered_map], embedded in module [B].
    The helpers [trim], [iequals] and [make_instr_word] are textually the
    same in both files and are embedded once, before the two modules;
    [parse_number16] and [reg_id_from_name] differ in the message of their
    exception only, which is a parameter of the shared definition.

    Conventions: a [std::uint16_t] is a [Z] with its wrap-around written out
    ([wrap16]); a [std::string] is a [string]; a [std::vector] is a [list];
    the [std::unordered_map] of the scratch assembler is a [gmap]; a C++
    exception is the [Err] case of [result]. *)

From Stdlib Require Import ZArith Ascii String Lia.
From stdpp Require Import base list strings gmap.

Local Open Scope Z_scope.

(** ** Exceptions and fallible computations *)

(** The exceptions that can leave [assemble]: the assembler's own
    [std::runtime_error] with its message, and the two exceptions of the
    C++ library functions that it calls ([std::stoi] and
    [std::unordered_map::at]). *)
Inductive exception : Type :=
| runtime_error (what : string)
| invalid_argument
| out_of_range.

Inductive result (A : Type) : Type :=
| Ok (a : A)
| Err (e : exception).
Arguments Ok {A} a.
Arguments Err {A} e.

#[global] Instance result_ret : MRet result := fun A a => Ok a.
#[global] Instance result_bind : MBind result := fun A B k r =>
  match r with
  | Ok a => k a
  | Err e => Err e
  end.
#[global] Instance result_fmap : FMap result := fun A B f r =>
  match r with
  | Ok a => Ok (f a)
  | Err e => Err e
  end.

(** [v.push_back]-style accumulation in front of the rest of a loop. *)
Definition push {A : Type} (a : A) (r : result (list A)) : result (list A) :=
  cons a <$> r.

Definition is_ok {A : Type} (r : result A) : bool :=
  match r with Ok _ => true | Err _ => false end.

(** ** Characters (the "C" locale of [<cctype>]) *)

Definition code (c : ascii) : Z := Z.of_N (N_of_ascii c).

Definition isdigit (c : ascii) : bool := (48 <=? code c) && (code c <=? 57).
Definition isupper (c : ascii) : bool := (65 <=? code c) && (code c <=? 90).
Definition islower (c : ascii) : bool := (97 <=? code c) && (code c <=? 122).
Definition isalpha (c : ascii) : bool := isupper c || islower c.
Definition isalnum (c : ascii) : bool := isalpha c || isdigit c.
Definition isspace (c : ascii) : bool :=
  (code c =? 32) || ((9 <=? code c) && (code c <=? 13)).

Definition toupper (c : ascii) : ascii :=
  if islower c then ascii_of_N (N_of_ascii c - 32) else c.

(** [for (char ch : s) upper.push_back(toupper(ch))] *)
Fixpoint upper_string (s : string) : string :=
  match s with
  | EmptyString => EmptyString
  | String c s' => String (toupper c) (upper_string s')
  end.

(** The four characters of the set [" \t\r\n"]. *)
Definition is_blank (c : ascii) : bool :=
  Ascii.eqb c " " || Ascii.eqb c "009" || Ascii.eqb c "013" || Ascii.eqb c "010".

(** ** The [std::string] operations that the assembler uses *)

(** [s.find_first_not_of(" \t\r\n")]; [None] is [npos]. *)
Fixpoint find_first_not_blank (s : string) : option nat :=
  match s with
  | EmptyString => None
  | String c s' =>
      if is_blank c then S <$> find_first_not_blank s' else Some O
  end.

(** [s.find_last_not_of(" \t\r\n")]. *)
Fixpoint find_last_not_blank (s : string) : option nat :=
  match s with
  | EmptyString => None
  | String c s' =>
      match find_last_not_blank s' with
      | Some i => Some (S i)
      | None => if is_blank c then None else Some O
      end
  end.

(** [s.find(c)]. *)
Fixpoint find_char (c : ascii) (s : string) : option nat :=
  match s with
  | EmptyString => None
  | String d s' => if Ascii.eqb d c then Some O else S <$> find_char c s'
  end.

(** [s.substr(pos, len)] for [pos <= s.size()]. *)
Definition substr (s : string) (pos len : nat) : string :=
  String.substring pos len s.

Definition trim (s : string) : string :=
  match find_first_not_blank s with
  | None => EmptyString
  | Some start =>
      match find_last_not_blank s with
      | None => EmptyString
      | Some e => substr s start (e - start + 1)
      end
  end.

Fixpoint iequals (a b : string) : bool :=
  match a, b with
  | EmptyString, EmptyString => true
  | String x a', String y b' =>
      Ascii.eqb (toupper x) (toupper y) && iequals a' b'
  | _, _ => false
  end.

(** Lines as [std::getline] yields them: the text is cut at every newline;
    what follows the last newline is a line only when it is not empty. *)
Fixpoint getlines_from (cur : string) (s : string) : list string :=
  match s with
  | EmptyString =>
      match cur with EmptyString => [] | _ => [cur] end
  | String c s' =>
      if Ascii.eqb c "010" then cur :: getlines_from EmptyString s'
      else getlines_from (cur +:+ String c EmptyString) s'
  end.

Definition getlines (source : string) : list string :=
  getlines_from EmptyString source.

(** ** Numbers *)

Definition wrap16 (z : Z) : Z := z mod 65536.
Definition wrap8 (z : Z) : Z := z mod 256.

Definition INT_MAX : Z := 2147483647.
Definition INT_MIN : Z := -2147483648.

(** The value of a digit of [strtol] in the given base. *)
Definition digit_value (base : Z) (c : ascii) : option Z :=
  let v :=
    if isdigit c then Some (code c - 48)
    else if isupper c then Some (code c - 55)
    else if islower c then Some (code c - 87)
    else None in
  match v with
  | Some d => if d <? base then Some d else None
  | None => None
  end.

(** The longest run of digits at the head of [s], read from the value [acc];
    the flag tells whether a digit was read. *)
Fixpoint read_digits (base : Z) (s : string) (acc : Z) (seen : bool)
  : Z * bool :=
  match s with
  | EmptyString => (acc, seen)
  | String c s' =>
      match digit_value base c with
      | Some d => read_digits base s' (acc * base + d) true
      | None => (acc, seen)
      end
  end.

Fixpoint skip_spaces (s : string) : string :=
  match s with
  | String c s' => if isspace c then skip_spaces s' else s
  | EmptyString => s
  end.

(** [std::stoi(text, &idx, base)] for base 10 and 16, after the C++ standard
    library: leading white space, an optional sign, for base 16 an optional
    [0x] in front of a hexadecimal digit, then the longest run of digits;
    no digit throws [std::invalid_argument], a value that does not fit an
    [int] throws [std::out_of_range]. *)
Definition stoi (text : string) (base : Z) : result Z :=
  let s := skip_spaces text in
  let '(neg, s) :=
    match s with
    | String "-" s' => (true, s')
    | String "+" s' => (false, s')
    | _ => (false, s)
    end in
  let s :=
    match s with
    | String "0" (String x (String h s')) =>
        if (base =? 16) && (Ascii.eqb x "x" || Ascii.eqb x "X")
           && bool_decide (is_Some (digit_value 16 h))
        then String h s' else s
    | _ => s
    end in
  let '(v, seen) := read_digits base s 0 false in
  if negb seen then Err invalid_argument
  else
    let v := if neg : bool then - v else v in
    if (v <? INT_MIN) || (INT_MAX <? v) then Err out_of_range else Ok v.

Definition parse_number16_with (what : string) (text : string) : result Z :=
  let base :=
    match text with
    | String "0" (String x (String _ _)) =>
        if Ascii.eqb x "x" || Ascii.eqb x "X" then 16 else 10
    | _ => 10
    end in
  val ← stoi text base;
  if (val <? 0) || (65535 <? val)
  then Err (runtime_error what)
  else Ok (wrap16 val).

Definition reg_id_from_name_with (what : string) (name : string) : result Z :=
  if iequals name "R0" then Ok 0
  else if iequals name "R1" then Ok 1
  else if iequals name "R2" then Ok 2
  else if iequals name "R3" then Ok 3
  else Err (runtime_error what).

(** ** The instruction word *)

(** Each [w |= static_cast<uint16_t>(f & m) << k] is computed on [int] and
    stored back into the 16-bit [w]. *)
Definition make_instr_word (opcode mode rd rs : Z) : Z :=
  let w := 0 in
  let w := wrap16 (Z.lor w (Z.shiftl (wrap16 (Z.land opcode 31)) 11)) in
  let w := wrap16 (Z.lor w (Z.shiftl (wrap16 (Z.land mode 7)) 8)) in
  let w := wrap16 (Z.lor w (Z.shiftl (wrap16 (Z.land rd 7)) 5)) in
  let w := wrap16 (Z.lor w (Z.shiftl (wrap16 (Z.land rs 7)) 2)) in
  w.

(** The two bytes of a word, low byte first. *)
Definition word_bytes (w : Z) : list Z :=
  [wrap8 (Z.land w 255); wrap8 (Z.land (Z.shiftr w 8) 255)].

(** [for (w : words) { bytes.push_back(lo); bytes.push_back(hi); }] *)
Fixpoint pack_words (words : list Z) : list Z :=
  match words with
  | [] => []
  | w :: ws => word_bytes w ++ pack_words ws
  end.

(** The number of characters at the head of [s] on which [p] holds: how far
    an inner [while (i < n && p(work[i])) ++i;] advances. *)
Fixpoint scan_len (p : ascii -> bool) (s : string) : nat :=
  match s with
  | EmptyString => O
  | String c s' => if p c then S (scan_len p s') else O
  end.

(** [line.substr(0, line.find(';'))], or the line itself without [';']. *)
Definition strip_comment (line : string) : string :=
  match find_char ";" line with
  | None => line
  | Some comment_pos => substr line 0 comment_pos
  end.

Definition starts_with_dot (op : string) : bool :=
  match op with
  | String c _ => Ascii.eqb c "."
  | EmptyString => false
  end.

Definition is_register_name (upper : string) : bool :=
  String.eqb upper "R0" || String.eqb upper "R1"
  || String.eqb upper "R2" || String.eqb upper "R3".

(** * [src/assembler/assembler.cpp] *)
Module A.

Definition parse_number16 : string -> result Z :=
  parse_number16_with "Immediate/address out of range for 16-bit value".

Definition reg_id_from_name : string -> result Z :=
  reg_id_from_name_with "Unknown register".

Inductive TokenType : Type :=
| Identifier | Number | Register | Comma | Colon | Hash
| LBracket | RBracket | Plus.

#[global] Instance TokenType_eq_dec : EqDecision TokenType.
Proof. solve_decision. Defined.

Record Token : Type := mkToken {
  type : TokenType;
  text : string;
  line : Z;
  column : nat;
}.

Definition number_char (c : ascii) : bool :=
  isalnum c || Ascii.eqb c "x" || Ascii.eqb c "X".
Definition ident_char (c : ascii) : bool :=
  isalnum c || Ascii.eqb c "_".

Definition lex_error : exception :=
  runtime_error "Unexpected character in source".

(** The body of the [while (i < n)] loop of [tokenize_line], on the part of
    [work] that starts at index [i]. When the loop has scanned a literal or
    an identifier, [i] has moved past it: the model counts the characters of
    the run with [scan_len] and passes over them with [skip]. *)
Fixpoint tokenize_from (line_no : Z) (work : string) (i : nat) (skip : nat)
  : result (list Token) :=
  match work with
  | EmptyString => Ok []
  | String c rest =>
      match skip with
      | S k => tokenize_from line_no rest (S i) k
      | O =>
          let single ty :=
            push (mkToken ty (String c EmptyString) line_no i)
                 (tokenize_from line_no rest (S i) O) in
          if is_blank c then tokenize_from line_no rest (S i) O
          else if Ascii.eqb c "," then single Comma
          else if Ascii.eqb c ":" then single Colon
          else if Ascii.eqb c "#" then single Hash
          else if Ascii.eqb c "[" then single LBracket
          else if Ascii.eqb c "]" then single RBracket
          else if Ascii.eqb c "+" then single Plus
          else if isdigit c then
            let n := scan_len number_char rest in
            push (mkToken Number (substr work 0 (S n)) line_no i)
                 (tokenize_from line_no rest (S i) n)
          else if isalpha c || Ascii.eqb c "_" then
            let n := scan_len ident_char rest in
            let ident := substr work 0 (S n) in
            let upper := upper_string ident in
            let tok :=
              if is_register_name upper
              then mkToken Register upper line_no i
              else mkToken Identifier ident line_no i in
            push tok (tokenize_from line_no rest (S i) n)
          else Err lex_error
      end
  end.

Definition tokenize_line (line : string) (line_no : Z) : result (list Token) :=
  tokenize_from line_no (strip_comment line) O O.

Inductive LineKind : Type := Empty | Instruction | Directive.

Inductive OperandKind : Type := Reg | Imm | LabelRef | RawNumber.

#[global] Instance LineKind_eq_dec : EqDecision LineKind.
Proof. solve_decision. Defined.
#[global] Instance OperandKind_eq_dec : EqDecision OperandKind.
Proof. solve_decision. Defined.

Record Operand : Type := mkOperand {
  kind : OperandKind;
  otext : string;
}.

Record ParsedLine : Type := mkParsedLine {
  line_no : Z;
  label : string;
  lkind : LineKind;
  op : string;
  operands : list Operand;
}.

(** The operand loop [while (idx < tokens.size())] of [parse_tokens], on the
    tokens from [idx] on. *)
Fixpoint parse_operands (tokens : list Token) : result (list Operand) :=
  match tokens with
  | [] => Ok []
  | t :: rest =>
      match type t with
      | Comma => parse_operands rest
      | Register => push (mkOperand Reg (text t)) (parse_operands rest)
      | Hash =>
          match rest with
          | n :: rest' =>
              match type n with
              | Number => push (mkOperand Imm (text n)) (parse_operands rest')
              | _ => Err (runtime_error "Expected number after '#'")
              end
          | [] => Err (runtime_error "Expected number after '#'")
          end
      | Number => push (mkOperand RawNumber (text t)) (parse_operands rest)
      | Identifier => push (mkOperand LabelRef (text t)) (parse_operands rest)
      | _ => Err (runtime_error "Unsupported operand syntax")
      end
  end.

(** The optional leading label: the label text ([""] without one) and the
    tokens from the new [idx] on. *)
Definition split_label (tokens : list Token) : string * list Token :=
  match tokens with
  | t0 :: t1 :: rest =>
      match type t0, type t1 with
      | Identifier, Colon => (text t0, rest)
      | _, _ => (EmptyString, tokens)
      end
  | _ => (EmptyString, tokens)
  end.

(** What follows the label: nothing, or the mnemonic or directive and its
    operands. *)
Definition parse_mnemonic (line_no : Z) (lbl : string) (rest : list Token)
  : result ParsedLine :=
  match rest with
  | [] => Ok (mkParsedLine line_no lbl Empty EmptyString [])
  | t :: rest' =>
      match type t with
      | Identifier =>
          let is_directive := starts_with_dot (text t) in
          ops ← parse_operands rest';
          Ok (mkParsedLine line_no lbl
                (if is_directive then Directive else Instruction)
                (text t) ops)
      | _ => Err (runtime_error "Expected instruction or directive")
      end
  end.

Definition parse_tokens (tokens : list Token) : result ParsedLine :=
  match tokens with
  | [] => Ok (mkParsedLine 0 EmptyString Empty EmptyString [])
  | front :: _ =>
      let '(lbl, rest) := split_label tokens in
      parse_mnemonic (line front) lbl rest
  end.

Record AsmContext : Type := mkAsmContext {
  current_addr_words : Z;
  symbols : list (string * Z);
  line_addr : list Z;
}.

Definition AsmContext_init : AsmContext := mkAsmContext 32768 [] [].

Record InstrInfo : Type := mkInstrInfo {
  name : string;
  opcode : Z;
}.

Definition INSTR_TABLE : list InstrInfo :=
  [ mkInstrInfo "NOP" 0; mkInstrInfo "HALT" 1; mkInstrInfo "ADD" 5;
    mkInstrInfo "JMP" 13; mkInstrInfo "JZ" 14 ].

Definition find_instr (op_upper : string) : option InstrInfo :=
  List.find (fun info => iequals op_upper (name info)) INSTR_TABLE.

Definition has_instr (op_upper : string) : bool :=
  bool_decide (is_Some (find_instr op_upper)).

Fixpoint symbol_exists_in (syms : list (string * Z)) (nm : string) : bool :=
  match syms with
  | [] => false
  | p :: syms' => if String.eqb p.1 nm then true else symbol_exists_in syms' nm
  end.

Definition symbol_exists (ctx : AsmContext) (nm : string) : bool :=
  symbol_exists_in (symbols ctx) nm.

Fixpoint lookup_symbol_in (syms : list (string * Z)) (nm : string) : result Z :=
  match syms with
  | [] => Err (runtime_error ("Unknown label: " +:+ nm))
  | p :: syms' => if String.eqb p.1 nm then Ok p.2 else lookup_symbol_in syms' nm
  end.

Definition lookup_symbol (ctx : AsmContext) (nm : string) : result Z :=
  lookup_symbol_in (symbols ctx) nm.

Definition set_addr (ctx : AsmContext) (a : Z) : AsmContext :=
  mkAsmContext a (symbols ctx) (line_addr ctx).

(** The three stages of one iteration of the loop of [pass1], for line [i]:
    the address of the line is recorded, its label is defined, and the
    address counter moves past the line. *)
Definition record_line_addr (i : nat) (ctx : AsmContext) : AsmContext :=
  mkAsmContext (current_addr_words ctx) (symbols ctx)
    (<[i := current_addr_words ctx]> (line_addr ctx)).

Definition define_label (pl : ParsedLine) (ctx : AsmContext)
  : result AsmContext :=
  if negb (String.eqb (label pl) EmptyString) then
    if symbol_exists ctx (label pl)
    then Err (runtime_error "Duplicate label")
    else Ok (mkAsmContext (current_addr_words ctx)
               (symbols ctx ++ [(label pl, current_addr_words ctx)])
               (line_addr ctx))
  else Ok ctx.

Definition advance (pl : ParsedLine) (ctx : AsmContext) : result AsmContext :=
  match lkind pl with
  | Directive =>
      if iequals (op pl) ".org" then
        match operands pl with
        | [o] =>
            match kind o with
            | RawNumber =>
                v ← parse_number16 (otext o);
                Ok (set_addr ctx v)
            | _ => Err (runtime_error ".org expects one numeric operand")
            end
        | _ => Err (runtime_error ".org expects one numeric operand")
        end
      else if iequals (op pl) ".word" then
        Ok (set_addr ctx (wrap16 (current_addr_words ctx + 1)))
      else Ok ctx
  | Instruction =>
      let upper := upper_string (op pl) in
      if negb (has_instr upper) then Ok ctx
      else
        let ctx := set_addr ctx (wrap16 (current_addr_words ctx + 1)) in
        if iequals upper "ADD" then
          match operands pl with
          | [_; o1] =>
              match kind o1 with
              | Imm => Ok (set_addr ctx (wrap16 (current_addr_words ctx + 1)))
              | _ => Ok ctx
              end
          | _ => Ok ctx
          end
        else if iequals upper "JMP" || iequals upper "JZ" then
          Ok (set_addr ctx (wrap16 (current_addr_words ctx + 1)))
        else Ok ctx
  | Empty => Ok ctx
  end.

Definition pass1_step (pl : ParsedLine) (i : nat) (ctx : AsmContext)
  : result AsmContext :=
  ctx ← define_label pl (record_line_addr i ctx);
  advance pl ctx.

Fixpoint pass1_loop (lines : list ParsedLine) (i : nat) (ctx : AsmContext)
  : result AsmContext :=
  match lines with
  | [] => Ok ctx
  | pl :: rest =>
      ctx' ← pass1_step pl i ctx;
      pass1_loop rest (S i) ctx'
  end.

(** [ctx.line_addr.resize(lines.size())], then the loop. *)
Definition pass1 (lines : list ParsedLine) (ctx : AsmContext)
  : result AsmContext :=
  pass1_loop lines O
    (mkAsmContext (current_addr_words ctx) (symbols ctx)
       (resize (length lines) 0 (line_addr ctx))).

(** The words that one iteration of the loop of [pass2] pushes onto [words],
    for a line whose Pass-1 address is [current_addr_words]. *)
Definition pass2_step (pl : ParsedLine) (ctx : AsmContext)
    (current_addr_words : Z) : result (list Z) :=
  match lkind pl with
  | Directive =>
      if iequals (op pl) ".org" then Ok []
      else if iequals (op pl) ".word" then
        match operands pl with
        | [o] =>
            match kind o with
            | RawNumber => value ← parse_number16 (otext o); Ok [value]
            | LabelRef => value ← lookup_symbol ctx (otext o); Ok [value]
            | _ => Err (runtime_error "Unsupported operand for .word")
            end
        | _ => Err (runtime_error ".word expects one operand")
        end
      else Ok []
  | Empty => Ok []
  | Instruction =>
      let upper := upper_string (op pl) in
      match find_instr upper with
      | None => Err (runtime_error "Unknown instruction")
      | Some info =>
          let opcode := opcode info in
          if iequals upper "NOP" || iequals upper "HALT" then
            Ok [make_instr_word opcode 0 0 0]
          else if iequals upper "ADD" then
            match operands pl with
            | [o0; o1] =>
                match kind o0 with
                | Reg =>
                    rd ← reg_id_from_name (otext o0);
                    match kind o1 with
                    | Reg =>
                        rs ← reg_id_from_name (otext o1);
                        Ok [make_instr_word opcode 0 rd rs]
                    | Imm =>
                        imm ← parse_number16 (otext o1);
                        Ok [make_instr_word opcode 1 rd 0; imm]
                    | _ => Err (runtime_error "Unsupported ADD operand")
                    end
                | _ => Err (runtime_error "ADD first operand must be register")
                end
            | _ => Err (runtime_error "ADD expects two operands")
            end
          else if iequals upper "JMP" || iequals upper "JZ" then
            match operands pl with
            | [o] =>
                target_words ←
                  match kind o with
                  | LabelRef => lookup_symbol ctx (otext o)
                  | RawNumber => parse_number16 (otext o)
                  | _ => Err (runtime_error "Unsupported jump operand")
                  end;
                let next_pc_words := current_addr_words + 2 in
                let offset := target_words - next_pc_words in
                let offset16 := wrap16 (Z.land offset 65535) in
                Ok [make_instr_word opcode 5 0 0; offset16]
            | _ => Err (runtime_error "Jump expects one operand")
            end
          else Err (runtime_error "Instruction not yet supported in assembler")
      end
  end.

Fixpoint pass2_loop (lines : list ParsedLine) (ctx : AsmContext) (i : nat)
    (words : list Z) : result (list Z) :=
  match lines with
  | [] => Ok words
  | pl :: rest =>
      ws ← pass2_step pl ctx (line_addr ctx !!! i);
      pass2_loop rest ctx (S i) (words ++ ws)
  end.

Definition pass2 (lines : list ParsedLine) (ctx : AsmContext)
    (words : list Z) : result (list Z) :=
  pass2_loop lines ctx O words.

(** The reading loop of [assemble]: blank lines are passed over, every other
    line is tokenized and parsed. *)
Fixpoint read_lines (ls : list string) (line_no : Z) : result (list ParsedLine) :=
  match ls with
  | [] => Ok []
  | l :: rest =>
      if String.eqb (trim l) EmptyString then read_lines rest (line_no + 1)
      else
        tokens ← tokenize_line l line_no;
        pl ← parse_tokens tokens;
        push pl (read_lines rest (line_no + 1))
  end.

(** [assemble] up to the vector [words], before it is turned into bytes. *)
Definition assemble_words (source : string) : result (list Z) :=
  lines ← read_lines (getlines source) 1;
  ctx ← pass1 lines AsmContext_init;
  pass2 lines ctx [].

Definition assemble (source : string) : result (list Z) :=
  words ← assemble_words source;
  Ok (pack_words words).

End A.

(** * The scratch assembler *)
Module B.

Definition parse_number16 : string -> result Z :=
  parse_number16_with "number out of range".

Definition reg_id_from_name (name : string) : result Z :=
  reg_id_from_name_with ("Unknown register: " +:+ name) name.

Inductive TokenType : Type :=
| Identifier | Number | Register | Comma | Colon | Hash.

#[global] Instance TokenType_eq_dec : EqDecision TokenType.
Proof. solve_decision. Defined.

Record Token : Type := mkToken {
  type : TokenType;
  text : string;
}.

Definition number_char (c : ascii) : bool :=
  isalnum c || Ascii.eqb c "x" || Ascii.eqb c "X".
Definition ident_char (c : ascii) : bool :=
  isalnum c || Ascii.eqb c "_" || Ascii.eqb c ".".

Definition lex_error : exception :=
  runtime_error "Unexpected character in source line".

(** The body of the [while (i < work.size())] loop of [tokenize_line]; a
    scanned literal or identifier is passed over with [skip]. *)
Fixpoint tokenize_from (work : string) (skip : nat) : result (list Token) :=
  match work with
  | EmptyString => Ok []
  | String c rest =>
      match skip with
      | S k => tokenize_from rest k
      | O =>
          if is_blank c then tokenize_from rest O
          else if Ascii.eqb c "," then
            push (mkToken Comma ",") (tokenize_from rest O)
          else if Ascii.eqb c ":" then
            push (mkToken Colon ":") (tokenize_from rest O)
          else if Ascii.eqb c "#" then
            push (mkToken Hash "#") (tokenize_from rest O)
          else if isdigit c then
            let n := scan_len number_char rest in
            push (mkToken Number (substr work 0 (S n))) (tokenize_from rest n)
          else if isalpha c || Ascii.eqb c "_" || Ascii.eqb c "." then
            let n := scan_len ident_char rest in
            let ident := substr work 0 (S n) in
            let upper := upper_string ident in
            push (if is_register_name upper
                  then mkToken Register upper
                  else mkToken Identifier upper)
                 (tokenize_from rest n)
          else Err lex_error
      end
  end.

Definition tokenize_line (line : string) : result (list Token) :=
  tokenize_from (strip_comment line) O.

Inductive OperandKind : Type := Reg | Imm | Label | Number_.

#[global] Instance OperandKind_eq_dec : EqDecision OperandKind.
Proof. solve_decision. Defined.

Record Operand : Type := mkOperand {
  kind : OperandKind;
  otext : string;
}.

Record Line : Type := mkLine {
  label : string;
  op : string;
  is_directive : bool;
  operands : list Operand;
}.

(** The operand loop of [parse_line_tokens], on the tokens from [idx] on. *)
Fixpoint parse_operands (tokens : list Token) : result (list Operand) :=
  match tokens with
  | [] => Ok []
  | t :: rest =>
      match type t with
      | Comma => parse_operands rest
      | Register => push (mkOperand Reg (text t)) (parse_operands rest)
      | Hash =>
          match rest with
          | n :: rest' =>
              match type n with
              | Number => push (mkOperand Imm (text n)) (parse_operands rest')
              | _ => Err (runtime_error "Expected number after '#'")
              end
          | [] => Err (runtime_error "Expected number after '#'")
          end
      | Number => push (mkOperand Number_ (text t)) (parse_operands rest)
      | Identifier => push (mkOperand Label (text t)) (parse_operands rest)
      | Colon => Err (runtime_error "Unsupported operand token")
      end
  end.

Definition split_label (tokens : list Token) : string * list Token :=
  match tokens with
  | t0 :: t1 :: rest =>
      match type t0, type t1 with
      | Identifier, Colon => (text t0, rest)
      | _, _ => (EmptyString, tokens)
      end
  | _ => (EmptyString, tokens)
  end.

(** What follows the label: nothing, or the mnemonic or directive and its
    operands. *)
Definition parse_mnemonic (lbl : string) (rest : list Token) : result Line :=
  match rest with
  | [] => Ok (mkLine lbl EmptyString false [])
  | t :: rest' =>
      match type t with
      | Identifier =>
          ops ← parse_operands rest';
          Ok (mkLine lbl (text t) (starts_with_dot (text t)) ops)
      | _ => Err (runtime_error "Expected mnemonic or directive")
      end
  end.

Definition parse_line_tokens (tokens : list Token) : result Line :=
  match tokens with
  | [] => Ok (mkLine EmptyString EmptyString false [])
  | _ :: _ =>
      let '(lbl, rest) := split_label tokens in
      parse_mnemonic lbl rest
  end.

(** The reading loop of [assemble]. *)
Fixpoint read_lines (ls : list string) : result (list Line) :=
  match ls with
  | [] => Ok []
  | raw_line :: rest =>
      let t := trim raw_line in
      if String.eqb t EmptyString then read_lines rest
      else
        tokens ← tokenize_line t;
        l ← parse_line_tokens tokens;
        push l (read_lines rest)
  end.

(** The state of Pass 1: [symbols], [line_addr] and [addr]. *)
Record Pass1 : Type := mkPass1 {
  symbols : gmap string Z;
  line_addr : list Z;
  addr : Z;
}.

(** [symbols.at(key)] *)
Definition symbols_at (symbols : gmap string Z) (key : string) : result Z :=
  match symbols !! key with
  | Some v => Ok v
  | None => Err out_of_range
  end.

(** The three stages of one iteration of the Pass 1 loop of [assemble], for
    line [i]: the address of the line is recorded, its label is defined, and
    the address counter moves past the line. *)
Definition record_line_addr (i : nat) (st : Pass1) : Pass1 :=
  mkPass1 (symbols st) (<[i := addr st]> (line_addr st)) (addr st).

Definition define_label (l : Line) (st : Pass1) : result Pass1 :=
  if negb (String.eqb (label l) EmptyString) then
    if bool_decide (is_Some (symbols st !! label l))
    then Err (runtime_error ("Duplicate label: " +:+ label l))
    else Ok (mkPass1 (<[label l := addr st]> (symbols st))
               (line_addr st) (addr st))
  else Ok st.

Definition set_addr (st : Pass1) (a : Z) : Pass1 :=
  mkPass1 (symbols st) (line_addr st) a.

Definition advance (l : Line) (st : Pass1) : result Pass1 :=
  if String.eqb (op l) EmptyString then Ok st
  else if is_directive l then
    if iequals (op l) ".ORG" then
      match operands l with
      | [o] =>
          match kind o with
          | Number_ =>
              v ← parse_number16 (otext o);
              Ok (set_addr st v)
          | Label =>
              v ← symbols_at (symbols st) (otext o);
              Ok (set_addr st v)
          | _ =>
              Err (runtime_error ".org expects one numeric or label operand")
          end
      | _ => Err (runtime_error ".org expects one numeric or label operand")
      end
    else if iequals (op l) ".WORD" then
      Ok (set_addr st (wrap16 (addr st + 1)))
    else Ok st
  else
    if iequals (op l) "NOP" || iequals (op l) "HALT" then
      Ok (set_addr st (wrap16 (addr st + 1)))
    else if iequals (op l) "ADD" then
      let st := set_addr st (wrap16 (addr st + 1)) in
      match operands l with
      | [_; o1] =>
          match kind o1 with
          | Imm => Ok (set_addr st (wrap16 (addr st + 1)))
          | _ => Ok st
          end
      | _ => Ok st
      end
    else if iequals (op l) "JMP" || iequals (op l) "JZ" then
      Ok (set_addr st (wrap16 (addr st + 2)))
    else Ok st.

Definition pass1_step (l : Line) (i : nat) (st : Pass1) : result Pass1 :=
  st ← define_label l (record_line_addr i st);
  advance l st.

Fixpoint pass1_loop (lines : list Line) (i : nat) (st : Pass1) : result Pass1 :=
  match lines with
  | [] => Ok st
  | l :: rest =>
      st' ← pass1_step l i st;
      pass1_loop rest (S i) st'
  end.

Definition pass1 (lines : list Line) : result Pass1 :=
  pass1_loop lines O (mkPass1 ∅ (replicate (length lines) 0) 32768).

(** The mnemonic chain of Pass 2. *)
Definition opcode_of (op : string) : result Z :=
  if iequals op "NOP" then Ok 0
  else if iequals op "HALT" then Ok 1
  else if iequals op "ADD" then Ok 5
  else if iequals op "JMP" then Ok 13
  else if iequals op "JZ" then Ok 14
  else Err (runtime_error ("Unsupported instruction: " +:+ op)).

(** The words that one iteration of the Pass 2 loop pushes onto [words], for
    a line whose Pass-1 address is [cur_addr]. *)
Definition pass2_step (l : Line) (symbols : gmap string Z) (cur_addr : Z)
  : result (list Z) :=
  if String.eqb (op l) EmptyString then Ok []
  else if is_directive l then
    if iequals (op l) ".ORG" then Ok []
    else if iequals (op l) ".WORD" then
      match operands l with
      | [o] =>
          match kind o with
          | Number_ => v ← parse_number16 (otext o); Ok [v]
          | Label => v ← symbols_at symbols (otext o); Ok [v]
          | _ => Err (runtime_error "Unsupported .word operand")
          end
      | _ => Err (runtime_error ".word expects one operand")
      end
    else Ok []
  else
    opcode ← opcode_of (op l);
    if (opcode =? 0) || (opcode =? 1) then
      Ok [make_instr_word opcode 0 0 0]
    else if opcode =? 5 then
      match operands l with
      | [o0; o1] =>
          match kind o0 with
          | Reg =>
              rd ← reg_id_from_name (otext o0);
              match kind o1 with
              | Reg =>
                  rs ← reg_id_from_name (otext o1);
                  Ok [make_instr_word opcode 0 rd rs]
              | Imm =>
                  imm ← parse_number16 (otext o1);
                  Ok [make_instr_word opcode 1 rd 0; imm]
              | _ => Err (runtime_error "Unsupported ADD second operand")
              end
          | _ => Err (runtime_error "ADD first operand must be reg")
          end
      | _ => Err (runtime_error "ADD expects two operands")
      end
    else if (opcode =? 13) || (opcode =? 14) then
      match operands l with
      | [o] =>
          target ←
            match kind o with
            | Label =>
                match symbols !! otext o with
                | None =>
                    Err (runtime_error ("Unknown label in jump: " +:+ otext o))
                | Some a => Ok a
                end
            | Number_ => parse_number16 (otext o)
            | _ => Err (runtime_error "Unsupported jump operand")
            end;
          let next_pc := cur_addr + 2 in
          let offset := target - next_pc in
          let off16 := wrap16 (Z.land offset 65535) in
          Ok [make_instr_word opcode 5 0 0; off16]
      | _ => Err (runtime_error "Jump expects one operand")
      end
    else Ok [].

Fixpoint pass2_loop (lines : list Line) (st : Pass1) (i : nat)
    (words : list Z) : result (list Z) :=
  match lines with
  | [] => Ok words
  | l :: rest =>
      ws ← pass2_step l (symbols st) (line_addr st !!! i);
      pass2_loop rest st (S i) (words ++ ws)
  end.

Definition pass2 (lines : list Line) (st : Pass1) : result (list Z) :=
  pass2_loop lines st O [].

(** [assemble] up to the vector [words], before it is turned into bytes. *)
Definition assemble_words (source : string) : result (list Z) :=
  lines ← read_lines (getlines source);
  st ← pass1 lines;
  pass2 lines st.

Definition assemble (source : string) : result (list Z) :=
  words ← assemble_words source;
  Ok (pack_words words).

End B.

(** * Properties *)

(** ** The result monad *)

Lemma bind_Ok {A B : Type} (r : result A) (k : A -> result B) (b : B) :
  r ≫= k = Ok b -> exists a, r = Ok a /\ k a = Ok b.
Proof. destruct r as [a|e]; simpl; [eauto | discriminate]. Qed.

Lemma push_Ok {A : Type} (a : A) (r : result (list A)) (l : list A) :
  push a r = Ok l -> exists l', r = Ok l' /\ l = a :: l'.
Proof.
  destruct r as [l'|e]; simpl; [|discriminate].
  intros [= <-]. eauto.
Qed.

Lemma push_Err {A : Type} (a : A) (r : result (list A)) (e : exception) :
  push a r = Err e <-> r = Err e.
Proof. destruct r; simpl; split; congruence. Qed.

Ltac inv_bind H :=
  let a := fresh "a" in
  let Ha := fresh "H" a in
  apply bind_Ok in H; destruct H as (a & Ha & H).

(** ** 16-bit arithmetic *)

Lemma wrap16_range (z : Z) : 0 <= wrap16 z < 65536.
Proof. unfold wrap16. apply Z.mod_pos_bound. lia. Qed.

Lemma wrap16_small (z : Z) : 0 <= z < 65536 -> wrap16 z = z.
Proof. intros. unfold wrap16. apply Z.mod_small. assumption. Qed.

Lemma land_ones_range (z : Z) (n : Z) :
  0 <= n -> 0 <= Z.land z (Z.ones n) < 2 ^ n.
Proof.
  intros Hn. rewrite Z.land_ones by assumption.
  apply Z.mod_pos_bound. apply Z.pow_pos_nonneg; lia.
Qed.

Lemma land31_range (z : Z) : 0 <= Z.land z 31 < 32.
Proof. exact (land_ones_range z 5 ltac:(lia)). Qed.

Lemma land7_range (z : Z) : 0 <= Z.land z 7 < 8.
Proof. exact (land_ones_range z 3 ltac:(lia)). Qed.

Lemma land255_range (z : Z) : 0 <= Z.land z 255 < 256.
Proof. exact (land_ones_range z 8 ltac:(lia)). Qed.

Lemma land65535_mod (z : Z) : Z.land z 65535 = z mod 65536.
Proof. exact (Z.land_ones z 16 ltac:(lia)). Qed.

Lemma lor_range16 (a b : Z) :
  0 <= a < 65536 -> 0 <= b < 65536 -> 0 <= Z.lor a b < 65536.
Proof.
  intros Ha Hb. split.
  - apply Z.lor_nonneg. lia.
  - destruct (Z.eq_dec (Z.lor a b) 0) as [->|Hne]; [lia|].
    change 65536 with (2 ^ 16).
    apply Z.log2_lt_pow2.
    + assert (0 <= Z.lor a b) by (apply Z.lor_nonneg; lia). lia.
    + rewrite Z.log2_lor by lia.
      destruct (Z.eq_dec a 0) as [->|Ha0], (Z.eq_dec b 0) as [->|Hb0];
        simpl; try lia.
      * apply Z.max_lub_lt; [simpl; lia|].
        apply Z.log2_lt_pow2; lia.
      * apply Z.max_lub_lt; [|simpl; lia].
        apply Z.log2_lt_pow2; lia.
      * apply Z.max_lub_lt; apply Z.log2_lt_pow2; lia.
Qed.

(** The fields of an instruction word, without the intermediate
    conversions. *)
Definition instr_word_fields (opcode mode rd rs : Z) : Z :=
  Z.lor (Z.lor (Z.lor (Z.shiftl (Z.land opcode 31) 11)
                      (Z.shiftl (Z.land mode 7) 8))
               (Z.shiftl (Z.land rd 7) 5))
        (Z.shiftl (Z.land rs 7) 2).

Lemma make_instr_word_fields (opcode mode rd rs : Z) :
  make_instr_word opcode mode rd rs = instr_word_fields opcode mode rd rs.
Proof.
  unfold make_instr_word, instr_word_fields.
  pose proof (land31_range opcode) as Ho.
  pose proof (land7_range mode) as Hm.
  pose proof (land7_range rd) as Hd.
  pose proof (land7_range rs) as Hs.
  rewrite !(wrap16_small (Z.land _ _)) by lia.
  rewrite Z.lor_0_l.
  assert (H1 : 0 <= Z.shiftl (Z.land opcode 31) 11 < 65536)
    by (rewrite Z.shiftl_mul_pow2 by lia; lia).
  assert (H2 : 0 <= Z.shiftl (Z.land mode 7) 8 < 65536)
    by (rewrite Z.shiftl_mul_pow2 by lia; lia).
  assert (H3 : 0 <= Z.shiftl (Z.land rd 7) 5 < 65536)
    by (rewrite Z.shiftl_mul_pow2 by lia; lia).
  assert (H4 : 0 <= Z.shiftl (Z.land rs 7) 2 < 65536)
    by (rewrite Z.shiftl_mul_pow2 by lia; lia).
  rewrite (wrap16_small (Z.shiftl _ 11)) by assumption.
  pose proof (lor_range16 _ _ H1 H2) as H12.
  rewrite (wrap16_small (Z.lor _ (Z.shiftl _ 8))) by assumption.
  pose proof (lor_range16 _ _ H12 H3) as H123.
  rewrite (wrap16_small (Z.lor _ (Z.shiftl _ 5))) by assumption.
  pose proof (lor_range16 _ _ H123 H4) as H1234.
  rewrite wrap16_small by assumption.
  reflexivity.
Qed.

Lemma make_instr_word_range (opcode mode rd rs : Z) :
  0 <= make_instr_word opcode mode rd rs < 65536.
Proof. unfold make_instr_word. apply wrap16_range. Qed.

Lemma instr_word_low_bits (opcode mode rd rs : Z) :
  Z.land (instr_word_fields opcode mode rd rs) 3 = 0.
Proof.
  apply Z.bits_inj'. intros n Hn.
  rewrite Z.land_spec, Z.bits_0.
  destruct (Z.lt_ge_cases n 2) as [Hlt|Hge].
  - unfold instr_word_fields.
    rewrite !Z.lor_spec, !Z.shiftl_spec_low by lia.
    reflexivity.
  - replace (Z.testbit 3 n) with false; [apply andb_false_r|].
    symmetry. change 3 with (Z.ones 2).
    apply Z.ones_spec_high. lia.
Qed.

(** ** Case-insensitive comparison *)

Lemma iequals_spec (a b : string) :
  iequals a b = true <-> upper_string a = upper_string b.
Proof.
  revert b. induction a as [|x a IH]; intros [|y b]; simpl;
    try (split; [discriminate | discriminate]); [tauto|].
  rewrite andb_true_iff, Ascii.eqb_eq, IH.
  split; [intros [-> ->]; reflexivity | intros [= -> ->]; auto].
Qed.

Lemma iequals_false (a b : string) :
  iequals a b = false <-> upper_string a <> upper_string b.
Proof.
  rewrite <- iequals_spec. destruct (iequals a b); split; congruence.
Qed.

Lemma toupper_idemp (c : ascii) : toupper (toupper c) = toupper c.
Proof. destruct c as [[] [] [] [] [] [] [] []]; reflexivity. Qed.

Lemma upper_string_idemp (s : string) :
  upper_string (upper_string s) = upper_string s.
Proof.
  induction s as [|c s IH]; simpl; [reflexivity|].
  rewrite toupper_idemp, IH. reflexivity.
Qed.

Lemma iequals_upper_l (a b : string) :
  iequals (upper_string a) b = iequals a b.
Proof.
  destruct (iequals a b) eqn:E.
  - apply iequals_spec. rewrite upper_string_idemp. apply iequals_spec, E.
  - apply iequals_false. rewrite upper_string_idemp. apply iequals_false, E.
Qed.

(** Turns every [iequals _ _ = true] of the context into an equation on the
    upper-cased mnemonic, and closes the goal when two of them disagree. *)
Ltac eval_upper H :=
  match type of H with
  | context [upper_string (String ?c ?s)] =>
      let v := eval vm_compute in (upper_string (String c s)) in
      change (upper_string (String c s)) with v in H
  end.

Ltac mnemonic_eqs :=
  repeat match goal with
  | H : iequals _ _ = true |- _ => apply iequals_spec in H; eval_upper H
  | H : iequals _ _ = false |- _ => apply iequals_false in H; eval_upper H
  end;
  try congruence.

(** The mnemonic of a line, as the two encoders compare it. *)
Definition A_mnemonic (pl : A.ParsedLine) (m : string) : Prop :=
  A.lkind pl = A.Instruction /\ iequals (upper_string (A.op pl)) m = true.

Definition B_mnemonic (l : B.Line) (m : string) : Prop :=
  B.op l <> EmptyString /\ B.is_directive l = false /\ iequals (B.op l) m = true.

(** ** Encoding of one line *)

Lemma A_pass2_step_instruction pl ctx a ws :
  A.lkind pl = A.Instruction ->
  A.pass2_step pl ctx a = Ok ws ->
  (A_mnemonic pl "NOP" /\ ws = [make_instr_word 0 0 0 0]) \/
  (A_mnemonic pl "HALT" /\ ws = [make_instr_word 1 0 0 0]) \/
  (A_mnemonic pl "ADD" /\ exists o0 o1 rd,
      A.operands pl = [o0; o1] /\ A.kind o0 = A.Reg /\
      A.reg_id_from_name (A.otext o0) = Ok rd /\
      ((A.kind o1 = A.Reg /\ exists rs,
          A.reg_id_from_name (A.otext o1) = Ok rs /\
          ws = [make_instr_word 5 0 rd rs]) \/
       (A.kind o1 = A.Imm /\ exists imm,
          A.parse_number16 (A.otext o1) = Ok imm /\
          ws = [make_instr_word 5 1 rd 0; imm]))) \/
  (exists opc o target,
      ((A_mnemonic pl "JMP" /\ opc = 13) \/ (A_mnemonic pl "JZ" /\ opc = 14)) /\
      A.operands pl = [o] /\
      ((A.kind o = A.LabelRef /\ A.lookup_symbol ctx (A.otext o) = Ok target) \/
       (A.kind o = A.RawNumber /\ A.parse_number16 (A.otext o) = Ok target)) /\
      ws = [make_instr_word opc 5 0 0;
            wrap16 (Z.land (target - (a + 2)) 65535)]).
Proof.
  intros Hk H. unfold A.pass2_step in H. rewrite Hk in H.
  unfold A.find_instr, A.INSTR_TABLE in H. simpl in H.
  unfold A_mnemonic. rewrite Hk.
  destruct (iequals (upper_string (A.op pl)) "NOP") eqn:ENop; simpl in H.
  { left. injection H as <-. auto. }
  destruct (iequals (upper_string (A.op pl)) "HALT") eqn:EHalt; simpl in H.
  { right; left. injection H as <-. auto. }
  destruct (iequals (upper_string (A.op pl)) "ADD") eqn:EAdd; simpl in H.
  { right; right; left. split; [auto|].
    destruct (A.operands pl) as [|o0 [|o1 [|? ?]]]; try discriminate.
    destruct (A.kind o0) eqn:K0; try discriminate.
    inv_bind H. exists o0, o1, a0. repeat split; auto.
    destruct (A.kind o1) eqn:K1; try discriminate.
    - left. inv_bind H. injection H as <-. eauto.
    - right. inv_bind H. injection H as <-. eauto. }
  destruct (iequals (upper_string (A.op pl)) "JMP") eqn:EJmp; simpl in H.
  { right; right; right.
    destruct (A.operands pl) as [|o [|? ?]]; try discriminate.
    inv_bind H. injection H as <-.
    exists 13, o, a0. repeat split; auto.
    destruct (A.kind o); try discriminate; auto. }
  destruct (iequals (upper_string (A.op pl)) "JZ") eqn:EJz; simpl in H.
  { right; right; right.
    destruct (A.operands pl) as [|o [|? ?]]; try discriminate.
    inv_bind H. injection H as <-.
    exists 14, o, a0. repeat split; auto.
    destruct (A.kind o); try discriminate; auto. }
  discriminate.
Qed.

Lemma string_eqb_empty_false (s : string) :
  s <> EmptyString -> String.eqb s EmptyString = false.
Proof. intros H. apply String.eqb_neq. exact H. Qed.

Lemma B_pass2_step_instruction l syms a ws :
  B.op l <> EmptyString -> B.is_directive l = false ->
  B.pass2_step l syms a = Ok ws ->
  (B_mnemonic l "NOP" /\ ws = [make_instr_word 0 0 0 0]) \/
  (B_mnemonic l "HALT" /\ ws = [make_instr_word 1 0 0 0]) \/
  (B_mnemonic l "ADD" /\ exists o0 o1 rd,
      B.operands l = [o0; o1] /\ B.kind o0 = B.Reg /\
      B.reg_id_from_name (B.otext o0) = Ok rd /\
      ((B.kind o1 = B.Reg /\ exists rs,
          B.reg_id_from_name (B.otext o1) = Ok rs /\
          ws = [make_instr_word 5 0 rd rs]) \/
       (B.kind o1 = B.Imm /\ exists imm,
          B.parse_number16 (B.otext o1) = Ok imm /\
          ws = [make_instr_word 5 1 rd 0; imm]))) \/
  (exists opc o target,
      ((B_mnemonic l "JMP" /\ opc = 13) \/ (B_mnemonic l "JZ" /\ opc = 14)) /\
      B.operands l = [o] /\
      ((B.kind o = B.Label /\ syms !! B.otext o = Some target) \/
       (B.kind o = B.Number_ /\ B.parse_number16 (B.otext o) = Ok target)) /\
      ws = [make_instr_word opc 5 0 0;
            wrap16 (Z.land (target - (a + 2)) 65535)]).
Proof.
  intros Hop Hd H. unfold B.pass2_step in H.
  rewrite (string_eqb_empty_false _ Hop), Hd in H.
  unfold B.opcode_of in H. unfold B_mnemonic. rewrite Hd.
  destruct (iequals (B.op l) "NOP") eqn:ENop; simpl in H.
  { left. injection H as <-. auto. }
  destruct (iequals (B.op l) "HALT") eqn:EHalt; simpl in H.
  { right; left. injection H as <-. auto. }
  destruct (iequals (B.op l) "ADD") eqn:EAdd; simpl in H.
  { right; right; left. split; [auto|].
    destruct (B.operands l) as [|o0 [|o1 [|? ?]]]; try discriminate.
    destruct (B.kind o0) eqn:K0; try discriminate.
    inv_bind H. exists o0, o1, a0. repeat split; auto.
    destruct (B.kind o1) eqn:K1; try discriminate.
    - left. inv_bind H. injection H as <-. eauto.
    - right. inv_bind H. injection H as <-. eauto. }
  destruct (iequals (B.op l) "JMP") eqn:EJmp; simpl in H.
  { right; right; right.
    destruct (B.operands l) as [|o [|? ?]]; try discriminate.
    inv_bind H. injection H as <-.
    exists 13, o, a0. repeat split; auto.
    destruct (B.kind o); try discriminate; auto.
    left. split; [reflexivity|]. destruct (syms !! B.otext o); congruence. }
  destruct (iequals (B.op l) "JZ") eqn:EJz; simpl in H.
  { right; right; right.
    destruct (B.operands l) as [|o [|? ?]]; try discriminate.
    inv_bind H. injection H as <-.
    exists 14, o, a0. repeat split; auto.
    destruct (B.kind o); try discriminate; auto.
    left. split; [reflexivity|]. destruct (syms !! B.otext o); congruence. }
  discriminate.
Qed.

Lemma parse_number16_range (what t : string) (v : Z) :
  parse_number16_with what t = Ok v -> 0 <= v < 65536.
Proof.
  unfold parse_number16_with. intros H. inv_bind H.
  destruct ((a <? 0) || (65535 <? a)); [discriminate|].
  injection H as <-. apply wrap16_range.
Qed.


(** ** Addresses and symbols stay 16-bit values *)

Definition word16 (z : Z) : Prop := 0 <= z < 65536.

(** Splits a successful computation along its binds, matches and tests. *)
Ltac split_ok H :=
  repeat first
    [ discriminate H
    | match type of H with
      | Ok _ = Ok _ => injection H as H
      | _ ≫= _ = Ok _ => inv_bind H
      | context [match ?x with _ => _ end] => destruct x eqn:?
      end
    | progress simpl in H ].

Definition A_ctx_ok (ctx : A.AsmContext) : Prop :=
  word16 (A.current_addr_words ctx) /\
  Forall (fun p => word16 p.2) (A.symbols ctx).

Lemma A_define_label_ok pl ctx ctx' :
  A_ctx_ok ctx -> A.define_label pl ctx = Ok ctx' -> A_ctx_ok ctx'.
Proof.
  intros [Ha Hs] H. unfold A.define_label in H.
  split_ok H; subst; split; simpl; try assumption.
  apply Forall_app. split; [assumption|]. constructor; [exact Ha | constructor].
Qed.

Lemma A_advance_ok pl ctx ctx' :
  A_ctx_ok ctx -> A.advance pl ctx = Ok ctx' -> A_ctx_ok ctx'.
Proof.
  intros [Ha Hs] H. unfold A.advance, A.set_addr in H.
  split_ok H; subst; split; simpl; try assumption;
    try apply wrap16_range;
    try (eapply parse_number16_range; eassumption).
Qed.

Lemma A_pass1_step_ok pl i ctx ctx' :
  A_ctx_ok ctx -> A.pass1_step pl i ctx = Ok ctx' -> A_ctx_ok ctx'.
Proof.
  intros Hok H. unfold A.pass1_step in H. inv_bind H.
  eapply A_advance_ok; [|eassumption].
  eapply A_define_label_ok; [|eassumption].
  exact Hok.
Qed.

Lemma A_pass1_loop_ok lines i ctx ctx' :
  A_ctx_ok ctx -> A.pass1_loop lines i ctx = Ok ctx' -> A_ctx_ok ctx'.
Proof.
  revert i ctx. induction lines as [|pl lines IH]; intros i ctx Hok H; simpl in H.
  - injection H as <-. assumption.
  - inv_bind H. eapply IH; [|eassumption].
    eapply A_pass1_step_ok; eassumption.
Qed.

Lemma A_pass1_ok lines ctx :
  A.pass1 lines A.AsmContext_init = Ok ctx -> A_ctx_ok ctx.
Proof.
  apply A_pass1_loop_ok. split; simpl; [unfold word16; lia | constructor].
Qed.

Lemma A_lookup_symbol_in_elem syms nm v :
  A.lookup_symbol_in syms nm = Ok v -> (nm, v) ∈ syms.
Proof.
  induction syms as [|[k a] syms IH]; simpl; [discriminate|].
  destruct (String.eqb k nm) eqn:E.
  - apply String.eqb_eq in E. intros [= <-]. subst. left.
  - intros H. right. auto.
Qed.

Lemma A_lookup_symbol_range ctx nm v :
  A_ctx_ok ctx -> A.lookup_symbol ctx nm = Ok v -> word16 v.
Proof.
  intros [_ Hs] H. apply A_lookup_symbol_in_elem in H.
  rewrite Forall_forall in Hs. apply (Hs _ H).
Qed.

Lemma jump_offset_range (z : Z) : word16 (wrap16 (Z.land z 65535)).
Proof. apply wrap16_range. Qed.

Lemma A_pass2_step_range pl ctx a ws :
  A_ctx_ok ctx -> A.pass2_step pl ctx a = Ok ws -> Forall word16 ws.
Proof.
  intros Hok H. unfold A.pass2_step in H.
  split_ok H; subst; repeat constructor;
    try apply make_instr_word_range; try apply jump_offset_range;
    try (eapply parse_number16_range; eassumption);
    try (eapply A_lookup_symbol_range; eassumption).
Qed.

Lemma A_pass2_loop_acc lines ctx i words :
  A.pass2_loop lines ctx i words =
  ws ← A.pass2_loop lines ctx i []; Ok (words ++ ws).
Proof.
  revert i words. induction lines as [|pl lines IH]; intros i words; simpl.
  - rewrite app_nil_r. reflexivity.
  - destruct (A.pass2_step pl ctx (A.line_addr ctx !!! i)) as [a|e]; simpl;
      [|reflexivity].
    rewrite (IH _ (words ++ a)), (IH _ a).
    destruct (A.pass2_loop lines ctx (S i) []) as [ws|e]; simpl;
      [|reflexivity].
    rewrite app_assoc. reflexivity.
Qed.

Lemma A_pass2_loop_range lines ctx i ws :
  A_ctx_ok ctx -> A.pass2_loop lines ctx i [] = Ok ws -> Forall word16 ws.
Proof.
  intros Hok. revert i ws.
  induction lines as [|pl lines IH]; intros i ws H; simpl in H.
  - injection H as <-. constructor.
  - inv_bind H. rewrite A_pass2_loop_acc in H. inv_bind H.
    injection H as <-. apply Forall_app. split.
    + eapply A_pass2_step_range; eassumption.
    + eapply IH; eassumption.
Qed.

Definition B_st_ok (st : B.Pass1) : Prop :=
  word16 (B.addr st) /\ map_Forall (fun _ a => word16 a) (B.symbols st).

Lemma B_define_label_ok l st st' :
  B_st_ok st -> B.define_label l st = Ok st' -> B_st_ok st'.
Proof.
  intros [Ha Hs] H. unfold B.define_label in H.
  split_ok H; subst; split; simpl; try assumption.
  apply map_Forall_insert_2; assumption.
Qed.

Lemma B_symbols_at_range syms k v :
  map_Forall (fun _ a => word16 a) syms ->
  B.symbols_at syms k = Ok v -> word16 v.
Proof.
  intros Hs H. unfold B.symbols_at in H.
  destruct (syms !! k) eqn:E; [|discriminate].
  injection H as <-. exact (Hs _ _ E).
Qed.

Lemma B_advance_ok l st st' :
  B_st_ok st -> B.advance l st = Ok st' -> B_st_ok st'.
Proof.
  intros [Ha Hs] H. unfold B.advance, B.set_addr in H.
  split_ok H; subst; split; simpl; try assumption;
    try apply wrap16_range;
    try (eapply parse_number16_range; eassumption);
    try (eapply B_symbols_at_range; eassumption).
Qed.

Lemma B_pass1_step_ok l i st st' :
  B_st_ok st -> B.pass1_step l i st = Ok st' -> B_st_ok st'.
Proof.
  intros Hok H. unfold B.pass1_step in H. inv_bind H.
  eapply B_advance_ok; [|eassumption].
  eapply B_define_label_ok; [|eassumption].
  exact Hok.
Qed.

Lemma B_pass1_loop_ok lines i st st' :
  B_st_ok st -> B.pass1_loop lines i st = Ok st' -> B_st_ok st'.
Proof.
  revert i st. induction lines as [|l lines IH]; intros i st Hok H; simpl in H.
  - injection H as <-. assumption.
  - inv_bind H. eapply IH; [|eassumption].
    eapply B_pass1_step_ok; eassumption.
Qed.

Lemma B_pass1_ok lines st : B.pass1 lines = Ok st -> B_st_ok st.
Proof.
  apply B_pass1_loop_ok. split; simpl; [unfold word16; lia|].
  apply map_Forall_empty.
Qed.

Lemma B_pass2_step_range l syms a ws :
  map_Forall (fun _ a => word16 a) syms ->
  B.pass2_step l syms a = Ok ws -> Forall word16 ws.
Proof.
  intros Hok H. unfold B.pass2_step, B.opcode_of in H.
  split_ok H; subst; repeat constructor;
    try apply make_instr_word_range; try apply jump_offset_range;
    try (eapply parse_number16_range; eassumption);
    try (eapply B_symbols_at_range; eassumption);
    try (eapply Hok; eassumption).
Qed.

Lemma B_pass2_loop_acc lines st i words :
  B.pass2_loop lines st i words =
  ws ← B.pass2_loop lines st i []; Ok (words ++ ws).
Proof.
  revert i words. induction lines as [|l lines IH]; intros i words; simpl.
  - rewrite app_nil_r. reflexivity.
  - destruct (B.pass2_step l (B.symbols st) (B.line_addr st !!! i)) as [a|e];
      simpl; [|reflexivity].
    rewrite (IH _ (words ++ a)), (IH _ a).
    destruct (B.pass2_loop lines st (S i) []) as [ws|e]; simpl;
      [|reflexivity].
    rewrite app_assoc. reflexivity.
Qed.

Lemma B_pass2_loop_range lines st i ws :
  B_st_ok st -> B.pass2_loop lines st i [] = Ok ws -> Forall word16 ws.
Proof.
  intros [_ Hok]. revert i ws.
  induction lines as [|l lines IH]; intros i ws H; simpl in H.
  - injection H as <-. constructor.
  - inv_bind H. rewrite B_pass2_loop_acc in H. inv_bind H.
    injection H as <-. apply Forall_app. split.
    + eapply B_pass2_step_range; eassumption.
    + eapply IH; eassumption.
Qed.

Lemma A_assemble_words_range source words :
  A.assemble_words source = Ok words -> Forall word16 words.
Proof.
  unfold A.assemble_words, A.pass2. intros H. inv_bind H. inv_bind H.
  eapply A_pass2_loop_range; [|eassumption].
  eapply A_pass1_ok; eassumption.
Qed.

Lemma B_assemble_words_range source words :
  B.assemble_words source = Ok words -> Forall word16 words.
Proof.
  unfold B.assemble_words, B.pass2. intros H. inv_bind H. inv_bind H.
  eapply B_pass2_loop_range; [|eassumption].
  eapply B_pass1_ok; eassumption.
Qed.

(** ** The byte packer *)

Lemma pack_words_length (words : list Z) :
  length (pack_words words) = (2 * length words)%nat.
Proof. induction words as [|w ws IH]; simpl; [reflexivity | lia]. Qed.

Lemma pack_words_lookup (words : list Z) (k : nat) (w : Z) :
  words !! k = Some w ->
  pack_words words !! (2 * k)%nat = Some (wrap8 (Z.land w 255)) /\
  pack_words words !! (2 * k + 1)%nat =
    Some (wrap8 (Z.land (Z.shiftr w 8) 255)).
Proof.
  revert k. induction words as [|w0 ws IH]; intros k H; [discriminate|].
  destruct k as [|k]; simpl in H.
  - injection H as ->. auto.
  - destruct (IH _ H) as [H0 H1].
    replace (2 * S k)%nat with (S (S (2 * k))) by lia.
    replace (S (S (2 * k)) + 1)%nat with (S (S (2 * k + 1))) by lia.
    auto.
Qed.

Lemma low_byte (w : Z) : wrap8 (Z.land w 255) = Z.land w 255.
Proof. unfold wrap8. apply Z.mod_small. apply land255_range. Qed.

Lemma high_byte (w : Z) :
  word16 w -> wrap8 (Z.land (Z.shiftr w 8) 255) = Z.shiftr w 8.
Proof.
  intros Hw. rewrite low_byte.
  change 255 with (Z.ones 8). rewrite Z.land_ones by lia.
  apply Z.mod_small. rewrite Z.shiftr_div_pow2 by lia.
  unfold word16 in Hw. split.
  - apply Z.div_pos; lia.
  - apply Z.div_lt_upper_bound; lia.
Qed.

(** What the claim on the byte image says of [bytes] and [words]. *)
Definition little_endian_image (words bytes : list Z) : Prop :=
  length bytes = (2 * length words)%nat /\
  forall (k : nat) (w : Z), words !! k = Some w ->
    bytes !! (2 * k)%nat = Some (Z.land w 255) /\
    bytes !! (2 * k + 1)%nat = Some (Z.shiftr w 8).

Lemma pack_words_image (words : list Z) :
  Forall word16 words -> little_endian_image words (pack_words words).
Proof.
  intros Hr. split; [apply pack_words_length|].
  intros k w Hk.
  destruct (pack_words_lookup _ _ _ Hk) as [H0 H1].
  rewrite H0, H1, low_byte, high_byte; [auto|].
  rewrite Forall_forall in Hr. apply Hr.
  apply list_elem_of_lookup. eauto.
Qed.

(** C9. When [assemble] succeeds, the bytes it returns are the emitted
    16-bit words and nothing else: twice as many bytes as words, and word
    [k] gives byte [2k], its low byte [w & 0xFF], and byte [2k+1], its high
    byte [w >> 8]. This holds of both versions of the assembler. *)
Theorem C9_little_endian_bytes :
  (forall source bytes, A.assemble source = Ok bytes ->
     exists words, A.assemble_words source = Ok words /\
                   little_endian_image words bytes) /\
  (forall source bytes, B.assemble source = Ok bytes ->
     exists words, B.assemble_words source = Ok words /\
                   little_endian_image words bytes).
Proof.
  split; intros source bytes H.
  - unfold A.assemble in H. inv_bind H. injection H as <-.
    exists a. split; [assumption|].
    apply pack_words_image. eapply A_assemble_words_range; eassumption.
  - unfold B.assemble in H. inv_bind H. injection H as <-.
    exists a. split; [assumption|].
    apply pack_words_image. eapply B_assemble_words_range; eassumption.
Qed.

(** ** Pass 2, line by line *)

Lemma A_pass2_loop_split l1 l2 ctx i words :
  A.pass2_loop (l1 ++ l2) ctx i words =
  ws ← A.pass2_loop l1 ctx i words; A.pass2_loop l2 ctx (i + length l1) ws.
Proof.
  revert i words. induction l1 as [|pl l1 IH]; intros i words; simpl.
  - rewrite Nat.add_0_r. reflexivity.
  - destruct (A.pass2_step pl ctx (A.line_addr ctx !!! i)); simpl;
      [|reflexivity].
    rewrite IH. replace (S i + length l1)%nat with (i + S (length l1))%nat by lia.
    reflexivity.
Qed.

(** The words of line [i] sit in the output right after the words of the
    lines before it. *)
Lemma A_pass2_at lines ctx words i pl :
  A.pass2 lines ctx [] = Ok words -> lines !! i = Some pl ->
  exists before ws after,
    A.pass2 (take i lines) ctx [] = Ok before /\
    A.pass2_step pl ctx (A.line_addr ctx !!! i) = Ok ws /\
    words = before ++ ws ++ after.
Proof.
  unfold A.pass2. intros H Hi.
  rewrite <- (take_drop_middle _ _ _ Hi) in H.
  rewrite A_pass2_loop_split in H. inv_bind H.
  rewrite length_take_le in H
    by (apply Nat.lt_le_incl, (lookup_lt_Some _ _ _ Hi)).
  simpl in H. inv_bind H. rewrite A_pass2_loop_acc in H. inv_bind H.
  injection H as <-.
  exists a, a0, a1. rewrite <- app_assoc. auto.
Qed.

Lemma B_pass2_loop_split l1 l2 st i words :
  B.pass2_loop (l1 ++ l2) st i words =
  ws ← B.pass2_loop l1 st i words; B.pass2_loop l2 st (i + length l1) ws.
Proof.
  revert i words. induction l1 as [|l l1 IH]; intros i words; simpl.
  - rewrite Nat.add_0_r. reflexivity.
  - destruct (B.pass2_step l (B.symbols st) (B.line_addr st !!! i)); simpl;
      [|reflexivity].
    rewrite IH. replace (S i + length l1)%nat with (i + S (length l1))%nat by lia.
    reflexivity.
Qed.

Lemma B_pass2_at lines st words i l :
  B.pass2 lines st = Ok words -> lines !! i = Some l ->
  exists before ws after,
    B.pass2 (take i lines) st = Ok before /\
    B.pass2_step l (B.symbols st) (B.line_addr st !!! i) = Ok ws /\
    words = before ++ ws ++ after.
Proof.
  unfold B.pass2. intros H Hi.
  rewrite <- (take_drop_middle _ _ _ Hi) in H.
  rewrite B_pass2_loop_split in H. inv_bind H.
  rewrite length_take_le in H
    by (apply Nat.lt_le_incl, (lookup_lt_Some _ _ _ Hi)).
  simpl in H. inv_bind H. rewrite B_pass2_loop_acc in H. inv_bind H.
  injection H as <-.
  exists a, a0, a1. rewrite <- app_assoc. auto.
Qed.

(** The stages of a successful [assemble]. *)
Lemma A_assemble_stages source bytes :
  A.assemble source = Ok bytes ->
  exists lines ctx words,
    A.read_lines (getlines source) 1 = Ok lines /\
    A.pass1 lines A.AsmContext_init = Ok ctx /\
    A.pass2 lines ctx [] = Ok words /\
    bytes = pack_words words.
Proof.
  unfold A.assemble, A.assemble_words. intros H.
  inv_bind H. injection H as <-. inv_bind Ha. inv_bind Ha. eauto 8.
Qed.

Lemma B_assemble_stages source bytes :
  B.assemble source = Ok bytes ->
  exists lines st words,
    B.read_lines (getlines source) = Ok lines /\
    B.pass1 lines = Ok st /\
    B.pass2 lines st = Ok words /\
    bytes = pack_words words.
Proof.
  unfold B.assemble, B.assemble_words. intros H.
  inv_bind H. injection H as <-. inv_bind Ha. inv_bind Ha. eauto 8.
Qed.

(** ** The encoding of an instruction *)

(** The words of an instruction line of [assembler.cpp], rule by rule: the
    opcode word packs the opcode of the mnemonic, the mode and the register
    numbers; an immediate or an offset follows it as one more word. *)
Inductive A_encoding (pl : A.ParsedLine) : list Z -> Prop :=
| A_enc_nop :
    A_mnemonic pl "NOP" -> A_encoding pl [instr_word_fields 0 0 0 0]
| A_enc_halt :
    A_mnemonic pl "HALT" -> A_encoding pl [instr_word_fields 1 0 0 0]
| A_enc_add_reg o0 o1 rd rs :
    A_mnemonic pl "ADD" -> A.operands pl = [o0; o1] ->
    A.kind o0 = A.Reg -> A.reg_id_from_name (A.otext o0) = Ok rd ->
    A.kind o1 = A.Reg -> A.reg_id_from_name (A.otext o1) = Ok rs ->
    A_encoding pl [instr_word_fields 5 0 rd rs]
| A_enc_add_imm o0 o1 rd imm :
    A_mnemonic pl "ADD" -> A.operands pl = [o0; o1] ->
    A.kind o0 = A.Reg -> A.reg_id_from_name (A.otext o0) = Ok rd ->
    A.kind o1 = A.Imm -> A.parse_number16 (A.otext o1) = Ok imm ->
    word16 imm ->
    A_encoding pl [instr_word_fields 5 1 rd 0; imm]
| A_enc_jump opc o offset :
    (A_mnemonic pl "JMP" /\ opc = 13) \/ (A_mnemonic pl "JZ" /\ opc = 14) ->
    A.operands pl = [o] -> word16 offset ->
    A_encoding pl [instr_word_fields opc 5 0 0; offset].

(** The same for the scratch assembler. *)
Inductive B_encoding (l : B.Line) : list Z -> Prop :=
| B_enc_nop :
    B_mnemonic l "NOP" -> B_encoding l [instr_word_fields 0 0 0 0]
| B_enc_halt :
    B_mnemonic l "HALT" -> B_encoding l [instr_word_fields 1 0 0 0]
| B_enc_add_reg o0 o1 rd rs :
    B_mnemonic l "ADD" -> B.operands l = [o0; o1] ->
    B.kind o0 = B.Reg -> B.reg_id_from_name (B.otext o0) = Ok rd ->
    B.kind o1 = B.Reg -> B.reg_id_from_name (B.otext o1) = Ok rs ->
    B_encoding l [instr_word_fields 5 0 rd rs]
| B_enc_add_imm o0 o1 rd imm :
    B_mnemonic l "ADD" -> B.operands l = [o0; o1] ->
    B.kind o0 = B.Reg -> B.reg_id_from_name (B.otext o0) = Ok rd ->
    B.kind o1 = B.Imm -> B.parse_number16 (B.otext o1) = Ok imm ->
    word16 imm ->
    B_encoding l [instr_word_fields 5 1 rd 0; imm]
| B_enc_jump opc o offset :
    (B_mnemonic l "JMP" /\ opc = 13) \/ (B_mnemonic l "JZ" /\ opc = 14) ->
    B.operands l = [o] -> word16 offset ->
    B_encoding l [instr_word_fields opc 5 0 0; offset].

Lemma A_pass2_step_encoding pl ctx a ws :
  A.lkind pl = A.Instruction -> A.pass2_step pl ctx a = Ok ws ->
  A_encoding pl ws.
Proof.
  intros Hk H.
  destruct (A_pass2_step_instruction _ _ _ _ Hk H)
    as [[Hm ->] | [[Hm ->] | [[Hm Hadd] | Hjmp]]];
    rewrite ?make_instr_word_fields.
  - apply A_enc_nop. assumption.
  - apply A_enc_halt. assumption.
  - destruct Hadd as (o0 & o1 & rd & Hops & K0 & Hrd & Hcase).
    destruct Hcase as [[K1 (rs & Hrs & ->)] | [K1 (imm & Himm & ->)]];
      rewrite make_instr_word_fields.
    + eapply A_enc_add_reg; eassumption.
    + eapply A_enc_add_imm; try eassumption.
      eapply parse_number16_range; eassumption.
  - destruct Hjmp as (opc & o & target & Hm & Hops & _ & ->).
    rewrite make_instr_word_fields.
    eapply A_enc_jump; try eassumption. apply wrap16_range.
Qed.

Lemma B_pass2_step_encoding l syms a ws :
  B.op l <> EmptyString -> B.is_directive l = false ->
  B.pass2_step l syms a = Ok ws ->
  B_encoding l ws.
Proof.
  intros Hop Hd H.
  destruct (B_pass2_step_instruction _ _ _ _ Hop Hd H)
    as [[Hm ->] | [[Hm ->] | [[Hm Hadd] | Hjmp]]];
    rewrite ?make_instr_word_fields.
  - apply B_enc_nop. assumption.
  - apply B_enc_halt. assumption.
  - destruct Hadd as (o0 & o1 & rd & Hops & K0 & Hrd & Hcase).
    destruct Hcase as [[K1 (rs & Hrs & ->)] | [K1 (imm & Himm & ->)]];
      rewrite make_instr_word_fields.
    + eapply B_enc_add_reg; eassumption.
    + eapply B_enc_add_imm; try eassumption.
      eapply parse_number16_range; eassumption.
  - destruct Hjmp as (opc & o & target & Hm & Hops & _ & ->).
    rewrite make_instr_word_fields.
    eapply B_enc_jump; try eassumption. apply wrap16_range.
Qed.

(** C2. The opcode word that [make_instr_word] builds is
    [(opcode & 0x1F) << 11 | (mode & 7) << 8 | (rd & 7) << 5 | (rs & 7) << 2],
    and its two low bits are clear. Every instruction line that either
    encoder encodes contributes that word first, for the opcode of its
    mnemonic, its mode and its register numbers. An [ADD] whose second
    operand is an immediate contributes exactly one more word, the 16-bit
    value of the immediate; an [ADD] whose second operand is a register, a
    [NOP] and a [HALT] contribute the opcode word only. In a source that
    assembles, the words of every instruction line are in the output, after
    the words of the lines before it. *)
Theorem C2_instruction_word :
  (forall opcode mode rd rs,
     make_instr_word opcode mode rd rs =
       Z.lor (Z.lor (Z.lor (Z.shiftl (Z.land opcode 31) 11)
                           (Z.shiftl (Z.land mode 7) 8))
                    (Z.shiftl (Z.land rd 7) 5))
             (Z.shiftl (Z.land rs 7) 2) /\
     instr_word_fields opcode mode rd rs = make_instr_word opcode mode rd rs /\
     Z.land (make_instr_word opcode mode rd rs) 3 = 0) /\
  (forall pl ctx a ws,
     A.lkind pl = A.Instruction -> A.pass2_step pl ctx a = Ok ws ->
     A_encoding pl ws) /\
  (forall l syms a ws,
     B.op l <> EmptyString -> B.is_directive l = false ->
     B.pass2_step l syms a = Ok ws ->
     B_encoding l ws) /\
  (forall source bytes, A.assemble source = Ok bytes ->
     exists lines ctx words,
       A.read_lines (getlines source) 1 = Ok lines /\
       A.pass1 lines A.AsmContext_init = Ok ctx /\
       A.pass2 lines ctx [] = Ok words /\
       forall i pl, lines !! i = Some pl -> A.lkind pl = A.Instruction ->
         exists before ws after,
           A.pass2 (take i lines) ctx [] = Ok before /\
           words = before ++ ws ++ after /\ A_encoding pl ws) /\
  (forall source bytes, B.assemble source = Ok bytes ->
     exists lines st words,
       B.read_lines (getlines source) = Ok lines /\
       B.pass1 lines = Ok st /\
       B.pass2 lines st = Ok words /\
       forall i l, lines !! i = Some l ->
         B.op l <> EmptyString -> B.is_directive l = false ->
         exists before ws after,
           B.pass2 (take i lines) st = Ok before /\
           words = before ++ ws ++ after /\ B_encoding l ws).
Proof.
  split; [|split; [|split; [|split]]].
  - intros opcode mode rd rs.
    rewrite make_instr_word_fields. split; [reflexivity|].
    split; [reflexivity|]. apply instr_word_low_bits.
  - exact A_pass2_step_encoding.
  - exact B_pass2_step_encoding.
  - intros source bytes H.
    destruct (A_assemble_stages _ _ H)
      as (lines & ctx & words & Hr & H1 & H2 & _).
    exists lines, ctx, words. repeat split; try assumption.
    intros i pl Hi Hk.
    destruct (A_pass2_at _ _ _ _ _ H2 Hi)
      as (before & ws & after & Hb & Hs & ->).
    exists before, ws, after. repeat split; try assumption.
    eapply A_pass2_step_encoding; eassumption.
  - intros source bytes H.
    destruct (B_assemble_stages _ _ H)
      as (lines & st & words & Hr & H1 & H2 & _).
    exists lines, st, words. repeat split; try assumption.
    intros i l Hi Hop Hd.
    destruct (B_pass2_at _ _ _ _ _ H2 Hi)
      as (before & ws & after & Hb & Hs & ->).
    exists before, ws, after. repeat split; try assumption.
    eapply B_pass2_step_encoding; eassumption.
Qed.

(** ** Pass 1: the symbol table and the line addresses *)

Lemma A_symbol_exists_lookup syms nm :
  A.symbol_exists_in syms nm = is_ok (A.lookup_symbol_in syms nm).
Proof.
  induction syms as [|[k a] syms IH]; simpl; [reflexivity|].
  destruct (String.eqb k nm); [reflexivity | exact IH].
Qed.

Lemma A_lookup_app syms k v nm :
  A.lookup_symbol_in (syms ++ [(k, v)]) nm =
  match A.lookup_symbol_in syms nm with
  | Ok a => Ok a
  | Err _ => A.lookup_symbol_in [(k, v)] nm
  end.
Proof.
  induction syms as [|[k' a'] syms IH]; simpl; [reflexivity|].
  destruct (String.eqb k' nm); [reflexivity | exact IH].
Qed.

Lemma A_advance_tables pl ctx ctx' :
  A.advance pl ctx = Ok ctx' ->
  A.symbols ctx' = A.symbols ctx /\ A.line_addr ctx' = A.line_addr ctx.
Proof.
  intros H. unfold A.advance, A.set_addr in H.
  split_ok H; subst; auto.
Qed.

Lemma A_pass1_step_spec pl i ctx c1 :
  A.pass1_step pl i ctx = Ok c1 ->
  A.line_addr c1 = <[i := A.current_addr_words ctx]> (A.line_addr ctx) /\
  ((A.label pl = EmptyString /\ A.symbols c1 = A.symbols ctx) \/
   (A.label pl <> EmptyString /\
    A.symbol_exists_in (A.symbols ctx) (A.label pl) = false /\
    A.symbols c1 =
      A.symbols ctx ++ [(A.label pl, A.current_addr_words ctx)])).
Proof.
  unfold A.pass1_step. intros H. inv_bind H.
  destruct (A_advance_tables _ _ _ H) as [-> ->]. clear H.
  unfold A.define_label, A.symbol_exists, A.record_line_addr in Ha.
  simpl in Ha.
  destruct (String.eqb (A.label pl) EmptyString) eqn:E; simpl in Ha.
  - injection Ha as <-. simpl. apply String.eqb_eq in E. auto.
  - apply String.eqb_neq in E.
    destruct (A.symbol_exists_in (A.symbols ctx) (A.label pl)) eqn:Ex;
      [discriminate|].
    injection Ha as <-. simpl. auto.
Qed.

(** What Pass 1 leaves behind after the lines [lines], the first of which is
    line [i]. *)
Lemma A_pass1_loop_spec lines : forall i ctx ctx',
  A.pass1_loop lines i ctx = Ok ctx' ->
  (i + length lines <= length (A.line_addr ctx))%nat ->
  length (A.line_addr ctx') = length (A.line_addr ctx) /\
  (forall k, (k < i)%nat -> A.line_addr ctx' !! k = A.line_addr ctx !! k) /\
  (forall nm v, A.lookup_symbol_in (A.symbols ctx) nm = Ok v ->
                A.lookup_symbol_in (A.symbols ctx') nm = Ok v) /\
  (forall j pl, lines !! j = Some pl -> A.label pl <> EmptyString ->
     A.lookup_symbol_in (A.symbols ctx') (A.label pl) =
       Ok (A.line_addr ctx' !!! (i + j)%nat)) /\
  (forall nm, is_ok (A.lookup_symbol_in (A.symbols ctx') nm) = true ->
     is_ok (A.lookup_symbol_in (A.symbols ctx) nm) = true \/
     exists pl, pl ∈ lines /\ A.label pl = nm /\ nm <> EmptyString).
Proof.
  induction lines as [|pl lines IH]; intros i ctx ctx' H Hlen; simpl in *.
  { injection H as <-. repeat split; auto.
    intros j pl Hj. discriminate. }
  inv_bind H.
  destruct (A_pass1_step_spec _ _ _ _ Ha) as [Hla Hsym].
  assert (Hlen1 : (S i + length lines <= length (A.line_addr a))%nat)
    by (rewrite Hla, length_insert; lia).
  destruct (IH _ _ _ H Hlen1) as (L1 & L2 & L3 & L4 & L5).
  assert (Hi : A.line_addr ctx' !! i = Some (A.current_addr_words ctx)).
  { rewrite L2 by lia. rewrite Hla. apply list_lookup_insert_eq. lia. }
  assert (Hmono : forall nm v,
            A.lookup_symbol_in (A.symbols ctx) nm = Ok v ->
            A.lookup_symbol_in (A.symbols a) nm = Ok v).
  { intros nm v Hnm. destruct Hsym as [[_ ->] | (_ & _ & ->)]; [assumption|].
    rewrite A_lookup_app, Hnm. reflexivity. }
  split; [rewrite L1, Hla; apply length_insert|].
  split.
  { intros k Hk. rewrite L2 by lia. rewrite Hla.
    apply list_lookup_insert_ne. lia. }
  split; [auto|].
  split.
  - intros [|j] pl' Hj Hlab; simpl in Hj.
    + injection Hj as <-. rewrite Nat.add_0_r.
      rewrite list_lookup_total_alt, Hi. simpl.
      apply L3. destruct Hsym as [[E _] | (_ & Hex & ->)]; [contradiction|].
      rewrite A_lookup_app.
      rewrite A_symbol_exists_lookup in Hex.
      destruct (A.lookup_symbol_in (A.symbols ctx) (A.label pl));
        [discriminate|].
      simpl. rewrite String.eqb_refl. reflexivity.
    + replace (i + S j)%nat with (S i + j)%nat by lia. auto.
  - intros nm Hnm. destruct (L5 _ Hnm) as [Hin | (pl' & Hin & Hl)].
    + destruct Hsym as [[_ Hs] | (Hne & _ & Hs)]; rewrite Hs in Hin; [auto|].
      rewrite A_lookup_app in Hin.
      destruct (A.lookup_symbol_in (A.symbols ctx) nm); [auto|].
      simpl in Hin. right. exists pl.
      split; [left|].
      destruct (String.eqb (A.label pl) nm) eqn:E; [|discriminate].
      apply String.eqb_eq in E. subst nm. auto.
    + right. exists pl'. split; [right|]; assumption.
Qed.

Lemma A_pass1_spec lines ctx :
  A.pass1 lines A.AsmContext_init = Ok ctx ->
  length (A.line_addr ctx) = length lines /\
  (forall j pl, lines !! j = Some pl -> A.label pl <> EmptyString ->
     A.lookup_symbol ctx (A.label pl) = Ok (A.line_addr ctx !!! j)) /\
  (forall nm, (forall pl, pl ∈ lines -> A.label pl <> nm) ->
     A.lookup_symbol ctx nm = Err (runtime_error ("Unknown label: " +:+ nm))).
Proof.
  unfold A.pass1. intros H.
  apply A_pass1_loop_spec in H; simpl.
  2:{ rewrite length_resize. lia. }
  simpl in H. destruct H as (L1 & _ & _ & L4 & L5).
  rewrite length_resize in L1.
  split; [assumption|]. split; [exact L4|].
  intros nm Hnone. unfold A.lookup_symbol.
  destruct (A.lookup_symbol_in (A.symbols ctx) nm) eqn:E.
  - destruct (L5 nm) as [Hin | (pl & Hin & Hl & _)].
    + rewrite E. reflexivity.
    + discriminate.
    + exfalso. exact (Hnone _ Hin Hl).
  - clear -E. induction (A.symbols ctx) as [|[k a] syms IH]; simpl in E.
    + congruence.
    + destruct (String.eqb k nm); [discriminate | auto].
Qed.

Lemma B_advance_tables l st st' :
  B.advance l st = Ok st' ->
  B.symbols st' = B.symbols st /\ B.line_addr st' = B.line_addr st.
Proof.
  intros H. unfold B.advance, B.set_addr in H.
  split_ok H; subst; auto.
Qed.

Lemma B_pass1_step_spec l i st s1 :
  B.pass1_step l i st = Ok s1 ->
  B.line_addr s1 = <[i := B.addr st]> (B.line_addr st) /\
  ((B.label l = EmptyString /\ B.symbols s1 = B.symbols st) \/
   (B.label l <> EmptyString /\
    B.symbols st !! B.label l = None /\
    B.symbols s1 = <[B.label l := B.addr st]> (B.symbols st))).
Proof.
  unfold B.pass1_step. intros H. inv_bind H.
  destruct (B_advance_tables _ _ _ H) as [-> ->]. clear H.
  unfold B.define_label, B.record_line_addr in Ha. simpl in Ha.
  destruct (String.eqb (B.label l) EmptyString) eqn:E; simpl in Ha.
  - injection Ha as <-. simpl. apply String.eqb_eq in E. auto.
  - apply String.eqb_neq in E.
    case_bool_decide as Hex; [discriminate|].
    injection Ha as <-. simpl. split; [reflexivity|]. right.
    split; [assumption|].
    split; [|reflexivity].
    destruct (B.symbols st !! B.label l) eqn:El; [|reflexivity].
    exfalso. apply Hex. eauto.
Qed.

Lemma B_pass1_loop_spec lines : forall i st st',
  B.pass1_loop lines i st = Ok st' ->
  (i + length lines <= length (B.line_addr st))%nat ->
  length (B.line_addr st') = length (B.line_addr st) /\
  (forall k, (k < i)%nat -> B.line_addr st' !! k = B.line_addr st !! k) /\
  (forall nm v, B.symbols st !! nm = Some v -> B.symbols st' !! nm = Some v) /\
  (forall j l, lines !! j = Some l -> B.label l <> EmptyString ->
     B.symbols st' !! B.label l = Some (B.line_addr st' !!! (i + j)%nat)) /\
  (forall nm, is_Some (B.symbols st' !! nm) ->
     is_Some (B.symbols st !! nm) \/
     exists l, l ∈ lines /\ B.label l = nm /\ nm <> EmptyString).
Proof.
  induction lines as [|l lines IH]; intros i st st' H Hlen; simpl in *.
  { injection H as <-. repeat split; auto.
    intros j pl Hj. discriminate. }
  inv_bind H.
  destruct (B_pass1_step_spec _ _ _ _ Ha) as [Hla Hsym].
  assert (Hlen1 : (S i + length lines <= length (B.line_addr a))%nat)
    by (rewrite Hla, length_insert; lia).
  destruct (IH _ _ _ H Hlen1) as (L1 & L2 & L3 & L4 & L5).
  assert (Hi : B.line_addr st' !! i = Some (B.addr st)).
  { rewrite L2 by lia. rewrite Hla. apply list_lookup_insert_eq. lia. }
  assert (Hmono : forall nm v,
            B.symbols st !! nm = Some v -> B.symbols a !! nm = Some v).
  { intros nm v Hnm. destruct Hsym as [[_ ->] | (_ & Hnone & ->)]; [assumption|].
    rewrite lookup_insert_ne; [assumption|]. congruence. }
  split; [rewrite L1, Hla; apply length_insert|].
  split.
  { intros k Hk. rewrite L2 by lia. rewrite Hla.
    apply list_lookup_insert_ne. lia. }
  split; [auto|].
  split.
  - intros [|j] l' Hj Hlab; simpl in Hj.
    + injection Hj as <-. rewrite Nat.add_0_r.
      rewrite list_lookup_total_alt, Hi. simpl.
      apply L3. destruct Hsym as [[E _] | (_ & Hex & ->)]; [contradiction|].
      apply lookup_insert_eq.
    + replace (i + S j)%nat with (S i + j)%nat by lia. auto.
  - intros nm Hnm. destruct (L5 _ Hnm) as [Hin | (l' & Hin & Hl)].
    + destruct Hsym as [[_ Hs] | (Hne & _ & Hs)]; rewrite Hs in Hin; [auto|].
      destruct (decide (B.label l = nm)) as [E|E].
      * right. exists l. subst nm. split; [left | auto].
      * rewrite lookup_insert_ne in Hin by assumption. auto.
    + right. exists l'. split; [right|]; assumption.
Qed.

Lemma B_pass1_spec lines st :
  B.pass1 lines = Ok st ->
  length (B.line_addr st) = length lines /\
  (forall j l, lines !! j = Some l -> B.label l <> EmptyString ->
     B.symbols st !! B.label l = Some (B.line_addr st !!! j)) /\
  (forall nm, (forall l, l ∈ lines -> B.label l <> nm) ->
     B.symbols st !! nm = None).
Proof.
  unfold B.pass1. intros H.
  apply B_pass1_loop_spec in H; simpl.
  2:{ rewrite length_replicate. lia. }
  simpl in H. destruct H as (L1 & _ & _ & L4 & L5).
  rewrite length_replicate in L1.
  split; [assumption|]. split; [exact L4|].
  intros nm Hnone.
  destruct (B.symbols st !! nm) eqn:E; [|reflexivity].
  destruct (L5 nm) as [Hin | (l & Hin & Hl & _)].
  - rewrite E. eauto.
  - rewrite lookup_empty in Hin. destruct Hin as [? Hin]. discriminate.
  - exfalso. exact (Hnone _ Hin Hl).
Qed.

(** ** The address of a line is the counter of Pass 1 at that line *)

(** The state in which the loop of Pass 1 starts. *)
Definition A_pass1_init (lines : list A.ParsedLine) : A.AsmContext :=
  A.mkAsmContext 32768 [] (resize (length lines) 0 []).

Definition B_pass1_init (lines : list B.Line) : B.Pass1 :=
  B.mkPass1 ∅ (replicate (length lines) 0) 32768.

Lemma A_pass1_loop_split l1 l2 i ctx :
  A.pass1_loop (l1 ++ l2) i ctx =
  c ← A.pass1_loop l1 i ctx; A.pass1_loop l2 (i + length l1) c.
Proof.
  revert i ctx. induction l1 as [|pl l1 IH]; intros i ctx; simpl.
  - rewrite Nat.add_0_r. reflexivity.
  - destruct (A.pass1_step pl i ctx); simpl; [|reflexivity].
    rewrite IH. replace (S i + length l1)%nat with (i + S (length l1))%nat by lia.
    reflexivity.
Qed.

Lemma B_pass1_loop_split l1 l2 i st :
  B.pass1_loop (l1 ++ l2) i st =
  s ← B.pass1_loop l1 i st; B.pass1_loop l2 (i + length l1) s.
Proof.
  revert i st. induction l1 as [|l l1 IH]; intros i st; simpl.
  - rewrite Nat.add_0_r. reflexivity.
  - destruct (B.pass1_step l i st); simpl; [|reflexivity].
    rewrite IH. replace (S i + length l1)%nat with (i + S (length l1))%nat by lia.
    reflexivity.
Qed.

(** The address recorded for line [i] is the value of the address counter
    when Pass 1 has gone through the lines before it. *)
Definition A_pass1_address (lines : list A.ParsedLine) (i : nat) (a : Z)
  : Prop :=
  exists c, A.pass1_loop (take i lines) 0 (A_pass1_init lines) = Ok c /\
            A.current_addr_words c = a.

Definition B_pass1_address (lines : list B.Line) (i : nat) (a : Z) : Prop :=
  exists s, B.pass1_loop (take i lines) 0 (B_pass1_init lines) = Ok s /\
            B.addr s = a.

Lemma A_line_addr_counter lines ctx i pl :
  A.pass1 lines A.AsmContext_init = Ok ctx -> lines !! i = Some pl ->
  A_pass1_address lines i (A.line_addr ctx !!! i).
Proof.
  intros H1 Hi. assert (Hilt := lookup_lt_Some _ _ _ Hi).
  unfold A.pass1 in H1. change (A.mkAsmContext _ _ _) with (A_pass1_init lines) in H1.
  rewrite <- (take_drop_middle _ _ _ Hi) in H1 at 1.
  rewrite A_pass1_loop_split in H1. inv_bind H1.
  rewrite length_take_le in H1 by lia. simpl in H1. inv_bind H1.
  exists a. split; [assumption|].
  assert (Hlen0 : length (A.line_addr (A_pass1_init lines)) = length lines)
    by (simpl; apply length_resize).
  apply A_pass1_loop_spec in Ha.
  2:{ rewrite length_take, Hlen0. lia. }
  destruct Ha as (La & _).
  destruct (A_pass1_step_spec _ _ _ _ Ha0) as [Hla _].
  apply A_pass1_loop_spec in H1.
  2:{ rewrite Hla, length_insert, La, Hlen0, length_drop. lia. }
  destruct H1 as (_ & L2 & _).
  rewrite list_lookup_total_alt, (L2 i ltac:(lia)), Hla.
  rewrite list_lookup_insert_eq by (rewrite La, Hlen0; lia).
  reflexivity.
Qed.

Lemma B_line_addr_counter lines st i l :
  B.pass1 lines = Ok st -> lines !! i = Some l ->
  B_pass1_address lines i (B.line_addr st !!! i).
Proof.
  intros H1 Hi. assert (Hilt := lookup_lt_Some _ _ _ Hi).
  unfold B.pass1 in H1. fold (B_pass1_init lines) in H1.
  rewrite <- (take_drop_middle _ _ _ Hi) in H1 at 1.
  rewrite B_pass1_loop_split in H1. inv_bind H1.
  rewrite length_take_le in H1 by lia. simpl in H1. inv_bind H1.
  exists a. split; [assumption|].
  assert (Hlen0 : length (B.line_addr (B_pass1_init lines)) = length lines)
    by (simpl; apply length_replicate).
  apply B_pass1_loop_spec in Ha.
  2:{ rewrite length_take, Hlen0. lia. }
  destruct Ha as (La & _).
  destruct (B_pass1_step_spec _ _ _ _ Ha0) as [Hla _].
  apply B_pass1_loop_spec in H1.
  2:{ rewrite Hla, length_insert, La, Hlen0, length_drop. lia. }
  destruct H1 as (_ & L2 & _).
  rewrite list_lookup_total_alt, (L2 i ltac:(lia)), Hla.
  rewrite list_lookup_insert_eq by (rewrite La, Hlen0; lia).
  reflexivity.
Qed.

(** ** PC-relative offsets *)

Lemma jump_offset_correct (target a : Z) :
  word16 target ->
  (wrap16 (Z.land (target - (a + 2)) 65535) + (a + 2)) mod 65536 = target.
Proof.
  intros Ht. rewrite land65535_mod.
  rewrite (wrap16_small _ (Z.mod_pos_bound _ 65536 ltac:(lia))).
  rewrite Zplus_mod_idemp_l.
  replace (target - (a + 2) + (a + 2)) with target by lia.
  apply Z.mod_small. exact Ht.
Qed.

(** The second word [offset] of a jump at address [a] leads to [target]. *)
Definition pc_relative (a offset target : Z) : Prop :=
  word16 offset /\ (offset + (a + 2)) mod 65536 = target.

(** C1. In a source that assembles, every [JMP] or [JZ] line with a single
    operand that is a label or a raw number contributes two words, placed
    after the words of the lines before it; the second one, [offset], is a
    16-bit value with [offset + (jump_address + 2) = target] modulo 2^16,
    where [jump_address] is the address that Pass 1 recorded for the line
    and [target] is the address found for the label in the symbol table, or
    the value of the number. Nothing distinguishes forward from backward
    jumps: when the operand is the label of line [j], wherever line [j]
    stands, [target] is the address that Pass 1 recorded for line [j]. The
    address recorded for a line is the value of the address counter of
    Pass 1 when it reaches the line. This holds of both versions of the
    assembler. *)
Theorem C1_pc_relative_offset :
  (forall source bytes, A.assemble source = Ok bytes ->
     exists lines ctx words,
       A.read_lines (getlines source) 1 = Ok lines /\
       A.pass1 lines A.AsmContext_init = Ok ctx /\
       A.pass2 lines ctx [] = Ok words /\
       forall i pl o,
         lines !! i = Some pl ->
         A_mnemonic pl "JMP" \/ A_mnemonic pl "JZ" ->
         A.operands pl = [o] ->
         A.kind o = A.LabelRef \/ A.kind o = A.RawNumber ->
         exists target before w offset after,
           (if decide (A.kind o = A.LabelRef)
            then A.lookup_symbol ctx (A.otext o)
            else A.parse_number16 (A.otext o)) = Ok target /\
           A.pass2 (take i lines) ctx [] = Ok before /\
           words = before ++ [w; offset] ++ after /\
           pc_relative (A.line_addr ctx !!! i) offset target /\
           A_pass1_address lines i (A.line_addr ctx !!! i) /\
           forall j d, lines !! j = Some d -> A.kind o = A.LabelRef ->
             A.label d = A.otext o -> A.label d <> EmptyString ->
             target = A.line_addr ctx !!! j /\
             A_pass1_address lines j target) /\
  (forall source bytes, B.assemble source = Ok bytes ->
     exists lines st words,
       B.read_lines (getlines source) = Ok lines /\
       B.pass1 lines = Ok st /\
       B.pass2 lines st = Ok words /\
       forall i l o,
         lines !! i = Some l ->
         B_mnemonic l "JMP" \/ B_mnemonic l "JZ" ->
         B.operands l = [o] ->
         B.kind o = B.Label \/ B.kind o = B.Number_ ->
         exists target before w offset after,
           (if decide (B.kind o = B.Label)
            then B.symbols_at (B.symbols st) (B.otext o)
            else B.parse_number16 (B.otext o)) = Ok target /\
           B.pass2 (take i lines) st = Ok before /\
           words = before ++ [w; offset] ++ after /\
           pc_relative (B.line_addr st !!! i) offset target /\
           B_pass1_address lines i (B.line_addr st !!! i) /\
           forall j d, lines !! j = Some d -> B.kind o = B.Label ->
             B.label d = B.otext o -> B.label d <> EmptyString ->
             target = B.line_addr st !!! j /\
             B_pass1_address lines j target).
Proof.
  split; intros source bytes H.
  - destruct (A_assemble_stages _ _ H) as (lines & ctx & words & Hr & H1 & H2 & _).
    exists lines, ctx, words. repeat split; try assumption.
    intros i pl o Hi Hm Hops Hkind.
    destruct (A_pass2_at _ _ _ _ _ H2 Hi) as (before & ws & after & Hb & Hs & ->).
    assert (Hk : A.lkind pl = A.Instruction) by (destruct Hm as [[? _]|[? _]]; auto).
    destruct (A_pass2_step_instruction _ _ _ _ Hk Hs)
      as [[[_ Hm'] _] | [[[_ Hm'] _] | [[[_ Hm'] _] | Hjmp]]];
      try (destruct Hm as [[_ Hm]|[_ Hm]]; mnemonic_eqs; fail).
    destruct Hjmp as (opc & o' & target & _ & Hops' & Ht & ->).
    rewrite Hops in Hops'. injection Hops' as <-.
    assert (Hres : (if decide (A.kind o = A.LabelRef)
                    then A.lookup_symbol ctx (A.otext o)
                    else A.parse_number16 (A.otext o)) = Ok target).
    { destruct Ht as [[K Ht]|[K Ht]]; rewrite K; simpl; exact Ht. }
    exists target, before, (make_instr_word opc 5 0 0),
      (wrap16 (Z.land (target - (A.line_addr ctx !!! i + 2)) 65535)), after.
    split; [assumption|]. split; [assumption|]. split; [reflexivity|].
    split; [split; [apply wrap16_range|]|split].
    + apply jump_offset_correct.
      destruct Ht as [[_ Ht]|[_ Ht]].
      * eapply A_lookup_symbol_range; [|eassumption].
        eapply A_pass1_ok; eassumption.
      * eapply parse_number16_range; eassumption.
    + eapply A_line_addr_counter; eassumption.
    + intros j d Hj Hko Hlab Hne.
      destruct (A_pass1_spec _ _ H1) as (_ & Hdef & _).
      specialize (Hdef _ _ Hj Hne). rewrite Hlab in Hdef.
      rewrite decide_True in Hres by assumption.
      assert (Heq : target = A.line_addr ctx !!! j) by congruence.
      split; [exact Heq|]. rewrite Heq.
      eapply A_line_addr_counter; eassumption.
  - destruct (B_assemble_stages _ _ H) as (lines & st & words & Hr & H1 & H2 & _).
    exists lines, st, words. repeat split; try assumption.
    intros i l o Hi Hm Hops Hkind.
    destruct (B_pass2_at _ _ _ _ _ H2 Hi) as (before & ws & after & Hb & Hs & ->).
    assert (Hop : B.op l <> EmptyString /\ B.is_directive l = false)
      by (destruct Hm as [(? & ? & _)|(? & ? & _)]; auto).
    destruct Hop as [Hop Hd].
    destruct (B_pass2_step_instruction _ _ _ _ Hop Hd Hs)
      as [[(_ & _ & Hm') _] | [[(_ & _ & Hm') _] | [[(_ & _ & Hm') _] | Hjmp]]];
      try (destruct Hm as [(_ & _ & Hm)|(_ & _ & Hm)]; mnemonic_eqs; fail).
    destruct Hjmp as (opc & o' & target & _ & Hops' & Ht & ->).
    rewrite Hops in Hops'. injection Hops' as <-.
    assert (Hres : (if decide (B.kind o = B.Label)
                    then B.symbols_at (B.symbols st) (B.otext o)
                    else B.parse_number16 (B.otext o)) = Ok target).
    { destruct Ht as [[K Ht]|[K Ht]]; rewrite K; simpl; [|exact Ht].
      unfold B.symbols_at. rewrite Ht. reflexivity. }
    exists target, before, (make_instr_word opc 5 0 0),
      (wrap16 (Z.land (target - (B.line_addr st !!! i + 2)) 65535)), after.
    split; [assumption|]. split; [assumption|]. split; [reflexivity|].
    split; [split; [apply wrap16_range|]|split].
    + apply jump_offset_correct.
      destruct (B_pass1_ok _ _ H1) as [_ Hsyms].
      destruct Ht as [[_ Ht]|[_ Ht]].
      * exact (Hsyms _ _ Ht).
      * eapply parse_number16_range; eassumption.
    + eapply B_line_addr_counter; eassumption.
    + intros j d Hj Hko Hlab Hne.
      destruct (B_pass1_spec _ _ H1) as (_ & Hdef & _).
      specialize (Hdef _ _ Hj Hne). rewrite Hlab in Hdef.
      rewrite decide_True in Hres by assumption.
      unfold B.symbols_at in Hres. rewrite Hdef in Hres.
      assert (Heq : target = B.line_addr st !!! j) by congruence.
      split; [exact Heq|]. rewrite Heq.
      eapply B_line_addr_counter; eassumption.
Qed.

(** ** Failures of Pass 2 *)

Lemma A_pass2_loop_Err_acc lines ctx i words e :
  A.pass2_loop lines ctx i words = Err e <->
  A.pass2_loop lines ctx i [] = Err e.
Proof.
  rewrite A_pass2_loop_acc.
  destruct (A.pass2_loop lines ctx i []); simpl; split; congruence.
Qed.

(** Pass 2 fails at the first line that does not encode, with the error of
    that line. *)
Lemma A_pass2_first_failure lines ctx i pl before e :
  lines !! i = Some pl ->
  A.pass2 (take i lines) ctx [] = Ok before ->
  A.pass2_step pl ctx (A.line_addr ctx !!! i) = Err e ->
  A.pass2 lines ctx [] = Err e.
Proof.
  unfold A.pass2. intros Hi Hb Hs.
  rewrite <- (take_drop_middle _ _ _ Hi).
  rewrite A_pass2_loop_split, Hb. simpl.
  rewrite length_take_le
    by (apply Nat.lt_le_incl, (lookup_lt_Some _ _ _ Hi)).
  rewrite Hs. reflexivity.
Qed.

(** Pass 2 fails as soon as one line does not encode. *)
Lemma A_pass2_failure lines ctx i pl e :
  lines !! i = Some pl ->
  A.pass2_step pl ctx (A.line_addr ctx !!! i) = Err e ->
  exists e', A.pass2 lines ctx [] = Err e'.
Proof.
  intros Hi Hs.
  destruct (A.pass2 (take i lines) ctx []) as [before|e'] eqn:E.
  - exists e. eapply A_pass2_first_failure; eassumption.
  - exists e'. unfold A.pass2 in *.
    rewrite <- (take_drop_middle _ _ _ Hi).
    rewrite A_pass2_loop_split, E. reflexivity.
Qed.

Lemma B_pass2_first_failure lines st i l before e :
  lines !! i = Some l ->
  B.pass2 (take i lines) st = Ok before ->
  B.pass2_step l (B.symbols st) (B.line_addr st !!! i) = Err e ->
  B.pass2 lines st = Err e.
Proof.
  unfold B.pass2. intros Hi Hb Hs.
  rewrite <- (take_drop_middle _ _ _ Hi).
  rewrite B_pass2_loop_split, Hb. simpl.
  rewrite length_take_le
    by (apply Nat.lt_le_incl, (lookup_lt_Some _ _ _ Hi)).
  rewrite Hs. reflexivity.
Qed.

Lemma B_pass2_failure lines st i l e :
  lines !! i = Some l ->
  B.pass2_step l (B.symbols st) (B.line_addr st !!! i) = Err e ->
  exists e', B.pass2 lines st = Err e'.
Proof.
  intros Hi Hs.
  destruct (B.pass2 (take i lines) st) as [before|e'] eqn:E.
  - exists e. eapply B_pass2_first_failure; eassumption.
  - exists e'. unfold B.pass2 in *.
    rewrite <- (take_drop_middle _ _ _ Hi).
    rewrite B_pass2_loop_split, E. reflexivity.
Qed.

(** ** Label references *)

Definition newline : string := String "010" EmptyString.

(** The lines that refer to a label through their single operand: jumps and
    [.word]. *)
Definition A_jump (pl : A.ParsedLine) : Prop :=
  A_mnemonic pl "JMP" \/ A_mnemonic pl "JZ".

Definition A_word_directive (pl : A.ParsedLine) : Prop :=
  A.lkind pl = A.Directive /\ iequals (A.op pl) ".word" = true.

Definition B_jump (l : B.Line) : Prop :=
  B_mnemonic l "JMP" \/ B_mnemonic l "JZ".

Definition B_word_directive (l : B.Line) : Prop :=
  B.op l <> EmptyString /\ B.is_directive l = true /\
  iequals (B.op l) ".WORD" = true.

Definition A_unknown_label (nm : string) : exception :=
  runtime_error ("Unknown label: " +:+ nm).

Lemma A_jump_opcode pl :
  A_jump pl ->
  exists opc, (opc = 13 \/ opc = 14) /\
    forall ctx a, A.pass2_step pl ctx a =
      match A.operands pl with
      | [o] =>
          target_words ←
            match A.kind o with
            | A.LabelRef => A.lookup_symbol ctx (A.otext o)
            | A.RawNumber => A.parse_number16 (A.otext o)
            | _ => Err (runtime_error "Unsupported jump operand")
            end;
          Ok [make_instr_word opc 5 0 0;
              wrap16 (Z.land (target_words - (a + 2)) 65535)]
      | _ => Err (runtime_error "Jump expects one operand")
      end.
Proof.
  intros [[Hk Hm] | [Hk Hm]].
  - exists 13. split; [auto|]. intros ctx a.
    unfold A.pass2_step. rewrite Hk.
    unfold A.find_instr, A.INSTR_TABLE. simpl.
    destruct (iequals (upper_string (A.op pl)) "NOP") eqn:E1;
      [mnemonic_eqs|].
    destruct (iequals (upper_string (A.op pl)) "HALT") eqn:E2;
      [mnemonic_eqs|].
    destruct (iequals (upper_string (A.op pl)) "ADD") eqn:E3;
      [mnemonic_eqs|].
    rewrite Hm. simpl. reflexivity.
  - exists 14. split; [auto|]. intros ctx a.
    unfold A.pass2_step. rewrite Hk.
    unfold A.find_instr, A.INSTR_TABLE. simpl.
    destruct (iequals (upper_string (A.op pl)) "NOP") eqn:E1;
      [mnemonic_eqs|].
    destruct (iequals (upper_string (A.op pl)) "HALT") eqn:E2;
      [mnemonic_eqs|].
    destruct (iequals (upper_string (A.op pl)) "ADD") eqn:E3;
      [mnemonic_eqs|].
    destruct (iequals (upper_string (A.op pl)) "JMP") eqn:E4;
      [mnemonic_eqs|].
    rewrite Hm. simpl. reflexivity.
Qed.

Lemma A_word_step pl ctx a :
  A_word_directive pl ->
  A.pass2_step pl ctx a =
    match A.operands pl with
    | [o] =>
        match A.kind o with
        | A.RawNumber => value ← A.parse_number16 (A.otext o); Ok [value]
        | A.LabelRef => value ← A.lookup_symbol ctx (A.otext o); Ok [value]
        | _ => Err (runtime_error "Unsupported operand for .word")
        end
    | _ => Err (runtime_error ".word expects one operand")
    end.
Proof.
  intros [Hk Hm]. unfold A.pass2_step. rewrite Hk, Hm.
  destruct (iequals (A.op pl) ".org") eqn:E; [mnemonic_eqs|].
  reflexivity.
Qed.

Lemma B_jump_opcode l :
  B_jump l ->
  exists opc, (opc = 13 \/ opc = 14) /\
    forall syms a, B.pass2_step l syms a =
      match B.operands l with
      | [o] =>
          target ←
            match B.kind o with
            | B.Label =>
                match syms !! B.otext o with
                | None =>
                    Err (runtime_error
                           ("Unknown label in jump: " +:+ B.otext o))
                | Some t => Ok t
                end
            | B.Number_ => B.parse_number16 (B.otext o)
            | _ => Err (runtime_error "Unsupported jump operand")
            end;
          Ok [make_instr_word opc 5 0 0;
              wrap16 (Z.land (target - (a + 2)) 65535)]
      | _ => Err (runtime_error "Jump expects one operand")
      end.
Proof.
  intros [(Hop & Hd & Hm) | (Hop & Hd & Hm)].
  - exists 13. split; [auto|]. intros syms a.
    unfold B.pass2_step, B.opcode_of.
    rewrite (string_eqb_empty_false _ Hop), Hd.
    destruct (iequals (B.op l) "NOP") eqn:E1; [mnemonic_eqs|].
    destruct (iequals (B.op l) "HALT") eqn:E2; [mnemonic_eqs|].
    destruct (iequals (B.op l) "ADD") eqn:E3; [mnemonic_eqs|].
    rewrite Hm. simpl. reflexivity.
  - exists 14. split; [auto|]. intros syms a.
    unfold B.pass2_step, B.opcode_of.
    rewrite (string_eqb_empty_false _ Hop), Hd.
    destruct (iequals (B.op l) "NOP") eqn:E1; [mnemonic_eqs|].
    destruct (iequals (B.op l) "HALT") eqn:E2; [mnemonic_eqs|].
    destruct (iequals (B.op l) "ADD") eqn:E3; [mnemonic_eqs|].
    destruct (iequals (B.op l) "JMP") eqn:E4; [mnemonic_eqs|].
    rewrite Hm. simpl. reflexivity.
Qed.

Lemma B_word_step l syms a :
  B_word_directive l ->
  B.pass2_step l syms a =
    match B.operands l with
    | [o] =>
        match B.kind o with
        | B.Number_ => v ← B.parse_number16 (B.otext o); Ok [v]
        | B.Label => v ← B.symbols_at syms (B.otext o); Ok [v]
        | _ => Err (runtime_error "Unsupported .word operand")
        end
    | _ => Err (runtime_error ".word expects one operand")
    end.
Proof.
  intros (Hop & Hd & Hm). unfold B.pass2_step.
  rewrite (string_eqb_empty_false _ Hop), Hd, Hm.
  destruct (iequals (B.op l) ".ORG") eqn:E; [mnemonic_eqs|].
  reflexivity.
Qed.

Definition A_refers (pl : A.ParsedLine) (nm : string) : Prop :=
  (A_jump pl \/ A_word_directive pl) /\
  exists o, A.operands pl = [o] /\ A.kind o = A.LabelRef /\ A.otext o = nm.

Definition B_refers (l : B.Line) (nm : string) : Prop :=
  (B_jump l \/ B_word_directive l) /\
  exists o, B.operands l = [o] /\ B.kind o = B.Label /\ B.otext o = nm.

(** The error of a reference to a label that the symbol table lacks. *)
Definition B_unknown_label (l : B.Line) (nm : string) : exception :=
  if B.is_directive l then out_of_range
  else runtime_error ("Unknown label in jump: " +:+ nm).

(** The words of a line that refers to a label found at address [target]. *)
Definition reference_words (is_jump : Prop) (ws : list Z) (a target : Z) : Prop :=
  (~ is_jump -> ws = [target]) /\
  (is_jump -> exists w, ws = [w; wrap16 (Z.land (target - (a + 2)) 65535)]).

Lemma A_jump_not_word pl : A_jump pl -> A_word_directive pl -> False.
Proof. intros [[Hk _]|[Hk _]] [Hk' _]; congruence. Qed.

Lemma B_jump_not_word l : B_jump l -> B_word_directive l -> False.
Proof. intros [(_ & Hd & _)|(_ & Hd & _)] (_ & Hd' & _); congruence. Qed.

Lemma A_refers_step pl nm ctx a :
  A_refers pl nm ->
  A.pass2_step pl ctx a =
    match A.lookup_symbol ctx nm with
    | Ok target => A.pass2_step pl ctx a
    | Err e => Err e
    end /\
  forall target, A.lookup_symbol ctx nm = Ok target ->
    exists ws, A.pass2_step pl ctx a = Ok ws /\
               reference_words (A_jump pl) ws a target.
Proof.
  intros [Hcase (o & Hops & Hk & <-)].
  destruct Hcase as [Hj | Hw].
  - destruct (A_jump_opcode _ Hj) as (opc & _ & Hstep).
    rewrite Hstep, Hops, Hk. split.
    + destruct (A.lookup_symbol ctx (A.otext o)); reflexivity.
    + intros target ->. simpl. eexists. split; [reflexivity|].
      split; [intros Hn; contradiction | eauto].
  - rewrite (A_word_step _ _ _ Hw), Hops, Hk. split.
    + destruct (A.lookup_symbol ctx (A.otext o)); reflexivity.
    + intros target ->. simpl. eexists. split; [reflexivity|].
      split; [reflexivity|]. intros Hj. destruct (A_jump_not_word _ Hj Hw).
Qed.

Lemma B_refers_step l nm syms a :
  B_refers l nm ->
  (syms !! nm = None -> B.pass2_step l syms a = Err (B_unknown_label l nm)) /\
  forall target, syms !! nm = Some target ->
    exists ws, B.pass2_step l syms a = Ok ws /\
               reference_words (B_jump l) ws a target.
Proof.
  intros [Hcase (o & Hops & Hk & <-)].
  destruct Hcase as [Hj | Hw].
  - destruct (B_jump_opcode _ Hj) as (opc & _ & Hstep).
    rewrite Hstep, Hops, Hk. split.
    + intros ->. simpl. unfold B_unknown_label.
      destruct Hj as [(_ & -> & _)|(_ & -> & _)]; reflexivity.
    + intros target ->. simpl. eexists. split; [reflexivity|].
      split; [intros Hn; contradiction | eauto].
  - rewrite (B_word_step _ _ _ Hw), Hops, Hk. unfold B.symbols_at. split.
    + intros ->. simpl. unfold B_unknown_label.
      destruct Hw as (_ & -> & _). reflexivity.
    + intros target ->. simpl. eexists. split; [reflexivity|].
      split; [reflexivity|]. intros Hj. destruct (B_jump_not_word _ Hj Hw).
Qed.

Lemma A_assemble_fails_pass2 source lines ctx e :
  A.read_lines (getlines source) 1 = Ok lines ->
  A.pass1 lines A.AsmContext_init = Ok ctx ->
  A.pass2 lines ctx [] = Err e ->
  A.assemble source = Err e.
Proof.
  intros Hr H1 H2. unfold A.assemble, A.assemble_words.
  rewrite Hr. simpl. rewrite H1. simpl. rewrite H2. reflexivity.
Qed.

Lemma B_assemble_fails_pass2 source lines st e :
  B.read_lines (getlines source) = Ok lines ->
  B.pass1 lines = Ok st ->
  B.pass2 lines st = Err e ->
  B.assemble source = Err e.
Proof.
  intros Hr H1 H2. unfold B.assemble, B.assemble_words.
  rewrite Hr. simpl. rewrite H1. simpl. rewrite H2. reflexivity.
Qed.

(** Once the lines are read, a line that cannot be encoded makes [assemble]
    fail, whatever Pass 1 does. *)
Lemma A_assemble_fails_line source lines i pl :
  A.read_lines (getlines source) 1 = Ok lines ->
  lines !! i = Some pl ->
  (forall ctx, A.pass1 lines A.AsmContext_init = Ok ctx ->
     exists e, A.pass2_step pl ctx (A.line_addr ctx !!! i) = Err e) ->
  exists e, A.assemble source = Err e.
Proof.
  intros Hr Hi Hstep.
  destruct (A.pass1 lines A.AsmContext_init) as [ctx|e] eqn:H1.
  - destruct (Hstep ctx eq_refl) as [e He].
    destruct (A_pass2_failure _ _ _ _ _ Hi He) as [e' He'].
    exists e'. eapply A_assemble_fails_pass2; eassumption.
  - exists e. unfold A.assemble, A.assemble_words.
    rewrite Hr. simpl. rewrite H1. reflexivity.
Qed.

Lemma B_assemble_fails_line source lines i l :
  B.read_lines (getlines source) = Ok lines ->
  lines !! i = Some l ->
  (forall st, B.pass1 lines = Ok st ->
     exists e, B.pass2_step l (B.symbols st) (B.line_addr st !!! i) = Err e) ->
  exists e, B.assemble source = Err e.
Proof.
  intros Hr Hi Hstep.
  destruct (B.pass1 lines) as [st|e] eqn:H1.
  - destruct (Hstep st eq_refl) as [e He].
    destruct (B_pass2_failure _ _ _ _ _ Hi He) as [e' He'].
    exists e'. eapply B_assemble_fails_pass2; eassumption.
  - exists e. unfold B.assemble, B.assemble_words.
    rewrite Hr. simpl. rewrite H1. reflexivity.
Qed.

(** C7, as the code has it. A jump or [.word] line [i] refers to the label
    [nm]. If some line [j], before or after line [i], defines [nm], the
    symbol table gives [nm] the address that Pass 1 recorded for line [j]
    (the value of its address counter at line [j]), and line [i] is encoded
    with it. If no line defines [nm], encoding line
    [i] fails with the unknown-label error, and [assemble] fails; the error
    of [assemble] is that one when the lines before line [i] are encoded
    without error. (The second version compares names as its lexer
    delivers them, in upper case, and its [.word] fails with the
    [std::out_of_range] of [unordered_map::at].) *)
Theorem C7_label_references :
  (forall lines ctx i pl nm,
     A.pass1 lines A.AsmContext_init = Ok ctx ->
     lines !! i = Some pl -> A_refers pl nm ->
     (forall j d, lines !! j = Some d -> A.label d = nm -> nm <> EmptyString ->
        A.lookup_symbol ctx nm = Ok (A.line_addr ctx !!! j) /\
        A_pass1_address lines j (A.line_addr ctx !!! j) /\
        exists ws,
          A.pass2_step pl ctx (A.line_addr ctx !!! i) = Ok ws /\
          reference_words (A_jump pl) ws
            (A.line_addr ctx !!! i) (A.line_addr ctx !!! j)) /\
     ((forall d, d ∈ lines -> A.label d <> nm) ->
        A.pass2_step pl ctx (A.line_addr ctx !!! i) = Err (A_unknown_label nm) /\
        forall source,
          A.read_lines (getlines source) 1 = Ok lines ->
          (exists e, A.assemble source = Err e) /\
          forall before, A.pass2 (take i lines) ctx [] = Ok before ->
            A.assemble source = Err (A_unknown_label nm))) /\
  (forall lines st i l nm,
     B.pass1 lines = Ok st ->
     lines !! i = Some l -> B_refers l nm ->
     (forall j d, lines !! j = Some d -> B.label d = nm -> nm <> EmptyString ->
        B.symbols st !! nm = Some (B.line_addr st !!! j) /\
        B_pass1_address lines j (B.line_addr st !!! j) /\
        exists ws,
          B.pass2_step l (B.symbols st) (B.line_addr st !!! i) = Ok ws /\
          reference_words (B_jump l) ws
            (B.line_addr st !!! i) (B.line_addr st !!! j)) /\
     ((forall d, d ∈ lines -> B.label d <> nm) ->
        B.pass2_step l (B.symbols st) (B.line_addr st !!! i) =
          Err (B_unknown_label l nm) /\
        forall source,
          B.read_lines (getlines source) = Ok lines ->
          (exists e, B.assemble source = Err e) /\
          forall before, B.pass2 (take i lines) st = Ok before ->
            B.assemble source = Err (B_unknown_label l nm))).
Proof.
  split.
  - intros lines ctx i pl nm H1 Hi Href.
    destruct (A_pass1_spec _ _ H1) as (_ & Hdef & Hundef).
    destruct (A_refers_step pl nm ctx (A.line_addr ctx !!! i) Href)
      as [Hstep Hres].
    split.
    + intros j d Hj Hl Hne. subst nm.
      specialize (Hdef _ _ Hj Hne). split; [assumption|].
      split; [eapply A_line_addr_counter; eassumption|].
      apply Hres. assumption.
    + intros Hnone. specialize (Hundef _ Hnone).
      assert (He : A.pass2_step pl ctx (A.line_addr ctx !!! i) =
                   Err (A_unknown_label nm)).
      { rewrite Hstep, Hundef. reflexivity. }
      split; [assumption|].
      intros source Hr. split.
      * destruct (A_pass2_failure _ _ _ _ _ Hi He) as [e' He'].
        exists e'. eapply A_assemble_fails_pass2; eassumption.
      * intros before Hb. eapply A_assemble_fails_pass2; try eassumption.
        eapply A_pass2_first_failure; eassumption.
  - intros lines st i l nm H1 Hi Href.
    destruct (B_pass1_spec _ _ H1) as (_ & Hdef & Hundef).
    destruct (B_refers_step l nm (B.symbols st) (B.line_addr st !!! i) Href)
      as [Hstep Hres].
    split.
    + intros j d Hj Hl Hne. subst nm.
      specialize (Hdef _ _ Hj Hne). split; [assumption|].
      split; [eapply B_line_addr_counter; eassumption|].
      apply Hres. assumption.
    + intros Hnone. specialize (Hundef _ Hnone).
      assert (He := Hstep Hundef).
      split; [assumption|].
      intros source Hr. split.
      * destruct (B_pass2_failure _ _ _ _ _ Hi He) as [e' He'].
        exists e'. eapply B_assemble_fails_pass2; eassumption.
      * intros before Hb. eapply B_assemble_fails_pass2; try eassumption.
        eapply B_pass2_first_failure; eassumption.
Qed.

(** ** Unsupported mnemonics *)

(** The supported set, compared as both versions do, without regard to
    case. *)
Definition supported (op : string) : bool :=
  bool_decide (upper_string op ∈ ["NOP"; "HALT"; "ADD"; "JMP"; "JZ"]).

Lemma supported_iequals (op : string) :
  supported op =
  iequals op "NOP" || iequals op "HALT" || iequals op "ADD"
  || iequals op "JMP" || iequals op "JZ".
Proof.
  unfold supported.
  destruct (iequals op "NOP") eqn:E1; simpl.
  { apply bool_decide_eq_true. mnemonic_eqs. rewrite E1. set_solver. }
  destruct (iequals op "HALT") eqn:E2; simpl.
  { apply bool_decide_eq_true. mnemonic_eqs. rewrite E2. set_solver. }
  destruct (iequals op "ADD") eqn:E3; simpl.
  { apply bool_decide_eq_true. mnemonic_eqs. rewrite E3. set_solver. }
  destruct (iequals op "JMP") eqn:E4; simpl.
  { apply bool_decide_eq_true. mnemonic_eqs. rewrite E4. set_solver. }
  destruct (iequals op "JZ") eqn:E5; simpl.
  { apply bool_decide_eq_true. mnemonic_eqs. rewrite E5. set_solver. }
  apply bool_decide_eq_false. mnemonic_eqs.
  rewrite !elem_of_cons, elem_of_nil. tauto.
Qed.

Lemma A_find_instr_supported (op : string) :
  is_Some (A.find_instr (upper_string op)) <-> supported op = true.
Proof.
  rewrite supported_iequals.
  unfold A.find_instr, A.INSTR_TABLE. simpl.
  rewrite !iequals_upper_l.
  destruct (iequals op "NOP"); simpl; [split; eauto|].
  destruct (iequals op "HALT"); simpl; [split; eauto|].
  destruct (iequals op "ADD"); simpl; [split; eauto|].
  destruct (iequals op "JMP"); simpl; [split; eauto|].
  destruct (iequals op "JZ"); simpl; [split; eauto|].
  split; [intros [? ?]; discriminate | discriminate].
Qed.

Definition A_unsupported (pl : A.ParsedLine) : Prop :=
  A.lkind pl = A.Instruction /\ supported (A.op pl) = false.

Definition B_unsupported (l : B.Line) : Prop :=
  B.op l <> EmptyString /\ B.is_directive l = false /\
  supported (B.op l) = false.

Definition A_unknown_instruction : exception :=
  runtime_error "Unknown instruction".

Definition B_unsupported_instruction (l : B.Line) : exception :=
  runtime_error ("Unsupported instruction: " +:+ B.op l).

Lemma A_unsupported_steps pl :
  A_unsupported pl ->
  (forall ctx, A.advance pl ctx = Ok ctx) /\
  (forall ctx a, A.pass2_step pl ctx a = Err A_unknown_instruction).
Proof.
  intros [Hk Hs].
  assert (Hnone : A.find_instr (upper_string (A.op pl)) = None).
  { destruct (A.find_instr (upper_string (A.op pl))) eqn:E; [|reflexivity].
    assert (Hsome : is_Some (A.find_instr (upper_string (A.op pl))))
      by (rewrite E; eauto).
    apply A_find_instr_supported in Hsome. congruence. }
  split.
  - intros ctx. unfold A.advance, A.has_instr. rewrite Hk, Hnone.
    rewrite bool_decide_eq_false_2; [reflexivity|].
    intros [? ?]. discriminate.
  - intros ctx a. unfold A.pass2_step. rewrite Hk, Hnone. reflexivity.
Qed.

Lemma B_unsupported_steps l :
  B_unsupported l ->
  (forall st, B.advance l st = Ok st) /\
  (forall syms a, B.pass2_step l syms a = Err (B_unsupported_instruction l)).
Proof.
  intros (Hop & Hd & Hs). rewrite supported_iequals in Hs.
  apply orb_false_elim in Hs as [Hs E5].
  apply orb_false_elim in Hs as [Hs E4].
  apply orb_false_elim in Hs as [Hs E3].
  apply orb_false_elim in Hs as [E1 E2].
  split.
  - intros st. unfold B.advance.
    rewrite (string_eqb_empty_false _ Hop), Hd, E1, E2, E3, E4, E5.
    reflexivity.
  - intros syms a. unfold B.pass2_step, B.opcode_of.
    rewrite (string_eqb_empty_false _ Hop), Hd, E1, E2, E3, E4, E5.
    reflexivity.
Qed.

(** C4, as the code has it. An instruction line whose mnemonic is none of
    NOP, HALT, ADD, JMP, JZ leaves the address counter of Pass 1 where it is
    (the line is sized as zero words and Pass 1 raises nothing for it), and
    its encoding in Pass 2 fails with the unsupported-instruction error. A
    source with such a line makes [assemble] fail, so that no bytes are
    returned; the error of [assemble] is that one when Pass 1 succeeds and
    the lines before it are encoded without error. *)
Theorem C4_unsupported_mnemonic :
  (forall pl, A_unsupported pl ->
     (forall ctx, A.advance pl ctx = Ok ctx) /\
     (forall ctx a, A.pass2_step pl ctx a = Err A_unknown_instruction) /\
     forall source lines i,
       A.read_lines (getlines source) 1 = Ok lines -> lines !! i = Some pl ->
       (exists e, A.assemble source = Err e) /\
       forall ctx before,
         A.pass1 lines A.AsmContext_init = Ok ctx ->
         A.pass2 (take i lines) ctx [] = Ok before ->
         A.assemble source = Err A_unknown_instruction) /\
  (forall l, B_unsupported l ->
     (forall st, B.advance l st = Ok st) /\
     (forall syms a,
        B.pass2_step l syms a = Err (B_unsupported_instruction l)) /\
     forall source lines i,
       B.read_lines (getlines source) = Ok lines -> lines !! i = Some l ->
       (exists e, B.assemble source = Err e) /\
       forall st before,
         B.pass1 lines = Ok st ->
         B.pass2 (take i lines) st = Ok before ->
         B.assemble source = Err (B_unsupported_instruction l)).
Proof.
  split.
  - intros pl Hu. destruct (A_unsupported_steps _ Hu) as [Hadv Hstep].
    split; [assumption|]. split; [assumption|].
    intros source lines i Hr Hi. split.
    + eapply A_assemble_fails_line; eauto.
    + intros ctx before H1 Hb.
      eapply A_assemble_fails_pass2; try eassumption.
      eapply A_pass2_first_failure; eauto.
  - intros l Hu. destruct (B_unsupported_steps _ Hu) as [Hadv Hstep].
    split; [assumption|]. split; [assumption|].
    intros source lines i Hr Hi. split.
    + eapply B_assemble_fails_line; eauto.
    + intros st before H1 Hb.
      eapply B_assemble_fails_pass2; try eassumption.
      eapply B_pass2_first_failure; eauto.
Qed.

(** ** Duplicate labels *)

Definition A_duplicate_label : exception := runtime_error "Duplicate label".

Definition B_duplicate_label (nm : string) : exception :=
  runtime_error ("Duplicate label: " +:+ nm).

(** When Pass 1 has got through the lines before the second definition, it
    stops at the second definition. *)
Lemma A_pass1_second_definition lines i j pi pj n ctx c :
  lines !! i = Some pi -> lines !! j = Some pj -> (i < j)%nat ->
  A.label pi = A.label pj -> A.label pi <> EmptyString ->
  (n + length lines <= length (A.line_addr ctx))%nat ->
  A.pass1_loop (take j lines) n ctx = Ok c ->
  A.pass1_loop lines n ctx = Err A_duplicate_label.
Proof.
  intros Hi Hj Hlt Hlab Hne Hlen Hpre.
  assert (Hjlt := lookup_lt_Some _ _ _ Hj).
  rewrite <- (take_drop_middle _ _ _ Hj).
  rewrite A_pass1_loop_split, Hpre. simpl.
  apply A_pass1_loop_spec in Hpre.
  2:{ rewrite length_take. lia. }
  destruct Hpre as (_ & _ & _ & L4 & _).
  assert (Hi' : take j lines !! i = Some pi)
    by (rewrite lookup_take_lt by assumption; assumption).
  specialize (L4 _ _ Hi' Hne).
  unfold A.pass1_step, A.define_label, A.symbol_exists, A.record_line_addr.
  simpl. rewrite <- Hlab.
  rewrite (string_eqb_empty_false _ Hne). simpl.
  rewrite A_symbol_exists_lookup, L4. reflexivity.
Qed.

Lemma A_pass1_loop_prefix_Err l1 l2 i ctx e :
  A.pass1_loop l1 i ctx = Err e -> A.pass1_loop (l1 ++ l2) i ctx = Err e.
Proof. intros H. rewrite A_pass1_loop_split, H. reflexivity. Qed.

Lemma B_pass1_second_definition lines i j li lj n st s :
  lines !! i = Some li -> lines !! j = Some lj -> (i < j)%nat ->
  B.label li = B.label lj -> B.label li <> EmptyString ->
  (n + length lines <= length (B.line_addr st))%nat ->
  B.pass1_loop (take j lines) n st = Ok s ->
  B.pass1_loop lines n st = Err (B_duplicate_label (B.label li)).
Proof.
  intros Hi Hj Hlt Hlab Hne Hlen Hpre.
  assert (Hjlt := lookup_lt_Some _ _ _ Hj).
  rewrite <- (take_drop_middle _ _ _ Hj).
  rewrite B_pass1_loop_split, Hpre. simpl.
  apply B_pass1_loop_spec in Hpre.
  2:{ rewrite length_take. lia. }
  destruct Hpre as (_ & _ & _ & L4 & _).
  assert (Hi' : take j lines !! i = Some li)
    by (rewrite lookup_take_lt by assumption; assumption).
  specialize (L4 _ _ Hi' Hne).
  unfold B.pass1_step, B.define_label, B.record_line_addr.
  simpl. rewrite <- Hlab.
  rewrite (string_eqb_empty_false _ Hne). simpl.
  rewrite L4. rewrite bool_decide_eq_true_2 by eauto. reflexivity.
Qed.

Lemma A_pass1_duplicate_fails lines i j pi pj n ctx :
  lines !! i = Some pi -> lines !! j = Some pj -> (i < j)%nat ->
  A.label pi = A.label pj -> A.label pi <> EmptyString ->
  (n + length lines <= length (A.line_addr ctx))%nat ->
  exists e, A.pass1_loop lines n ctx = Err e.
Proof.
  intros Hi Hj Hlt Hlab Hne Hlen.
  destruct (A.pass1_loop (take j lines) n ctx) as [c|e] eqn:E.
  - eexists. eapply (A_pass1_second_definition _ i j pi pj); eassumption.
  - exists e. rewrite <- (take_drop j lines).
    apply A_pass1_loop_prefix_Err. assumption.
Qed.

Lemma B_pass1_duplicate_fails lines i j li lj n st :
  lines !! i = Some li -> lines !! j = Some lj -> (i < j)%nat ->
  B.label li = B.label lj -> B.label li <> EmptyString ->
  (n + length lines <= length (B.line_addr st))%nat ->
  exists e, B.pass1_loop lines n st = Err e.
Proof.
  intros Hi Hj Hlt Hlab Hne Hlen.
  destruct (B.pass1_loop (take j lines) n st) as [s|e] eqn:E.
  - eexists. eapply (B_pass1_second_definition _ i j li lj); eassumption.
  - exists e. rewrite <- (take_drop j lines).
    rewrite B_pass1_loop_split, E. reflexivity.
Qed.

(** ** The first lexer never yields a directive *)

Lemma token_head_not_dot (c : ascii) :
  Ascii.eqb c "," || Ascii.eqb c ":" || Ascii.eqb c "#" || Ascii.eqb c "["
  || Ascii.eqb c "]" || Ascii.eqb c "+" || isdigit c || isalpha c
  || Ascii.eqb c "_" = true ->
  Ascii.eqb c "." = false /\ Ascii.eqb (toupper c) "." = false.
Proof. destruct c as [[] [] [] [] [] [] [] []]; vm_compute; auto. Qed.

Lemma substr_head (c : ascii) (rest : string) (n : nat) :
  substr (String c rest) 0 (S n) = String c (substr rest 0 n).
Proof. reflexivity. Qed.

Lemma A_tokens_no_dot work : forall ln i k toks,
  A.tokenize_from ln work i k = Ok toks ->
  Forall (fun t => starts_with_dot (A.text t) = false) toks.
Proof.
  induction work as [|c rest IH]; intros ln i k toks H; simpl in H.
  { injection H as <-. constructor. }
  destruct k as [|k]; [|eauto].
  destruct (is_blank c); [eauto|].
  assert (Hsingle : forall ty,
            Ascii.eqb c "." = false ->
            push (A.mkToken ty (String c EmptyString) ln i)
                 (A.tokenize_from ln rest (S i) 0) = Ok toks ->
            Forall (fun t => starts_with_dot (A.text t) = false) toks).
  { intros ty Hc Hp. apply push_Ok in Hp as (toks' & Hp & ->).
    constructor; [exact Hc | eauto]. }
  pose proof (token_head_not_dot c) as Hhead.
  destruct (Ascii.eqb c ","); [eapply Hsingle; [tauto | exact H]|].
  destruct (Ascii.eqb c ":"); [eapply Hsingle; [tauto | exact H]|].
  destruct (Ascii.eqb c "#"); [eapply Hsingle; [tauto | exact H]|].
  destruct (Ascii.eqb c "["); [eapply Hsingle; [tauto | exact H]|].
  destruct (Ascii.eqb c "]"); [eapply Hsingle; [tauto | exact H]|].
  destruct (Ascii.eqb c "+"); [eapply Hsingle; [tauto | exact H]|].
  clear Hsingle. simpl in Hhead.
  destruct (isdigit c).
  { apply push_Ok in H as (toks' & H & ->).
    constructor; [simpl; tauto | eauto]. }
  destruct (isalpha c || Ascii.eqb c "_") eqn:Ea; [|discriminate].
  simpl in Hhead. rewrite Ea in Hhead.
  apply push_Ok in H as (toks' & H & ->).
  constructor; [|eauto].
  destruct (is_register_name _); simpl; tauto.
Qed.

Lemma A_parse_tokens_kind tokens pl :
  Forall (fun t => starts_with_dot (A.text t) = false) tokens ->
  A.parse_tokens tokens = Ok pl -> A.lkind pl <> A.Directive.
Proof.
  intros Hno H. unfold A.parse_tokens, A.parse_mnemonic in H.
  destruct tokens as [|front tl]; [injection H as <-; discriminate|].
  destruct (A.split_label (front :: tl)) as [lbl rest] eqn:Es.
  assert (Hrest : Forall (fun t => starts_with_dot (A.text t) = false) rest).
  { unfold A.split_label in Es.
    destruct tl as [|t1 tl']; [injection Es as <- <-; assumption|].
    destruct (A.type front), (A.type t1); injection Es as <- <-;
      try assumption.
    inversion Hno as [|? ? _ Hno']. inversion Hno'. assumption. }
  destruct rest as [|t rest']; [injection H as <-; discriminate|].
  inversion Hrest as [|? ? Ht _]. subst.
  destruct (A.type t); try discriminate.
  inv_bind H. injection H as <-. simpl. rewrite Ht. discriminate.
Qed.

Lemma A_read_lines_kinds ls : forall ln lines,
  A.read_lines ls ln = Ok lines ->
  Forall (fun pl => A.lkind pl <> A.Directive) lines.
Proof.
  induction ls as [|l ls IH]; intros ln lines H; simpl in H.
  { injection H as <-. constructor. }
  destruct (String.eqb (trim l) EmptyString); [eauto|].
  inv_bind H. inv_bind H. apply push_Ok in H as (lines' & H & ->).
  constructor; [|eauto].
  eapply A_parse_tokens_kind; [|eassumption].
  eapply A_tokens_no_dot. exact Ha.
Qed.

(** Without directives, the only error of Pass 1 is the duplicate label. *)
Lemma A_advance_no_directive pl ctx :
  A.lkind pl <> A.Directive -> exists ctx', A.advance pl ctx = Ok ctx'.
Proof.
  intros Hk. unfold A.advance.
  destruct (A.lkind pl); [eauto| |contradiction].
  destruct (negb _); [eauto|].
  destruct (iequals _ "ADD").
  - destruct (A.operands pl) as [|? [|o1 [|? ?]]]; eauto.
    destruct (A.kind o1); eauto.
  - destruct (_ || _); eauto.
Qed.

Lemma A_pass1_loop_errors lines : forall i ctx e,
  Forall (fun pl => A.lkind pl <> A.Directive) lines ->
  A.pass1_loop lines i ctx = Err e -> e = A_duplicate_label.
Proof.
  induction lines as [|pl lines IH]; intros i ctx e Hk H; simpl in H;
    [discriminate|].
  inversion Hk as [|? ? Hpl Hrest]. subst.
  destruct (A.pass1_step pl i ctx) as [c|e'] eqn:Es; simpl in H; [eauto|].
  injection H as <-. unfold A.pass1_step in Es.
  destruct (A.define_label pl (A.record_line_addr i ctx)) as [c|e''] eqn:Ed;
    simpl in Es.
  - destruct (A_advance_no_directive pl c Hpl) as [c' Hc']. congruence.
  - injection Es as <-. unfold A.define_label in Ed.
    destruct (negb _); [|discriminate].
    destruct (A.symbol_exists _ _); [|discriminate].
    injection Ed as <-. reflexivity.
Qed.

(** The vector [bytes] of [main] after [bytes = assemble(source)]: it stays
    empty when the call throws, and [main] then writes no file. *)
Definition returned_bytes (r : result (list Z)) : list Z :=
  match r with
  | Ok bytes => bytes
  | Err _ => []
  end.

(** C6, as the code has it. The lines of the source are read without error
    and two of them define the same label. [assemble] then fails and returns
    no bytes. In [assembler.cpp] the error is always the duplicate-label
    one. In the second version it is the duplicate-label error when Pass 1
    gets through the lines before the second definition (an [.org] line that
    is rejected before it comes first). In both versions a failing
    [assemble] hands no bytes to its caller. *)
Theorem C6_duplicate_label :
  (forall source lines i j pi pj,
     A.read_lines (getlines source) 1 = Ok lines ->
     lines !! i = Some pi -> lines !! j = Some pj -> (i < j)%nat ->
     A.label pi = A.label pj -> A.label pi <> EmptyString ->
     A.assemble source = Err A_duplicate_label /\
     returned_bytes (A.assemble source) = []) /\
  (forall source lines i j li lj,
     B.read_lines (getlines source) = Ok lines ->
     lines !! i = Some li -> lines !! j = Some lj -> (i < j)%nat ->
     B.label li = B.label lj -> B.label li <> EmptyString ->
     (exists e, B.assemble source = Err e) /\
     returned_bytes (B.assemble source) = [] /\
     forall s, B.pass1_loop (take j lines) 0 (B_pass1_init lines) = Ok s ->
       B.assemble source = Err (B_duplicate_label (B.label li))) /\
  (forall source e, A.assemble source = Err e ->
     returned_bytes (A.assemble source) = []) /\
  (forall source e, B.assemble source = Err e ->
     returned_bytes (B.assemble source) = []).
Proof.
  split; [|split; [|split]].
  - intros source lines i j pi pj Hr Hi Hj Hlt Hlab Hne.
    assert (H1 : A.pass1 lines A.AsmContext_init = Err A_duplicate_label).
    { unfold A.pass1.
      edestruct (A_pass1_duplicate_fails lines i j pi pj 0) as [e He];
        try eassumption.
      2:{ rewrite He. f_equal.
          eapply A_pass1_loop_errors; [|exact He].
          eapply A_read_lines_kinds. exact Hr. }
      simpl. rewrite length_resize. lia. }
    assert (Ha : A.assemble source = Err A_duplicate_label).
    { unfold A.assemble, A.assemble_words. rewrite Hr. simpl.
      rewrite H1. reflexivity. }
    rewrite Ha. auto.
  - intros source lines i j li lj Hr Hi Hj Hlt Hlab Hne.
    assert (Hlen : (0 + length lines <=
                    length (B.line_addr (B_pass1_init lines)))%nat)
      by (simpl; rewrite length_replicate; lia).
    assert (Hfail : forall e, B.pass1 lines = Err e ->
                              B.assemble source = Err e).
    { intros e He. unfold B.assemble, B.assemble_words. rewrite Hr. simpl.
      rewrite He. reflexivity. }
    destruct (B_pass1_duplicate_fails lines i j li lj 0 (B_pass1_init lines))
      as [e He]; try assumption.
    rewrite (Hfail e He). split; [eauto|]. split; [reflexivity|].
    intros s Hs. f_equal.
    pose proof (B_pass1_second_definition lines i j li lj 0 _ s
                  Hi Hj Hlt Hlab Hne Hlen Hs) as Hd.
    congruence.
  - intros source e ->. reflexivity.
  - intros source e ->. reflexivity.
Qed.

(** ** The [.org] directive *)

Definition A_org (pl : A.ParsedLine) : Prop :=
  A.lkind pl = A.Directive /\ iequals (A.op pl) ".org" = true.

Definition B_org (l : B.Line) : Prop :=
  B.op l <> EmptyString /\ B.is_directive l = true /\
  iequals (B.op l) ".ORG" = true.

Definition A_org_error : exception :=
  runtime_error ".org expects one numeric operand".

Lemma A_org_steps pl :
  A_org pl ->
  (forall ctx o v, A.operands pl = [o] -> A.kind o = A.RawNumber ->
     A.parse_number16 (A.otext o) = Ok v ->
     A.advance pl ctx = Ok (A.set_addr ctx v)) /\
  (forall ctx o, A.operands pl = [o] -> A.kind o <> A.RawNumber ->
     A.advance pl ctx = Err A_org_error) /\
  (forall ctx a, A.pass2_step pl ctx a = Ok []).
Proof.
  intros [Hk Hm]. repeat split.
  - intros ctx o v Hops Hko Hv. unfold A.advance.
    rewrite Hk, Hm, Hops, Hko, Hv. reflexivity.
  - intros ctx o Hops Hko. unfold A.advance.
    rewrite Hk, Hm, Hops. destruct (A.kind o); try reflexivity.
    contradiction.
  - intros ctx a. unfold A.pass2_step. rewrite Hk, Hm. reflexivity.
Qed.

Lemma B_org_steps l :
  B_org l ->
  (forall st o v, B.operands l = [o] -> B.kind o = B.Number_ ->
     B.parse_number16 (B.otext o) = Ok v ->
     B.advance l st = Ok (B.set_addr st v)) /\
  (forall st o v, B.operands l = [o] -> B.kind o = B.Label ->
     B.symbols st !! B.otext o = Some v ->
     B.advance l st = Ok (B.set_addr st v)) /\
  (forall st o, B.operands l = [o] -> B.kind o = B.Label ->
     B.symbols st !! B.otext o = None ->
     B.advance l st = Err out_of_range) /\
  (forall syms a, B.pass2_step l syms a = Ok []).
Proof.
  intros (Hop & Hd & Hm). repeat split.
  - intros st o v Hops Hko Hv. unfold B.advance.
    rewrite (string_eqb_empty_false _ Hop), Hd, Hm, Hops, Hko, Hv.
    reflexivity.
  - intros st o v Hops Hko Hv. unfold B.advance, B.symbols_at.
    rewrite (string_eqb_empty_false _ Hop), Hd, Hm, Hops, Hko, Hv.
    reflexivity.
  - intros st o Hops Hko Hv. unfold B.advance, B.symbols_at.
    rewrite (string_eqb_empty_false _ Hop), Hd, Hm, Hops, Hko, Hv.
    reflexivity.
  - intros syms a. unfold B.pass2_step.
    rewrite (string_eqb_empty_false _ Hop), Hd, Hm. reflexivity.
Qed.

Lemma B_define_label_tables l st st' :
  B.define_label l st = Ok st' ->
  B.line_addr st' = B.line_addr st /\ B.addr st' = B.addr st.
Proof.
  unfold B.define_label. intros H. split_ok H; subst; auto.
Qed.

(** A label that [.org] on line [i] of the second version can use is
    defined on line [i] or before it, and the counter becomes the address of
    the defining line. *)
Lemma B_org_label_defined_before lines st i l o :
  B.pass1 lines = Ok st -> lines !! i = Some l -> B_org l ->
  B.operands l = [o] -> B.kind o = B.Label ->
  exists j d s,
    (j <= i)%nat /\ lines !! j = Some d /\ B.label d = B.otext o /\
    B.pass1_loop (take (S i) lines) 0 (B_pass1_init lines) = Ok s /\
    B.addr s = B.line_addr st !!! j.
Proof.
  intros H1 Hi Horg Hops Hko.
  assert (Hilt := lookup_lt_Some _ _ _ Hi).
  unfold B.pass1 in H1. fold (B_pass1_init lines) in H1.
  rewrite <- (take_drop (S i) lines) in H1 at 1.
  rewrite B_pass1_loop_split in H1. inv_bind H1.
  rename a into s, Ha into Hpre.
  assert (Hlen : length (B.line_addr (B_pass1_init lines)) = length lines)
    by (simpl; apply length_replicate).
  pose proof Hpre as Hspec. apply B_pass1_loop_spec in Hspec.
  2:{ rewrite length_take, Hlen. lia. }
  destruct Hspec as (Ls1 & _ & _ & Ls4 & Ls5).
  apply B_pass1_loop_spec in H1.
  2:{ rewrite Ls1, Hlen, length_take, length_drop. lia. }
  destruct H1 as (_ & Lr2 & _ & _ & _).
  rewrite length_take_le in Lr2 by lia. simpl in Lr2.
  (* the step of line [i] *)
  pose proof Hpre as Hstep.
  rewrite (take_S_r _ _ _ Hi), B_pass1_loop_split in Hstep.
  inv_bind Hstep. simpl in Hstep. inv_bind Hstep.
  injection Hstep as ->. unfold B.pass1_step in Ha0. inv_bind Ha0.
  destruct (B_advance_tables _ _ _ Ha0) as [Hsyms _].
  destruct (B.symbols a0 !! B.otext o) as [v|] eqn:Ev.
  2:{ destruct (B_org_steps _ Horg) as (_ & _ & Hnone & _).
      rewrite (Hnone a0 o Hops Hko Ev) in Ha0. discriminate. }
  destruct (B_org_steps _ Horg) as (_ & Hsome & _ & _).
  rewrite (Hsome a0 o v Hops Hko Ev) in Ha0. injection Ha0 as <-.
  simpl in *.
  destruct (Ls5 (B.otext o)) as [Hin | (d & Hin & Hl & Hne)].
  { rewrite Ev. eauto. }
  { rewrite lookup_empty in Hin. destruct Hin as [? Hin]. discriminate. }
  apply list_elem_of_lookup in Hin as [j Hj].
  assert (Hjlt : (j < S i)%nat).
  { apply lookup_lt_Some in Hj. rewrite length_take in Hj. lia. }
  exists j, d, (B.set_addr a0 v).
  split; [lia|].
  rewrite lookup_take_lt in Hj by assumption.
  split; [assumption|]. split; [assumption|].
  split; [assumption|].
  simpl.
  assert (Hj' : take (S i) lines !! j = Some d)
    by (rewrite lookup_take_lt by assumption; assumption).
  assert (Hdne : B.label d <> EmptyString) by congruence.
  specialize (Ls4 _ _ Hj' Hdne). simpl in Ls4.
  rewrite Hl, Ev in Ls4. injection Ls4 as ->.
  rewrite !list_lookup_total_alt. rewrite (Lr2 j Hjlt). reflexivity.
Qed.

(** C5, as the code has it. In the second version [.org] with a single
    operand sets the address counter of Pass 1 to the value of a numeric
    literal, or to the address of a label that the symbol table holds when
    the line is reached, which is a label defined on that line or on an
    earlier one; a label that is not yet defined is rejected. In
    [assembler.cpp] Pass 1 accepts a numeric literal only and rejects every
    other operand, a label included. In both versions [.org] contributes no
    word in Pass 2. *)
Theorem C5_org_directive :
  (forall pl, A_org pl ->
     (forall ctx o v, A.operands pl = [o] -> A.kind o = A.RawNumber ->
        A.parse_number16 (A.otext o) = Ok v ->
        A.advance pl ctx = Ok (A.set_addr ctx v)) /\
     (forall ctx o, A.operands pl = [o] -> A.kind o <> A.RawNumber ->
        A.advance pl ctx = Err A_org_error) /\
     (forall ctx a, A.pass2_step pl ctx a = Ok [])) /\
  (forall l, B_org l ->
     (forall st o v, B.operands l = [o] -> B.kind o = B.Number_ ->
        B.parse_number16 (B.otext o) = Ok v ->
        B.advance l st = Ok (B.set_addr st v)) /\
     (forall st o v, B.operands l = [o] -> B.kind o = B.Label ->
        B.symbols st !! B.otext o = Some v ->
        B.advance l st = Ok (B.set_addr st v)) /\
     (forall st o, B.operands l = [o] -> B.kind o = B.Label ->
        B.symbols st !! B.otext o = None ->
        B.advance l st = Err out_of_range) /\
     (forall syms a, B.pass2_step l syms a = Ok []) /\
     (forall lines st i o,
        B.pass1 lines = Ok st -> lines !! i = Some l ->
        B.operands l = [o] -> B.kind o = B.Label ->
        exists j d s,
          (j <= i)%nat /\ lines !! j = Some d /\ B.label d = B.otext o /\
          B.pass1_loop (take (S i) lines) 0 (B_pass1_init lines) = Ok s /\
          B.addr s = B.line_addr st !!! j)).
Proof.
  split.
  - intros pl Horg. apply A_org_steps. assumption.
  - intros l Horg.
    destruct (B_org_steps _ Horg) as (H1 & H2 & H3 & H4).
    repeat (split; [assumption|]).
    intros lines st i o Hp Hi Hops Hko.
    eapply B_org_label_defined_before; eassumption.
Qed.

(** ** What the lexers accept *)

Fixpoint string_forall (p : ascii -> bool) (s : string) : bool :=
  match s with
  | EmptyString => true
  | String c s' => p c && string_forall p s'
  end.

(** The characters for which the loop of [tokenize_line] has a rule. *)
Definition A_lexable (c : ascii) : bool :=
  is_blank c || Ascii.eqb c "," || Ascii.eqb c ":" || Ascii.eqb c "#"
  || Ascii.eqb c "[" || Ascii.eqb c "]" || Ascii.eqb c "+"
  || isdigit c || (isalpha c || Ascii.eqb c "_").

Definition B_lexable (c : ascii) : bool :=
  is_blank c || Ascii.eqb c "," || Ascii.eqb c ":" || Ascii.eqb c "#"
  || isdigit c || (isalpha c || Ascii.eqb c "_" || Ascii.eqb c ".").

Lemma A_run_lexable (c : ascii) :
  A.number_char c || A.ident_char c = true -> A_lexable c = true.
Proof. destruct c as [[] [] [] [] [] [] [] []]; vm_compute; auto. Qed.

Lemma B_run_lexable (c : ascii) :
  B.number_char c || B.ident_char c = true -> B_lexable c = true.
Proof. destruct c as [[] [] [] [] [] [] [] []]; vm_compute; auto. Qed.

Lemma scan_len_mono (p q : ascii -> bool) (s : string) :
  (forall c, p c = true -> q c = true) ->
  (scan_len p s <= scan_len q s)%nat.
Proof.
  intros Hpq. induction s as [|c s IH]; simpl; [lia|].
  destruct (p c) eqn:Ep; [|lia].
  rewrite (Hpq _ Ep). lia.
Qed.

Lemma string_forall_In (p : ascii -> bool) (s : string) :
  string_forall p s = false <->
  exists c, In c (list_ascii_of_string s) /\ p c = false.
Proof.
  induction s as [|c s IH]; simpl.
  - split; [discriminate | intros (c & [] & _)].
  - rewrite andb_false_iff, IH. split.
    + intros [Hc | (d & Hd & Hp)]; [exists c; auto | exists d; auto].
    + intros (d & [<- | Hd] & Hp); [auto | right; eauto].
Qed.

Lemma A_tokenize_from_lexable work : forall ln i k,
  (k <= scan_len A_lexable work)%nat ->
  if string_forall A_lexable work
  then exists toks, A.tokenize_from ln work i k = Ok toks
  else A.tokenize_from ln work i k = Err A.lex_error.
Proof.
  induction work as [|c rest IH]; intros ln i k Hk; simpl in *.
  { eauto. }
  assert (Hpush : forall t n, (n <= scan_len A_lexable rest)%nat ->
            if string_forall A_lexable rest
            then exists toks,
                push t (A.tokenize_from ln rest (S i) n) = Ok toks
            else push t (A.tokenize_from ln rest (S i) n) = Err A.lex_error).
  { intros t n Hn. specialize (IH ln (S i) n Hn).
    destruct (string_forall A_lexable rest).
    - destruct IH as [toks ->]. simpl. eauto.
    - rewrite IH. reflexivity. }
  destruct k as [|k].
  2:{ destruct (A_lexable c); [|lia]. simpl. apply IH. lia. }
  clear Hk.
  assert (Hnum := scan_len_mono A.number_char A_lexable rest
            (fun d Hd => A_run_lexable d
               ltac:(rewrite Hd; reflexivity))).
  assert (Hid := scan_len_mono A.ident_char A_lexable rest
            (fun d Hd => A_run_lexable d
               ltac:(rewrite Hd; apply orb_true_r))).
  unfold A_lexable at 1.
  destruct (is_blank c); simpl; [apply IH; lia|].
  destruct (Ascii.eqb c ","); simpl; [apply Hpush; lia|].
  destruct (Ascii.eqb c ":"); simpl; [apply Hpush; lia|].
  destruct (Ascii.eqb c "#"); simpl; [apply Hpush; lia|].
  destruct (Ascii.eqb c "["); simpl; [apply Hpush; lia|].
  destruct (Ascii.eqb c "]"); simpl; [apply Hpush; lia|].
  destruct (Ascii.eqb c "+"); simpl; [apply Hpush; lia|].
  destruct (isdigit c); simpl; [apply Hpush; assumption|].
  destruct (isalpha c || Ascii.eqb c "_"); simpl; [apply Hpush; assumption|].
  reflexivity.
Qed.

Lemma B_tokenize_from_lexable work : forall k,
  (k <= scan_len B_lexable work)%nat ->
  if string_forall B_lexable work
  then exists toks, B.tokenize_from work k = Ok toks
  else B.tokenize_from work k = Err B.lex_error.
Proof.
  induction work as [|c rest IH]; intros k Hk; simpl in *.
  { eauto. }
  assert (Hpush : forall t n, (n <= scan_len B_lexable rest)%nat ->
            if string_forall B_lexable rest
            then exists toks, push t (B.tokenize_from rest n) = Ok toks
            else push t (B.tokenize_from rest n) = Err B.lex_error).
  { intros t n Hn. specialize (IH n Hn).
    destruct (string_forall B_lexable rest).
    - destruct IH as [toks ->]. simpl. eauto.
    - rewrite IH. reflexivity. }
  destruct k as [|k].
  2:{ destruct (B_lexable c); [|lia]. simpl. apply IH. lia. }
  clear Hk.
  assert (Hnum := scan_len_mono B.number_char B_lexable rest
            (fun d Hd => B_run_lexable d
               ltac:(rewrite Hd; reflexivity))).
  assert (Hid := scan_len_mono B.ident_char B_lexable rest
            (fun d Hd => B_run_lexable d
               ltac:(rewrite Hd; apply orb_true_r))).
  unfold B_lexable at 1.
  destruct (is_blank c); simpl; [apply IH; lia|].
  destruct (Ascii.eqb c ","); simpl; [apply Hpush; lia|].
  destruct (Ascii.eqb c ":"); simpl; [apply Hpush; lia|].
  destruct (Ascii.eqb c "#"); simpl; [apply Hpush; lia|].
  destruct (isdigit c); simpl; [apply Hpush; assumption|].
  destruct (isalpha c || Ascii.eqb c "_" || Ascii.eqb c "."); simpl;
    [apply Hpush; assumption|].
  reflexivity.
Qed.

(** The character at which a lexer stops, with its index in the line. *)
Fixpoint first_unexpected (lexable : ascii -> bool) (work : string) (i : nat)
  : option (ascii * nat) :=
  match work with
  | EmptyString => None
  | String c rest =>
      if lexable c then first_unexpected lexable rest (S i) else Some (c, i)
  end.

(** C8, as the code has it. A line that holds, before its comment, a
    character for which the lexer has no rule (a character that is neither
    one of the blanks, nor a letter, a digit or an underscore, nor one of
    the punctuation marks of that lexer) makes the lexer fail; every other
    line is tokenized. The exception is a [std::runtime_error] with one
    fixed message: it is the same for every character and every
    position. *)
Theorem C8_lex_error :
  (forall line ln,
     ((exists c, In c (list_ascii_of_string (strip_comment line)) /\
                 A_lexable c = false) ->
      A.tokenize_line line ln = Err A.lex_error) /\
     ((forall c, In c (list_ascii_of_string (strip_comment line)) ->
                 A_lexable c = true) ->
      exists toks, A.tokenize_line line ln = Ok toks)) /\
  (forall line,
     ((exists c, In c (list_ascii_of_string (strip_comment line)) /\
                 B_lexable c = false) ->
      B.tokenize_line line = Err B.lex_error) /\
     ((forall c, In c (list_ascii_of_string (strip_comment line)) ->
                 B_lexable c = true) ->
      exists toks, B.tokenize_line line = Ok toks)).
Proof.
  split.
  - intros line ln. unfold A.tokenize_line.
    pose proof (A_tokenize_from_lexable (strip_comment line) ln 0 0
                  ltac:(lia)) as H.
    destruct (string_forall A_lexable (strip_comment line)) eqn:E.
    + split; [|auto]. intros Hex. apply string_forall_In in Hex. congruence.
    + split; [auto|]. intros Hall. apply string_forall_In in E.
      destruct E as (c & Hin & Hc). rewrite (Hall _ Hin) in Hc. discriminate.
  - intros line. unfold B.tokenize_line.
    pose proof (B_tokenize_from_lexable (strip_comment line) 0
                  ltac:(lia)) as H.
    destruct (string_forall B_lexable (strip_comment line)) eqn:E.
    + split; [|auto]. intros Hex. apply string_forall_In in Hex. congruence.
    + split; [auto|]. intros Hall. apply string_forall_In in E.
      destruct E as (c & Hin & Hc). rewrite (Hall _ Hin) in Hc. discriminate.
Qed.

(** ** Commas in the operand list *)

(** A position of a token sequence where a comma does not come between a
    ['#'] and the token after it: the tokens before the position do not end
    with ['#']. *)
Definition A_not_after_hash (l1 : list A.Token) : Prop :=
  forall t, last l1 = Some t -> A.type t <> A.Hash.

Definition B_not_after_hash (l1 : list B.Token) : Prop :=
  forall t, last l1 = Some t -> B.type t <> B.Hash.

Lemma A_not_after_hash_tail t t' l :
  A_not_after_hash (t :: t' :: l) -> A_not_after_hash (t' :: l).
Proof. intros H u Hu. apply H. rewrite last_cons, Hu. reflexivity. Qed.

Lemma B_not_after_hash_tail t t' l :
  B_not_after_hash (t :: t' :: l) -> B_not_after_hash (t' :: l).
Proof. intros H u Hu. apply H. rewrite last_cons, Hu. reflexivity. Qed.

Lemma A_parse_operands_comma_len n : forall l1 c l2,
  (length l1 <= n)%nat ->
  A.type c = A.Comma -> A_not_after_hash l1 ->
  A.parse_operands (l1 ++ c :: l2) = A.parse_operands (l1 ++ l2).
Proof.
  induction n as [|n IH]; intros l1 c l2 Hlen Hc Hl1.
  { destruct l1; [|simpl in Hlen; lia]. simpl. rewrite Hc. reflexivity. }
  destruct l1 as [|t rest]; [simpl; rewrite Hc; reflexivity|].
  simpl in Hlen.
  assert (Hrest : A.parse_operands (rest ++ c :: l2) =
                  A.parse_operands (rest ++ l2)).
  { apply IH; [lia | assumption|].
    destruct rest as [|t' rest']; [intros u Hu; discriminate|].
    eapply A_not_after_hash_tail. eassumption. }
  simpl. destruct (A.type t) eqn:Et; try rewrite Hrest; try reflexivity.
  destruct rest as [|nb rest'].
  { exfalso. apply (Hl1 t); [reflexivity | assumption]. }
  simpl. destruct (A.type nb) eqn:En; try reflexivity.
  rewrite (IH rest' c l2); [reflexivity | simpl in Hlen; lia | assumption|].
  destruct rest' as [|t' rest'']; [intros u Hu; discriminate|].
  eapply A_not_after_hash_tail, A_not_after_hash_tail. eassumption.
Qed.

Lemma A_parse_operands_comma l1 c l2 :
  A.type c = A.Comma -> A_not_after_hash l1 ->
  A.parse_operands (l1 ++ c :: l2) = A.parse_operands (l1 ++ l2).
Proof. apply (A_parse_operands_comma_len (length l1)). lia. Qed.

Lemma B_parse_operands_comma_len n : forall l1 c l2,
  (length l1 <= n)%nat ->
  B.type c = B.Comma -> B_not_after_hash l1 ->
  B.parse_operands (l1 ++ c :: l2) = B.parse_operands (l1 ++ l2).
Proof.
  induction n as [|n IH]; intros l1 c l2 Hlen Hc Hl1.
  { destruct l1; [|simpl in Hlen; lia]. simpl. rewrite Hc. reflexivity. }
  destruct l1 as [|t rest]; [simpl; rewrite Hc; reflexivity|].
  simpl in Hlen.
  assert (Hrest : B.parse_operands (rest ++ c :: l2) =
                  B.parse_operands (rest ++ l2)).
  { apply IH; [lia | assumption|].
    destruct rest as [|t' rest']; [intros u Hu; discriminate|].
    eapply B_not_after_hash_tail. eassumption. }
  simpl. destruct (B.type t) eqn:Et; try rewrite Hrest; try reflexivity.
  destruct rest as [|nb rest'].
  { exfalso. apply (Hl1 t); [reflexivity | assumption]. }
  simpl. destruct (B.type nb) eqn:En; try reflexivity.
  rewrite (IH rest' c l2); [reflexivity | simpl in Hlen; lia | assumption|].
  destruct rest' as [|t' rest'']; [intros u Hu; discriminate|].
  eapply B_not_after_hash_tail, B_not_after_hash_tail. eassumption.
Qed.

Lemma B_parse_operands_comma l1 c l2 :
  B.type c = B.Comma -> B_not_after_hash l1 ->
  B.parse_operands (l1 ++ c :: l2) = B.parse_operands (l1 ++ l2).
Proof. apply (B_parse_operands_comma_len (length l1)). lia. Qed.

(** The tokens in front of the operand list: a mnemonic, with or without a
    label and its colon in front. The operand list [ops] that follows a
    lone mnemonic does not start with a colon (the mnemonic would be a
    label). *)
Inductive A_line_head : list A.Token -> list A.Token -> Prop :=
| A_head_label lab colon m ops :
    A.type lab = A.Identifier -> A.type colon = A.Colon ->
    A_line_head [lab; colon; m] ops
| A_head_plain m ops :
    (forall t, head ops = Some t -> A.type t <> A.Colon) ->
    A_line_head [m] ops.

Inductive B_line_head : list B.Token -> list B.Token -> Prop :=
| B_head_label lab colon m ops :
    B.type lab = B.Identifier -> B.type colon = B.Colon ->
    B_line_head [lab; colon; m] ops
| B_head_plain m ops :
    (forall t, head ops = Some t -> B.type t <> B.Colon) ->
    B_line_head [m] ops.

Lemma A_split_label_plain m ops :
  (forall t, head ops = Some t -> A.type t <> A.Colon) ->
  A.split_label (m :: ops) = (EmptyString, m :: ops).
Proof.
  intros Hops. unfold A.split_label.
  destruct ops as [|t ops']; [reflexivity|].
  destruct (A.type m); try reflexivity.
  destruct (A.type t) eqn:Et; try reflexivity.
  exfalso. apply (Hops t); [reflexivity | assumption].
Qed.

Lemma B_split_label_plain m ops :
  (forall t, head ops = Some t -> B.type t <> B.Colon) ->
  B.split_label (m :: ops) = (EmptyString, m :: ops).
Proof.
  intros Hops. unfold B.split_label.
  destruct ops as [|t ops']; [reflexivity|].
  destruct (B.type m); try reflexivity.
  destruct (B.type t) eqn:Et; try reflexivity.
  exfalso. apply (Hops t); [reflexivity | assumption].
Qed.

Lemma A_parse_tokens_comma hd l1 c l2 :
  A_line_head hd (l1 ++ l2) ->
  A.type c = A.Comma -> A_not_after_hash l1 ->
  A.parse_tokens (hd ++ l1 ++ c :: l2) = A.parse_tokens (hd ++ l1 ++ l2).
Proof.
  intros Hhd Hc Hl1.
  pose proof (A_parse_operands_comma l1 c l2 Hc Hl1) as Hops.
  inversion Hhd as [lab colon m ops Hl Hcol | m ops Hplain]; subst.
  - unfold A.parse_tokens, A.parse_mnemonic. simpl. rewrite Hl, Hcol.
    destruct (A.type m); try reflexivity. rewrite Hops. reflexivity.
  - change ([m] ++ l1 ++ c :: l2) with (m :: (l1 ++ c :: l2)).
    change ([m] ++ l1 ++ l2) with (m :: (l1 ++ l2)).
    unfold A.parse_tokens.
    rewrite (A_split_label_plain m (l1 ++ l2) Hplain).
    rewrite (A_split_label_plain m (l1 ++ c :: l2)).
    + unfold A.parse_mnemonic.
      destruct (A.type m); try reflexivity. rewrite Hops. reflexivity.
    + intros t Ht. destruct l1 as [|t1 l1']; simpl in Ht.
      * injection Ht as <-. rewrite Hc. discriminate.
      * apply Hplain. exact Ht.
Qed.

Lemma B_parse_line_tokens_comma hd l1 c l2 :
  B_line_head hd (l1 ++ l2) ->
  B.type c = B.Comma -> B_not_after_hash l1 ->
  B.parse_line_tokens (hd ++ l1 ++ c :: l2) =
  B.parse_line_tokens (hd ++ l1 ++ l2).
Proof.
  intros Hhd Hc Hl1.
  pose proof (B_parse_operands_comma l1 c l2 Hc Hl1) as Hops.
  inversion Hhd as [lab colon m ops Hl Hcol | m ops Hplain]; subst.
  - unfold B.parse_line_tokens, B.parse_mnemonic. simpl. rewrite Hl, Hcol.
    destruct (B.type m); try reflexivity. rewrite Hops. reflexivity.
  - change ([m] ++ l1 ++ c :: l2) with (m :: (l1 ++ c :: l2)).
    change ([m] ++ l1 ++ l2) with (m :: (l1 ++ l2)).
    unfold B.parse_line_tokens.
    rewrite (B_split_label_plain m (l1 ++ l2) Hplain).
    rewrite (B_split_label_plain m (l1 ++ c :: l2)).
    + unfold B.parse_mnemonic.
      destruct (B.type m); try reflexivity. rewrite Hops. reflexivity.
    + intros t Ht. destruct l1 as [|t1 l1']; simpl in Ht.
      * injection Ht as <-. rewrite Hc. discriminate.
      * apply Hplain. exact Ht.
Qed.

(** C10, as the code has it. In the operand list of a line, a comma token
    can be inserted or deleted at every position that does not separate a
    ['#'] from the token after it: the line parses to the same result, or
    fails with the same error. Repeating the step inserts or deletes any
    number of commas. This holds of the operand loop and of the line parser
    of both versions, and ["ADD R0 R1"], ["ADD R0, R1"] and ["ADD R0,,R1"]
    assemble to the same bytes. *)
Theorem C10_commas_are_skipped :
  (forall l1 c l2, A.type c = A.Comma -> A_not_after_hash l1 ->
     A.parse_operands (l1 ++ c :: l2) = A.parse_operands (l1 ++ l2)) /\
  (forall hd l1 c l2, A_line_head hd (l1 ++ l2) ->
     A.type c = A.Comma -> A_not_after_hash l1 ->
     A.parse_tokens (hd ++ l1 ++ c :: l2) = A.parse_tokens (hd ++ l1 ++ l2)) /\
  (forall l1 c l2, B.type c = B.Comma -> B_not_after_hash l1 ->
     B.parse_operands (l1 ++ c :: l2) = B.parse_operands (l1 ++ l2)) /\
  (forall hd l1 c l2, B_line_head hd (l1 ++ l2) ->
     B.type c = B.Comma -> B_not_after_hash l1 ->
     B.parse_line_tokens (hd ++ l1 ++ c :: l2) =
     B.parse_line_tokens (hd ++ l1 ++ l2)) /\
  (A.assemble "ADD R0 R1" = Ok [4; 40] /\
   A.assemble "ADD R0, R1" = Ok [4; 40] /\
   A.assemble "ADD R0,,R1" = Ok [4; 40]) /\
  (B.assemble "ADD R0 R1" = Ok [4; 40] /\
   B.assemble "ADD R0, R1" = Ok [4; 40] /\
   B.assemble "ADD R0,,R1" = Ok [4; 40]).
Proof.
  split; [exact A_parse_operands_comma|].
  split; [exact A_parse_tokens_comma|].
  split; [exact B_parse_operands_comma|].
  split; [exact B_parse_line_tokens_comma|].
  split; repeat split; vm_compute; reflexivity.
Qed.

(** ** Strings, blanks and [trim] *)

#[local] Arguments String.append !s1 s2 : simpl nomatch.

Definition blank (s : string) : bool := string_forall is_blank s.

Lemma append_assoc (a b c : string) : (a +:+ b) +:+ c = a +:+ (b +:+ c).
Proof. induction a as [|x a IH]; simpl; [reflexivity | rewrite IH; reflexivity]. Qed.

Lemma append_empty_r (a : string) : a +:+ EmptyString = a.
Proof. induction a as [|x a IH]; simpl; [reflexivity | rewrite IH; reflexivity]. Qed.

Lemma substr_app_le (s1 s2 : string) (n : nat) :
  (n <= String.length s1)%nat -> substr (s1 +:+ s2) 0 n = substr s1 0 n.
Proof.
  revert n. induction s1 as [|c s1 IH]; intros n Hn; simpl in *.
  - assert (n = O) by lia. subst. destruct s2; reflexivity.
  - destruct n as [|n]; [reflexivity|].
    unfold substr in *. simpl. rewrite IH by lia. reflexivity.
Qed.

Lemma substr_app_skip (w s : string) (pos len : nat) :
  substr (w +:+ s) (String.length w + pos) len = substr s pos len.
Proof. induction w as [|c w IH]; simpl; [reflexivity | exact IH]. Qed.

Lemma substr_app_keep (w s : string) (len : nat) :
  substr (w +:+ s) 0 (String.length w + len) = w +:+ substr s 0 len.
Proof.
  induction w as [|c w IH]; simpl; [reflexivity|].
  unfold substr in *. simpl. rewrite IH. reflexivity.
Qed.

Lemma substr_full (s : string) : substr s 0 (String.length s) = s.
Proof.
  induction s as [|c s IH]; simpl; [reflexivity|].
  unfold substr in *. simpl. rewrite IH. reflexivity.
Qed.

Lemma scan_len_le (p : ascii -> bool) (s : string) :
  (scan_len p s <= String.length s)%nat.
Proof. induction s as [|c s IH]; simpl; [lia|]. destruct (p c); lia. Qed.

(** The first character that is not a blank splits the string. *)
Lemma find_first_not_blank_split (s : string) :
  match find_first_not_blank s with
  | None => blank s = true
  | Some start =>
      exists w c t, s = w +:+ String c t /\ blank w = true /\
                    is_blank c = false /\ String.length w = start
  end.
Proof.
  induction s as [|c s IH]; simpl; [reflexivity|].
  destruct (is_blank c) eqn:Ec.
  - destruct (find_first_not_blank s) as [start|]; simpl.
    + destruct IH as (w & d & t & -> & Hw & Hd & Hlen).
      exists (String c w), d, t. simpl. unfold blank in *. simpl.
      rewrite Ec, Hw, Hlen. auto.
    + unfold blank in *. simpl. rewrite Ec. exact IH.
  - exists EmptyString, c, s. auto.
Qed.

(** The last character that is not a blank splits the string. *)
Lemma find_last_not_blank_split (s : string) :
  match find_last_not_blank s with
  | None => blank s = true
  | Some e =>
      exists w, s = substr s 0 (S e) +:+ w /\ blank w = true /\
                (S e <= String.length s)%nat
  end.
Proof.
  induction s as [|c s IH]; simpl; [reflexivity|].
  destruct (find_last_not_blank s) as [e|].
  - destruct IH as (w & Hs & Hw & Hlen).
    exists w. unfold substr in *. simpl. rewrite <- Hs.
    split; [reflexivity|]. split; [assumption | lia].
  - destruct (is_blank c) eqn:Ec.
    + unfold blank in *. simpl. rewrite Ec. exact IH.
    + exists s. unfold substr. simpl.
      split; [destruct s; reflexivity|]. split; [assumption | lia].
Qed.

Lemma find_last_not_blank_app (w s : string) :
  blank w = true ->
  find_last_not_blank (w +:+ s) =
  (fun e => (String.length w + e)%nat) <$> find_last_not_blank s.
Proof.
  intros Hw. induction w as [|c w IH]; simpl.
  - destruct (find_last_not_blank s); reflexivity.
  - unfold blank in Hw. simpl in Hw. apply andb_true_iff in Hw as [Hc Hw].
    rewrite (IH Hw). destruct (find_last_not_blank s); simpl; [reflexivity|].
    rewrite Hc. reflexivity.
Qed.

(** A line is its [trim] between two runs of blanks. *)
Lemma trim_split (s : string) :
  exists w1 w2, s = w1 +:+ trim s +:+ w2 /\ blank w1 = true /\ blank w2 = true.
Proof.
  unfold trim.
  pose proof (find_first_not_blank_split s) as Hf.
  destruct (find_first_not_blank s) as [start|].
  2:{ exists s, EmptyString. rewrite append_empty_r. auto. }
  destruct Hf as (w & c & t & -> & Hw & Hc & Hlen).
  rewrite (find_last_not_blank_app _ _ Hw).
  pose proof (find_last_not_blank_split (String c t)) as Hl.
  destruct (find_last_not_blank (String c t)) as [e|] eqn:El.
  2:{ unfold blank in Hl. simpl in Hl. rewrite Hc in Hl. discriminate. }
  simpl. destruct Hl as (w2 & Hs & Hw2 & Hle).
  exists w, w2. split; [|auto].
  replace (String.length w + e - start + 1)%nat with (S e) by lia.
  rewrite <- Hlen.
  pose proof (substr_app_skip w (String c t) 0 (S e)) as Hk.
  rewrite Nat.add_0_r in Hk. rewrite Hk, <- Hs. reflexivity.
Qed.

Lemma trim_empty_blank (s : string) : trim s = EmptyString -> blank s = true.
Proof.
  intros Ht. destruct (trim_split s) as (w1 & w2 & Hs & Hw1 & Hw2).
  rewrite Ht in Hs. simpl in Hs. rewrite Hs.
  clear -Hw1 Hw2. unfold blank in *.
  induction w1 as [|c w1 IH]; simpl in *; [assumption|].
  apply andb_true_iff in Hw1 as [-> Hw1]. simpl. auto.
Qed.

(** ** Comments *)

Lemma find_char_app_absent (c : ascii) (w s : string) :
  find_char c w = None ->
  find_char c (w +:+ s) =
  (fun p => (String.length w + p)%nat) <$> find_char c s.
Proof.
  intros Hw. induction w as [|d w IH]; simpl in *.
  - destruct (find_char c s); reflexivity.
  - destruct (Ascii.eqb d c); [discriminate|].
    destruct (find_char c w); [discriminate|].
    rewrite (IH eq_refl). destruct (find_char c s); reflexivity.
Qed.

Lemma find_char_app_present (c : ascii) (s w : string) (p : nat) :
  find_char c s = Some p ->
  find_char c (s +:+ w) = Some p /\ (p <= String.length s)%nat.
Proof.
  revert p. induction s as [|d s IH]; intros p H; simpl in *; [discriminate|].
  destruct (Ascii.eqb d c); [injection H as <-; split; [reflexivity | lia]|].
  destruct (find_char c s) as [q|]; [|discriminate].
  injection H as <-. destruct (IH q eq_refl) as [-> Hq].
  split; [reflexivity | lia].
Qed.

Lemma blank_no_semicolon (w : string) :
  blank w = true -> find_char ";" w = None.
Proof.
  unfold blank. induction w as [|c w IH]; simpl; [reflexivity|].
  intros H. apply andb_true_iff in H as [Hc Hw].
  rewrite (IH Hw).
  destruct (Ascii.eqb c ";") eqn:E; [|reflexivity].
  apply Ascii.eqb_eq in E. subst. discriminate.
Qed.

(** The text in front of the comment of a line, seen from its [trim]. *)
Lemma strip_comment_trim (l : string) :
  exists w1 w2, strip_comment l = w1 +:+ strip_comment (trim l) +:+ w2 /\
                blank w1 = true /\ blank w2 = true.
Proof.
  destruct (trim_split l) as (w1 & w2 & Hl & Hw1 & Hw2).
  set (t := trim l) in *. rewrite Hl. unfold strip_comment.
  rewrite (find_char_app_absent _ _ _ (blank_no_semicolon _ Hw1)).
  destruct (find_char ";" t) as [p|] eqn:Et.
  - destruct (find_char_app_present _ _ w2 _ Et) as [-> Hp]. simpl.
    exists w1, EmptyString. rewrite append_empty_r.
    rewrite substr_app_keep, substr_app_le by assumption. auto.
  - rewrite (find_char_app_absent _ _ _ Et).
    rewrite (blank_no_semicolon _ Hw2). simpl.
    exists w1, w2. auto.
Qed.

(** ** The second lexer does not see the blanks around a line *)

Lemma blank_not_run_char (c : ascii) :
  is_blank c = true ->
  A.number_char c = false /\ A.ident_char c = false /\
  B.number_char c = false /\ B.ident_char c = false.
Proof. destruct c as [[] [] [] [] [] [] [] []]; vm_compute; auto. Qed.

Lemma scan_len_app_blank (p : ascii -> bool) (rest w : string) :
  blank w = true -> (forall c, is_blank c = true -> p c = false) ->
  scan_len p (rest +:+ w) = scan_len p rest.
Proof.
  intros Hw Hp. induction rest as [|c rest IH]; simpl.
  - destruct w as [|d w]; [reflexivity|]. simpl.
    unfold blank in Hw. simpl in Hw. apply andb_true_iff in Hw as [Hd _].
    rewrite (Hp _ Hd). reflexivity.
  - destruct (p c); [rewrite IH|]; reflexivity.
Qed.

Lemma B_tokenize_blank (w : string) :
  blank w = true -> forall k, B.tokenize_from w k = Ok [].
Proof.
  unfold blank. induction w as [|c w IH]; intros Hw k; simpl; [reflexivity|].
  simpl in Hw. apply andb_true_iff in Hw as [Hc Hw].
  destruct k; [rewrite Hc|]; auto.
Qed.

Lemma B_tokenize_blank_prefix (w s : string) :
  blank w = true -> B.tokenize_from (w +:+ s) 0 = B.tokenize_from s 0.
Proof.
  unfold blank. induction w as [|c w IH]; intros Hw; simpl; [reflexivity|].
  simpl in Hw. apply andb_true_iff in Hw as [Hc Hw].
  rewrite Hc. auto.
Qed.

Lemma B_tokenize_blank_suffix (s w : string) :
  blank w = true ->
  forall k, B.tokenize_from (s +:+ w) k = B.tokenize_from s k.
Proof.
  intros Hw. induction s as [|c rest IH]; intros k.
  { simpl. rewrite (B_tokenize_blank _ Hw). destruct k; reflexivity. }
  simpl. destruct k as [|k]; [|apply IH].
  rewrite !IH.
  rewrite (scan_len_app_blank B.number_char rest w Hw)
    by (intros d Hd; apply (blank_not_run_char d Hd)).
  rewrite (scan_len_app_blank B.ident_char rest w Hw)
    by (intros d Hd; apply (blank_not_run_char d Hd)).
  pose proof (substr_app_le rest w _ (scan_len_le B.number_char rest)) as En.
  pose proof (substr_app_le rest w _ (scan_len_le B.ident_char rest)) as Ei.
  unfold substr in *. rewrite En, Ei. reflexivity.
Qed.

Lemma B_tokenize_line_trim (l : string) :
  B.tokenize_line (trim l) = B.tokenize_line l.
Proof.
  unfold B.tokenize_line.
  destruct (strip_comment_trim l) as (w1 & w2 & -> & Hw1 & Hw2).
  rewrite (B_tokenize_blank_prefix _ _ Hw1).
  rewrite (B_tokenize_blank_suffix _ _ Hw2). reflexivity.
Qed.

(** ** The two lexers on a line without ['.'] *)

(** A result without the exception that it carries. *)
Definition forget {X : Type} (r : result X) : option X :=
  match r with
  | Ok x => Some x
  | Err _ => None
  end.

(** The token of the second lexer for a token of the first one: identifiers
    are upper-cased, the three punctuation marks of indexed addressing have
    no counterpart. *)
Definition conv_token (t : A.Token) : option B.Token :=
  match A.type t with
  | A.Identifier => Some (B.mkToken B.Identifier (upper_string (A.text t)))
  | A.Number => Some (B.mkToken B.Number (A.text t))
  | A.Register => Some (B.mkToken B.Register (A.text t))
  | A.Comma => Some (B.mkToken B.Comma (A.text t))
  | A.Colon => Some (B.mkToken B.Colon (A.text t))
  | A.Hash => Some (B.mkToken B.Hash (A.text t))
  | A.LBracket | A.RBracket | A.Plus => None
  end.

Fixpoint conv_tokens (ts : list A.Token) : option (list B.Token) :=
  match ts with
  | [] => Some []
  | t :: ts' =>
      match conv_token t, conv_tokens ts' with
      | Some b, Some bs => Some (b :: bs)
      | _, _ => None
      end
  end.

Definition not_dot (c : ascii) : bool := negb (Ascii.eqb c ".").

Lemma scan_len_no_dot (rest : string) :
  string_forall not_dot rest = true ->
  scan_len B.ident_char rest = scan_len A.ident_char rest.
Proof.
  induction rest as [|c rest IH]; simpl; [reflexivity|].
  intros H. apply andb_true_iff in H as [Hc Hrest].
  unfold B.ident_char, A.ident_char in *.
  unfold not_dot in Hc. apply negb_true_iff in Hc. rewrite Hc, orb_false_r.
  destruct (isalnum c || Ascii.eqb c "_"); [rewrite IH by assumption|];
    reflexivity.
Qed.

Lemma push_conv tA tB (rA : result (list A.Token)) (rB : result (list B.Token)) :
  conv_token tA = Some tB ->
  forget rB = forget rA ≫= conv_tokens ->
  forget (push tB rB) = forget (push tA rA) ≫= conv_tokens.
Proof.
  intros Ht Hr. destruct rA as [tsA|eA], rB as [tsB|eB]; simpl in *;
    rewrite ?Ht.
  - rewrite <- Hr. reflexivity.
  - rewrite <- Hr. reflexivity.
  - discriminate.
  - reflexivity.
Qed.

Lemma push_conv_none tA (rA : result (list A.Token)) :
  conv_token tA = None -> forget (push tA rA) ≫= conv_tokens = None.
Proof. intros Ht. destruct rA; simpl; [rewrite Ht|]; reflexivity. Qed.

Lemma bracket_not_start (c : ascii) :
  Ascii.eqb c "[" || Ascii.eqb c "]" || Ascii.eqb c "+" = true ->
  isdigit c = false /\
  isalpha c || Ascii.eqb c "_" || Ascii.eqb c "." = false.
Proof. destruct c as [[] [] [] [] [] [] [] []]; vm_compute; auto. Qed.

Lemma AB_tokenize work :
  string_forall not_dot work = true ->
  forall ln i k,
    forget (B.tokenize_from work k) =
    forget (A.tokenize_from ln work i k) ≫= conv_tokens.
Proof.
  induction work as [|c rest IH]; intros Hnd ln i k; [reflexivity|].
  simpl in Hnd. apply andb_true_iff in Hnd as [Hc Hrest].
  specialize (IH Hrest).
  unfold not_dot in Hc. apply negb_true_iff in Hc.
  destruct k as [|k]; [|apply IH].
  cbn [A.tokenize_from B.tokenize_from].
  destruct (is_blank c); [apply IH|].
  destruct (Ascii.eqb c ",") eqn:E1.
  { apply Ascii.eqb_eq in E1. subst c. apply push_conv; [reflexivity | apply IH]. }
  destruct (Ascii.eqb c ":") eqn:E2.
  { apply Ascii.eqb_eq in E2. subst c. apply push_conv; [reflexivity | apply IH]. }
  destruct (Ascii.eqb c "#") eqn:E3.
  { apply Ascii.eqb_eq in E3. subst c. apply push_conv; [reflexivity | apply IH]. }
  pose proof (bracket_not_start c) as Hb.
  destruct (Ascii.eqb c "[").
  { destruct (Hb eq_refl) as [-> ->]. rewrite push_conv_none; reflexivity. }
  destruct (Ascii.eqb c "]").
  { destruct (Hb eq_refl) as [-> ->]. rewrite push_conv_none; reflexivity. }
  destruct (Ascii.eqb c "+").
  { destruct (Hb eq_refl) as [-> ->]. rewrite push_conv_none; reflexivity. }
  clear Hb.
  destruct (isdigit c).
  { apply push_conv; [reflexivity | apply IH]. }
  rewrite Hc, orb_false_r.
  destruct (isalpha c || Ascii.eqb c "_"); [|reflexivity].
  rewrite (scan_len_no_dot _ Hrest).
  apply push_conv; [|apply IH].
  destruct (is_register_name _); reflexivity.
Qed.

(** ** The two line parsers *)

Definition conv_operand (o : A.Operand) : B.Operand :=
  match A.kind o with
  | A.Reg => B.mkOperand B.Reg (A.otext o)
  | A.Imm => B.mkOperand B.Imm (A.otext o)
  | A.LabelRef => B.mkOperand B.Label (upper_string (A.otext o))
  | A.RawNumber => B.mkOperand B.Number_ (A.otext o)
  end.

(** The line of the second parser for a line of the first one. *)
Definition conv_line (pl : A.ParsedLine) : B.Line :=
  B.mkLine (upper_string (A.label pl)) (upper_string (A.op pl))
    (starts_with_dot (upper_string (A.op pl)))
    (map conv_operand (A.operands pl)).

Lemma forget_push {X : Type} (x : X) (r : result (list X)) :
  forget (push x r) = cons x <$> forget r.
Proof. destruct r; reflexivity. Qed.

Lemma AB_parse_operands_len n : forall tsA, (length tsA <= n)%nat ->
  match conv_tokens tsA with
  | Some tsB =>
      forget (B.parse_operands tsB) =
      map conv_operand <$> forget (A.parse_operands tsA)
  | None => forget (A.parse_operands tsA) = None
  end.
Proof.
  induction n as [|n IH]; intros tsA Hlen.
  { destruct tsA; [reflexivity | simpl in Hlen; lia]. }
  destruct tsA as [|t rest]; [reflexivity|].
  simpl in Hlen.
  pose proof (IH rest ltac:(lia)) as IHrest.
  cbn [conv_tokens A.parse_operands]. unfold conv_token.
  destruct (A.type t) eqn:Et; try reflexivity.
  - (* Identifier *)
    destruct (conv_tokens rest) as [tsB|]; cbn [B.parse_operands B.type];
      rewrite ?forget_push; [rewrite IHrest|rewrite IHrest; reflexivity].
    destruct (forget (A.parse_operands rest)); reflexivity.
  - (* Number *)
    destruct (conv_tokens rest) as [tsB|]; cbn [B.parse_operands B.type];
      rewrite ?forget_push; [rewrite IHrest|rewrite IHrest; reflexivity].
    destruct (forget (A.parse_operands rest)); reflexivity.
  - (* Register *)
    destruct (conv_tokens rest) as [tsB|]; cbn [B.parse_operands B.type];
      rewrite ?forget_push; [rewrite IHrest|rewrite IHrest; reflexivity].
    destruct (forget (A.parse_operands rest)); reflexivity.
  - (* Comma *)
    destruct (conv_tokens rest) as [tsB|]; cbn [B.parse_operands B.type];
      exact IHrest.
  - (* Colon *)
    destruct (conv_tokens rest) as [tsB|]; reflexivity.
  - (* Hash *)
    destruct rest as [|nb rest']; [reflexivity|].
    simpl in Hlen.
    pose proof (IH rest' ltac:(lia)) as IHrest'.
    cbn [conv_tokens]. unfold conv_token.
    destruct (A.type nb) eqn:En;
      try (destruct (conv_tokens rest'); reflexivity).
    destruct (conv_tokens rest') as [tsB|]; cbn [B.parse_operands B.type];
      rewrite ?forget_push; [rewrite IHrest'|rewrite IHrest'; reflexivity].
    destruct (forget (A.parse_operands rest')); reflexivity.
Qed.

Lemma AB_parse_operands tsA :
  match conv_tokens tsA with
  | Some tsB =>
      forget (B.parse_operands tsB) =
      map conv_operand <$> forget (A.parse_operands tsA)
  | None => forget (A.parse_operands tsA) = None
  end.
Proof. apply (AB_parse_operands_len (length tsA)). lia. Qed.

Lemma starts_with_dot_upper (s : string) :
  starts_with_dot (upper_string s) = starts_with_dot s.
Proof.
  destruct s as [|c s]; [reflexivity|]. simpl.
  destruct c as [[] [] [] [] [] [] [] []]; reflexivity.
Qed.

Lemma AB_parse_mnemonic ln lbl restA :
  match conv_tokens restA with
  | Some restB =>
      forget (B.parse_mnemonic (upper_string lbl) restB) =
      conv_line <$> forget (A.parse_mnemonic ln lbl restA)
  | None => forget (A.parse_mnemonic ln lbl restA) = None
  end.
Proof.
  destruct restA as [|t rest']; [reflexivity|].
  pose proof (AB_parse_operands rest') as Hops.
  cbn [conv_tokens A.parse_mnemonic]. unfold conv_token.
  destruct (A.type t) eqn:Et;
    try (destruct (conv_tokens rest'); reflexivity).
  destruct (conv_tokens rest') as [tsB|]; cbn [B.parse_mnemonic B.type B.text].
  - destruct (A.parse_operands rest') as [opsA|eA],
             (B.parse_operands tsB) as [opsB|eB];
      simpl in Hops |- *; try discriminate; [|reflexivity].
    injection Hops as ->. unfold conv_line. simpl.
    rewrite starts_with_dot_upper.
    destruct (starts_with_dot (A.text t)); reflexivity.
  - destruct (A.parse_operands rest'); [discriminate | reflexivity].
Qed.

Lemma AB_parse_tokens tsA :
  match conv_tokens tsA with
  | Some tsB =>
      forget (B.parse_line_tokens tsB) =
      conv_line <$> forget (A.parse_tokens tsA)
  | None => forget (A.parse_tokens tsA) = None
  end.
Proof.
  destruct tsA as [|front tl]; [reflexivity|].
  pose proof (AB_parse_mnemonic (A.line front) EmptyString (front :: tl))
    as Hplain.
  unfold A.parse_tokens, A.split_label.
  destruct tl as [|t1 tl'].
  { revert Hplain.
    destruct (conv_tokens [front]) as [tsB|] eqn:Ec; intros Hplain;
      [|exact Hplain].
    simpl in Ec. destruct (conv_token front); [|discriminate].
    injection Ec as <-. exact Hplain. }
  destruct (A.type front) eqn:Ef, (A.type t1) eqn:E1;
    try (revert Hplain;
         destruct (conv_tokens (front :: t1 :: tl')) as [tsB|] eqn:Ec;
         intros Hplain; [|exact Hplain];
         cbn [conv_tokens] in Ec; unfold conv_token in Ec;
         rewrite Ef in Ec; rewrite ?E1 in Ec; try discriminate Ec;
         destruct (conv_tokens tl'); try discriminate Ec;
         injection Ec as <-; exact Hplain).
  (* the label form *)
  clear Hplain.
  pose proof (AB_parse_mnemonic (A.line front) (A.text front) tl') as Hlab.
  cbn [conv_tokens]. unfold conv_token. rewrite Ef, E1.
  destruct (conv_tokens tl') as [tsB|]; exact Hlab.
Qed.

(** ** The two reading loops *)

Definition no_dot_line (l : string) : bool :=
  string_forall not_dot (strip_comment l).

Lemma forget_Ok {X : Type} (r : result X) (x : X) :
  forget r = Some x -> r = Ok x.
Proof. destruct r; simpl; congruence. Qed.

Lemma forget_bind {X Y : Type} (r : result X) (k : X -> result Y) :
  forget (r ≫= k) = forget r ≫= (fun x => forget (k x)).
Proof. destruct r; reflexivity. Qed.

Lemma AB_read_line l ln :
  no_dot_line l = true ->
  forget (B.tokenize_line (trim l) ≫= B.parse_line_tokens) =
  conv_line <$> forget (A.tokenize_line l ln ≫= A.parse_tokens).
Proof.
  intros Hnd. rewrite B_tokenize_line_trim, !forget_bind.
  unfold B.tokenize_line, A.tokenize_line.
  rewrite (AB_tokenize _ Hnd ln 0 0).
  destruct (A.tokenize_from ln (strip_comment l) 0 0) as [tsA|e]; simpl;
    [|reflexivity].
  pose proof (AB_parse_tokens tsA) as Hp.
  destruct (conv_tokens tsA) as [tsB|]; simpl.
  - exact Hp.
  - rewrite Hp. reflexivity.
Qed.

Lemma AB_read_lines ls :
  forallb no_dot_line ls = true ->
  forall ln,
    forget (B.read_lines ls) = map conv_line <$> forget (A.read_lines ls ln).
Proof.
  induction ls as [|l ls IH]; intros Hnd ln; [reflexivity|].
  simpl in Hnd. apply andb_true_iff in Hnd as [Hl Hls].
  specialize (IH Hls (ln + 1)). simpl.
  destruct (String.eqb (trim l) EmptyString); [exact IH|].
  pose proof (AB_read_line l ln Hl) as Hline.
  rewrite !forget_bind in Hline.
  rewrite !forget_bind.
  destruct (forget (B.tokenize_line (trim l))) as [tsB|],
           (forget (A.tokenize_line l ln)) as [tsA|]; simpl in *.
  - rewrite !forget_bind.
    destruct (forget (B.parse_line_tokens tsB)) as [lB|],
             (forget (A.parse_tokens tsA)) as [lA|]; simpl in *;
      try discriminate; [|reflexivity].
    injection Hline as ->. rewrite !forget_push, IH.
    destruct (forget (A.read_lines ls (ln + 1))); reflexivity.
  - rewrite forget_bind.
    destruct (forget (B.parse_line_tokens tsB)); [discriminate | reflexivity].
  - rewrite forget_bind.
    destruct (forget (A.parse_tokens tsA)); [discriminate | reflexivity].
  - reflexivity.
Qed.

(** The lines that the first parser yields from the first lexer: a line
    without mnemonic has no operation, every other line is an instruction
    with a name that does not start with ['.']. *)
Definition A_line_wf (pl : A.ParsedLine) : Prop :=
  match A.lkind pl with
  | A.Empty => A.op pl = EmptyString
  | A.Instruction =>
      A.op pl <> EmptyString /\ starts_with_dot (A.op pl) = false
  | A.Directive => False
  end.

Lemma A_tokens_nonempty work : forall ln i k toks,
  A.tokenize_from ln work i k = Ok toks ->
  Forall (fun t => A.text t <> EmptyString) toks.
Proof.
  induction work as [|c rest IH]; intros ln i k toks H; simpl in H.
  { injection H as <-. constructor. }
  destruct k as [|k]; [|eauto].
  destruct (is_blank c); [eauto|].
  repeat match type of H with
  | (if ?b then _ else _) = _ =>
      destruct b;
      [apply push_Ok in H as (toks' & H & ->);
       constructor; [try destruct (is_register_name _); discriminate | eauto]|]
  end.
  discriminate.
Qed.

Lemma A_parse_tokens_wf tokens pl :
  Forall (fun t => starts_with_dot (A.text t) = false) tokens ->
  Forall (fun t => A.text t <> EmptyString) tokens ->
  A.parse_tokens tokens = Ok pl -> A_line_wf pl.
Proof.
  intros Hdot Hne H. unfold A.parse_tokens in H.
  destruct tokens as [|front tl]; [injection H as <-; reflexivity|].
  destruct (A.split_label (front :: tl)) as [lbl rest] eqn:Es.
  assert (Hrest : Forall (fun t => starts_with_dot (A.text t) = false) rest /\
                  Forall (fun t => A.text t <> EmptyString) rest).
  { unfold A.split_label in Es.
    destruct tl as [|t1 tl']; [injection Es as <- <-; auto|].
    destruct (A.type front), (A.type t1); injection Es as <- <-; auto.
    inversion Hdot as [|? ? _ Hdot']. inversion Hdot'.
    inversion Hne as [|? ? _ Hne']. inversion Hne'. auto. }
  destruct Hrest as [Hdot' Hne'].
  unfold A.parse_mnemonic in H.
  destruct rest as [|t rest']; [injection H as <-; reflexivity|].
  inversion Hdot' as [|? ? Ht _]. inversion Hne' as [|? ? Ht' _]. subst.
  destruct (A.type t); try discriminate.
  inv_bind H. injection H as <-. unfold A_line_wf. simpl. rewrite Ht. auto.
Qed.

Lemma A_read_lines_wf ls : forall ln lines,
  A.read_lines ls ln = Ok lines -> Forall A_line_wf lines.
Proof.
  induction ls as [|l ls IH]; intros ln lines H; simpl in H.
  { injection H as <-. constructor. }
  destruct (String.eqb (trim l) EmptyString); [eauto|].
  inv_bind H. inv_bind H. apply push_Ok in H as (lines' & H & ->).
  constructor; [|eauto].
  eapply A_parse_tokens_wf; [| |eassumption].
  - eapply A_tokens_no_dot. exact Ha.
  - eapply A_tokens_nonempty. exact Ha.
Qed.

(** ** Pass 1 of the two versions, side by side *)

(** The names used as labels in a line: the label that it defines and the
    labels that its operands refer to. *)
Definition A_line_names (pl : A.ParsedLine) : list string :=
  (if String.eqb (A.label pl) EmptyString then [] else [A.label pl]) ++
  omap (fun o => match A.kind o with
                 | A.LabelRef => Some (A.otext o)
                 | _ => None
                 end) (A.operands pl).

Definition A_label_names (lines : list A.ParsedLine) : list string :=
  lines ≫= A_line_names.

(** No two names differ in case only. *)
Definition case_distinct (names : list string) : bool :=
  forallb (fun x =>
    forallb (fun y =>
      implb (String.eqb (upper_string x) (upper_string y)) (String.eqb x y))
      names) names.

Lemma case_distinct_spec names :
  case_distinct names = true ->
  forall x y, x ∈ names -> y ∈ names ->
    upper_string x = upper_string y -> x = y.
Proof.
  unfold case_distinct. intros H x y Hx Hy Hu.
  rewrite forallb_forall in H.
  apply list_elem_of_In in Hx, Hy.
  specialize (H x Hx). rewrite forallb_forall in H. specialize (H y Hy).
  rewrite Hu, String.eqb_refl in H. simpl in H.
  apply String.eqb_eq. exact H.
Qed.

Definition sym_rel (names : list string) (symsA : list (string * Z))
    (symsB : gmap string Z) : Prop :=
  forall nm, nm ∈ names ->
    forget (A.lookup_symbol_in symsA nm) = symsB !! upper_string nm.

Definition st_rel (names : list string) (ctx : A.AsmContext) (st : B.Pass1)
  : Prop :=
  A.current_addr_words ctx = B.addr st /\
  A.line_addr ctx = B.line_addr st /\
  sym_rel names (A.symbols ctx) (B.symbols st).

Definition res_rel {X Y : Type} (R : X -> Y -> Prop)
    (rA : result X) (rB : result Y) : Prop :=
  match rA, rB with
  | Ok a, Ok b => R a b
  | Err _, Err _ => True
  | _, _ => False
  end.

Lemma upper_string_empty (s : string) :
  String.eqb (upper_string s) EmptyString = String.eqb s EmptyString.
Proof. destruct s; reflexivity. Qed.

Lemma AB_define_label names pl ctx st :
  case_distinct names = true ->
  (A.label pl <> EmptyString -> A.label pl ∈ names) ->
  st_rel names ctx st ->
  res_rel (st_rel names) (A.define_label pl ctx)
          (B.define_label (conv_line pl) st).
Proof.
  intros Hd Hin (Ha & Hl & Hs).
  unfold A.define_label, B.define_label. simpl.
  rewrite upper_string_empty.
  destruct (String.eqb (A.label pl) EmptyString) eqn:E; simpl.
  { repeat split; assumption. }
  apply String.eqb_neq in E. specialize (Hin E).
  unfold A.symbol_exists. rewrite A_symbol_exists_lookup.
  pose proof (Hs _ Hin) as Hlab.
  destruct (A.lookup_symbol_in (A.symbols ctx) (A.label pl)) as [v|e] eqn:El;
    simpl in Hlab |- *.
  - rewrite bool_decide_eq_true_2 by (rewrite <- Hlab; eauto). exact I.
  - rewrite bool_decide_eq_false_2
      by (rewrite <- Hlab; intros [? ?]; discriminate).
    simpl. split; [assumption|]. split; [assumption|].
    intros nm Hnm. simpl. rewrite A_lookup_app, <- Ha.
    destruct (decide (A.label pl = nm)) as [Heq|Hne].
    + subst nm. rewrite El. simpl. rewrite String.eqb_refl. simpl.
      rewrite lookup_insert_eq. reflexivity.
    + rewrite lookup_insert_ne.
      2:{ intros Hu. apply Hne.
          eapply case_distinct_spec; eassumption. }
      rewrite <- (Hs _ Hnm).
      destruct (A.lookup_symbol_in (A.symbols ctx) nm); [reflexivity|].
      simpl. apply String.eqb_neq in Hne. rewrite Hne. reflexivity.
Qed.

Lemma A_has_instr_iequals (op : string) :
  A.has_instr (upper_string op) = supported op.
Proof.
  unfold A.has_instr.
  destruct (supported op) eqn:E.
  - apply bool_decide_eq_true. apply A_find_instr_supported. exact E.
  - apply bool_decide_eq_false. rewrite A_find_instr_supported. congruence.
Qed.

Lemma wrap16_succ_succ (a : Z) : wrap16 (wrap16 (a + 1) + 1) = wrap16 (a + 2).
Proof.
  unfold wrap16. rewrite Zplus_mod_idemp_l. f_equal. lia.
Qed.

Lemma upper_string_nonempty (s : string) :
  s <> EmptyString -> upper_string s <> EmptyString.
Proof. destruct s; [contradiction | discriminate]. Qed.

Lemma conv_line_instruction pl :
  A.lkind pl = A.Instruction -> A_line_wf pl ->
  String.eqb (B.op (conv_line pl)) EmptyString = false /\
  B.is_directive (conv_line pl) = false.
Proof.
  unfold A_line_wf. intros -> [Hne Hdot]. simpl. split.
  - apply String.eqb_neq, upper_string_nonempty, Hne.
  - rewrite starts_with_dot_upper. exact Hdot.
Qed.

Lemma AB_advance names pl ctx st :
  A_line_wf pl -> st_rel names ctx st ->
  res_rel (st_rel names) (A.advance pl ctx) (B.advance (conv_line pl) st).
Proof.
  intros Hwf (Ha & Hl & Hs).
  unfold A.advance, B.advance.
  destruct (A.lkind pl) eqn:Ek.
  - unfold A_line_wf in Hwf. rewrite Ek in Hwf.
    simpl. rewrite Hwf. simpl. repeat split; assumption.
  - destruct (conv_line_instruction pl Ek Hwf) as [-> ->].
    rewrite A_has_instr_iequals, supported_iequals.
    cbn [B.op conv_line B.operands].
    rewrite !iequals_upper_l.
    destruct (iequals (A.op pl) "NOP") eqn:E1,
             (iequals (A.op pl) "HALT") eqn:E2,
             (iequals (A.op pl) "ADD") eqn:E3,
             (iequals (A.op pl) "JMP") eqn:E4,
             (iequals (A.op pl) "JZ") eqn:E5;
      try (exfalso; mnemonic_eqs; fail); simpl;
      unfold A.set_addr, B.set_addr; simpl; rewrite <- ?Ha;
      try (repeat split; try assumption;
           simpl; rewrite ?wrap16_succ_succ; reflexivity).
    destruct (A.operands pl) as [|o0 [|o1 [|o2 ops]]]; simpl;
      try (repeat split; assumption).
    unfold conv_operand.
    destruct (A.kind o1); simpl; repeat split; assumption.
  - unfold A_line_wf in Hwf. rewrite Ek in Hwf. contradiction.
Qed.

Lemma A_line_names_label pl :
  A.label pl <> EmptyString -> A.label pl ∈ A_line_names pl.
Proof.
  intros Hne. unfold A_line_names.
  rewrite (string_eqb_empty_false _ Hne). apply elem_of_app. left.
  apply list_elem_of_singleton. reflexivity.
Qed.

Lemma A_line_names_operand pl o :
  o ∈ A.operands pl -> A.kind o = A.LabelRef -> A.otext o ∈ A_line_names pl.
Proof.
  intros Ho Hk. unfold A_line_names. apply elem_of_app. right.
  apply list_elem_of_omap. exists o. rewrite Hk. auto.
Qed.

Lemma AB_pass1_step names pl i ctx st :
  case_distinct names = true -> A_line_wf pl ->
  A_line_names pl ⊆ names ->
  st_rel names ctx st ->
  res_rel (st_rel names) (A.pass1_step pl i ctx)
          (B.pass1_step (conv_line pl) i st).
Proof.
  intros Hd Hwf Hsub Hrel.
  unfold A.pass1_step, B.pass1_step.
  assert (Hrec : st_rel names (A.record_line_addr i ctx)
                   (B.record_line_addr i st)).
  { destruct Hrel as (Ha & Hl & Hs).
    unfold A.record_line_addr, B.record_line_addr. repeat split; simpl;
      [assumption | rewrite Ha, Hl; reflexivity | assumption]. }
  pose proof (AB_define_label names pl _ _ Hd
                (fun Hne => Hsub _ (A_line_names_label pl Hne)) Hrec) as Hdef.
  destruct (A.define_label pl (A.record_line_addr i ctx)) as [c|e],
           (B.define_label (conv_line pl) (B.record_line_addr i st)) as [s|e'];
    simpl in Hdef |- *; try contradiction; [|exact I].
  apply AB_advance; assumption.
Qed.

Lemma AB_pass1_loop names lines : forall i ctx st,
  case_distinct names = true -> Forall A_line_wf lines ->
  Forall (fun pl => A_line_names pl ⊆ names) lines ->
  st_rel names ctx st ->
  res_rel (st_rel names) (A.pass1_loop lines i ctx)
          (B.pass1_loop (map conv_line lines) i st).
Proof.
  induction lines as [|pl lines IH]; intros i ctx st Hd Hwf Hsub Hrel; simpl.
  { exact Hrel. }
  inversion Hwf as [|? ? Hwf1 Hwf2]. inversion Hsub as [|? ? Hsub1 Hsub2].
  subst.
  pose proof (AB_pass1_step names pl i ctx st Hd Hwf1 Hsub1 Hrel) as Hstep.
  destruct (A.pass1_step pl i ctx) as [c|e],
           (B.pass1_step (conv_line pl) i st) as [s|e'];
    simpl in Hstep |- *; try contradiction; [|exact I].
  apply IH; assumption.
Qed.

Lemma A_label_names_sub lines :
  Forall (fun pl => A_line_names pl ⊆ A_label_names lines) lines.
Proof.
  apply Forall_forall. intros pl Hpl nm Hnm.
  unfold A_label_names. apply list_elem_of_bind. eauto.
Qed.

Lemma AB_pass1 lines :
  case_distinct (A_label_names lines) = true -> Forall A_line_wf lines ->
  res_rel (st_rel (A_label_names lines))
          (A.pass1 lines A.AsmContext_init) (B.pass1 (map conv_line lines)).
Proof.
  intros Hd Hwf. unfold A.pass1, B.pass1.
  apply AB_pass1_loop; try assumption.
  - apply A_label_names_sub.
  - split; [reflexivity|]. split.
    + simpl. rewrite resize_nil, length_map. reflexivity.
    + intros nm _. simpl. rewrite lookup_empty. reflexivity.
Qed.

(** ** Pass 2 of the two versions, side by side *)

Lemma forget_reg_id (n : string) :
  forget (A.reg_id_from_name n) = forget (B.reg_id_from_name n).
Proof.
  unfold A.reg_id_from_name, B.reg_id_from_name, reg_id_from_name_with.
  repeat match goal with
  | |- context [if ?b then _ else _] => destruct b; [reflexivity|]
  end.
  reflexivity.
Qed.

Lemma forget_parse_number16 (t : string) :
  forget (A.parse_number16 t) = forget (B.parse_number16 t).
Proof.
  unfold A.parse_number16, B.parse_number16, parse_number16_with.
  rewrite !forget_bind.
  destruct (forget (stoi t _)) as [v|]; simpl; [|reflexivity].
  destruct ((v <? 0) || (65535 <? v)); reflexivity.
Qed.

Lemma AB_pass2_step names pl ctx st a :
  A_line_wf pl -> A_line_names pl ⊆ names ->
  sym_rel names (A.symbols ctx) (B.symbols st) ->
  forget (A.pass2_step pl ctx a) =
  forget (B.pass2_step (conv_line pl) (B.symbols st) a).
Proof.
  intros Hwf Hsub Hs.
  unfold A.pass2_step, B.pass2_step.
  destruct (A.lkind pl) eqn:Ek.
  - unfold A_line_wf in Hwf. rewrite Ek in Hwf.
    simpl. rewrite Hwf. reflexivity.
  - destruct (conv_line_instruction pl Ek Hwf) as [-> ->].
    unfold A.find_instr, A.INSTR_TABLE, B.opcode_of.
    cbn [B.op conv_line B.operands List.find A.name].
    destruct (iequals (upper_string (A.op pl)) "NOP") eqn:E1,
             (iequals (upper_string (A.op pl)) "HALT") eqn:E2,
             (iequals (upper_string (A.op pl)) "ADD") eqn:E3,
             (iequals (upper_string (A.op pl)) "JMP") eqn:E4,
             (iequals (upper_string (A.op pl)) "JZ") eqn:E5;
      try (exfalso; mnemonic_eqs; fail); try reflexivity.
    + (* ADD *)
      simpl.
      destruct (A.operands pl) as [|o0 [|o1 [|o2 ops]]]; try reflexivity.
      simpl. unfold conv_operand.
      destruct (A.kind o0); simpl; try reflexivity.
      rewrite !forget_bind, forget_reg_id.
      destruct (forget (B.reg_id_from_name (A.otext o0))) as [rd|]; simpl;
        [|reflexivity].
      destruct (A.kind o1); simpl; try reflexivity.
      * rewrite !forget_bind, forget_reg_id.
        destruct (forget (B.reg_id_from_name (A.otext o1))); reflexivity.
      * rewrite !forget_bind, forget_parse_number16.
        destruct (forget (B.parse_number16 (A.otext o1))); reflexivity.
    + (* JMP *)
      simpl.
      destruct (A.operands pl) as [|o [|o1 ops]] eqn:Eops; try reflexivity.
      simpl. rewrite !forget_bind.
      unfold conv_operand.
      destruct (A.kind o) eqn:Eko; simpl; try reflexivity.
      * unfold A.lookup_symbol.
        rewrite (Hs (A.otext o)).
        2:{ apply Hsub, (A_line_names_operand pl o); [|assumption].
            rewrite Eops. left. }
        destruct (B.symbols st !! upper_string (A.otext o)); reflexivity.
      * rewrite forget_parse_number16.
        destruct (forget (B.parse_number16 (A.otext o))); reflexivity.
    + (* JZ *)
      simpl.
      destruct (A.operands pl) as [|o [|o1 ops]] eqn:Eops; try reflexivity.
      simpl. rewrite !forget_bind.
      unfold conv_operand.
      destruct (A.kind o) eqn:Eko; simpl; try reflexivity.
      * unfold A.lookup_symbol.
        rewrite (Hs (A.otext o)).
        2:{ apply Hsub, (A_line_names_operand pl o); [|assumption].
            rewrite Eops. left. }
        destruct (B.symbols st !! upper_string (A.otext o)); reflexivity.
      * rewrite forget_parse_number16.
        destruct (forget (B.parse_number16 (A.otext o))); reflexivity.
  - unfold A_line_wf in Hwf. rewrite Ek in Hwf. contradiction.
Qed.

Lemma AB_pass2_loop names lines : forall i ws ctx st,
  Forall A_line_wf lines ->
  Forall (fun pl => A_line_names pl ⊆ names) lines ->
  st_rel names ctx st ->
  forget (A.pass2_loop lines ctx i ws) =
  forget (B.pass2_loop (map conv_line lines) st i ws).
Proof.
  induction lines as [|pl lines IH]; intros i ws ctx st Hwf Hsub Hrel;
    [reflexivity|].
  inversion Hwf as [|? ? Hwf1 Hwf2]. inversion Hsub as [|? ? Hsub1 Hsub2].
  subst. simpl.
  destruct Hrel as (Ha & Hl & Hs).
  rewrite !forget_bind, <- Hl.
  rewrite (AB_pass2_step names pl ctx st _ Hwf1 Hsub1 Hs).
  destruct (forget (B.pass2_step (conv_line pl) (B.symbols st)
                      (A.line_addr ctx !!! i))); simpl; [|reflexivity].
  apply IH; try assumption. repeat split; assumption.
Qed.

(** ** The two versions of [assemble] *)

(** Both fail, or both return the same bytes. *)
Definition same_outcome (rA rB : result (list Z)) : Prop :=
  match rA, rB with
  | Ok a, Ok b => a = b
  | Err _, Err _ => True
  | _, _ => False
  end.

Lemma same_outcome_forget rA rB :
  forget rA = forget rB -> same_outcome rA rB.
Proof.
  destruct rA, rB; simpl; intros H; try discriminate H;
    [congruence | exact I].
Qed.

(** No line of the source has a ['.'] in front of its comment. *)
Definition no_dot (source : string) : bool :=
  forallb no_dot_line (getlines source).

(** No two label names of the source differ in case only. *)
Definition case_distinct_labels (source : string) : bool :=
  match A.read_lines (getlines source) 1 with
  | Ok lines => case_distinct (A_label_names lines)
  | Err _ => true
  end.

Lemma AB_assemble_words source :
  no_dot source = true -> case_distinct_labels source = true ->
  forget (A.assemble_words source) = forget (B.assemble_words source).
Proof.
  unfold no_dot, case_distinct_labels, A.assemble_words, B.assemble_words.
  intros Hnd Hcd.
  pose proof (AB_read_lines _ Hnd 1) as Hread.
  rewrite !forget_bind.
  destruct (A.read_lines (getlines source) 1) as [linesA|e] eqn:EA;
    simpl in Hread |- *.
  2:{ rewrite Hread. reflexivity. }
  rewrite Hread. simpl.
  pose proof (A_read_lines_wf _ _ _ EA) as Hwf.
  pose proof (AB_pass1 linesA Hcd Hwf) as Hp1.
  rewrite !forget_bind.
  destruct (A.pass1 linesA A.AsmContext_init) as [ctx|e1],
           (B.pass1 (map conv_line linesA)) as [st|e2];
    simpl in Hp1 |- *; try contradiction; [|reflexivity].
  unfold A.pass2, B.pass2.
  eapply AB_pass2_loop; try eassumption.
  apply A_label_names_sub.
Qed.

(** C3, as the code has it. On every source in which no line has a ['.']
    in front of its comment and no two label names differ in case only, the
    two versions of [assemble] behave identically: both fail, or both
    succeed and return the same bytes. *)
Theorem C3_versions_agree :
  forall source,
    no_dot source = true -> case_distinct_labels source = true ->
    same_outcome (A.assemble source) (B.assemble source).
Proof.
  intros source Hnd Hcd. apply same_outcome_forget.
  unfold A.assemble, B.assemble. rewrite !forget_bind.
  rewrite (AB_assemble_words source Hnd Hcd).
  reflexivity.
Qed.
(** * Instances and counterexamples *)

(** ** C1 on [loop: JMP loop]: the offset [0xFFFE] leads back to [0x8000]. *)
Lemma C1_pc_relative_offset_witness : pc_relative 32768 65534 32768.
Proof.
  destruct (proj1 C1_pc_relative_offset "loop: JMP loop" [0; 109; 254; 255]
              ltac:(vm_compute; reflexivity))
    as (lines & ctx & words & Hr & H1 & H2 & Hall).
  vm_compute in Hr. injection Hr as Hr. subst lines.
  vm_compute in H1. injection H1 as H1. subst ctx.
  vm_compute in H2. injection H2 as H2. subst words.
  destruct (Hall 0%nat _ (A.mkOperand A.LabelRef "loop") eq_refl
              (or_introl (conj eq_refl eq_refl)) eq_refl (or_introl eq_refl))
    as (target & before & w & offset & after & Ht & Hb & Hw & Hpc & _).
  vm_compute in Ht. injection Ht as Ht. subst target.
  vm_compute in Hb. injection Hb as Hb. subst before.
  injection Hw as Hw Hoff _. subst offset.
  exact Hpc.
Defined.

(** ** C2 on [ADD R0, #7]: the opcode word and one more word. *)
Definition add_imm_line : A.ParsedLine :=
  A.mkParsedLine 1 "" A.Instruction "ADD"
    [A.mkOperand A.Reg "R0"; A.mkOperand A.Imm "7"].

Lemma C2_instruction_word_witness : A_encoding add_imm_line [10496; 7].
Proof.
  apply (proj1 (proj2 C2_instruction_word)
           add_imm_line A.AsmContext_init 32768 [10496; 7]);
    [reflexivity | vm_compute; reflexivity].
Defined.

(** ** C9 on [loop: JMP loop]. *)
Lemma C9_little_endian_bytes_witness :
  little_endian_image [27904; 65534] [0; 109; 254; 255].
Proof.
  destruct (proj1 C9_little_endian_bytes "loop: JMP loop" [0; 109; 254; 255]
              ltac:(vm_compute; reflexivity))
    as (words & Hw & Himg).
  vm_compute in Hw. injection Hw as Hw. subst words. exact Himg.
Defined.

(** ** C4 on a line [FOO], and a source in which another error comes
    first. *)
Definition foo_line : A.ParsedLine :=
  A.mkParsedLine 1 "" A.Instruction "FOO" [].

Lemma C4_unsupported_mnemonic_witness :
  A.advance foo_line A.AsmContext_init = Ok A.AsmContext_init /\
  A.pass2_step foo_line A.AsmContext_init 32768 = Err A_unknown_instruction.
Proof.
  destruct (proj1 C4_unsupported_mnemonic foo_line (conj eq_refl eq_refl))
    as (Hadv & Hstep & _).
  split; [apply Hadv | apply Hstep].
Defined.

(** In ["ADD" / "FOO"] the second line has an unsupported mnemonic, and
    [assemble] fails on the first line, with another error. *)
Lemma C4_counterexample :
  ~ (forall source lines i pl,
       A.read_lines (getlines source) 1 = Ok lines ->
       lines !! i = Some pl -> A_unsupported pl ->
       A.assemble source = Err A_unknown_instruction).
Proof.
  intros H.
  specialize (H ("ADD" +:+ newline +:+ "FOO")
                [A.mkParsedLine 1 "" A.Instruction "ADD" [];
                 A.mkParsedLine 2 "" A.Instruction "FOO" []]
                1%nat (A.mkParsedLine 2 "" A.Instruction "FOO" [])
                ltac:(vm_compute; reflexivity) eq_refl
                (conj eq_refl eq_refl)).
  vm_compute in H. discriminate H.
Qed.

(** ** C5: [.org] with a label in the second version; the first version
    rejects the same line. *)
Definition org_label_line : B.Line :=
  B.mkLine "" ".ORG" true [B.mkOperand B.Label "L"].

Lemma org_label_line_org : B_org org_label_line.
Proof. split; [discriminate|]. split; reflexivity. Defined.

Lemma C5_org_directive_witness :
  B.advance org_label_line (B.mkPass1 {["L" := 36864]} [0] 32768) =
  Ok (B.mkPass1 {["L" := 36864]} [0] 36864).
Proof.
  destruct (proj2 C5_org_directive org_label_line org_label_line_org)
    as (_ & Hlabel & _).
  pose proof (Hlabel (B.mkPass1 {["L" := 36864]} [0] 32768)
                (B.mkOperand B.Label "L") 36864 eq_refl eq_refl) as H.
  simpl in H. apply H. apply lookup_singleton_eq.
Defined.

(** Pass 1 of [assembler.cpp] on a label [L] followed by [.org L], and
    [assemble] on that source. *)
Lemma C5_counterexample :
  A.pass1 [A.mkParsedLine 1 "L" A.Empty "" [];
           A.mkParsedLine 2 "" A.Directive ".org"
             [A.mkOperand A.LabelRef "L"]]
          A.AsmContext_init = Err A_org_error /\
  A.assemble ("L:" +:+ newline +:+ ".org L") = Err A.lex_error.
Proof. split; vm_compute; reflexivity. Qed.

(** ** C6 on two definitions of [L], and a source of the second version in
    which [.org] is rejected first. *)
Lemma C6_duplicate_label_witness :
  A.assemble ("L:" +:+ newline +:+ "L:") = Err A_duplicate_label.
Proof.
  apply (proj1 C6_duplicate_label ("L:" +:+ newline +:+ "L:")
           [A.mkParsedLine 1 "L" A.Empty "" [];
            A.mkParsedLine 2 "L" A.Empty "" []]
           0%nat 1%nat
           (A.mkParsedLine 1 "L" A.Empty "" [])
           (A.mkParsedLine 2 "L" A.Empty "" [])
           ltac:(vm_compute; reflexivity) eq_refl eq_refl
           ltac:(lia) eq_refl ltac:(discriminate)).
Defined.

Lemma C6_counterexample :
  ~ (forall source lines i j li lj,
       B.read_lines (getlines source) = Ok lines ->
       lines !! i = Some li -> lines !! j = Some lj -> (i < j)%nat ->
       B.label li = B.label lj -> B.label li <> EmptyString ->
       B.assemble source = Err (B_duplicate_label (B.label li))).
Proof.
  intros H.
  specialize (H (".org 70000" +:+ newline +:+ "L:" +:+ newline +:+ "L:")
                [B.mkLine "" ".ORG" true [B.mkOperand B.Number_ "70000"];
                 B.mkLine "L" "" false []; B.mkLine "L" "" false []]
                1%nat 2%nat (B.mkLine "L" "" false [])
                (B.mkLine "L" "" false [])
                ltac:(vm_compute; reflexivity) eq_refl eq_refl
                ltac:(lia) eq_refl ltac:(discriminate)).
  vm_compute in H. discriminate H.
Qed.

(** ** C7 on a forward reference, and a source in which another error
    comes first. *)
Definition forward_lines : list A.ParsedLine :=
  [A.mkParsedLine 1 "" A.Instruction "JMP" [A.mkOperand A.LabelRef "end"];
   A.mkParsedLine 2 "end" A.Instruction "HALT" []].

Lemma C7_label_references_witness :
  A.lookup_symbol
    (A.mkAsmContext 32771 [("end", 32770)] [32768; 32770]) "end" = Ok 32770.
Proof.
  destruct (proj1 C7_label_references forward_lines
              (A.mkAsmContext 32771 [("end", 32770)] [32768; 32770])
              0%nat
              (A.mkParsedLine 1 "" A.Instruction "JMP"
                 [A.mkOperand A.LabelRef "end"])
              "end"
              ltac:(vm_compute; reflexivity) eq_refl
              (conj (or_introl (or_introl (conj eq_refl eq_refl)))
                    (ex_intro _ (A.mkOperand A.LabelRef "end")
                       (conj eq_refl (conj eq_refl eq_refl)))))
    as [Hdef _].
  destruct (Hdef 1%nat (A.mkParsedLine 2 "end" A.Instruction "HALT" [])
              eq_refl eq_refl ltac:(discriminate)) as [Hl _].
  exact Hl.
Defined.

Lemma C7_counterexample :
  ~ (forall source lines i pl nm,
       A.read_lines (getlines source) 1 = Ok lines ->
       lines !! i = Some pl -> A_refers pl nm ->
       (forall d, d ∈ lines -> A.label d <> nm) ->
       A.assemble source = Err (A_unknown_label nm)).
Proof.
  intros H.
  specialize (H ("FOO" +:+ newline +:+ "JMP nowhere")
                [A.mkParsedLine 1 "" A.Instruction "FOO" [];
                 A.mkParsedLine 2 "" A.Instruction "JMP"
                   [A.mkOperand A.LabelRef "nowhere"]]
                1%nat
                (A.mkParsedLine 2 "" A.Instruction "JMP"
                   [A.mkOperand A.LabelRef "nowhere"])
                "nowhere"
                ltac:(vm_compute; reflexivity) eq_refl).
  assert (Href : A_refers
            (A.mkParsedLine 2 "" A.Instruction "JMP"
               [A.mkOperand A.LabelRef "nowhere"]) "nowhere").
  { split; [left; left; split; reflexivity|].
    eexists. repeat split; reflexivity. }
  specialize (H Href).
  assert (Hnone : forall d,
            d ∈ [A.mkParsedLine 1 "" A.Instruction "FOO" [];
                 A.mkParsedLine 2 "" A.Instruction "JMP"
                   [A.mkOperand A.LabelRef "nowhere"]] ->
            A.label d <> "nowhere").
  { intros d Hd. rewrite !elem_of_cons, elem_of_nil in Hd.
    destruct Hd as [-> | [-> | []]]; discriminate. }
  specialize (H Hnone). vm_compute in H. discriminate H.
Qed.

(** ** C8: two lines with different characters at different positions
    raise the same exception. *)
Lemma C8_lex_error_witness : A.tokenize_line "NOP @" 1 = Err A.lex_error.
Proof.
  apply (proj1 (proj1 C8_lex_error "NOP @" 1)).
  exists "@"%char. split; [vm_compute; auto 10 | reflexivity].
Defined.

Lemma C8_counterexample :
  ~ (exists describe : exception -> ascii * nat,
       forall line c pos,
         first_unexpected A_lexable (strip_comment line) 0 = Some (c, pos) ->
         exists e, A.tokenize_line line 1 = Err e /\ describe e = (c, pos)).
Proof.
  intros (describe & H).
  destruct (H "@" "@"%char 0%nat eq_refl) as (e1 & He1 & Hd1).
  destruct (H " $" "$"%char 1%nat eq_refl) as (e2 & He2 & Hd2).
  vm_compute in He1, He2.
  injection He1 as <-. injection He2 as <-.
  rewrite Hd1 in Hd2. discriminate Hd2.
Qed.

(** ** C10: a comma between two registers, and a comma between ['#'] and its
    number. *)
Definition tok (ty : A.TokenType) (s : string) : A.Token := A.mkToken ty s 1 0.

Lemma C10_commas_are_skipped_witness :
  A.parse_operands ([tok A.Register "R0"] ++ tok A.Comma "," ::
                    [tok A.Register "R1"]) =
  A.parse_operands ([tok A.Register "R0"] ++ [tok A.Register "R1"]).
Proof.
  apply (proj1 C10_commas_are_skipped); [reflexivity|].
  intros t Ht. injection Ht as <-. discriminate.
Defined.

Lemma C10_counterexample :
  ~ (forall l1 c l2, A.type c = A.Comma ->
       A.parse_operands (l1 ++ c :: l2) = A.parse_operands (l1 ++ l2)).
Proof.
  intros H.
  specialize (H [tok A.Register "R0"; tok A.Hash "#"] (tok A.Comma ",")
                [tok A.Number "5"] eq_refl).
  vm_compute in H. discriminate H.
Qed.

(** ** C3 on a loop with lower-case labels, and on a label written in two
    cases. *)
Definition loop_program : string :=
  "start:" +:+ newline +:+
  "    ADD R0, #1      ; R0 = R0 + 1." +:+ newline +:+
  "loop:" +:+ newline +:+
  "    ADD R0, R1" +:+ newline +:+
  "    JMP loop        ; back to 'loop'" +:+ newline +:+
  "done:" +:+ newline +:+
  "    HALT" +:+ newline.

Lemma C3_versions_agree_witness :
  same_outcome (A.assemble loop_program) (B.assemble loop_program).
Proof.
  apply C3_versions_agree; vm_compute; reflexivity.
Defined.

(** The first version keeps the case of a label, the second one folds it:
    ["a: JMP A"] is rejected by the first and assembled by the second. *)
Lemma C3_counterexample :
  ~ (forall source, same_outcome (A.assemble source) (B.assemble source)).
Proof.
  intros H. specialize (H "a: JMP A"). vm_compute in H. exact H.
Qed.

(** * Further properties of the helpers *)

(** ** [trim] *)

Lemma blank_find_first (s : string) :
  blank s = true -> find_first_not_blank s = None.
Proof.
  unfold blank. induction s as [|c s IH]; simpl; [reflexivity|].
  intros H. apply andb_true_iff in H as [-> Hs].
  rewrite (IH Hs). reflexivity.
Qed.

(** The character at [find_last_not_of] is the last one of the prefix that
    ends there, and it is not a blank. *)
Lemma find_last_not_blank_end (s : string) : forall e,
  find_last_not_blank s = Some e ->
  exists t c, substr s 0 (S e) = t +:+ String c EmptyString /\
              is_blank c = false.
Proof.
  induction s as [|c s IH]; intros e H; simpl in H; [discriminate|].
  destruct (find_last_not_blank s) as [e'|].
  - injection H as <-. destruct (IH e' eq_refl) as (t & d & Ht & Hd).
    exists (String c t), d. unfold substr in *. simpl. rewrite Ht. auto.
  - destruct (is_blank c) eqn:Ec; [discriminate|]. injection H as <-.
    exists EmptyString, c. unfold substr. simpl.
    destruct s; auto.
Qed.

Lemma find_last_not_blank_snoc (t : string) (c : ascii) :
  is_blank c = false ->
  find_last_not_blank (t +:+ String c EmptyString) = Some (String.length t).
Proof.
  intros Hc. induction t as [|d t IH]; simpl.
  - rewrite Hc. reflexivity.
  - rewrite IH. reflexivity.
Qed.

Lemma snoc_inj (t t' : string) (c c' : ascii) :
  t +:+ String c EmptyString = t' +:+ String c' EmptyString ->
  t = t' /\ c = c'.
Proof.
  revert t'. induction t as [|d t IH]; intros [|d' t'] H; simpl in H.
  - injection H as ->. auto.
  - injection H as -> H. destruct t'; discriminate.
  - injection H as -> H. destruct t; discriminate.
  - injection H as -> H. destruct (IH _ H) as [-> ->]. auto.
Qed.

Lemma length_snoc (t : string) (c : ascii) :
  String.length (t +:+ String c EmptyString) = S (String.length t).
Proof. induction t as [|d t IH]; simpl; [reflexivity | rewrite IH; reflexivity]. Qed.

(** Either the string is blank and its [trim] is empty, or its [trim] has a
    first and a last character, neither of them a blank. *)
Lemma trim_shape (s : string) :
  (blank s = true /\ trim s = EmptyString) \/
  exists c t t' d,
    trim s = String c t /\ trim s = t' +:+ String d EmptyString /\
    is_blank c = false /\ is_blank d = false.
Proof.
  unfold trim.
  pose proof (find_first_not_blank_split s) as Hf.
  destruct (find_first_not_blank s) as [start|]; [|left; auto].
  destruct Hf as (w & c & t & -> & Hw & Hc & Hlen). right.
  rewrite (find_last_not_blank_app _ _ Hw).
  pose proof (find_last_not_blank_split (String c t)) as Hl.
  destruct (find_last_not_blank (String c t)) as [e|] eqn:El.
  2:{ unfold blank in Hl. simpl in Hl. rewrite Hc in Hl. discriminate. }
  clear Hl. simpl.
  replace (String.length w + e - start + 1)%nat with (S e) by lia.
  rewrite <- Hlen.
  pose proof (substr_app_skip w (String c t) 0 (S e)) as Hk.
  rewrite Nat.add_0_r in Hk. rewrite Hk.
  destruct (find_last_not_blank_end _ _ El) as (t' & d & Ht' & Hd).
  exists c, (substr t 0 e), t', d. auto.
Qed.

(** X1. [trim] takes away the blanks (space, tab, carriage return, newline)
    at both ends of a string and nothing else: the string is its [trim]
    between two runs of blanks, the [trim] neither starts nor ends with a
    blank, it is empty exactly when the string holds blanks only, and
    trimming twice is trimming once. *)
Theorem trim_strips_outer_blanks (s : string) :
  (exists w1 w2,
     s = w1 +:+ trim s +:+ w2 /\ blank w1 = true /\ blank w2 = true) /\
  (forall c t, trim s = String c t -> is_blank c = false) /\
  (forall t c, trim s = t +:+ String c EmptyString -> is_blank c = false) /\
  (trim s = EmptyString <-> blank s = true) /\
  trim (trim s) = trim s.
Proof.
  split; [apply trim_split|].
  destruct (trim_shape s) as [[Hb Ht] | (c & t & t' & d & Hc & Hd & Bc & Bd)].
  - rewrite Ht. repeat split; try discriminate; auto.
    intros t c H. destruct t; discriminate.
  - split; [intros c0 t0 H; congruence|].
    split.
    { intros t0 c0 H. rewrite Hd in H.
      apply snoc_inj in H as [_ <-]. exact Bd. }
    split.
    { split; [congruence|].
      intros Hb. unfold trim in Hc.
      rewrite (blank_find_first _ Hb) in Hc. discriminate. }
    set (m := trim s) in *. unfold trim.
    rewrite Hc at 1. simpl. rewrite Bc.
    rewrite Hd at 1. rewrite (find_last_not_blank_snoc _ _ Bd).
    replace (String.length t' - 0 + 1)%nat with (String.length m)
      by (rewrite Hd, length_snoc; lia).
    apply substr_full.
Qed.

(** ** [iequals] *)

Lemma upper_string_length (s : string) :
  String.length (upper_string s) = String.length s.
Proof. induction s as [|c s IH]; simpl; [reflexivity | rewrite IH; reflexivity]. Qed.

(** X2. [iequals] is an equivalence on strings: it holds of two strings
    exactly when their upper-cased copies are equal, so it is reflexive,
    symmetric and transitive, and it holds between strings of the same
    length only. *)
Theorem iequals_equivalence :
  (forall a b, iequals a b = true <-> upper_string a = upper_string b) /\
  (forall a, iequals a a = true) /\
  (forall a b, iequals a b = iequals b a) /\
  (forall a b c,
     iequals a b = true -> iequals b c = true -> iequals a c = true) /\
  (forall a b, iequals a b = true -> String.length a = String.length b).
Proof.
  split; [exact iequals_spec|].
  split; [intros a; apply iequals_spec; reflexivity|].
  split.
  { intros a b. destruct (iequals b a) eqn:E.
    - apply iequals_spec. symmetry. apply iequals_spec, E.
    - apply iequals_false. intros H. apply iequals_false in E. congruence. }
  split.
  { intros a b c Hab Hbc. apply iequals_spec.
    apply iequals_spec in Hab, Hbc. congruence. }
  intros a b H. apply iequals_spec in H.
  rewrite <- (upper_string_length a), H. apply upper_string_length.
Qed.
(** ** [parse_number16] *)

(** The value of a run of decimal digits. *)
Definition decimal_value (s : string) : Z :=
  fold_left (fun acc c => acc * 10 + (code c - 48)) (list_ascii_of_string s) 0.

(** [isxdigit] of [<cctype>] and the value of a hexadecimal digit. *)
Definition isxdigit (c : ascii) : bool :=
  isdigit c || ((65 <=? code c) && (code c <=? 70))
  || ((97 <=? code c) && (code c <=? 102)).

Definition hex_digit (c : ascii) : Z :=
  if isdigit c then code c - 48
  else if isupper c then code c - 55 else code c - 87.

Definition hex_value (s : string) : Z :=
  fold_left (fun acc c => acc * 16 + hex_digit c) (list_ascii_of_string s) 0.

(** What may follow the digits of a literal inside its token: nothing, or a
    character at which the conversion stops. *)
Definition stops_decimal (tail : string) : bool :=
  match tail with
  | EmptyString => true
  | String c _ =>
      negb (isdigit c) && negb (Ascii.eqb c "x") && negb (Ascii.eqb c "X")
  end.

Definition stops_hex (tail : string) : bool :=
  match tail with
  | EmptyString => true
  | String c _ => negb (isxdigit c)
  end.

(** The three outcomes of [parse_number16] on a literal of value [v]. *)
Definition number16_outcome (what : string) (v : Z) : result Z :=
  if v <=? 65535 then Ok v
  else if v <=? INT_MAX then Err (runtime_error what)
  else Err out_of_range.

Definition hex_prefix (text : string) : bool :=
  match text with
  | String "0" (String x (String _ _)) => Ascii.eqb x "x" || Ascii.eqb x "X"
  | _ => false
  end.

Lemma parse_number16_base (what text : string) :
  parse_number16_with what text =
  val ← stoi text (if hex_prefix text then 16 else 10);
  if (val <? 0) || (65535 <? val) then Err (runtime_error what)
  else Ok (wrap16 val).
Proof.
  unfold parse_number16_with, hex_prefix.
  destruct text as [|a [|x [|y r]]]; try reflexivity;
    destruct a as [[] [] [] [] [] [] [] []]; reflexivity.
Qed.

(** The text without the [0x] that [stoi] passes over in base 16. *)
Definition strip_hex_prefix (base : Z) (s : string) : string :=
  match s with
  | String "0" (String x (String h s')) =>
      if (base =? 16) && (Ascii.eqb x "x" || Ascii.eqb x "X")
         && bool_decide (is_Some (digit_value 16 h))
      then String h s' else s
  | _ => s
  end.

(** [stoi] on a text that starts with a digit: no white space and no sign
    are passed over. *)
Lemma stoi_digit (c : ascii) (s : string) (base : Z) :
  isdigit c = true ->
  stoi (String c s) base =
  let '(v, seen) :=
    read_digits base (strip_hex_prefix base (String c s)) 0 false in
  if negb seen then Err invalid_argument
  else if (v <? INT_MIN) || (INT_MAX <? v) then Err out_of_range else Ok v.
Proof.
  intros Hc.
  destruct c as [[] [] [] [] [] [] [] []]; try discriminate Hc; reflexivity.
Qed.

Lemma digit_value_decimal (c : ascii) :
  digit_value 10 c = if isdigit c then Some (code c - 48) else None.
Proof. destruct c as [[] [] [] [] [] [] [] []]; reflexivity. Qed.

Lemma digit_value_hex (c : ascii) :
  digit_value 16 c = if isxdigit c then Some (hex_digit c) else None.
Proof. destruct c as [[] [] [] [] [] [] [] []]; reflexivity. Qed.

Lemma digit_not_x (c : ascii) :
  isdigit c = true -> Ascii.eqb c "x" || Ascii.eqb c "X" = false.
Proof. destruct c as [[] [] [] [] [] [] [] []]; try discriminate; reflexivity. Qed.

Lemma read_digits_decimal (ds tail : string) : forall acc seen,
  string_forall isdigit ds = true -> stops_decimal tail = true ->
  read_digits 10 (ds +:+ tail) acc seen =
  (fold_left (fun acc c => acc * 10 + (code c - 48))
     (list_ascii_of_string ds) acc,
   seen || negb (String.eqb ds EmptyString)).
Proof.
  induction ds as [|c ds IH]; intros acc seen Hds Ht; simpl.
  - rewrite orb_false_r. destruct tail as [|c t]; [reflexivity|].
    simpl. rewrite digit_value_decimal.
    simpl in Ht. destruct (isdigit c); [discriminate | reflexivity].
  - simpl in Hds. apply andb_true_iff in Hds as [Hc Hds].
    rewrite digit_value_decimal, Hc, (IH _ _ Hds Ht).
    rewrite orb_true_r. reflexivity.
Qed.

Lemma read_digits_hex (hs tail : string) : forall acc seen,
  string_forall isxdigit hs = true -> stops_hex tail = true ->
  read_digits 16 (hs +:+ tail) acc seen =
  (fold_left (fun acc c => acc * 16 + hex_digit c)
     (list_ascii_of_string hs) acc,
   seen || negb (String.eqb hs EmptyString)).
Proof.
  induction hs as [|c hs IH]; intros acc seen Hhs Ht; simpl.
  - rewrite orb_false_r. destruct tail as [|c t]; [reflexivity|].
    simpl. rewrite digit_value_hex.
    simpl in Ht. destruct (isxdigit c); [discriminate | reflexivity].
  - simpl in Hhs. apply andb_true_iff in Hhs as [Hc Hhs].
    rewrite digit_value_hex, Hc, (IH _ _ Hhs Ht).
    rewrite orb_true_r. reflexivity.
Qed.

Lemma fold_digits_nonneg (base : Z) (f : ascii -> Z) (l : list ascii) :
  0 <= base -> (forall c, c ∈ l -> 0 <= f c) ->
  forall acc, 0 <= acc -> 0 <= fold_left (fun acc c => acc * base + f c) l acc.
Proof.
  intros Hb. induction l as [|c l IH]; intros Hf acc Hacc; simpl; [assumption|].
  apply IH.
  - intros d Hd. apply Hf. right. exact Hd.
  - assert (0 <= f c) by (apply Hf; left). nia.
Qed.

Lemma string_forall_elem (p : ascii -> bool) (s : string) :
  string_forall p s = true ->
  forall c, c ∈ list_ascii_of_string s -> p c = true.
Proof.
  induction s as [|d s IH]; simpl; intros H c Hc.
  - apply elem_of_nil in Hc. contradiction.
  - apply andb_true_iff in H as [Hd Hs].
    apply elem_of_cons in Hc as [-> | Hc]; auto.
Qed.

Lemma decimal_digit_nonneg (c : ascii) : isdigit c = true -> 0 <= code c - 48.
Proof. destruct c as [[] [] [] [] [] [] [] []]; try discriminate; vm_compute; discriminate. Qed.

Lemma hex_digit_nonneg (c : ascii) : isxdigit c = true -> 0 <= hex_digit c.
Proof. destruct c as [[] [] [] [] [] [] [] []]; try discriminate; vm_compute; discriminate. Qed.

Lemma decimal_value_nonneg (ds : string) :
  string_forall isdigit ds = true -> 0 <= decimal_value ds.
Proof.
  intros H. unfold decimal_value. apply fold_digits_nonneg; [lia| |lia].
  intros c Hc. apply decimal_digit_nonneg. eapply string_forall_elem; eauto.
Qed.

Lemma hex_value_nonneg (hs : string) :
  string_forall isxdigit hs = true -> 0 <= hex_value hs.
Proof.
  intros H. unfold hex_value. apply fold_digits_nonneg; [lia| |lia].
  intros c Hc. apply hex_digit_nonneg. eapply string_forall_elem; eauto.
Qed.

(** From the value that [stoi] read to the result of [parse_number16]. *)
Lemma number16_outcome_spec (what : string) (v : Z) :
  0 <= v ->
  (val ← (if (v <? INT_MIN) || (INT_MAX <? v)
          then Err out_of_range else Ok v);
   if (val <? 0) || (65535 <? val) then Err (runtime_error what)
   else Ok (wrap16 val)) = number16_outcome what v.
Proof.
  intros Hv. unfold number16_outcome, INT_MIN, INT_MAX.
  destruct (v <? -2147483648) eqn:E1; [apply Z.ltb_lt in E1; lia|].
  destruct (2147483647 <? v) eqn:E2; simpl.
  - apply Z.ltb_lt in E2.
    destruct (v <=? 65535) eqn:E3; [apply Z.leb_le in E3; lia|].
    destruct (v <=? 2147483647) eqn:E4; [apply Z.leb_le in E4; lia|].
    reflexivity.
  - apply Z.ltb_ge in E2.
    destruct (v <? 0) eqn:E5; [apply Z.ltb_lt in E5; lia|].
    destruct (65535 <? v) eqn:E6; simpl.
    + apply Z.ltb_lt in E6.
      destruct (v <=? 65535) eqn:E3; [apply Z.leb_le in E3; lia|].
      destruct (v <=? 2147483647) eqn:E4; [reflexivity|].
      apply Z.leb_gt in E4. lia.
    + apply Z.ltb_ge in E6.
      destruct (v <=? 65535) eqn:E3; [|apply Z.leb_gt in E3; lia].
      unfold wrap16. rewrite Z.mod_small by lia. reflexivity.
Qed.

(** X3. A decimal literal. On a text that starts with decimal digits,
    followed by nothing or by a character other than a digit, ['x'] and
    ['X'], [parse_number16] reads the digits in base 10 and ignores what
    follows them: it returns their value up to 65535, throws its own
    [std::runtime_error] for a larger value that fits an [int], and lets the
    [std::out_of_range] of [std::stoi] through beyond that. *)
Theorem parse_number16_decimal (what ds tail : string) :
  ds <> EmptyString -> string_forall isdigit ds = true ->
  stops_decimal tail = true ->
  parse_number16_with what (ds +:+ tail) =
  number16_outcome what (decimal_value ds).
Proof.
  intros Hne Hds Ht.
  rewrite parse_number16_base.
  destruct ds as [|c ds]; [contradiction|].
  simpl in Hds. apply andb_true_iff in Hds as [Hc Hds].
  assert (Hb : hex_prefix (String c ds +:+ tail) = false).
  { simpl. unfold hex_prefix.
    destruct c as [[] [] [] [] [] [] [] []]; try reflexivity.
    destruct ds as [|d ds]; simpl.
    - destruct tail as [|x [|y t]]; try reflexivity.
      simpl in Ht. destruct (Ascii.eqb x "x"), (Ascii.eqb x "X");
        try reflexivity; rewrite ?andb_false_r in Ht; discriminate.
    - simpl in Hds. apply andb_true_iff in Hds as [Hd _].
      rewrite (digit_not_x _ Hd).
      destruct (ds +:+ tail); reflexivity. }
  rewrite Hb. simpl String.append.
  rewrite (stoi_digit _ _ _ Hc).
  assert (Hs1 : strip_hex_prefix 10 (String c (ds +:+ tail)) =
                String c (ds +:+ tail)).
  { unfold strip_hex_prefix.
    destruct c as [[] [] [] [] [] [] [] []]; try reflexivity.
    destruct (ds +:+ tail) as [|x [|h s']]; reflexivity. }
  cbv zeta. rewrite Hs1.
  change (String c (ds +:+ tail)) with (String c ds +:+ tail).
  assert (Hall : string_forall isdigit (String c ds) = true)
    by (simpl; rewrite Hc, Hds; reflexivity).
  rewrite (read_digits_decimal (String c ds) tail 0 false Hall Ht).
  simpl negb. cbv iota.
  apply number16_outcome_spec.
  apply decimal_value_nonneg, Hall.
Qed.

(** X4. A hexadecimal literal. On [0x] or [0X], hexadecimal digits, and
    then nothing or a character that is no hexadecimal digit,
    [parse_number16] reads the digits in base 16, with the same three
    outcomes. Without a hexadecimal digit after the [x] the conversion
    stops after the leading [0] and the result is 0. *)
Theorem parse_number16_hex (what : string) (x : ascii) (hs tail : string) :
  x = "x"%char \/ x = "X"%char ->
  string_forall isxdigit hs = true -> stops_hex tail = true ->
  parse_number16_with what (String "0" (String x (hs +:+ tail))) =
  if String.eqb hs EmptyString then Ok 0
  else number16_outcome what (hex_value hs).
Proof.
  intros Hx Hhs Ht.
  rewrite parse_number16_base.
  rewrite (stoi_digit "0" _ _ eq_refl). unfold strip_hex_prefix.
  assert (Ex : Ascii.eqb x "x" || Ascii.eqb x "X" = true)
    by (destruct Hx as [-> | ->]; reflexivity).
  destruct hs as [|h hs].
  - simpl String.append. simpl String.eqb.
    destruct tail as [|c t].
    + destruct Hx as [-> | ->]; reflexivity.
    + simpl in Ht. unfold hex_prefix. rewrite Ex.
      cbv zeta. rewrite Z.eqb_refl, digit_value_hex.
      destruct (isxdigit c) eqn:Ec; [discriminate|].
      rewrite bool_decide_eq_false_2 by (intros [? ?]; discriminate).
      simpl andb. cbv iota.
      assert (Hr : read_digits 16 (String "0" (String x (String c t))) 0 false
                   = (0, true)).
      { destruct Hx as [-> | ->]; reflexivity. }
      rewrite Hr. reflexivity.
  - simpl in Hhs. apply andb_true_iff in Hhs as [Hh Hhs].
    simpl String.append. unfold hex_prefix. rewrite Ex.
    cbv zeta. rewrite Z.eqb_refl, digit_value_hex, Hh.
    rewrite bool_decide_eq_true_2 by eauto.
    simpl andb. cbv iota.
    change (String h (hs +:+ tail)) with (String h hs +:+ tail).
    assert (Hall : string_forall isxdigit (String h hs) = true)
      by (simpl; rewrite Hh, Hhs; reflexivity).
    rewrite (read_digits_hex (String h hs) tail 0 false Hall Ht).
    simpl negb. simpl String.eqb. cbv iota.
    apply number16_outcome_spec.
    apply hex_value_nonneg, Hall.
Qed.
(** ** [reg_id_from_name] *)

Definition register_names : list string := ["R0"; "R1"; "R2"; "R3"].

(** X5. [reg_id_from_name] accepts exactly the names that the lexers turn
    into register tokens, whatever their case: it returns the index [r] of
    the upper-cased name among R0, R1, R2, R3, a value that fits the
    three-bit register fields, and throws its [std::runtime_error] for every
    other name. *)
Theorem reg_id_from_name_registers (what name : string) :
  is_ok (reg_id_from_name_with what name) =
    is_register_name (upper_string name) /\
  (forall r, reg_id_from_name_with what name = Ok r ->
     0 <= r <= 3 /\ register_names !! Z.to_nat r = Some (upper_string name)) /\
  (forall e, reg_id_from_name_with what name = Err e -> e = runtime_error what).
Proof.
  unfold reg_id_from_name_with, is_register_name.
  destruct (iequals name "R0") eqn:E0.
  { apply iequals_spec in E0. eval_upper E0. rewrite E0.
    split; [reflexivity|]. split; [|discriminate].
    intros r [= <-]. split; [lia | reflexivity]. }
  destruct (iequals name "R1") eqn:E1.
  { apply iequals_spec in E1. eval_upper E1. rewrite E1.
    split; [reflexivity|]. split; [|discriminate].
    intros r [= <-]. split; [lia | reflexivity]. }
  destruct (iequals name "R2") eqn:E2.
  { apply iequals_spec in E2. eval_upper E2. rewrite E2.
    split; [reflexivity|]. split; [|discriminate].
    intros r [= <-]. split; [lia | reflexivity]. }
  destruct (iequals name "R3") eqn:E3.
  { apply iequals_spec in E3. eval_upper E3. rewrite E3.
    split; [reflexivity|]. split; [|discriminate].
    intros r [= <-]. split; [lia | reflexivity]. }
  apply iequals_false in E0, E1, E2, E3.
  eval_upper E0. eval_upper E1. eval_upper E2. eval_upper E3.
  apply String.eqb_neq in E0, E1, E2, E3. rewrite E0, E1, E2, E3.
  split; [reflexivity|]. split; [discriminate|].
  intros e [= <-]. reflexivity.
Qed.

(** ** The instruction table *)

(** X6. [find_instr] compares mnemonics without regard to case and finds
    an entry exactly for NOP, HALT, ADD, JMP and JZ; [has_instr] tells
    whether it does. The entry found carries the upper-cased mnemonic and an
    opcode that fits the five-bit opcode field, and it is the opcode that
    the mnemonic chain of the second version assigns; where [find_instr]
    finds nothing, that chain throws its unsupported-instruction error. *)
Theorem find_instr_table (op : string) :
  A.find_instr (upper_string op) = A.find_instr op /\
  A.has_instr op = supported op /\
  match A.find_instr op with
  | Some info =>
      A.name info = upper_string op /\ 0 <= A.opcode info < 32 /\
      B.opcode_of op = Ok (A.opcode info)
  | None =>
      B.opcode_of op =
        Err (runtime_error ("Unsupported instruction: " +:+ op))
  end.
Proof.
  rewrite supported_iequals.
  unfold A.has_instr, A.find_instr, A.INSTR_TABLE, B.opcode_of. simpl.
  rewrite !iequals_upper_l.
  destruct (iequals op "NOP") eqn:E1; simpl.
  { apply iequals_spec in E1. eval_upper E1.
    repeat split; auto; lia. }
  destruct (iequals op "HALT") eqn:E2; simpl.
  { apply iequals_spec in E2. eval_upper E2.
    repeat split; auto; lia. }
  destruct (iequals op "ADD") eqn:E3; simpl.
  { apply iequals_spec in E3. eval_upper E3.
    repeat split; auto; lia. }
  destruct (iequals op "JMP") eqn:E4; simpl.
  { apply iequals_spec in E4. eval_upper E4.
    repeat split; auto; lia. }
  destruct (iequals op "JZ") eqn:E5; simpl.
  { apply iequals_spec in E5. eval_upper E5.
    repeat split; auto; lia. }
  split; [reflexivity|]. split; reflexivity.
Qed.

(** ** The fields of an instruction word *)

Definition fields_recovered (opcode mode rd rs : Z) : bool :=
  let w := instr_word_fields opcode mode rd rs in
  (Z.land (Z.shiftr w 11) 31 =? opcode) && (Z.land (Z.shiftr w 8) 7 =? mode)
  && (Z.land (Z.shiftr w 5) 7 =? rd) && (Z.land (Z.shiftr w 2) 7 =? rs).

Lemma fields_recovered_all :
  forallb (fun o => forallb (fun m => forallb (fun d => forallb (fun s =>
    fields_recovered o m d s) (seqZ 0 8)) (seqZ 0 8)) (seqZ 0 8)) (seqZ 0 32)
  = true.
Proof. vm_compute. reflexivity. Qed.

Lemma land_mask_idemp (z m : Z) : Z.land (Z.land z m) m = Z.land z m.
Proof. rewrite <- Z.land_assoc, Z.land_diag. reflexivity. Qed.

Lemma instr_word_decode (opcode mode rd rs : Z) :
  let w := make_instr_word opcode mode rd rs in
  Z.land (Z.shiftr w 11) 31 = Z.land opcode 31 /\
  Z.land (Z.shiftr w 8) 7 = Z.land mode 7 /\
  Z.land (Z.shiftr w 5) 7 = Z.land rd 7 /\
  Z.land (Z.shiftr w 2) 7 = Z.land rs 7.
Proof.
  cbv zeta. rewrite make_instr_word_fields.
  pose proof (land31_range opcode) as Ho.
  pose proof (land7_range mode) as Hm.
  pose proof (land7_range rd) as Hd.
  pose proof (land7_range rs) as Hs.
  assert (E : instr_word_fields opcode mode rd rs =
              instr_word_fields (Z.land opcode 31) (Z.land mode 7)
                (Z.land rd 7) (Z.land rs 7)).
  { unfold instr_word_fields.
    rewrite !land_mask_idemp. reflexivity. }
  rewrite E.
  pose proof fields_recovered_all as H.
  rewrite forallb_forall in H.
  specialize (H (Z.land opcode 31)
                ltac:(apply list_elem_of_In, elem_of_seqZ; lia)).
  rewrite forallb_forall in H.
  specialize (H (Z.land mode 7)
                ltac:(apply list_elem_of_In, elem_of_seqZ; lia)).
  rewrite forallb_forall in H.
  specialize (H (Z.land rd 7)
                ltac:(apply list_elem_of_In, elem_of_seqZ; lia)).
  rewrite forallb_forall in H.
  specialize (H (Z.land rs 7)
                ltac:(apply list_elem_of_In, elem_of_seqZ; lia)).
  unfold fields_recovered in H. cbv zeta in H.
  repeat (apply andb_true_iff in H as [H ?]).
  repeat split; apply Z.eqb_eq; assumption.
Qed.

(** X7. The four fields of an instruction word do not overlap: bits 15..11
    of the word that [make_instr_word] builds are the low five bits of
    [opcode], bits 10..8 the low three bits of [mode], bits 7..5 those of
    [rd] and bits 4..2 those of [rs]. Two calls therefore build the same
    word only when their arguments agree on these bits. *)
Theorem make_instr_word_decode (opcode mode rd rs : Z) :
  (let w := make_instr_word opcode mode rd rs in
   Z.land (Z.shiftr w 11) 31 = Z.land opcode 31 /\
   Z.land (Z.shiftr w 8) 7 = Z.land mode 7 /\
   Z.land (Z.shiftr w 5) 7 = Z.land rd 7 /\
   Z.land (Z.shiftr w 2) 7 = Z.land rs 7) /\
  (forall opcode' mode' rd' rs',
     make_instr_word opcode mode rd rs = make_instr_word opcode' mode' rd' rs' ->
     Z.land opcode 31 = Z.land opcode' 31 /\ Z.land mode 7 = Z.land mode' 7 /\
     Z.land rd 7 = Z.land rd' 7 /\ Z.land rs 7 = Z.land rs' 7).
Proof.
  split; [apply instr_word_decode|].
  intros o' m' d' s' E.
  destruct (instr_word_decode opcode mode rd rs) as (H1 & H2 & H3 & H4).
  destruct (instr_word_decode o' m' d' s') as (G1 & G2 & G3 & G4).
  cbv zeta in *. rewrite E in H1, H2, H3, H4.
  repeat split; congruence.
Qed.
(** * [src/main.cpp]: the helpers of the emulator test *)
Module Main.

(** One expression on [int], converted to [uint16_t] at the end. *)
Definition make_instruction (opcode mode rd rs : Z) : Z :=
  wrap16
    (Z.lor (Z.lor (Z.lor (Z.shiftl (wrap16 (Z.land opcode 31)) 11)
                         (Z.shiftl (wrap16 (Z.land mode 7)) 8))
                  (Z.shiftl (wrap16 (Z.land rd 7)) 5))
           (Z.shiftl (wrap16 (Z.land rs 7)) 2)).

(** The vector [program] after the two [push_back]. *)
Definition add_word_to_program (program : list Z) (word : Z) : list Z :=
  (program ++ [wrap8 (Z.land word 255)])
    ++ [wrap8 (Z.land (Z.shiftr word 8) 255)].

(** The test program that [main] builds by hand. *)
Definition program : list Z :=
  let program := [] in
  let instr1 := make_instruction 5 1 0 0 in
  let program := add_word_to_program program instr1 in
  let program := add_word_to_program program 10 in
  let instr2 := make_instruction 5 1 0 0 in
  let program := add_word_to_program program instr2 in
  let program := add_word_to_program program 5 in
  let instr3 := make_instruction 0 0 0 0 in
  let program := add_word_to_program program instr3 in
  let instr4 := make_instruction 1 0 0 0 in
  let program := add_word_to_program program instr4 in
  program.

End Main.

Lemma add_words_pack (words : list Z) : forall program,
  fold_left Main.add_word_to_program words program =
  program ++ pack_words words.
Proof.
  induction words as [|w words IH]; intros program; simpl.
  - rewrite app_nil_r. reflexivity.
  - rewrite IH. unfold Main.add_word_to_program.
    rewrite <- !app_assoc. reflexivity.
Qed.

(** X8. The helpers of the emulator test agree with the assembler:
    [make_instruction] builds the word that [make_instr_word] builds, adding
    words with [add_word_to_program] yields the bytes that the packing loop
    of [assemble] yields, and the program that the test encodes by hand is
    what both versions of [assemble] return for the source listed in its
    comment. *)
Theorem emulator_test_helpers :
  (forall opcode mode rd rs,
     Main.make_instruction opcode mode rd rs =
     make_instr_word opcode mode rd rs) /\
  (forall words program,
     fold_left Main.add_word_to_program words program =
     program ++ pack_words words) /\
  A.assemble
    ("ADD R0, #10" +:+ newline +:+ "ADD R0, #5" +:+ newline +:+
     "NOP" +:+ newline +:+ "HALT") = Ok Main.program /\
  B.assemble
    ("ADD R0, #10" +:+ newline +:+ "ADD R0, #5" +:+ newline +:+
     "NOP" +:+ newline +:+ "HALT") = Ok Main.program.
Proof.
  split.
  { intros opcode mode rd rs. rewrite make_instr_word_fields.
    unfold Main.make_instruction, instr_word_fields.
    pose proof (land31_range opcode) as Ho.
    pose proof (land7_range mode) as Hm.
    pose proof (land7_range rd) as Hd.
    pose proof (land7_range rs) as Hs.
    rewrite !(wrap16_small (Z.land _ _)) by lia.
    assert (H1 : 0 <= Z.shiftl (Z.land opcode 31) 11 < 65536)
      by (rewrite Z.shiftl_mul_pow2 by lia; lia).
    assert (H2 : 0 <= Z.shiftl (Z.land mode 7) 8 < 65536)
      by (rewrite Z.shiftl_mul_pow2 by lia; lia).
    assert (H3 : 0 <= Z.shiftl (Z.land rd 7) 5 < 65536)
      by (rewrite Z.shiftl_mul_pow2 by lia; lia).
    assert (H4 : 0 <= Z.shiftl (Z.land rs 7) 2 < 65536)
      by (rewrite Z.shiftl_mul_pow2 by lia; lia).
    apply wrap16_small.
    apply lor_range16; [|assumption].
    apply lor_range16; [|assumption].
    apply lor_range16; assumption. }
  split; [exact add_words_pack|].
  split; vm_compute; reflexivity.
Qed.
(** * Further properties of the lexers *)

(** ** The text of a token, by its type *)

Lemma scan_len_forall (p : ascii -> bool) (s : string) :
  string_forall p (substr s 0 (scan_len p s)) = true.
Proof.
  unfold substr. induction s as [|c s IH]; simpl; [reflexivity|].
  destruct (p c) eqn:Ec; simpl; [rewrite Ec, IH|]; reflexivity.
Qed.

(** The texts that a token of the first lexer can have. *)
Definition A_token_class (t : A.Token) : Prop :=
  match A.type t with
  | A.Comma => A.text t = ","
  | A.Colon => A.text t = ":"
  | A.Hash => A.text t = "#"
  | A.LBracket => A.text t = "["
  | A.RBracket => A.text t = "]"
  | A.Plus => A.text t = "+"
  | A.Number =>
      exists c s, A.text t = String c s /\ isdigit c = true /\
                  string_forall isalnum s = true
  | A.Register => is_register_name (A.text t) = true
  | A.Identifier =>
      exists c s, A.text t = String c s /\
                  isalpha c || Ascii.eqb c "_" = true /\
                  string_forall A.ident_char s = true /\
                  is_register_name (upper_string (A.text t)) = false
  end.

(** The texts that a token of the second lexer can have. *)
Definition B_token_class (t : B.Token) : Prop :=
  match B.type t with
  | B.Comma => B.text t = ","
  | B.Colon => B.text t = ":"
  | B.Hash => B.text t = "#"
  | B.Number =>
      exists c s, B.text t = String c s /\ isdigit c = true /\
                  string_forall isalnum s = true
  | B.Register => is_register_name (B.text t) = true
  | B.Identifier =>
      exists c s, B.text t = upper_string (String c s) /\
                  isalpha c || Ascii.eqb c "_" || Ascii.eqb c "." = true /\
                  string_forall B.ident_char s = true /\
                  is_register_name (B.text t) = false
  end.

Lemma number_char_alnum (c : ascii) : A.number_char c = isalnum c.
Proof. destruct c as [[] [] [] [] [] [] [] []]; reflexivity. Qed.

Lemma string_forall_ext (p q : ascii -> bool) (s : string) :
  (forall c, p c = q c) -> string_forall p s = string_forall q s.
Proof.
  intros H. induction s as [|c s IH]; simpl; [reflexivity|].
  rewrite H, IH. reflexivity.
Qed.

Lemma number_run_alnum (rest : string) :
  string_forall isalnum (substr rest 0 (scan_len A.number_char rest)) = true.
Proof.
  rewrite <- (string_forall_ext A.number_char) by apply number_char_alnum.
  apply scan_len_forall.
Qed.

Lemma A_tokens_class work : forall ln i k toks,
  A.tokenize_from ln work i k = Ok toks -> Forall A_token_class toks.
Proof.
  induction work as [|c rest IH]; intros ln i k toks H; simpl in H.
  { injection H as <-. constructor. }
  destruct k as [|k]; [|eauto].
  destruct (is_blank c); [eauto|].
  destruct (Ascii.eqb c ",") eqn:E1.
  { apply Ascii.eqb_eq in E1. subst c.
    apply push_Ok in H as (toks' & H & ->). constructor; [reflexivity | eauto]. }
  destruct (Ascii.eqb c ":") eqn:E2.
  { apply Ascii.eqb_eq in E2. subst c.
    apply push_Ok in H as (toks' & H & ->). constructor; [reflexivity | eauto]. }
  destruct (Ascii.eqb c "#") eqn:E3.
  { apply Ascii.eqb_eq in E3. subst c.
    apply push_Ok in H as (toks' & H & ->). constructor; [reflexivity | eauto]. }
  destruct (Ascii.eqb c "[") eqn:E4.
  { apply Ascii.eqb_eq in E4. subst c.
    apply push_Ok in H as (toks' & H & ->). constructor; [reflexivity | eauto]. }
  destruct (Ascii.eqb c "]") eqn:E5.
  { apply Ascii.eqb_eq in E5. subst c.
    apply push_Ok in H as (toks' & H & ->). constructor; [reflexivity | eauto]. }
  destruct (Ascii.eqb c "+") eqn:E6.
  { apply Ascii.eqb_eq in E6. subst c.
    apply push_Ok in H as (toks' & H & ->). constructor; [reflexivity | eauto]. }
  destruct (isdigit c) eqn:Ed.
  { apply push_Ok in H as (toks' & H & ->). constructor; [|eauto].
    unfold A_token_class. simpl.
    exists c, (substr rest 0 (scan_len A.number_char rest)).
    split; [reflexivity|]. split; [exact Ed | apply number_run_alnum]. }
  destruct (isalpha c || Ascii.eqb c "_") eqn:Ea; [|discriminate].
  apply push_Ok in H as (toks' & H & ->). constructor; [|eauto].
  destruct (is_register_name _) eqn:Er; unfold A_token_class; simpl.
  - exact Er.
  - exists c, (substr rest 0 (scan_len A.ident_char rest)).
    split; [reflexivity|]. split; [exact Ea|].
    split; [apply scan_len_forall | exact Er].
Qed.

Lemma B_tokens_class work : forall k toks,
  B.tokenize_from work k = Ok toks -> Forall B_token_class toks.
Proof.
  induction work as [|c rest IH]; intros k toks H; simpl in H.
  { injection H as <-. constructor. }
  destruct k as [|k]; [|eauto].
  destruct (is_blank c); [eauto|].
  destruct (Ascii.eqb c ",").
  { apply push_Ok in H as (toks' & H & ->). constructor; [reflexivity | eauto]. }
  destruct (Ascii.eqb c ":").
  { apply push_Ok in H as (toks' & H & ->). constructor; [reflexivity | eauto]. }
  destruct (Ascii.eqb c "#").
  { apply push_Ok in H as (toks' & H & ->). constructor; [reflexivity | eauto]. }
  destruct (isdigit c) eqn:Ed.
  { apply push_Ok in H as (toks' & H & ->). constructor; [|eauto].
    unfold B_token_class. simpl.
    exists c, (substr rest 0 (scan_len B.number_char rest)).
    split; [reflexivity|]. split; [exact Ed | apply number_run_alnum]. }
  destruct (isalpha c || Ascii.eqb c "_" || Ascii.eqb c ".") eqn:Ea;
    [|discriminate].
  apply push_Ok in H as (toks' & H & ->). constructor; [|eauto].
  destruct (is_register_name _) eqn:Er; unfold B_token_class; simpl.
  - exact Er.
  - exists c, (substr rest 0 (scan_len B.ident_char rest)).
    split; [reflexivity|]. split; [exact Ea|].
    split; [apply scan_len_forall | exact Er].
Qed.

(** X9. The type of a token fixes the shape of its text, in both lexers.
    A punctuation token holds its character. A number token starts with a
    decimal digit and goes on with letters and digits. A register token is
    one of R0, R1, R2, R3, in upper case. An identifier token starts with a
    letter or an underscore (or a dot, in the second lexer), goes on with
    letters, digits and underscores (and dots), and is no register name in
    any case; the second lexer delivers it in upper case. *)
Theorem token_classes :
  (forall line ln toks,
     A.tokenize_line line ln = Ok toks -> Forall A_token_class toks) /\
  (forall line toks,
     B.tokenize_line line = Ok toks -> Forall B_token_class toks).
Proof.
  split.
  - intros line ln toks H. eapply A_tokens_class. exact H.
  - intros line toks H. eapply B_tokens_class. exact H.
Qed.
(** ** Where the tokens of a line lie *)

(** The part of a line that a token was read from. *)
Definition A_token_slice (line : string) (t : A.Token) : string :=
  substr line (A.column t) (String.length (A.text t)).

(** What the first lexer records of a token read from [work]: its line, a
    column inside [work], and the text found there (upper-cased for a
    register). Indices are relative to [i], the index of the first character
    of [work]; the token does not start before [i + k]. *)
Definition A_token_at (ln : Z) (work : string) (i k : nat) (t : A.Token)
  : Prop :=
  A.line t = ln /\
  (i + k <= A.column t)%nat /\
  (A.column t + String.length (A.text t) <= i + String.length work)%nat /\
  A.text t <> EmptyString /\
  A.text t =
    (if decide (A.type t = A.Register) then upper_string else id)
      (substr work (A.column t - i) (String.length (A.text t))).

(** Consecutive tokens do not overlap. *)
Definition A_tokens_apart (toks : list A.Token) : Prop :=
  forall j t1 t2, toks !! j = Some t1 -> toks !! S j = Some t2 ->
    (A.column t1 + String.length (A.text t1) <= A.column t2)%nat.

Lemma A_token_at_shift ln c rest i k k' t :
  (k' <= S k)%nat ->
  A_token_at ln rest (S i) k t -> A_token_at ln (String c rest) i k' t.
Proof.
  intros Hk (H1 & H2 & H3 & H4 & H5).
  split; [assumption|]. split; [lia|]. split; [simpl; lia|].
  split; [assumption|].
  replace (A.column t - i)%nat with (S (A.column t - S i)) by lia.
  exact H5.
Qed.

Lemma substr_length (s : string) (n : nat) :
  (n <= String.length s)%nat -> String.length (substr s 0 n) = n.
Proof.
  unfold substr. revert n. induction s as [|c s IH]; intros n Hn; simpl in *.
  - destruct n; [reflexivity | lia].
  - destruct n as [|n]; [reflexivity|]. simpl. rewrite IH by lia. reflexivity.
Qed.

Lemma A_tokens_apart_cons t toks :
  Forall (fun t' => (A.column t + String.length (A.text t) <= A.column t')%nat)
         toks ->
  A_tokens_apart toks -> A_tokens_apart (t :: toks).
Proof.
  intros Hall Hap [|j] t1 t2 H1 H2; simpl in *.
  - injection H1 as <-. rewrite Forall_forall in Hall. apply Hall.
    apply list_elem_of_lookup. exists 0%nat. exact H2.
  - eapply Hap; eassumption.
Qed.

(** A token read at the head of [work], in front of the tokens of the
    rest. *)
Lemma A_token_push ln c rest i n tok toks' :
  A.line tok = ln -> A.column tok = i ->
  String.length (A.text tok) = S n -> (n <= String.length rest)%nat ->
  A.text tok =
    (if decide (A.type tok = A.Register) then upper_string else id)
      (substr (String c rest) 0 (S n)) ->
  Forall (A_token_at ln rest (S i) n) toks' /\ A_tokens_apart toks' ->
  Forall (A_token_at ln (String c rest) i 0) (tok :: toks') /\
  A_tokens_apart (tok :: toks').
Proof.
  intros Hl Hc Hlen Hn Ht [Hall Hap]. split.
  - constructor.
    + split; [assumption|]. split; [lia|]. split; [simpl; lia|].
      split; [intros E; rewrite E in Hlen; discriminate|].
      rewrite Hc, Nat.sub_diag, Hlen. exact Ht.
    + eapply Forall_impl; [exact Hall|].
      intros t. apply A_token_at_shift. lia.
  - apply A_tokens_apart_cons; [|assumption].
    eapply Forall_impl; [exact Hall|].
    intros t (_ & H2 & _). lia.
Qed.

Lemma A_tokens_at work : forall ln i k toks,
  A.tokenize_from ln work i k = Ok toks ->
  Forall (A_token_at ln work i k) toks /\ A_tokens_apart toks.
Proof.
  induction work as [|c rest IH]; intros ln i k toks H; simpl in H.
  { injection H as <-. split; [constructor|]. intros j t1 t2 H1. discriminate. }
  destruct k as [|k].
  2:{ destruct (IH _ _ _ _ H) as [Hall Hap]. split; [|assumption].
      eapply Forall_impl; [exact Hall|].
      intros t. apply A_token_at_shift. lia. }
  destruct (is_blank c).
  { destruct (IH _ _ _ _ H) as [Hall Hap]. split; [|assumption].
    eapply Forall_impl; [exact Hall|].
    intros t. apply A_token_at_shift. lia. }
  assert (Hsingle : forall ty,
            ty <> A.Register ->
            push (A.mkToken ty (String c EmptyString) ln i)
                 (A.tokenize_from ln rest (S i) 0) = Ok toks ->
            Forall (A_token_at ln (String c rest) i 0) toks /\
            A_tokens_apart toks).
  { intros ty Hty Hp. apply push_Ok in Hp as (toks' & Hp & ->).
    apply (A_token_push ln c rest i 0);
      [reflexivity | reflexivity | reflexivity | lia | | apply IH, Hp].
    simpl. rewrite decide_False by assumption. unfold substr. simpl.
    destruct rest; reflexivity. }
  destruct (Ascii.eqb c ","); [apply (Hsingle A.Comma); [discriminate | exact H]|].
  destruct (Ascii.eqb c ":"); [apply (Hsingle A.Colon); [discriminate | exact H]|].
  destruct (Ascii.eqb c "#"); [apply (Hsingle A.Hash); [discriminate | exact H]|].
  destruct (Ascii.eqb c "["); [apply (Hsingle A.LBracket); [discriminate | exact H]|].
  destruct (Ascii.eqb c "]"); [apply (Hsingle A.RBracket); [discriminate | exact H]|].
  destruct (Ascii.eqb c "+"); [apply (Hsingle A.Plus); [discriminate | exact H]|].
  clear Hsingle.
  destruct (isdigit c).
  { apply push_Ok in H as (toks' & H & ->).
    pose proof (scan_len_le A.number_char rest) as Hn.
    apply (A_token_push ln c rest i (scan_len A.number_char rest));
      [reflexivity | reflexivity | | exact Hn | reflexivity | apply IH, H].
    apply (substr_length (String c rest) (S _)). simpl. lia. }
  destruct (isalpha c || Ascii.eqb c "_"); [|discriminate].
  apply push_Ok in H as (toks' & H & ->).
  pose proof (scan_len_le A.ident_char rest) as Hn.
  apply (A_token_push ln c rest i (scan_len A.ident_char rest)).
  - destruct (is_register_name _); reflexivity.
  - destruct (is_register_name _); reflexivity.
  - destruct (is_register_name _); simpl;
      rewrite ?upper_string_length; f_equal;
      apply (substr_length rest); exact Hn.
  - exact Hn.
  - destruct (is_register_name _); simpl; reflexivity.
  - apply IH. exact H.
Qed.

Lemma substr_substr (s : string) : forall p a b,
  (a + b <= p)%nat -> substr (substr s 0 p) a b = substr s a b.
Proof.
  unfold substr. induction s as [|c s IH]; intros p a b Hab.
  - destruct p, a, b; reflexivity.
  - destruct p as [|p].
    + assert (a = 0%nat /\ b = 0%nat) as [-> ->] by lia. reflexivity.
    + simpl. destruct a as [|a].
      * destruct b as [|b]; [reflexivity|]. simpl.
        rewrite (IH p 0%nat b) by lia. reflexivity.
      * apply IH. lia.
Qed.

Lemma find_char_le (c : ascii) (s : string) (p : nat) :
  find_char c s = Some p -> (p <= String.length s)%nat.
Proof.
  revert p. induction s as [|d s IH]; intros p H; simpl in *; [discriminate|].
  destruct (Ascii.eqb d c); [injection H as <-; lia|].
  destruct (find_char c s) as [q|]; [|discriminate].
  injection H as <-. specialize (IH q eq_refl). lia.
Qed.

Lemma strip_comment_slice (line : string) (a b : nat) :
  (a + b <= String.length (strip_comment line))%nat ->
  substr (strip_comment line) a b = substr line a b.
Proof.
  unfold strip_comment.
  destruct (find_char ";" line) as [p|] eqn:E; [|reflexivity].
  intros H. apply substr_substr.
  rewrite substr_length in H by (eapply find_char_le; exact E). exact H.
Qed.

(** What a token records of the line that it was read from. *)
Definition A_token_recorded (line : string) (ln : Z) (t : A.Token) : Prop :=
  A.line t = ln /\ A.text t <> EmptyString /\
  (A.column t + String.length (A.text t) <= String.length line)%nat /\
  A.text t =
    (if decide (A.type t = A.Register) then upper_string else id)
      (A_token_slice line t).

(** X10. The positions that the first lexer records. Every token carries
    the number of its line and the column of its first character; its text
    is not empty and is what the line holds from that column on, in upper
    case for a register token and as written for every other token. The
    tokens come in the order of the line and do not overlap. *)
Theorem A_token_positions (line : string) (ln : Z) (toks : list A.Token) :
  A.tokenize_line line ln = Ok toks ->
  Forall (A_token_recorded line ln) toks /\ A_tokens_apart toks.
Proof.
  unfold A.tokenize_line. intros H.
  destruct (A_tokens_at _ _ _ _ _ H) as [Hall Hap]. split; [|exact Hap].
  eapply Forall_impl; [exact Hall|].
  intros t (H1 & H2 & H3 & H4 & H5). simpl in H3.
  rewrite Nat.sub_0_r in H5.
  rewrite strip_comment_slice in H5 by exact H3.
  split; [assumption|]. split; [assumption|]. split; [|exact H5].
  assert (String.length (strip_comment line) <= String.length line)%nat;
    [|lia].
  unfold strip_comment.
  destruct (find_char ";" line) as [p|] eqn:E; [|lia].
  rewrite substr_length; eapply find_char_le; exact E.
Qed.
(** ** What the lexers keep of a line *)

Fixpoint remove_blanks (s : string) : string :=
  match s with
  | EmptyString => EmptyString
  | String c s' =>
      if is_blank c then remove_blanks s' else String c (remove_blanks s')
  end.

(** The texts of the tokens, one after the other. *)
Definition joined (texts : list string) : string :=
  fold_right String.append EmptyString texts.

(** [s] without its first [n] characters. *)
Fixpoint string_drop (n : nat) (s : string) : string :=
  match n, s with
  | S n', String _ s' => string_drop n' s'
  | _, _ => s
  end.

Lemma upper_string_app (a b : string) :
  upper_string (a +:+ b) = upper_string a +:+ upper_string b.
Proof. induction a as [|c a IH]; simpl; [reflexivity | rewrite IH; reflexivity]. Qed.

Lemma remove_blanks_run (p : ascii -> bool) (s : string) :
  (forall c, p c = true -> is_blank c = false) ->
  remove_blanks s =
  substr s 0 (scan_len p s) +:+ remove_blanks (string_drop (scan_len p s) s).
Proof.
  intros Hp. unfold substr. induction s as [|c s IH]; simpl; [reflexivity|].
  destruct (p c) eqn:Ec; simpl.
  - rewrite (Hp _ Ec), <- IH. reflexivity.
  - reflexivity.
Qed.

Lemma run_char_not_blank (c : ascii) :
  (A.number_char c = true -> is_blank c = false) /\
  (A.ident_char c = true -> is_blank c = false) /\
  (B.ident_char c = true -> is_blank c = false).
Proof. destruct c as [[] [] [] [] [] [] [] []]; vm_compute; auto. Qed.

Lemma A_tokens_join work : forall ln i k toks,
  A.tokenize_from ln work i k = Ok toks ->
  upper_string (joined (A.text <$> toks)) =
  upper_string (remove_blanks (string_drop k work)).
Proof.
  induction work as [|c rest IH]; intros ln i k toks H; simpl in H.
  { injection H as <-. destruct k; reflexivity. }
  destruct k as [|k]; [|simpl; eauto].
  simpl string_drop. simpl remove_blanks.
  destruct (is_blank c) eqn:Eb; [apply (IH _ _ 0%nat _ H)|].
  assert (Hsingle : forall ty,
            push (A.mkToken ty (String c EmptyString) ln i)
                 (A.tokenize_from ln rest (S i) 0) = Ok toks ->
            upper_string (joined (A.text <$> toks)) =
            upper_string (String c (remove_blanks rest))).
  { intros ty Hp. apply push_Ok in Hp as (toks' & Hp & ->).
    simpl. f_equal. apply (IH _ _ 0%nat _ Hp). }
  destruct (Ascii.eqb c ","); [exact (Hsingle _ H)|].
  destruct (Ascii.eqb c ":"); [exact (Hsingle _ H)|].
  destruct (Ascii.eqb c "#"); [exact (Hsingle _ H)|].
  destruct (Ascii.eqb c "["); [exact (Hsingle _ H)|].
  destruct (Ascii.eqb c "]"); [exact (Hsingle _ H)|].
  destruct (Ascii.eqb c "+"); [exact (Hsingle _ H)|].
  clear Hsingle.
  destruct (isdigit c).
  { apply push_Ok in H as (toks' & H & ->).
    rewrite (remove_blanks_run A.number_char rest)
      by (intros d; apply run_char_not_blank).
    simpl. f_equal. rewrite !upper_string_app. f_equal.
    apply (IH _ _ _ _ H). }
  destruct (isalpha c || Ascii.eqb c "_"); [|discriminate].
  apply push_Ok in H as (toks' & H & ->).
  rewrite (remove_blanks_run A.ident_char rest)
    by (intros d; apply run_char_not_blank).
  destruct (is_register_name _); simpl; rewrite ?toupper_idemp; f_equal;
    rewrite !upper_string_app, ?upper_string_idemp; f_equal;
    apply (IH _ _ _ _ H).
Qed.

Lemma B_tokens_join work : forall k toks,
  B.tokenize_from work k = Ok toks ->
  upper_string (joined (B.text <$> toks)) =
  upper_string (remove_blanks (string_drop k work)).
Proof.
  induction work as [|c rest IH]; intros k toks H; simpl in H.
  { injection H as <-. destruct k; reflexivity. }
  destruct k as [|k]; [|simpl; eauto].
  simpl string_drop. simpl remove_blanks.
  destruct (is_blank c) eqn:Eb; [apply (IH 0%nat _ H)|].
  destruct (Ascii.eqb c ",") eqn:E1.
  { apply Ascii.eqb_eq in E1. subst c.
    apply push_Ok in H as (toks' & H & ->).
    simpl. f_equal. apply (IH 0%nat _ H). }
  destruct (Ascii.eqb c ":") eqn:E2.
  { apply Ascii.eqb_eq in E2. subst c.
    apply push_Ok in H as (toks' & H & ->).
    simpl. f_equal. apply (IH 0%nat _ H). }
  destruct (Ascii.eqb c "#") eqn:E3.
  { apply Ascii.eqb_eq in E3. subst c.
    apply push_Ok in H as (toks' & H & ->).
    simpl. f_equal. apply (IH 0%nat _ H). }
  destruct (isdigit c).
  { apply push_Ok in H as (toks' & H & ->).
    rewrite (remove_blanks_run B.number_char rest)
      by (intros d; apply run_char_not_blank).
    simpl. f_equal. rewrite !upper_string_app. f_equal.
    apply (IH _ _ H). }
  destruct (isalpha c || Ascii.eqb c "_" || Ascii.eqb c "."); [|discriminate].
  apply push_Ok in H as (toks' & H & ->).
  rewrite (remove_blanks_run B.ident_char rest)
    by (intros d; apply run_char_not_blank).
  destruct (is_register_name _); simpl; rewrite ?toupper_idemp; f_equal;
    rewrite !upper_string_app, ?upper_string_idemp; f_equal;
    apply (IH _ _ H).
Qed.

(** X11. Both lexers lose nothing of a line but its comment, its blanks and
    the case of its letters: the texts of the tokens, joined in order and
    upper-cased, are the upper-cased text in front of the comment without
    its blanks. *)
Theorem tokens_keep_the_text :
  (forall line ln toks,
     A.tokenize_line line ln = Ok toks ->
     upper_string (joined (A.text <$> toks)) =
     upper_string (remove_blanks (strip_comment line))) /\
  (forall line toks,
     B.tokenize_line line = Ok toks ->
     upper_string (joined (B.text <$> toks)) =
     upper_string (remove_blanks (strip_comment line))).
Proof.
  split.
  - intros line ln toks H. apply (A_tokens_join _ _ _ _ _ H).
  - intros line toks H. apply (B_tokens_join _ _ _ H).
Qed.

(** ** Comments and blanks *)

Lemma strip_comment_app (l c : string) :
  find_char ";" l = None -> strip_comment (l +:+ String ";" c) = l.
Proof.
  intros Hl. unfold strip_comment.
  rewrite (find_char_app_absent _ _ _ Hl). simpl.
  rewrite Nat.add_0_r, substr_app_le, substr_full by lia. reflexivity.
Qed.

Lemma strip_comment_none (l : string) :
  find_char ";" l = None -> strip_comment l = l.
Proof. intros Hl. unfold strip_comment. rewrite Hl. reflexivity. Qed.

Lemma blank_app (a b : string) : blank (a +:+ b) = blank a && blank b.
Proof.
  unfold blank. induction a as [|c a IH]; simpl; [reflexivity|].
  rewrite IH, andb_assoc. reflexivity.
Qed.

Lemma trim_blank (s : string) : blank s = true -> trim s = EmptyString.
Proof. intros H. unfold trim. rewrite (blank_find_first _ H). reflexivity. Qed.

Lemma A_tokenize_blank (w : string) :
  blank w = true -> forall ln i k, A.tokenize_from ln w i k = Ok [].
Proof.
  unfold blank. induction w as [|c w IH]; intros Hw ln i k; simpl;
    [reflexivity|].
  simpl in Hw. apply andb_true_iff in Hw as [Hc Hw].
  destruct k; [rewrite Hc|]; auto.
Qed.

(** X12. A comment is ignored, whatever it holds: the text from the first
    [';'] of a line on changes neither the tokens of the line nor whether
    the reading loop of [assemble] passes over the line as a blank one
    (a line that holds only a comment is read, and gives no token). *)
Theorem comments_are_ignored (l c : string) :
  find_char ";" l = None ->
  (forall ln, A.tokenize_line (l +:+ String ";" c) ln = A.tokenize_line l ln) /\
  B.tokenize_line (l +:+ String ";" c) = B.tokenize_line l /\
  trim (l +:+ String ";" c) <> EmptyString /\
  (blank l = true ->
   (forall ln, A.tokenize_line (l +:+ String ";" c) ln = Ok []) /\
   B.tokenize_line (trim (l +:+ String ";" c)) = Ok []).
Proof.
  intros Hl.
  assert (Hne : trim (l +:+ String ";" c) <> EmptyString).
  { intros Ht. apply trim_empty_blank in Ht.
    rewrite blank_app in Ht. apply andb_true_iff in Ht as [_ Ht].
    unfold blank in Ht. simpl in Ht. discriminate. }
  split.
  { intros ln. unfold A.tokenize_line.
    rewrite (strip_comment_app _ _ Hl), (strip_comment_none _ Hl).
    reflexivity. }
  split.
  { unfold B.tokenize_line.
    rewrite (strip_comment_app _ _ Hl), (strip_comment_none _ Hl).
    reflexivity. }
  split; [exact Hne|].
  intros Hb.
  assert (HB : B.tokenize_line (l +:+ String ";" c) = Ok []).
  { unfold B.tokenize_line. rewrite (strip_comment_app _ _ Hl).
    apply B_tokenize_blank. exact Hb. }
  split.
  - intros ln. unfold A.tokenize_line. rewrite (strip_comment_app _ _ Hl).
    apply A_tokenize_blank. exact Hb.
  - rewrite B_tokenize_line_trim. exact HB.
Qed.
(** ** Blanks around a line *)

(** [l'] is [l] between two runs of blanks. *)
Definition padded (l l' : string) : Prop :=
  exists w1 w2, blank w1 = true /\ blank w2 = true /\ l' = w1 +:+ l +:+ w2.

(** What the reading loop of [assemble] does with a line that is not
    blank. *)
Definition A_parse_line (l : string) (ln : Z) : result A.ParsedLine :=
  tokens ← A.tokenize_line l ln; A.parse_tokens tokens.

Lemma find_first_not_blank_app (a s : string) :
  blank a = true ->
  find_first_not_blank (a +:+ s) =
  (fun e => (String.length a + e)%nat) <$> find_first_not_blank s.
Proof.
  unfold blank. induction a as [|c a IH]; intros Ha; simpl.
  - destruct (find_first_not_blank s); reflexivity.
  - simpl in Ha. apply andb_true_iff in Ha as [-> Ha].
    rewrite (IH Ha). destruct (find_first_not_blank s); reflexivity.
Qed.

Lemma blank_find_last (b : string) :
  blank b = true -> find_last_not_blank b = None.
Proof.
  unfold blank. induction b as [|c b IH]; simpl; [reflexivity|].
  intros H. apply andb_true_iff in H as [-> Hb].
  rewrite (IH Hb). reflexivity.
Qed.

Lemma find_last_not_blank_app_r (s b : string) :
  blank b = true -> find_last_not_blank (s +:+ b) = find_last_not_blank s.
Proof.
  intros Hb. induction s as [|c s IH]; simpl.
  - apply blank_find_last, Hb.
  - rewrite IH. reflexivity.
Qed.

(** A string that neither starts nor ends with a blank is the [trim] of
    every string that holds it between two runs of blanks. *)
Lemma trim_unique (a b t t' : string) (c d : ascii) :
  blank a = true -> blank b = true ->
  is_blank c = false -> is_blank d = false ->
  String c t = t' +:+ String d EmptyString ->
  trim (a +:+ String c t +:+ b) = String c t.
Proof.
  intros Ha Hb Hc Hd Hm. unfold trim.
  rewrite (find_first_not_blank_app _ _ Ha). simpl find_first_not_blank.
  rewrite Hc. simpl.
  rewrite (find_last_not_blank_app _ _ Ha).
  change (String c (t +:+ b)) with (String c t +:+ b).
  rewrite (find_last_not_blank_app_r _ _ Hb), Hm.
  rewrite (find_last_not_blank_snoc _ _ Hd). simpl.
  replace (String.length a + String.length t' - (String.length a + 0) + 1)%nat
    with (String.length (String c t))
    by (rewrite Hm, length_snoc; lia).
  rewrite <- Hm.
  rewrite (substr_app_skip a (String c t +:+ b) 0).
  rewrite substr_app_le by lia. apply substr_full.
Qed.

Lemma trim_padded (l l' : string) : padded l l' -> trim l' = trim l.
Proof.
  intros (w1 & w2 & H1 & H2 & ->).
  destruct (trim_shape l) as [[Hb Ht] | (c & t & t' & d & Hc & Hd & Bc & Bd)].
  - rewrite Ht. apply trim_blank. rewrite !blank_app, H1, Hb, H2. reflexivity.
  - destruct (trim_split l) as (v1 & v2 & Hl & Hv1 & Hv2).
    rewrite Hl at 1. rewrite Hc in *.
    replace (w1 +:+ (v1 +:+ String c t +:+ v2) +:+ w2)
      with ((w1 +:+ v1) +:+ String c t +:+ (v2 +:+ w2))
      by (rewrite !append_assoc; reflexivity).
    eapply trim_unique; try eassumption.
    + rewrite blank_app, H1, Hv1. reflexivity.
    + rewrite blank_app, Hv2, H2. reflexivity.
Qed.

Lemma strip_comment_padded (l l' : string) :
  padded l l' ->
  exists w1 w2, blank w1 = true /\ blank w2 = true /\
                strip_comment l' = w1 +:+ strip_comment l +:+ w2.
Proof.
  intros (w1 & w2 & H1 & H2 & ->). unfold strip_comment.
  rewrite (find_char_app_absent _ _ _ (blank_no_semicolon _ H1)).
  destruct (find_char ";" l) as [p|] eqn:El.
  - destruct (find_char_app_present _ _ w2 _ El) as [-> Hp]. simpl.
    exists w1, EmptyString. rewrite append_empty_r.
    rewrite substr_app_keep, substr_app_le by assumption. auto.
  - rewrite (find_char_app_absent _ _ _ El).
    rewrite (blank_no_semicolon _ H2). simpl.
    exists w1, w2. auto.
Qed.

(** A token without its column. *)
Definition erase_column (t : A.Token) : A.Token :=
  A.mkToken (A.type t) (A.text t) (A.line t) 0.

Lemma fmap_push {X Y : Type} (f : X -> Y) (a : X) (r : result (list X)) :
  map f <$> push a r = push (f a) (map f <$> r).
Proof. destruct r; reflexivity. Qed.

(** The index of the first character matters to the columns only. *)
Lemma A_tokenize_erase work : forall ln i j k,
  map erase_column <$> A.tokenize_from ln work i k =
  map erase_column <$> A.tokenize_from ln work j k.
Proof.
  induction work as [|c rest IH]; intros ln i j k; simpl; [reflexivity|].
  destruct k as [|k]; [|apply IH].
  destruct (is_blank c); [apply IH|].
  repeat match goal with
  | |- context [if ?b then _ else _] =>
      destruct b;
      [rewrite !fmap_push, (IH ln (S i) (S j)); reflexivity|]
  end.
  destruct (isalpha c || Ascii.eqb c "_"); [|reflexivity].
  rewrite !fmap_push, (IH ln (S i) (S j)).
  destruct (is_register_name _); reflexivity.
Qed.

Lemma A_parse_operands_erase : forall n toks,
  (length toks <= n)%nat ->
  A.parse_operands (map erase_column toks) = A.parse_operands toks.
Proof.
  induction n as [|n IH]; intros toks Hn.
  { destruct toks; [reflexivity | simpl in Hn; lia]. }
  destruct toks as [|t rest]; [reflexivity|]. simpl in Hn. simpl.
  destruct (A.type t); try reflexivity;
    try (rewrite IH by lia; reflexivity).
  destruct rest as [|m rest']; [reflexivity|]. simpl in Hn. simpl.
  destruct (A.type m); try reflexivity.
  rewrite IH by lia. reflexivity.
Qed.

Lemma A_parse_tokens_erase (toks : list A.Token) :
  A.parse_tokens (map erase_column toks) = A.parse_tokens toks.
Proof.
  unfold A.parse_tokens.
  destruct toks as [|front tl]; [reflexivity|]. simpl map.
  assert (Hm : forall ln lbl rest,
            A.parse_mnemonic ln lbl (map erase_column rest) =
            A.parse_mnemonic ln lbl rest).
  { intros ln lbl [|t rest']; [reflexivity|]. simpl.
    destruct (A.type t); try reflexivity.
    rewrite (A_parse_operands_erase _ rest' (Nat.le_refl _)). reflexivity. }
  unfold A.split_label.
  destruct tl as [|t1 tl']; [apply (Hm _ _ [front])|]. simpl.
  destruct (A.type front); try apply (Hm _ _ (front :: t1 :: tl')).
  destruct (A.type t1); try apply (Hm _ _ (front :: t1 :: tl')).
  apply Hm.
Qed.

Lemma A_parse_line_erase (l : string) (ln : Z) :
  A_parse_line l ln =
  (map erase_column <$> A.tokenize_line l ln) ≫= A.parse_tokens.
Proof.
  unfold A_parse_line. destruct (A.tokenize_line l ln) as [toks|e]; simpl;
    [|reflexivity].
  symmetry. apply A_parse_tokens_erase.
Qed.

Lemma A_tokenize_blank_prefix (w s : string) :
  blank w = true -> forall ln i,
  A.tokenize_from ln (w +:+ s) i 0 =
  A.tokenize_from ln s (i + String.length w) 0.
Proof.
  unfold blank. induction w as [|c w IH]; intros Hw ln i; simpl.
  - rewrite Nat.add_0_r. reflexivity.
  - simpl in Hw. apply andb_true_iff in Hw as [Hc Hw].
    rewrite Hc, (IH Hw). f_equal. lia.
Qed.

Lemma A_tokenize_blank_suffix (s w : string) :
  blank w = true ->
  forall ln i k, A.tokenize_from ln (s +:+ w) i k = A.tokenize_from ln s i k.
Proof.
  intros Hw. induction s as [|c rest IH]; intros ln i k.
  { simpl. rewrite (A_tokenize_blank _ Hw). destruct k; reflexivity. }
  simpl. destruct k as [|k]; [|apply IH].
  rewrite !IH.
  rewrite (scan_len_app_blank A.number_char rest w Hw)
    by (intros d Hd; apply (blank_not_run_char d Hd)).
  rewrite (scan_len_app_blank A.ident_char rest w Hw)
    by (intros d Hd; apply (blank_not_run_char d Hd)).
  pose proof (substr_app_le rest w _ (scan_len_le A.number_char rest)) as En.
  pose proof (substr_app_le rest w _ (scan_len_le A.ident_char rest)) as Ei.
  unfold substr in *. rewrite En, Ei. reflexivity.
Qed.

Lemma A_parse_line_padded (l l' : string) (ln : Z) :
  padded l l' -> A_parse_line l' ln = A_parse_line l ln.
Proof.
  intros Hp. rewrite !A_parse_line_erase. f_equal.
  unfold A.tokenize_line.
  destruct (strip_comment_padded _ _ Hp) as (w1 & w2 & H1 & H2 & ->).
  rewrite (A_tokenize_blank_prefix _ _ H1), (A_tokenize_blank_suffix _ _ H2).
  apply A_tokenize_erase.
Qed.

Lemma B_tokenize_line_padded (l l' : string) :
  padded l l' -> B.tokenize_line l' = B.tokenize_line l.
Proof.
  intros Hp. unfold B.tokenize_line.
  destruct (strip_comment_padded _ _ Hp) as (w1 & w2 & H1 & H2 & ->).
  rewrite (B_tokenize_blank_prefix _ _ H1), (B_tokenize_blank_suffix _ _ H2).
  reflexivity.
Qed.

Lemma A_read_lines_cons (l : string) (ls : list string) (ln : Z) :
  A.read_lines (l :: ls) ln =
  if String.eqb (trim l) EmptyString then A.read_lines ls (ln + 1)
  else pl ← A_parse_line l ln; push pl (A.read_lines ls (ln + 1)).
Proof.
  simpl. unfold A_parse_line.
  destruct (String.eqb (trim l) EmptyString); [reflexivity|].
  destruct (A.tokenize_line l ln); reflexivity.
Qed.

(** X13. The blanks at the two ends of a line are ignored: indentation,
    trailing spaces, and the carriage return that a CRLF line ending leaves
    at the end of each line. A line between two runs of blanks has the same
    [trim], parses to the same line in the first version (the columns of its
    tokens apart) and gives the same tokens in the second; so the reading
    loops of both versions return the same lines for a source whose lines
    are padded in this way. *)
Theorem outer_blanks_are_ignored :
  (forall l l', padded l l' ->
     trim l' = trim l /\
     (forall ln, A_parse_line l' ln = A_parse_line l ln) /\
     B.tokenize_line l' = B.tokenize_line l) /\
  (forall ls ls', Forall2 padded ls ls' ->
     (forall ln, A.read_lines ls' ln = A.read_lines ls ln) /\
     B.read_lines ls' = B.read_lines ls).
Proof.
  split.
  { intros l l' Hp. split; [apply trim_padded, Hp|].
    split; [intros ln; apply A_parse_line_padded, Hp|].
    apply B_tokenize_line_padded, Hp. }
  intros ls ls' Hall. induction Hall as [|l l' ls ls' Hp _ [IHA IHB]].
  { split; reflexivity. }
  split.
  - intros ln. rewrite !A_read_lines_cons.
    rewrite (trim_padded _ _ Hp), (A_parse_line_padded _ _ ln Hp), IHA.
    reflexivity.
  - simpl. rewrite (trim_padded _ _ Hp), IHB. reflexivity.
Qed.
(** ** The punctuation of indexed addressing *)

(** The three characters that only the first lexer knows. *)
Definition bracket (c : ascii) : bool :=
  Ascii.eqb c "[" || Ascii.eqb c "]" || Ascii.eqb c "+".

Definition A_bracket_token (t : A.Token) : Prop :=
  A.type t = A.LBracket \/ A.type t = A.RBracket \/ A.type t = A.Plus.

Lemma bracket_facts (c : ascii) :
  bracket c = true ->
  is_blank c = false /\ Ascii.eqb c "," = false /\ Ascii.eqb c ":" = false /\
  Ascii.eqb c "#" = false /\ isdigit c = false /\
  isalpha c || Ascii.eqb c "_" = false /\
  A.number_char c = false /\ A.ident_char c = false /\ B_lexable c = false.
Proof.
  destruct c as [[] [] [] [] [] [] [] []]; vm_compute; intros H;
    try discriminate H; auto 10.
Qed.

Lemma string_drop_0 (s : string) : string_drop 0 s = s.
Proof. destruct s; reflexivity. Qed.

Lemma In_string_drop_scan (p : ascii -> bool) (x : ascii) (s : string) :
  In x (list_ascii_of_string s) -> p x = false ->
  In x (list_ascii_of_string (string_drop (scan_len p s) s)).
Proof.
  intros Hin Hp. induction s as [|a s IH]; simpl in *; [contradiction|].
  destruct (p a) eqn:Ea; simpl.
  - destruct Hin as [<- | Hin]; [congruence | auto].
  - exact Hin.
Qed.

Lemma A_tokens_bracket work : forall ln i k toks,
  A.tokenize_from ln work i k = Ok toks ->
  (exists x, In x (list_ascii_of_string (string_drop k work)) /\
             bracket x = true) ->
  Exists A_bracket_token toks.
Proof.
  induction work as [|c rest IH]; intros ln i k toks H (x & Hin & Hx).
  { destruct k; simpl in Hin; contradiction. }
  simpl in H. destruct k as [|k]; [|eapply IH; eauto].
  simpl in Hin.
  destruct (bracket_facts x Hx)
    as (Fb & F1 & F2 & F3 & Fd & Fa & Fn & Fi & _).
  assert (Hrest : x <> c ->
            exists y, In y (list_ascii_of_string (string_drop 0 rest)) /\
                      bracket y = true).
  { intros Hne. exists x. rewrite string_drop_0.
    destruct Hin as [<- | Hin]; [contradiction | auto]. }
  assert (Hrun : forall p, p x = false -> x <> c ->
            exists y,
              In y (list_ascii_of_string
                      (string_drop (scan_len p rest) rest)) /\
              bracket y = true).
  { intros p Hp Hne. exists x. split; [|exact Hx].
    apply In_string_drop_scan; [|exact Hp].
    destruct Hin as [<- | Hin]; [contradiction | auto]. }
  destruct (is_blank c) eqn:Eb.
  { eapply IH; [exact H|]. apply Hrest. congruence. }
  destruct (Ascii.eqb c ",") eqn:E1.
  { apply push_Ok in H as (toks' & H & ->). apply Exists_cons_tl.
    eapply IH; [exact H|]. apply Hrest. congruence. }
  destruct (Ascii.eqb c ":") eqn:E2.
  { apply push_Ok in H as (toks' & H & ->). apply Exists_cons_tl.
    eapply IH; [exact H|]. apply Hrest. congruence. }
  destruct (Ascii.eqb c "#") eqn:E3.
  { apply push_Ok in H as (toks' & H & ->). apply Exists_cons_tl.
    eapply IH; [exact H|]. apply Hrest. congruence. }
  destruct (Ascii.eqb c "[").
  { apply push_Ok in H as (toks' & H & ->). apply Exists_cons_hd.
    left. reflexivity. }
  destruct (Ascii.eqb c "]").
  { apply push_Ok in H as (toks' & H & ->). apply Exists_cons_hd.
    right. left. reflexivity. }
  destruct (Ascii.eqb c "+").
  { apply push_Ok in H as (toks' & H & ->). apply Exists_cons_hd.
    right. right. reflexivity. }
  destruct (isdigit c) eqn:Ed.
  { apply push_Ok in H as (toks' & H & ->). apply Exists_cons_tl.
    eapply IH; [exact H|]. apply Hrun; congruence. }
  destruct (isalpha c || Ascii.eqb c "_") eqn:Ea; [|discriminate].
  apply push_Ok in H as (toks' & H & ->). apply Exists_cons_tl.
  eapply IH; [exact H|]. apply Hrun; congruence.
Qed.

Lemma A_parse_operands_bracket : forall n toks,
  (length toks <= n)%nat -> Exists A_bracket_token toks ->
  exists e, A.parse_operands toks = Err e.
Proof.
  induction n as [|n IH]; intros toks Hn Hex.
  { destruct toks; [inversion Hex | simpl in Hn; lia]. }
  destruct toks as [|t rest]; [inversion Hex|]. simpl in Hn. simpl.
  assert (Htl : forall ty, A.type t = ty ->
            ty <> A.LBracket -> ty <> A.RBracket -> ty <> A.Plus ->
            Exists A_bracket_token rest).
  { intros ty Et N1 N2 N3.
    inversion Hex as [? ? [Hb | [Hb | Hb]] | ? ? Hr]; subst;
      try assumption; congruence. }
  assert (Hpush : forall o,
            Exists A_bracket_token rest ->
            exists e, push o (A.parse_operands rest) = Err e).
  { intros o Hr. destruct (IH rest ltac:(lia) Hr) as [e ->]. eauto. }
  destruct (A.type t) eqn:Et; eauto;
    try (apply Hpush; eapply Htl; [reflexivity | discriminate..]).
  - apply (IH rest ltac:(lia)). eapply Htl; [reflexivity | discriminate..].
  - assert (Hr : Exists A_bracket_token rest)
      by (eapply Htl; [reflexivity | discriminate..]).
    destruct rest as [|m rest']; [eauto|]. simpl in Hn.
    destruct (A.type m) eqn:Em; eauto.
    assert (Hr' : Exists A_bracket_token rest').
    { inversion Hr as [? ? [Hb | [Hb | Hb]] | ? ? Hr'']; subst;
        try assumption; congruence. }
    destruct (IH rest' ltac:(lia) Hr') as [e ->]. eauto.
Qed.

Lemma A_parse_mnemonic_bracket ln lbl rest :
  Exists A_bracket_token rest ->
  exists e, A.parse_mnemonic ln lbl rest = Err e.
Proof.
  intros Hex. unfold A.parse_mnemonic.
  destruct rest as [|t rest']; [inversion Hex|].
  destruct (A.type t) eqn:Et; eauto.
  assert (Hr : Exists A_bracket_token rest').
  { inversion Hex as [? ? [Hb | [Hb | Hb]] | ? ? Hr']; subst;
      try assumption; congruence. }
  destruct (A_parse_operands_bracket _ rest' (Nat.le_refl _) Hr) as [e ->].
  simpl. eauto.
Qed.

Lemma A_parse_tokens_bracket toks :
  Exists A_bracket_token toks -> exists e, A.parse_tokens toks = Err e.
Proof.
  intros Hex. unfold A.parse_tokens.
  destruct toks as [|front tl]; [inversion Hex|].
  destruct (A.split_label (front :: tl)) as [lbl rest] eqn:Es.
  apply A_parse_mnemonic_bracket.
  unfold A.split_label in Es.
  destruct tl as [|t1 tl']; [injection Es as <- <-; exact Hex|].
  destruct (A.type front) eqn:Ef; try (injection Es as <- <-; exact Hex).
  destruct (A.type t1) eqn:E1; injection Es as <- <-; try exact Hex.
  inversion Hex as [? ? [Hb | [Hb | Hb]] | ? ? Hr]; subst; try congruence.
  inversion Hr as [? ? [Hb | [Hb | Hb]] | ? ? Hr']; subst;
    try assumption; congruence.
Qed.

Lemma A_parse_line_bracket (l : string) (ln : Z) :
  (exists x, In x (list_ascii_of_string (strip_comment l)) /\
             bracket x = true) ->
  exists e, A_parse_line l ln = Err e.
Proof.
  intros Hex. unfold A_parse_line, A.tokenize_line.
  destruct (A.tokenize_from ln (strip_comment l) 0 0) as [toks|e] eqn:E;
    simpl; [|eauto].
  apply A_parse_tokens_bracket. eapply A_tokens_bracket; [exact E|].
  rewrite string_drop_0. exact Hex.
Qed.

Lemma In_substr_prefix (x : ascii) (s : string) : forall n,
  In x (list_ascii_of_string (substr s 0 n)) ->
  In x (list_ascii_of_string s).
Proof.
  unfold substr. induction s as [|c s IH]; intros n H.
  - destruct n; simpl in H; contradiction.
  - destruct n as [|n]; simpl in H; [contradiction|].
    destruct H as [<- | H]; [left; reflexivity | right; eauto].
Qed.

Lemma In_strip_comment (x : ascii) (l : string) :
  In x (list_ascii_of_string (strip_comment l)) ->
  In x (list_ascii_of_string l).
Proof.
  unfold strip_comment. destruct (find_char ";" l); [|auto].
  apply In_substr_prefix.
Qed.

Lemma blank_In (s : string) (x : ascii) :
  blank s = true -> In x (list_ascii_of_string s) -> is_blank x = true.
Proof.
  unfold blank. induction s as [|c s IH]; simpl; [contradiction|].
  intros H [<- | Hin]; apply andb_true_iff in H as [Hc Hs]; auto.
Qed.

Lemma In_app_string (x : ascii) (a b : string) :
  In x (list_ascii_of_string (a +:+ b)) ->
  In x (list_ascii_of_string a) \/ In x (list_ascii_of_string b).
Proof.
  induction a as [|c a IH]; simpl; [auto|].
  intros [<- | H]; [auto | destruct (IH H); auto].
Qed.

(** A line that is not blank and cannot be parsed makes the reading loop
    fail. *)
Lemma A_read_lines_fail (ls : list string) : forall ln l,
  l ∈ ls -> trim l <> EmptyString ->
  (forall n, exists e, A_parse_line l n = Err e) ->
  exists e, A.read_lines ls ln = Err e.
Proof.
  induction ls as [|a ls IH]; intros ln l Hin Ht Hfail.
  { apply elem_of_nil in Hin. contradiction. }
  rewrite A_read_lines_cons.
  apply elem_of_cons in Hin as [<- | Hin].
  - apply String.eqb_neq in Ht. rewrite Ht.
    destruct (Hfail ln) as [e ->]. simpl. eauto.
  - destruct (IH (ln + 1) l Hin Ht Hfail) as [e He]. rewrite He.
    destruct (String.eqb (trim a) EmptyString); [eauto|].
    destruct (A_parse_line a ln); simpl; eauto.
Qed.

Lemma B_read_lines_fail (ls : list string) : forall l,
  l ∈ ls -> trim l <> EmptyString ->
  (exists e, B.tokenize_line (trim l) = Err e) ->
  exists e, B.read_lines ls = Err e.
Proof.
  induction ls as [|a ls IH]; intros l Hin Ht Hfail.
  { apply elem_of_nil in Hin. contradiction. }
  simpl. apply elem_of_cons in Hin as [<- | Hin].
  - apply String.eqb_neq in Ht. rewrite Ht.
    destruct Hfail as [e ->]. simpl. eauto.
  - destruct (IH l Hin Ht Hfail) as [e He]. rewrite He.
    destruct (String.eqb (trim a) EmptyString); [eauto|].
    destruct (B.tokenize_line (trim a)); simpl; [|eauto].
    destruct (B.parse_line_tokens _); simpl; eauto.
Qed.

(** X14. The first lexer has tokens for ['['], [']'] and ['+'], but no
    operand syntax uses them: a line that holds one of these characters in
    front of its comment is tokenized and then rejected by [parse_tokens],
    unless the lexer rejects it first. In the second version the lexer
    itself rejects the character. So no source with such a line is
    assembled, by either version. *)
Theorem indexed_addressing_is_rejected (source l : string) :
  l ∈ getlines source ->
  (exists x, In x (list_ascii_of_string (strip_comment l)) /\
             bracket x = true) ->
  (forall ln toks, A.tokenize_line l ln = Ok toks ->
     Exists A_bracket_token toks /\ exists e, A.parse_tokens toks = Err e) /\
  B.tokenize_line (trim l) = Err B.lex_error /\
  (exists e, A.assemble source = Err e) /\
  (exists e, B.assemble source = Err e).
Proof.
  intros Hin Hex.
  assert (Hnb : trim l <> EmptyString).
  { intros Ht. apply trim_empty_blank in Ht.
    destruct Hex as (x & Hx & Hb). apply In_strip_comment in Hx.
    pose proof (blank_In _ _ Ht Hx) as Hbl.
    destruct (bracket_facts x Hb) as (F & _). congruence. }
  assert (HB : B.tokenize_line (trim l) = Err B.lex_error).
  { unfold B.tokenize_line.
    pose proof (B_tokenize_from_lexable (strip_comment (trim l)) 0
                  ltac:(lia)) as H.
    destruct (string_forall B_lexable (strip_comment (trim l))) eqn:E;
      [|exact H].
    exfalso. destruct Hex as (x & Hx & Hb).
    destruct (bracket_facts x Hb) as (Fb & _ & _ & _ & _ & _ & _ & _ & Fl).
    destruct (strip_comment_trim l) as (w1 & w2 & Hs & H1 & H2).
    rewrite Hs in Hx.
    apply In_app_string in Hx as [Hx | Hx].
    { pose proof (blank_In _ _ H1 Hx). congruence. }
    apply In_app_string in Hx as [Hx | Hx].
    2:{ pose proof (blank_In _ _ H2 Hx). congruence. }
    assert (Hf : string_forall B_lexable (strip_comment (trim l)) = false)
      by (apply string_forall_In; eauto).
    congruence. }
  split.
  { intros ln toks Ht.
    assert (Hb : Exists A_bracket_token toks).
    { eapply A_tokens_bracket; [exact Ht|]. rewrite string_drop_0. exact Hex. }
    split; [exact Hb | apply A_parse_tokens_bracket, Hb]. }
  split; [exact HB|].
  split.
  - destruct (A_read_lines_fail (getlines source) 1 l Hin Hnb) as [e He].
    { intros n. apply A_parse_line_bracket, Hex. }
    exists e. unfold A.assemble, A.assemble_words. rewrite He. reflexivity.
  - destruct (B_read_lines_fail (getlines source) l Hin Hnb) as [e He];
      [eauto|].
    exists e. unfold B.assemble, B.assemble_words. rewrite He. reflexivity.
Qed.

(** ** The end of the source *)

Lemma getlines_from_newline (s : string) : forall cur,
  exists extra,
    (extra = [] \/ extra = [EmptyString]) /\
    getlines_from cur (s +:+ newline) = getlines_from cur s ++ extra.
Proof.
  induction s as [|c s IH]; intros cur; simpl.
  - destruct cur as [|d cur].
    + exists [EmptyString]. auto.
    + exists []. auto.
  - destruct (Ascii.eqb c "010").
    + destruct (IH EmptyString) as (extra & He & ->). exists extra. auto.
    + apply IH.
Qed.

Lemma A_read_lines_extra (ls extra : list string) :
  extra = [] \/ extra = [EmptyString] ->
  forall ln, A.read_lines (ls ++ extra) ln = A.read_lines ls ln.
Proof.
  intros [-> | ->]; [intros ln; rewrite app_nil_r; reflexivity|].
  induction ls as [|l ls IH]; intros ln; [reflexivity|].
  rewrite <- app_comm_cons, !A_read_lines_cons, IH. reflexivity.
Qed.

Lemma B_read_lines_extra (ls extra : list string) :
  extra = [] \/ extra = [EmptyString] ->
  B.read_lines (ls ++ extra) = B.read_lines ls.
Proof.
  intros [-> | ->]; [rewrite app_nil_r; reflexivity|].
  induction ls as [|l ls IH]; [reflexivity|].
  simpl. rewrite IH. reflexivity.
Qed.

(** X15. A newline at the end of the source makes no difference: with it
    or without it, both versions of [assemble] return the same bytes or
    fail with the same exception. *)
Theorem final_newline_is_optional (source : string) :
  A.assemble (source +:+ newline) = A.assemble source /\
  B.assemble (source +:+ newline) = B.assemble source.
Proof.
  unfold A.assemble, A.assemble_words, B.assemble, B.assemble_words, getlines.
  destruct (getlines_from_newline source EmptyString) as (extra & He & ->).
  rewrite (A_read_lines_extra _ _ He), (B_read_lines_extra _ _ He).
  split; reflexivity.
Qed.
(** * Further properties of the two passes *)

(** ** The symbol table *)

(** The labels that the lines define, in the order of the source. *)
Definition A_defined_labels (lines : list A.ParsedLine) : list string :=
  filter (fun nm => nm <> EmptyString) (A.label <$> lines).

Definition B_defined_labels (lines : list B.Line) : list string :=
  filter (fun nm => nm <> EmptyString) (B.label <$> lines).

Lemma A_symbol_exists_elem (syms : list (string * Z)) (nm : string) :
  A.symbol_exists_in syms nm = true <-> nm ∈ syms.*1.
Proof.
  induction syms as [|[k a] syms IH]; simpl.
  - split; [discriminate | intros H; apply elem_of_nil in H; contradiction].
  - rewrite elem_of_cons, <- IH.
    destruct (String.eqb k nm) eqn:E.
    + apply String.eqb_eq in E. subst. tauto.
    + apply String.eqb_neq in E. split; [auto|]. intros [-> | H]; [contradiction | exact H].
Qed.

Lemma A_lookup_elem (syms : list (string * Z)) (nm : string) (a : Z) :
  NoDup syms.*1 ->
  (nm, a) ∈ syms <-> A.lookup_symbol_in syms nm = Ok a.
Proof.
  induction syms as [|[k v] syms IH]; simpl; intros Hnd.
  - split; [intros H; apply elem_of_nil in H; contradiction | discriminate].
  - apply NoDup_cons in Hnd as [Hk Hnd]. rewrite elem_of_cons, (IH Hnd).
    destruct (String.eqb k nm) eqn:E.
    + apply String.eqb_eq in E. subst k. split.
      * intros [[= ->] | H]; [reflexivity|].
        exfalso. apply Hk. apply (IH Hnd) in H.
        apply list_elem_of_fmap. exists (nm, a). auto.
      * intros [= ->]. auto.
    + apply String.eqb_neq in E. split; [|auto].
      intros [[= -> ->] | H]; [contradiction | exact H].
Qed.

Lemma A_pass1_loop_names lines : forall i ctx ctx',
  A.pass1_loop lines i ctx = Ok ctx' ->
  (A.symbols ctx').*1 = (A.symbols ctx).*1 ++ A_defined_labels lines /\
  (NoDup (A.symbols ctx).*1 -> NoDup (A.symbols ctx').*1).
Proof.
  unfold A_defined_labels.
  induction lines as [|pl lines IH]; intros i ctx ctx' H; simpl in H.
  { injection H as <-. rewrite app_nil_r. auto. }
  inv_bind H. destruct (IH _ _ _ H) as [Hn Hd].
  destruct (A_pass1_step_spec _ _ _ _ Ha) as [_ [[El Hs] | (Hne & Hex & Hs)]].
  - rewrite Hs in Hn, Hd. split; [|exact Hd].
    rewrite Hn, fmap_cons, filter_cons_False by (intros Hc; apply Hc, El).
    reflexivity.
  - rewrite Hs, fmap_app in Hn, Hd. simpl in Hn, Hd. split.
    + rewrite Hn, fmap_cons, filter_cons_True by exact Hne.
      rewrite <- app_assoc. reflexivity.
    + intros Hnd. apply Hd. apply NoDup_app. split; [exact Hnd|].
      split; [|apply NoDup_singleton].
      intros x Hx Hx'. apply list_elem_of_singleton in Hx'. subst x.
      apply A_symbol_exists_elem in Hx. congruence.
Qed.

Lemma B_pass1_loop_names lines : forall i st st',
  B.pass1_loop lines i st = Ok st' ->
  NoDup (B_defined_labels lines) /\
  (forall nm, nm ∈ B_defined_labels lines -> B.symbols st !! nm = None) /\
  (forall nm, is_Some (B.symbols st' !! nm) <->
              is_Some (B.symbols st !! nm) \/ nm ∈ B_defined_labels lines).
Proof.
  unfold B_defined_labels.
  induction lines as [|l lines IH]; intros i st st' H; simpl in H.
  { injection H as <-. split; [constructor|].
    split; [intros nm Hnm; apply elem_of_nil in Hnm; contradiction|].
    intros nm. rewrite fmap_nil, filter_nil, elem_of_nil. tauto. }
  inv_bind H. destruct (IH _ _ _ H) as (Hnd & Hfresh & Hdom).
  destruct (B_pass1_step_spec _ _ _ _ Ha) as [_ [[El Hs] | (Hne & Hex & Hs)]].
  - rewrite Hs in Hfresh, Hdom.
    rewrite fmap_cons, filter_cons_False by (intros Hc; apply Hc, El).
    auto.
  - rewrite fmap_cons, filter_cons_True by exact Hne.
    assert (Hnotin : B.label l ∉ filter (λ nm, nm <> EmptyString)
                                   (B.label <$> lines)).
    { intros Hin. specialize (Hfresh _ Hin).
      rewrite Hs, lookup_insert_eq in Hfresh. discriminate. }
    split; [apply NoDup_cons; auto|].
    split.
    + intros nm Hnm. apply elem_of_cons in Hnm as [-> | Hnm]; [exact Hex|].
      specialize (Hfresh _ Hnm). rewrite Hs in Hfresh.
      apply lookup_insert_None in Hfresh. tauto.
    + intros nm. rewrite Hdom, Hs, elem_of_cons.
      destruct (decide (B.label l = nm)) as [<- | Hd].
      * rewrite lookup_insert_eq. split; [auto|]. intros _. left. eauto.
      * rewrite lookup_insert_ne by exact Hd.
        split; [tauto|]. intros [H1 | [-> | H2]]; [auto | contradiction | auto].
Qed.

(** X16. The symbol table that Pass 1 leaves behind. When Pass 1 succeeds,
    the lines that carry a label carry pairwise distinct ones. The table of
    the first version lists exactly these labels, each once and in the order
    of the source, and [lookup_symbol] returns the address listed with a
    label; the table of the second version holds a value exactly for these
    labels. *)
Theorem symbol_tables :
  (forall lines ctx,
     A.pass1 lines A.AsmContext_init = Ok ctx ->
     (A.symbols ctx).*1 = A_defined_labels lines /\
     NoDup (A_defined_labels lines) /\
     (forall nm a,
        (nm, a) ∈ A.symbols ctx <-> A.lookup_symbol ctx nm = Ok a)) /\
  (forall lines st,
     B.pass1 lines = Ok st ->
     NoDup (B_defined_labels lines) /\
     (forall nm,
        is_Some (B.symbols st !! nm) <-> nm ∈ B_defined_labels lines)).
Proof.
  split.
  - intros lines ctx H. unfold A.pass1 in H.
    destruct (A_pass1_loop_names _ _ _ _ H) as [Hn Hd]. simpl in Hn, Hd.
    specialize (Hd (NoDup_nil_2)).
    split; [exact Hn|]. split; [rewrite <- Hn; exact Hd|].
    intros nm a. apply A_lookup_elem, Hd.
  - intros lines st H. unfold B.pass1 in H.
    destruct (B_pass1_loop_names _ _ _ _ H) as (Hnd & _ & Hdom). simpl in Hdom.
    split; [exact Hnd|].
    intros nm. rewrite Hdom, lookup_empty. split; [|auto].
    intros [[? Hc] | Hin]; [discriminate | exact Hin].
Qed.

(** ** Defining and finding a label *)

Lemma A_lookup_error (syms : list (string * Z)) (nm : string) (e : exception) :
  A.lookup_symbol_in syms nm = Err e -> e = A_unknown_label nm.
Proof.
  induction syms as [|[k a] syms IH]; simpl.
  - intros [= <-]. reflexivity.
  - destruct (String.eqb k nm); [discriminate | exact IH].
Qed.

(** X17. Defining a label and looking it up. When [pass1] defines the
    label of a line, the label was not in the table before; afterwards
    [symbol_exists] finds it, [lookup_symbol] returns the address counter of
    the moment of the definition, every other name is looked up as before,
    and defining the same label once more throws the duplicate-label error.
    [symbol_exists] holds exactly of the names that [lookup_symbol] finds,
    and [lookup_symbol] throws its unknown-label error for the others. The
    second version defines its labels in the same way. *)
Theorem define_then_lookup :
  (forall pl ctx ctx',
     A.define_label pl ctx = Ok ctx' -> A.label pl <> EmptyString ->
     A.symbol_exists ctx (A.label pl) = false /\
     A.symbol_exists ctx' (A.label pl) = true /\
     A.lookup_symbol ctx' (A.label pl) = Ok (A.current_addr_words ctx) /\
     (forall nm, nm <> A.label pl ->
        A.lookup_symbol ctx' nm = A.lookup_symbol ctx nm) /\
     A.define_label pl ctx' = Err (runtime_error "Duplicate label")) /\
  (forall ctx nm,
     A.symbol_exists ctx nm = is_ok (A.lookup_symbol ctx nm) /\
     (A.symbol_exists ctx nm = false ->
      A.lookup_symbol ctx nm = Err (A_unknown_label nm))) /\
  (forall l st st',
     B.define_label l st = Ok st' -> B.label l <> EmptyString ->
     B.symbols st !! B.label l = None /\
     B.symbols st' !! B.label l = Some (B.addr st) /\
     (forall nm, nm <> B.label l ->
        B.symbols st' !! nm = B.symbols st !! nm) /\
     B.define_label l st' =
       Err (runtime_error ("Duplicate label: " +:+ B.label l))).
Proof.
  split; [|split].
  - intros pl ctx ctx' H Hne. unfold A.define_label in *.
    apply String.eqb_neq in Hne. rewrite Hne in *. simpl in *.
    unfold A.symbol_exists, A.lookup_symbol in *.
    destruct (A.symbol_exists_in (A.symbols ctx) (A.label pl)) eqn:Ex;
      [discriminate|].
    injection H as <-. simpl.
    assert (Hl : A.lookup_symbol_in
                   (A.symbols ctx ++ [(A.label pl, A.current_addr_words ctx)])
                   (A.label pl) = Ok (A.current_addr_words ctx)).
    { rewrite A_lookup_app. rewrite A_symbol_exists_lookup in Ex.
      destruct (A.lookup_symbol_in (A.symbols ctx) (A.label pl));
        [discriminate|].
      simpl. rewrite String.eqb_refl. reflexivity. }
    assert (Hx : A.symbol_exists_in
                   (A.symbols ctx ++ [(A.label pl, A.current_addr_words ctx)])
                   (A.label pl) = true)
      by (rewrite A_symbol_exists_lookup, Hl; reflexivity).
    split; [reflexivity|]. split; [exact Hx|]. split; [exact Hl|].
    split; [|rewrite Hx; reflexivity].
    intros nm Hnm. rewrite A_lookup_app.
    destruct (A.lookup_symbol_in (A.symbols ctx) nm) as [a|e] eqn:E;
      [reflexivity|].
    simpl. apply String.eqb_neq in Hnm. rewrite String.eqb_sym, Hnm.
    apply A_lookup_error in E. subst e. reflexivity.
  - intros ctx nm. unfold A.symbol_exists, A.lookup_symbol.
    split; [apply A_symbol_exists_lookup|].
    rewrite A_symbol_exists_lookup.
    destruct (A.lookup_symbol_in (A.symbols ctx) nm) as [a|e] eqn:E;
      [discriminate|].
    intros _. apply A_lookup_error in E. subst e. reflexivity.
  - intros l st st' H Hne. unfold B.define_label in *.
    apply String.eqb_neq in Hne. rewrite Hne in *. simpl in *.
    case_bool_decide as Hex; [discriminate|].
    injection H as <-. simpl.
    assert (Hnone : B.symbols st !! B.label l = None).
    { destruct (B.symbols st !! B.label l) eqn:E; [|reflexivity].
      exfalso. apply Hex. eauto. }
    split; [exact Hnone|].
    split; [apply lookup_insert_eq|].
    split; [intros nm Hnm; apply lookup_insert_ne; congruence|].
    rewrite bool_decide_eq_true_2; [reflexivity|].
    rewrite lookup_insert_eq. eauto.
Qed.
(** ** The addresses of Pass 1 and the words of Pass 2 *)

(** Closes a goal whose context holds two different mnemonics for one
    line. *)
Ltac other_mnemonic := exfalso; mnemonic_eqs.

Lemma wrap16_add_l (a b : Z) : wrap16 (wrap16 a + b) = wrap16 (a + b).
Proof. unfold wrap16. apply Zplus_mod_idemp_l. Qed.

(** Pass 1 moves the address counter past a line by the number of words
    that Pass 2 emits for the line, [.org] apart. *)
Lemma A_advance_size pl ctx ctx' ctx2 a ws :
  ~ A_org pl -> word16 (A.current_addr_words ctx) ->
  A.advance pl ctx = Ok ctx' -> A.pass2_step pl ctx2 a = Ok ws ->
  A.current_addr_words ctx' =
  wrap16 (A.current_addr_words ctx + Z.of_nat (length ws)).
Proof.
  intros Horg Hw H H2. destruct (A.lkind pl) eqn:Hk.
  - unfold A.advance in H. unfold A.pass2_step in H2. rewrite Hk in H, H2.
    injection H as <-. injection H2 as <-. simpl.
    rewrite Z.add_0_r. symmetry. apply wrap16_small, Hw.
  - unfold A.advance in H. rewrite Hk in H. cbv zeta in H.
    destruct (A_pass2_step_instruction _ _ _ _ Hk H2)
      as [[[_ E] ->] | [[[_ E] ->] |
          [([_ E] & o0 & o1 & rd & Hops & K0 & Hrd & Hcase) |
           (opc & o & target & Hm & Hops & _ & ->)]]].
    + pose proof E as E'. rewrite iequals_upper_l in E'.
      rewrite A_has_instr_iequals, supported_iequals, E' in H. simpl in H.
      destruct (iequals (upper_string (A.op pl)) "ADD") eqn:EA;
        [other_mnemonic|].
      destruct (iequals (upper_string (A.op pl)) "JMP") eqn:EJ;
        [other_mnemonic|].
      destruct (iequals (upper_string (A.op pl)) "JZ") eqn:EZ;
        [other_mnemonic|].
      simpl in H. injection H as <-. reflexivity.
    + pose proof E as E'. rewrite iequals_upper_l in E'.
      rewrite A_has_instr_iequals, supported_iequals, E' in H.
      rewrite orb_true_r in H. simpl in H.
      destruct (iequals (upper_string (A.op pl)) "ADD") eqn:EA;
        [other_mnemonic|].
      destruct (iequals (upper_string (A.op pl)) "JMP") eqn:EJ;
        [other_mnemonic|].
      destruct (iequals (upper_string (A.op pl)) "JZ") eqn:EZ;
        [other_mnemonic|].
      simpl in H. injection H as <-. reflexivity.
    + pose proof E as E'. rewrite iequals_upper_l in E'.
      rewrite A_has_instr_iequals, supported_iequals, E' in H.
      rewrite !orb_true_r in H. simpl in H.
      rewrite E, Hops in H.
      destruct Hcase as [(K1 & rs & _ & ->) | (K1 & imm & _ & ->)];
        rewrite K1 in H; injection H as <-; simpl;
        [reflexivity | apply wrap16_succ_succ].
    + assert (Hj : iequals (upper_string (A.op pl)) "JMP"
                   || iequals (upper_string (A.op pl)) "JZ" = true).
      { destruct Hm as [[[_ E] _] | [[_ E] _]]; rewrite E;
          [reflexivity | apply orb_true_r]. }
      assert (Hs : supported (A.op pl) = true).
      { rewrite supported_iequals, <- !(iequals_upper_l (A.op pl)).
        apply orb_true_iff in Hj as [-> | ->]; rewrite ?orb_true_r;
          reflexivity. }
      rewrite A_has_instr_iequals, Hs in H. simpl in H.
      destruct (iequals (upper_string (A.op pl)) "ADD") eqn:EA.
      { destruct Hm as [[[_ E] _] | [[_ E] _]]; other_mnemonic. }
      rewrite Hj in H. injection H as <-. simpl. apply wrap16_succ_succ.
  - unfold A.advance in H. unfold A.pass2_step in H2. rewrite Hk in H, H2.
    destruct (iequals (A.op pl) ".org") eqn:Eo;
      [exfalso; apply Horg; split; assumption|].
    destruct (iequals (A.op pl) ".word") eqn:Ew.
    + injection H as <-. simpl.
      destruct (A.operands pl) as [|o [|? ?]]; try discriminate.
      destruct (A.kind o); try discriminate;
        inv_bind H2; injection H2 as <-; reflexivity.
    + injection H as <-. injection H2 as <-. simpl.
      rewrite Z.add_0_r. symmetry. apply wrap16_small, Hw.
Qed.

Lemma B_advance_size l st st' syms a ws :
  ~ B_org l -> word16 (B.addr st) ->
  B.advance l st = Ok st' -> B.pass2_step l syms a = Ok ws ->
  B.addr st' = wrap16 (B.addr st + Z.of_nat (length ws)).
Proof.
  intros Horg Hw H H2.
  destruct (String.eqb (B.op l) EmptyString) eqn:Eop.
  { unfold B.advance in H. unfold B.pass2_step in H2. rewrite Eop in H, H2.
    injection H as <-. injection H2 as <-. simpl.
    rewrite Z.add_0_r. symmetry. apply wrap16_small, Hw. }
  assert (Hop : B.op l <> EmptyString) by (apply String.eqb_neq, Eop).
  destruct (B.is_directive l) eqn:Hd.
  - unfold B.advance in H. unfold B.pass2_step in H2.
    rewrite Eop, Hd in H, H2.
    destruct (iequals (B.op l) ".ORG") eqn:Eo;
      [exfalso; apply Horg; repeat split; assumption|].
    destruct (iequals (B.op l) ".WORD") eqn:Ew.
    + injection H as <-. simpl.
      destruct (B.operands l) as [|o [|? ?]]; try discriminate.
      destruct (B.kind o); try discriminate;
        inv_bind H2; injection H2 as <-; reflexivity.
    + injection H as <-. injection H2 as <-. simpl.
      rewrite Z.add_0_r. symmetry. apply wrap16_small, Hw.
  - unfold B.advance in H. rewrite Eop, Hd in H.
    destruct (B_pass2_step_instruction _ _ _ _ Hop Hd H2)
      as [[(_ & _ & E) ->] | [[(_ & _ & E) ->] |
          [((_ & _ & E) & o0 & o1 & rd & Hops & K0 & Hrd & Hcase) |
           (opc & o & target & Hm & Hops & _ & ->)]]].
    + rewrite E in H. simpl in H. injection H as <-. reflexivity.
    + rewrite E, orb_true_r in H. injection H as <-. reflexivity.
    + destruct (iequals (B.op l) "NOP") eqn:EN; [other_mnemonic|].
      destruct (iequals (B.op l) "HALT") eqn:EH; [other_mnemonic|].
      simpl in H. rewrite E, Hops in H.
      destruct Hcase as [(K1 & rs & _ & ->) | (K1 & imm & _ & ->)];
        rewrite K1 in H; injection H as <-; simpl;
        [reflexivity | apply wrap16_succ_succ].
    + assert (Hj : iequals (B.op l) "JMP" || iequals (B.op l) "JZ" = true).
      { destruct Hm as [[(_ & _ & E) _] | [(_ & _ & E) _]]; rewrite E;
          [reflexivity | apply orb_true_r]. }
      destruct (iequals (B.op l) "NOP") eqn:EN.
      { destruct Hm as [[(_ & _ & E) _] | [(_ & _ & E) _]]; other_mnemonic. }
      destruct (iequals (B.op l) "HALT") eqn:EH.
      { destruct Hm as [[(_ & _ & E) _] | [(_ & _ & E) _]]; other_mnemonic. }
      destruct (iequals (B.op l) "ADD") eqn:EA.
      { destruct Hm as [[(_ & _ & E) _] | [(_ & _ & E) _]]; other_mnemonic. }
      simpl in H. rewrite Hj in H. injection H as <-. reflexivity.
Qed.

Lemma A_define_label_addr pl ctx ctx' :
  A.define_label pl ctx = Ok ctx' ->
  A.current_addr_words ctx' = A.current_addr_words ctx.
Proof.
  unfold A.define_label. intros H. split_ok H; subst; reflexivity.
Qed.

Lemma B_define_label_addr l st st' :
  B.define_label l st = Ok st' -> B.addr st' = B.addr st.
Proof.
  unfold B.define_label. intros H. split_ok H; subst; reflexivity.
Qed.

Lemma A_counter_words lines : forall i ctx c ctx2 ws,
  A_ctx_ok ctx -> Forall (fun pl => ~ A_org pl) lines ->
  A.pass1_loop lines i ctx = Ok c ->
  A.pass2_loop lines ctx2 i [] = Ok ws ->
  A.current_addr_words c =
  wrap16 (A.current_addr_words ctx + Z.of_nat (length ws)).
Proof.
  induction lines as [|pl lines IH]; intros i ctx c ctx2 ws Hok Hno H1 H2;
    simpl in H1, H2.
  { injection H1 as <-. injection H2 as <-. simpl. rewrite Z.add_0_r.
    symmetry. apply wrap16_small, Hok. }
  apply Forall_cons in Hno as [Hpl Hno].
  apply bind_Ok in H1 as (c1 & Hstep & H1).
  apply bind_Ok in H2 as (ws1 & Hws1 & H2).
  rewrite A_pass2_loop_acc in H2.
  apply bind_Ok in H2 as (ws2 & Hws2 & H2). injection H2 as <-.
  rewrite (IH _ _ _ _ _ (A_pass1_step_ok _ _ _ _ Hok Hstep) Hno H1 Hws2).
  unfold A.pass1_step in Hstep.
  apply bind_Ok in Hstep as (c0 & Hdef & Hadv).
  pose proof (A_define_label_addr _ _ _ Hdef) as Hc0. simpl in Hc0.
  assert (Hw0 : word16 (A.current_addr_words c0))
    by (rewrite Hc0; apply Hok).
  rewrite (A_advance_size _ _ _ _ _ _ Hpl Hw0 Hadv Hws1), Hc0.
  rewrite wrap16_add_l, length_app. f_equal. simpl. lia.
Qed.

Lemma B_counter_words lines : forall i st s st2 ws,
  B_st_ok st -> Forall (fun l => ~ B_org l) lines ->
  B.pass1_loop lines i st = Ok s ->
  B.pass2_loop lines st2 i [] = Ok ws ->
  B.addr s = wrap16 (B.addr st + Z.of_nat (length ws)).
Proof.
  induction lines as [|l lines IH]; intros i st s st2 ws Hok Hno H1 H2;
    simpl in H1, H2.
  { injection H1 as <-. injection H2 as <-. simpl. rewrite Z.add_0_r.
    symmetry. apply wrap16_small, Hok. }
  apply Forall_cons in Hno as [Hl Hno].
  apply bind_Ok in H1 as (s1 & Hstep & H1).
  apply bind_Ok in H2 as (ws1 & Hws1 & H2).
  rewrite B_pass2_loop_acc in H2.
  apply bind_Ok in H2 as (ws2 & Hws2 & H2). injection H2 as <-.
  rewrite (IH _ _ _ _ _ (B_pass1_step_ok _ _ _ _ Hok Hstep) Hno H1 Hws2).
  unfold B.pass1_step in Hstep.
  apply bind_Ok in Hstep as (s0 & Hdef & Hadv).
  pose proof (B_define_label_addr _ _ _ Hdef) as Hs0. simpl in Hs0.
  assert (Hw0 : word16 (B.addr s0)) by (rewrite Hs0; apply Hok).
  rewrite (B_advance_size _ _ _ _ _ _ Hl Hw0 Hadv Hws1), Hs0.
  rewrite wrap16_add_l, length_app. f_equal. simpl. lia.
Qed.

Lemma A_pass1_init_ok lines : A_ctx_ok (A_pass1_init lines).
Proof. split; simpl; [unfold word16; lia | constructor]. Qed.

Lemma B_pass1_init_ok lines : B_st_ok (B_pass1_init lines).
Proof. split; simpl; [unfold word16; lia | apply map_Forall_empty]. Qed.

(** X18. In the first version the address of a line is the place of its
    words in the output. When both passes succeed on lines without [.org],
    the address that Pass 1 recorded for a line is 0x8000 plus the number of
    words that Pass 2 emits for the lines before it, modulo 2^16, and the
    address counter ends at 0x8000 plus the number of all words: the two
    passes agree on the size of every line. The lines that [assemble] reads
    are of this kind, since the lexer yields no directive. *)
Theorem A_addresses_are_word_positions :
  (forall lines ctx words,
     Forall (fun pl => ~ A_org pl) lines ->
     A.pass1 lines A.AsmContext_init = Ok ctx ->
     A.pass2 lines ctx [] = Ok words ->
     A.current_addr_words ctx = wrap16 (32768 + Z.of_nat (length words)) /\
     forall i, (i < length lines)%nat ->
       exists before,
         A.pass2 (take i lines) ctx [] = Ok before /\
         A.line_addr ctx !!! i = wrap16 (32768 + Z.of_nat (length before))) /\
  (forall source lines,
     A.read_lines (getlines source) 1 = Ok lines ->
     Forall (fun pl => ~ A_org pl) lines).
Proof.
  split.
  - intros lines ctx words Hno H1 H2. split.
    + unfold A.pass1 in H1. unfold A.pass2 in H2.
      apply (A_counter_words _ _ _ _ _ _ (A_pass1_init_ok lines) Hno H1 H2).
    + intros i Hi. destruct (lookup_lt_is_Some_2 _ _ Hi) as [pl Hpl].
      destruct (A_pass2_at _ _ _ _ _ H2 Hpl) as (before & ws & after & Hb & _).
      exists before. split; [exact Hb|].
      destruct (A_line_addr_counter _ _ _ _ H1 Hpl) as (c & Hc & <-).
      apply (A_counter_words _ _ _ _ _ _ (A_pass1_init_ok lines)
               ltac:(apply Forall_take; exact Hno) Hc Hb).
  - intros source lines H.
    eapply Forall_impl; [exact (A_read_lines_kinds _ _ _ H)|].
    intros pl Hk [Hd _]. contradiction.
Qed.

(** X19. In the second version as well: when both passes succeed on lines
    without [.org], the address recorded for a line is 0x8000 plus the
    number of words emitted for the lines before it, modulo 2^16, and the
    address counter ends at 0x8000 plus the number of all words. *)
Theorem B_addresses_are_word_positions (lines : list B.Line) (st : B.Pass1)
    (words : list Z) :
  Forall (fun l => ~ B_org l) lines ->
  B.pass1 lines = Ok st -> B.pass2 lines st = Ok words ->
  B.addr st = wrap16 (32768 + Z.of_nat (length words)) /\
  forall i, (i < length lines)%nat ->
    exists before,
      B.pass2 (take i lines) st = Ok before /\
      B.line_addr st !!! i = wrap16 (32768 + Z.of_nat (length before)).
Proof.
  intros Hno H1 H2. split.
  - unfold B.pass1 in H1. unfold B.pass2 in H2.
    apply (B_counter_words _ _ _ _ _ _ (B_pass1_init_ok lines) Hno H1 H2).
  - intros i Hi. destruct (lookup_lt_is_Some_2 _ _ Hi) as [l Hl].
    destruct (B_pass2_at _ _ _ _ _ H2 Hl) as (before & ws & after & Hb & _).
    exists before. split; [exact Hb|].
    destruct (B_line_addr_counter _ _ _ _ H1 Hl) as (s & Hs & <-).
    apply (B_counter_words _ _ _ _ _ _ (B_pass1_init_ok lines)
             ltac:(apply Forall_take; exact Hno) Hs Hb).
Qed.
(** * The exceptions of [assemble] *)

(** ** What can go wrong with a number or a register *)

Lemma read_digits_seen (base : Z) (s : string) : forall acc,
  (read_digits base s acc true).2 = true.
Proof.
  induction s as [|c s IH]; intros acc; simpl; [reflexivity|].
  destruct (digit_value base c); [apply IH | reflexivity].
Qed.

Lemma digit_value_digit (base : Z) (c : ascii) :
  base = 10 \/ base = 16 -> isdigit c = true ->
  is_Some (digit_value base c).
Proof.
  intros [-> | ->] Hc.
  - rewrite digit_value_decimal, Hc. eauto.
  - destruct c as [[] [] [] [] [] [] [] []]; try discriminate Hc;
      vm_compute; eauto.
Qed.

(** On a text that starts with a digit [std::stoi] finds a number to
    convert. *)
Lemma stoi_digit_errors (c : ascii) (s : string) (base : Z) (e : exception) :
  base = 10 \/ base = 16 -> isdigit c = true ->
  stoi (String c s) base = Err e -> e = out_of_range.
Proof.
  intros Hb Hc H. rewrite (stoi_digit _ _ _ Hc) in H.
  assert (Hs1 : exists d r, strip_hex_prefix base (String c s) = String d r /\
                            is_Some (digit_value base d)).
  { assert (Hdef : exists d r, String c s = String d r /\
                               is_Some (digit_value base d))
      by (exists c, s; split; [reflexivity | apply digit_value_digit; auto]).
    unfold strip_hex_prefix.
    destruct c as [[] [] [] [] [] [] [] []]; try exact Hdef.
    destruct s as [|x [|h s']]; try exact Hdef.
    destruct (base =? 16) eqn:E16; [|exact Hdef].
    apply Z.eqb_eq in E16. subst base.
    destruct (Ascii.eqb x "x" || Ascii.eqb x "X"); [|exact Hdef].
    simpl. case_bool_decide as Hh; [|exact Hdef].
    exists h, s'. auto. }
  destruct Hs1 as (d & r & Hs1 & [v Hv]). rewrite Hs1 in H.
  simpl in H. rewrite Hv in H.
  pose proof (read_digits_seen base r (0 * base + v)) as Hseen.
  destruct (read_digits base r (0 * base + v) true) as [n seen].
  simpl in Hseen. subst seen. simpl in H.
  destruct ((n <? INT_MIN) || (INT_MAX <? n)); [|discriminate].
  injection H as <-. reflexivity.
Qed.

Lemma parse_number16_errors (what : string) (c : ascii) (s : string)
    (e : exception) :
  isdigit c = true ->
  parse_number16_with what (String c s) = Err e ->
  e = runtime_error what \/ e = out_of_range.
Proof.
  intros Hc H. rewrite parse_number16_base in H.
  destruct (stoi (String c s) _) as [v|e'] eqn:Es; simpl in H.
  - destruct ((v <? 0) || (65535 <? v)); [|discriminate].
    injection H as <-. auto.
  - injection H as <-. right.
    eapply stoi_digit_errors; [|exact Hc|exact Es].
    destruct (hex_prefix _); auto.
Qed.

Lemma reg_id_from_name_ok (what name : string) :
  is_register_name name = true ->
  exists r, reg_id_from_name_with what name = Ok r.
Proof.
  unfold is_register_name. rewrite !orb_true_iff, !String.eqb_eq.
  intros [[[-> | ->] | ->] | ->]; vm_compute; eauto.
Qed.

(** ** The lines that the first lexer and parser deliver *)

(** An operand as the lexer and the parser deliver it: a register operand
    names a register, an immediate or a raw number starts with a digit. *)
Definition A_operand_ok (o : A.Operand) : Prop :=
  match A.kind o with
  | A.Reg => is_register_name (A.otext o) = true
  | A.Imm | A.RawNumber =>
      exists c s, A.otext o = String c s /\ isdigit c = true
  | A.LabelRef => True
  end.

Lemma A_number_token_digit (t : A.Token) :
  A_token_class t -> A.type t = A.Number ->
  exists c s, A.text t = String c s /\ isdigit c = true.
Proof.
  unfold A_token_class. intros H E. rewrite E in H.
  destruct H as (c & s & Ht & Hc & _). eauto.
Qed.

Lemma A_parse_operands_ok : forall n toks ops,
  (length toks <= n)%nat -> Forall A_token_class toks ->
  A.parse_operands toks = Ok ops -> Forall A_operand_ok ops.
Proof.
  induction n as [|n IH]; intros toks ops Hn Hall H.
  { destruct toks; [injection H as <-; constructor | simpl in Hn; lia]. }
  destruct toks as [|t rest]; [injection H as <-; constructor|].
  simpl in Hn, H. apply Forall_cons in Hall as [Ht Hrest].
  destruct (A.type t) eqn:Et; try discriminate.
  - apply push_Ok in H as (ops' & H & ->).
    constructor; [exact I | eapply IH; [|exact Hrest|exact H]; lia].
  - apply push_Ok in H as (ops' & H & ->).
    constructor; [|eapply IH; [|exact Hrest|exact H]; lia].
    unfold A_operand_ok. simpl. apply A_number_token_digit; assumption.
  - apply push_Ok in H as (ops' & H & ->).
    constructor; [|eapply IH; [|exact Hrest|exact H]; lia].
    unfold A_operand_ok, A_token_class in *. simpl. rewrite Et in Ht. exact Ht.
  - eapply IH; [|exact Hrest|exact H]. lia.
  - destruct rest as [|m rest']; [discriminate|].
    simpl in Hn. apply Forall_cons in Hrest as [Hm Hrest'].
    destruct (A.type m) eqn:Em; try discriminate.
    apply push_Ok in H as (ops' & H & ->).
    constructor; [|eapply IH; [|exact Hrest'|exact H]; lia].
    unfold A_operand_ok. simpl. apply A_number_token_digit; assumption.
Qed.

Lemma A_parse_tokens_ok toks pl :
  Forall A_token_class toks -> A.parse_tokens toks = Ok pl ->
  Forall A_operand_ok (A.operands pl).
Proof.
  intros Hall H. unfold A.parse_tokens in H.
  destruct toks as [|front tl]; [injection H as <-; constructor|].
  destruct (A.split_label (front :: tl)) as [lbl rest] eqn:Es.
  assert (Hrest : Forall A_token_class rest).
  { unfold A.split_label in Es.
    destruct tl as [|t1 tl']; [injection Es as <- <-; exact Hall|].
    destruct (A.type front), (A.type t1); injection Es as <- <-;
      try exact Hall.
    apply Forall_cons in Hall as [_ Hall].
    apply Forall_cons in Hall as [_ Hall]. exact Hall. }
  unfold A.parse_mnemonic in H.
  destruct rest as [|t rest']; [injection H as <-; constructor|].
  destruct (A.type t); try discriminate.
  apply bind_Ok in H as (ops & Hops & H). injection H as <-. simpl.
  apply Forall_cons in Hrest as [_ Hrest].
  eapply A_parse_operands_ok; [apply Nat.le_refl | exact Hrest | exact Hops].
Qed.

(** ** The exceptions of the first version *)

(** The fixed messages of the [std::runtime_error]s that leave [assemble]. *)
Definition A_messages : list string :=
  [ "Unexpected character in source";
    "Expected instruction or directive";
    "Expected number after '#'";
    "Unsupported operand syntax";
    "Duplicate label";
    "Unknown instruction";
    "ADD expects two operands";
    "ADD first operand must be register";
    "Unsupported ADD operand";
    "Jump expects one operand";
    "Unsupported jump operand";
    "Immediate/address out of range for 16-bit value" ].

Definition A_exception (e : exception) : Prop :=
  e = out_of_range \/
  exists m, e = runtime_error m /\
            (m ∈ A_messages \/ exists nm, m = "Unknown label: " +:+ nm).

(** Finds a fixed message in the list. *)
Ltac known_message :=
  right; eexists; split; [reflexivity|]; left;
  repeat first [apply list_elem_of_here | apply list_elem_of_further].

Lemma A_tokenize_errors work : forall ln i k e,
  A.tokenize_from ln work i k = Err e -> e = A.lex_error.
Proof.
  induction work as [|c rest IH]; intros ln i k e H; simpl in H;
    [discriminate|].
  destruct k as [|k]; [|eauto].
  destruct (is_blank c); [eauto|].
  repeat match type of H with
  | (if ?b then _ else _) = _ =>
      destruct b; [apply push_Err in H; eauto|]
  end.
  injection H as <-. reflexivity.
Qed.

Lemma A_parse_operands_errors : forall n toks e,
  (length toks <= n)%nat -> A.parse_operands toks = Err e -> A_exception e.
Proof.
  induction n as [|n IH]; intros toks e Hn H.
  { destruct toks; [discriminate | simpl in Hn; lia]. }
  destruct toks as [|t rest]; [discriminate|]. simpl in Hn, H.
  destruct (A.type t);
    try (apply push_Err in H; apply (IH rest); [lia | exact H]);
    try (injection H as <-; known_message).
  - apply (IH rest); [lia | exact H].
  - destruct rest as [|m rest']; [injection H as <-; known_message|].
    simpl in Hn.
    destruct (A.type m); try (injection H as <-; known_message).
    apply push_Err in H. apply (IH rest'); [lia | exact H].
Qed.

Lemma A_parse_tokens_errors toks e :
  A.parse_tokens toks = Err e -> A_exception e.
Proof.
  intros H. unfold A.parse_tokens in H.
  destruct toks as [|front tl]; [discriminate|].
  destruct (A.split_label (front :: tl)) as [lbl rest].
  unfold A.parse_mnemonic in H.
  destruct rest as [|t rest']; [discriminate|].
  destruct (A.type t); try (injection H as <-; known_message).
  destruct (A.parse_operands rest') as [ops|e'] eqn:Eo; simpl in H;
    [discriminate|].
  injection H as <-.
  eapply A_parse_operands_errors; [apply Nat.le_refl | exact Eo].
Qed.

Lemma A_read_lines_errors ls : forall ln e,
  A.read_lines ls ln = Err e -> A_exception e.
Proof.
  induction ls as [|l ls IH]; intros ln e H; simpl in H; [discriminate|].
  destruct (String.eqb (trim l) EmptyString); [eauto|].
  destruct (A.tokenize_line l ln) as [toks|e1] eqn:Et; simpl in H.
  - destruct (A.parse_tokens toks) as [pl|e2] eqn:Ep; simpl in H.
    + apply push_Err in H. eauto.
    + injection H as <-. eapply A_parse_tokens_errors; exact Ep.
  - injection H as <-. apply A_tokenize_errors in Et. subst e1. known_message.
Qed.

Lemma A_read_lines_ok ls : forall ln lines,
  A.read_lines ls ln = Ok lines ->
  Forall (fun pl => Forall A_operand_ok (A.operands pl)) lines.
Proof.
  induction ls as [|l ls IH]; intros ln lines H; simpl in H.
  { injection H as <-. constructor. }
  destruct (String.eqb (trim l) EmptyString); [eauto|].
  apply bind_Ok in H as (toks & Ht & H).
  apply bind_Ok in H as (pl & Hp & H).
  apply push_Ok in H as (lines' & H & ->).
  constructor; [|eauto].
  eapply A_parse_tokens_ok; [|exact Hp].
  eapply A_tokens_class. exact Ht.
Qed.

Lemma A_number_errors (o : A.Operand) (e : exception) :
  A_operand_ok o -> A.kind o = A.Imm \/ A.kind o = A.RawNumber ->
  A.parse_number16 (A.otext o) = Err e -> A_exception e.
Proof.
  intros Ho Hk H. unfold A_operand_ok in Ho.
  assert (Hd : exists c s, A.otext o = String c s /\ isdigit c = true)
    by (destruct Hk as [Hk | Hk]; rewrite Hk in Ho; exact Ho).
  destruct Hd as (c & s & Ht & Hc). rewrite Ht in H.
  destruct (parse_number16_errors _ _ _ _ Hc H) as [-> | ->];
    [known_message | left; reflexivity].
Qed.

Lemma A_pass2_step_errors pl ctx a e :
  A.lkind pl <> A.Directive -> Forall A_operand_ok (A.operands pl) ->
  A.pass2_step pl ctx a = Err e -> A_exception e.
Proof.
  intros Hk Hops H. unfold A.pass2_step in H.
  destruct (A.lkind pl); [discriminate | | contradiction].
  cbv zeta in H. set (u := upper_string (A.op pl)) in *.
  destruct (A.find_instr u) as [info|] eqn:Ef;
    [|injection H as <-; known_message].
  destruct (iequals u "NOP" || iequals u "HALT") eqn:E1; [discriminate|].
  destruct (iequals u "ADD") eqn:E2.
  { destruct (A.operands pl) as [|o0 [|o1 [|? ?]]];
      try (injection H as <-; known_message).
    apply Forall_cons in Hops as [Ho0 Hops].
    apply Forall_cons in Hops as [Ho1 _].
    destruct (A.kind o0) eqn:K0; try (injection H as <-; known_message).
    pose proof Ho0 as Hr0. unfold A_operand_ok in Hr0. rewrite K0 in Hr0.
    destruct (reg_id_from_name_ok "Unknown register" _ Hr0) as [rd Hrd].
    unfold A.reg_id_from_name in H. rewrite Hrd in H. simpl in H.
    destruct (A.kind o1) eqn:K1; try (injection H as <-; known_message).
    - pose proof Ho1 as Hr1. unfold A_operand_ok in Hr1. rewrite K1 in Hr1.
      destruct (reg_id_from_name_ok "Unknown register" _ Hr1) as [rs Hrs].
      rewrite Hrs in H. discriminate.
    - destruct (A.parse_number16 (A.otext o1)) as [imm|e'] eqn:Ep;
        simpl in H; [discriminate|].
      injection H as <-. eapply A_number_errors; eauto. }
  destruct (iequals u "JMP" || iequals u "JZ") eqn:E3.
  { destruct (A.operands pl) as [|o [|? ?]];
      try (injection H as <-; known_message).
    apply Forall_cons in Hops as [Ho _].
    destruct (A.kind o) eqn:K; simpl in H;
      try (injection H as <-; known_message).
    - destruct (A.lookup_symbol ctx (A.otext o)) as [t|e'] eqn:El;
        simpl in H; [discriminate|].
      injection H as <-. apply A_lookup_error in El. subst e'.
      right. eexists. split; [reflexivity|]. right. eauto.
    - destruct (A.parse_number16 (A.otext o)) as [t|e'] eqn:Ep;
        simpl in H; [discriminate|].
      injection H as <-. eapply A_number_errors; eauto. }
  exfalso. unfold A.find_instr, A.INSTR_TABLE in Ef. simpl in Ef.
  apply orb_false_elim in E1 as [E0 E1].
  apply orb_false_elim in E3 as [E3 E4].
  rewrite E0, E1, E2, E3, E4 in Ef. discriminate.
Qed.

Lemma A_pass2_loop_failure lines : forall ctx i ws e,
  Forall (fun pl => A.lkind pl <> A.Directive) lines ->
  Forall (fun pl => Forall A_operand_ok (A.operands pl)) lines ->
  A.pass2_loop lines ctx i ws = Err e -> A_exception e.
Proof.
  induction lines as [|pl lines IH]; intros ctx i ws e Hk Hops H;
    simpl in H; [discriminate|].
  apply Forall_cons in Hk as [Hk Hks].
  apply Forall_cons in Hops as [Ho Hos].
  destruct (A.pass2_step pl ctx (A.line_addr ctx !!! i)) as [ws'|e'] eqn:Es;
    simpl in H.
  - eapply IH; eassumption.
  - injection H as <-. eapply A_pass2_step_errors; eassumption.
Qed.

Lemma A_assemble_errors source e :
  A.assemble source = Err e -> A_exception e.
Proof.
  unfold A.assemble, A.assemble_words. intros H.
  destruct (A.read_lines (getlines source) 1) as [lines|e1] eqn:Er;
    simpl in H.
  2:{ injection H as <-. eapply A_read_lines_errors; exact Er. }
  pose proof (A_read_lines_kinds _ _ _ Er) as Hk.
  destruct (A.pass1 lines A.AsmContext_init) as [ctx|e2] eqn:E1; simpl in H.
  2:{ injection H as <-. unfold A.pass1 in E1.
      apply (A_pass1_loop_errors _ _ _ _ Hk) in E1. subst e2.
      known_message. }
  destruct (A.pass2 lines ctx []) as [ws|e3] eqn:E2; simpl in H;
    [discriminate|].
  injection H as <-. unfold A.pass2 in E2.
  eapply A_pass2_loop_failure; [exact Hk | | exact E2].
  eapply A_read_lines_ok. exact Er.
Qed.

(** Closes a goal that takes an exception that the taxonomy excludes for one
    of the exceptions of [assemble]. *)
Ltac not_an_exception H :=
  destruct H as [H | (m & H & [Hin | (nm & Hnm)])];
  [ discriminate H
  | first
      [ discriminate H
      | injection H as <-;
        repeat (apply elem_of_cons in Hin as [Hin | Hin];
                [discriminate Hin|]);
        apply elem_of_nil in Hin; contradiction ]
  | first
      [ discriminate H
      | injection H as <-; simpl in Hnm; discriminate Hnm ] ].

(** X20. The exceptions of the first version. An exception that leaves
    [assemble] is the [std::out_of_range] of [std::stoi], on a literal that
    does not fit an [int], or a [std::runtime_error] with one of twelve
    fixed messages or with the unknown-label message; each of them is thrown
    for some source. [assemble] never throws [std::invalid_argument], since
    every number that it converts starts with a digit, and never throws the
    errors for an unknown register, for an instruction that the table holds
    and the encoder does not, or for a malformed [.org] or [.word], which
    its lexer and its parser rule out. *)
Theorem A_assemble_exceptions :
  (forall source e, A.assemble source = Err e -> A_exception e) /\
  (forall m, m ∈ A_messages ->
     exists source, A.assemble source = Err (runtime_error m)) /\
  (exists source, A.assemble source = Err out_of_range) /\
  (exists source nm,
     A.assemble source = Err (runtime_error ("Unknown label: " +:+ nm))) /\
  (forall source,
     A.assemble source <> Err invalid_argument /\
     A.assemble source <> Err (runtime_error "Unknown register") /\
     A.assemble source <>
       Err (runtime_error "Instruction not yet supported in assembler") /\
     A.assemble source <>
       Err (runtime_error ".org expects one numeric operand") /\
     A.assemble source <> Err (runtime_error ".word expects one operand") /\
     A.assemble source <>
       Err (runtime_error "Unsupported operand for .word")).
Proof.
  split; [exact A_assemble_errors|].
  split.
  { intros m Hm. unfold A_messages in Hm.
    repeat (apply elem_of_cons in Hm as [-> | Hm]).
    - exists "@". reflexivity.
    - exists "#". reflexivity.
    - exists "ADD #". reflexivity.
    - exists "ADD [". reflexivity.
    - exists ("a:" +:+ newline +:+ "a:"). reflexivity.
    - exists "FOO". reflexivity.
    - exists "ADD". reflexivity.
    - exists "ADD 1, R0". reflexivity.
    - exists "ADD R0, 5". reflexivity.
    - exists "JMP". reflexivity.
    - exists "JMP R0". reflexivity.
    - exists "ADD R0, #70000". reflexivity.
    - apply elem_of_nil in Hm. contradiction. }
  split; [exists "ADD R0, #99999999999"; reflexivity|].
  split; [exists "JMP x", "x"; reflexivity|].
  intros source.
  repeat split; intros H; apply A_assemble_errors in H; not_an_exception H.
Qed.
(** ** The exceptions of the second version *)

Definition B_operand_ok (o : B.Operand) : Prop :=
  match B.kind o with
  | B.Reg => is_register_name (B.otext o) = true
  | B.Imm | B.Number_ =>
      exists c s, B.otext o = String c s /\ isdigit c = true
  | B.Label => True
  end.

Lemma B_number_token_digit (t : B.Token) :
  B_token_class t -> B.type t = B.Number ->
  exists c s, B.text t = String c s /\ isdigit c = true.
Proof.
  unfold B_token_class. intros H E. rewrite E in H.
  destruct H as (c & s & Ht & Hc & _). eauto.
Qed.

Lemma B_parse_operands_ok : forall n toks ops,
  (length toks <= n)%nat -> Forall B_token_class toks ->
  B.parse_operands toks = Ok ops -> Forall B_operand_ok ops.
Proof.
  induction n as [|n IH]; intros toks ops Hn Hall H.
  { destruct toks; [injection H as <-; constructor | simpl in Hn; lia]. }
  destruct toks as [|t rest]; [injection H as <-; constructor|].
  simpl in Hn, H. apply Forall_cons in Hall as [Ht Hrest].
  destruct (B.type t) eqn:Et; try discriminate.
  - apply push_Ok in H as (ops' & H & ->).
    constructor; [exact I | eapply IH; [|exact Hrest|exact H]; lia].
  - apply push_Ok in H as (ops' & H & ->).
    constructor; [|eapply IH; [|exact Hrest|exact H]; lia].
    unfold B_operand_ok. simpl. apply B_number_token_digit; assumption.
  - apply push_Ok in H as (ops' & H & ->).
    constructor; [|eapply IH; [|exact Hrest|exact H]; lia].
    unfold B_operand_ok, B_token_class in *. simpl. rewrite Et in Ht. exact Ht.
  - eapply IH; [|exact Hrest|exact H]. lia.
  - destruct rest as [|m rest']; [discriminate|].
    simpl in Hn. apply Forall_cons in Hrest as [Hm Hrest'].
    destruct (B.type m) eqn:Em; try discriminate.
    apply push_Ok in H as (ops' & H & ->).
    constructor; [|eapply IH; [|exact Hrest'|exact H]; lia].
    unfold B_operand_ok. simpl. apply B_number_token_digit; assumption.
Qed.

Lemma B_parse_line_tokens_ok toks l :
  Forall B_token_class toks -> B.parse_line_tokens toks = Ok l ->
  Forall B_operand_ok (B.operands l).
Proof.
  intros Hall H. unfold B.parse_line_tokens in H.
  destruct toks as [|front tl]; [injection H as <-; constructor|].
  destruct (B.split_label (front :: tl)) as [lbl rest] eqn:Es.
  assert (Hrest : Forall B_token_class rest).
  { unfold B.split_label in Es.
    destruct tl as [|t1 tl']; [injection Es as <- <-; exact Hall|].
    destruct (B.type front), (B.type t1); injection Es as <- <-;
      try exact Hall.
    apply Forall_cons in Hall as [_ Hall].
    apply Forall_cons in Hall as [_ Hall]. exact Hall. }
  unfold B.parse_mnemonic in H.
  destruct rest as [|t rest']; [injection H as <-; constructor|].
  destruct (B.type t); try discriminate.
  apply bind_Ok in H as (ops & Hops & H). injection H as <-. simpl.
  apply Forall_cons in Hrest as [_ Hrest].
  eapply B_parse_operands_ok; [apply Nat.le_refl | exact Hrest | exact Hops].
Qed.

(** The fixed messages of the [std::runtime_error]s that leave [assemble]. *)
Definition B_messages : list string :=
  [ "Unexpected character in source line";
    "Expected mnemonic or directive";
    "Expected number after '#'";
    "Unsupported operand token";
    ".org expects one numeric or label operand";
    "number out of range";
    ".word expects one operand";
    "Unsupported .word operand";
    "ADD expects two operands";
    "ADD first operand must be reg";
    "Unsupported ADD second operand";
    "Jump expects one operand";
    "Unsupported jump operand" ].

(** The messages that name a label or a mnemonic of the source. *)
Definition B_named_message (m : string) : Prop :=
  exists nm,
    m = "Duplicate label: " +:+ nm \/
    m = "Unsupported instruction: " +:+ nm \/
    m = "Unknown label in jump: " +:+ nm.

Definition B_exception (e : exception) : Prop :=
  e = out_of_range \/
  exists m, e = runtime_error m /\ (m ∈ B_messages \/ B_named_message m).

Lemma B_tokenize_errors work : forall k e,
  B.tokenize_from work k = Err e -> e = B.lex_error.
Proof.
  induction work as [|c rest IH]; intros k e H; simpl in H; [discriminate|].
  destruct k as [|k]; [|eauto].
  destruct (is_blank c); [eauto|].
  repeat match type of H with
  | (if ?b then _ else _) = _ =>
      destruct b; [apply push_Err in H; eauto|]
  end.
  injection H as <-. reflexivity.
Qed.

Lemma B_parse_operands_errors : forall n toks e,
  (length toks <= n)%nat -> B.parse_operands toks = Err e -> B_exception e.
Proof.
  induction n as [|n IH]; intros toks e Hn H.
  { destruct toks; [discriminate | simpl in Hn; lia]. }
  destruct toks as [|t rest]; [discriminate|]. simpl in Hn, H.
  destruct (B.type t);
    try (apply push_Err in H; apply (IH rest); [lia | exact H]);
    try (injection H as <-; known_message).
  - apply (IH rest); [lia | exact H].
  - destruct rest as [|m rest']; [injection H as <-; known_message|].
    simpl in Hn.
    destruct (B.type m); try (injection H as <-; known_message).
    apply push_Err in H. apply (IH rest'); [lia | exact H].
Qed.

Lemma B_parse_line_tokens_errors toks e :
  B.parse_line_tokens toks = Err e -> B_exception e.
Proof.
  intros H. unfold B.parse_line_tokens in H.
  destruct toks as [|front tl]; [discriminate|].
  destruct (B.split_label (front :: tl)) as [lbl rest].
  unfold B.parse_mnemonic in H.
  destruct rest as [|t rest']; [discriminate|].
  destruct (B.type t); try (injection H as <-; known_message).
  destruct (B.parse_operands rest') as [ops|e'] eqn:Eo; simpl in H;
    [discriminate|].
  injection H as <-.
  eapply B_parse_operands_errors; [apply Nat.le_refl | exact Eo].
Qed.

Lemma B_read_lines_errors ls : forall e,
  B.read_lines ls = Err e -> B_exception e.
Proof.
  induction ls as [|l ls IH]; intros e H; simpl in H; [discriminate|].
  destruct (String.eqb (trim l) EmptyString); [eauto|].
  destruct (B.tokenize_line (trim l)) as [toks|e1] eqn:Et; simpl in H.
  - destruct (B.parse_line_tokens toks) as [pl|e2] eqn:Ep; simpl in H.
    + apply push_Err in H. eauto.
    + injection H as <-. eapply B_parse_line_tokens_errors; exact Ep.
  - injection H as <-. apply B_tokenize_errors in Et. subst e1. known_message.
Qed.

Lemma B_read_lines_ok ls : forall lines,
  B.read_lines ls = Ok lines ->
  Forall (fun l => Forall B_operand_ok (B.operands l)) lines.
Proof.
  induction ls as [|l ls IH]; intros lines H; simpl in H.
  { injection H as <-. constructor. }
  destruct (String.eqb (trim l) EmptyString); [eauto|].
  apply bind_Ok in H as (toks & Ht & H).
  apply bind_Ok in H as (pl & Hp & H).
  apply push_Ok in H as (lines' & H & ->).
  constructor; [|eauto].
  eapply B_parse_line_tokens_ok; [|exact Hp].
  eapply B_tokens_class. exact Ht.
Qed.

Lemma B_number_errors (o : B.Operand) (e : exception) :
  B_operand_ok o -> B.kind o = B.Imm \/ B.kind o = B.Number_ ->
  B.parse_number16 (B.otext o) = Err e -> B_exception e.
Proof.
  intros Ho Hk H. unfold B_operand_ok in Ho.
  assert (Hd : exists c s, B.otext o = String c s /\ isdigit c = true)
    by (destruct Hk as [Hk | Hk]; rewrite Hk in Ho; exact Ho).
  destruct Hd as (c & s & Ht & Hc). rewrite Ht in H.
  destruct (parse_number16_errors _ _ _ _ Hc H) as [-> | ->];
    [known_message | left; reflexivity].
Qed.

Lemma B_reg_operand (o : B.Operand) :
  B_operand_ok o -> B.kind o = B.Reg ->
  exists r, B.reg_id_from_name (B.otext o) = Ok r.
Proof.
  unfold B_operand_ok. intros Ho K. rewrite K in Ho.
  apply reg_id_from_name_ok, Ho.
Qed.

Lemma B_symbols_at_errors syms key e :
  B.symbols_at syms key = Err e -> e = out_of_range.
Proof.
  unfold B.symbols_at. destruct (syms !! key); [discriminate|].
  intros [= <-]. reflexivity.
Qed.

Lemma B_pass1_step_errors l i st e :
  Forall B_operand_ok (B.operands l) ->
  B.pass1_step l i st = Err e -> B_exception e.
Proof.
  intros Hops H. unfold B.pass1_step in H.
  destruct (B.define_label l (B.record_line_addr i st)) as [s|e'] eqn:Ed;
    simpl in H.
  2:{ injection H as <-. unfold B.define_label in Ed.
      destruct (negb _); [|discriminate].
      case_bool_decide; [|discriminate].
      injection Ed as <-. right. eexists. split; [reflexivity|].
      right. exists (B.label l). auto. }
  unfold B.advance in H.
  destruct (String.eqb (B.op l) EmptyString); [discriminate|].
  destruct (B.is_directive l).
  - destruct (iequals (B.op l) ".ORG").
    + destruct (B.operands l) as [|o [|? ?]];
        try (injection H as <-; known_message).
      apply Forall_cons in Hops as [Ho _].
      destruct (B.kind o) eqn:K; try (injection H as <-; known_message).
      * destruct (B.symbols_at (B.symbols s) (B.otext o)) as [v|e'] eqn:Ea;
          simpl in H; [discriminate|].
        injection H as <-. apply B_symbols_at_errors in Ea. subst e'.
        left. reflexivity.
      * destruct (B.parse_number16 (B.otext o)) as [v|e'] eqn:Ep;
          simpl in H; [discriminate|].
        injection H as <-. eapply B_number_errors; eauto.
    + destruct (iequals (B.op l) ".WORD"); discriminate.
  - destruct (iequals (B.op l) "NOP" || iequals (B.op l) "HALT");
      [discriminate|].
    destruct (iequals (B.op l) "ADD").
    { destruct (B.operands l) as [|? [|o1 [|? ?]]]; try discriminate.
      destruct (B.kind o1); discriminate. }
    destruct (iequals (B.op l) "JMP" || iequals (B.op l) "JZ"); discriminate.
Qed.

Lemma B_pass1_loop_failure lines : forall i st e,
  Forall (fun l => Forall B_operand_ok (B.operands l)) lines ->
  B.pass1_loop lines i st = Err e -> B_exception e.
Proof.
  induction lines as [|l lines IH]; intros i st e Hops H; simpl in H;
    [discriminate|].
  apply Forall_cons in Hops as [Ho Hos].
  destruct (B.pass1_step l i st) as [s|e'] eqn:Es; simpl in H.
  - eapply IH; eassumption.
  - injection H as <-. eapply B_pass1_step_errors; eassumption.
Qed.

Lemma B_pass2_step_errors l syms a e :
  Forall B_operand_ok (B.operands l) ->
  B.pass2_step l syms a = Err e -> B_exception e.
Proof.
  intros Hops H. unfold B.pass2_step in H.
  destruct (String.eqb (B.op l) EmptyString); [discriminate|].
  destruct (B.is_directive l).
  { destruct (iequals (B.op l) ".ORG"); [discriminate|].
    destruct (iequals (B.op l) ".WORD"); [|discriminate].
    destruct (B.operands l) as [|o [|? ?]];
      try (injection H as <-; known_message).
    apply Forall_cons in Hops as [Ho _].
    destruct (B.kind o) eqn:K; try (injection H as <-; known_message).
    - destruct (B.symbols_at syms (B.otext o)) as [v|e'] eqn:Ea;
        simpl in H; [discriminate|].
      injection H as <-. apply B_symbols_at_errors in Ea. subst e'.
      left. reflexivity.
    - destruct (B.parse_number16 (B.otext o)) as [v|e'] eqn:Ep;
        simpl in H; [discriminate|].
      injection H as <-. eapply B_number_errors; eauto. }
  assert (Hadd : forall opcode,
    match B.operands l with
    | [o0; o1] =>
        match B.kind o0 with
        | B.Reg =>
            rd ← B.reg_id_from_name (B.otext o0);
            match B.kind o1 with
            | B.Reg =>
                rs ← B.reg_id_from_name (B.otext o1);
                Ok [make_instr_word opcode 0 rd rs]
            | B.Imm =>
                imm ← B.parse_number16 (B.otext o1);
                Ok [make_instr_word opcode 1 rd 0; imm]
            | _ => Err (runtime_error "Unsupported ADD second operand")
            end
        | _ => Err (runtime_error "ADD first operand must be reg")
        end
    | _ => Err (runtime_error "ADD expects two operands")
    end = Err e -> B_exception e).
  { intros opcode Ha.
    destruct (B.operands l) as [|o0 [|o1 [|? ?]]];
      try (injection Ha as <-; known_message).
    apply Forall_cons in Hops as [Ho0 Hops].
    apply Forall_cons in Hops as [Ho1 _].
    destruct (B.kind o0) eqn:K0; try (injection Ha as <-; known_message).
    destruct (B_reg_operand _ Ho0 K0) as [rd Hrd].
    rewrite Hrd in Ha. simpl in Ha.
    destruct (B.kind o1) eqn:K1; try (injection Ha as <-; known_message).
    - destruct (B_reg_operand _ Ho1 K1) as [rs Hrs].
      rewrite Hrs in Ha. discriminate.
    - destruct (B.parse_number16 (B.otext o1)) as [imm|e'] eqn:Ep;
        simpl in Ha; [discriminate|].
      injection Ha as <-. eapply B_number_errors; eauto. }
  assert (Hjmp : forall opcode,
    match B.operands l with
    | [o] =>
        target ←
          match B.kind o with
          | B.Label =>
              match syms !! B.otext o with
              | None =>
                  Err (runtime_error ("Unknown label in jump: " +:+ B.otext o))
              | Some a => Ok a
              end
          | B.Number_ => B.parse_number16 (B.otext o)
          | _ => Err (runtime_error "Unsupported jump operand")
          end;
        Ok [make_instr_word opcode 5 0 0;
            wrap16 (Z.land (target - (a + 2)) 65535)]
    | _ => Err (runtime_error "Jump expects one operand")
    end = Err e -> B_exception e).
  { intros opcode Hj.
    destruct (B.operands l) as [|o [|? ?]];
      try (injection Hj as <-; known_message).
    apply Forall_cons in Hops as [Ho _].
    destruct (B.kind o) eqn:K; simpl in Hj;
      try (injection Hj as <-; known_message).
    - destruct (syms !! B.otext o); simpl in Hj; [discriminate|].
      injection Hj as <-. right. eexists. split; [reflexivity|].
      right. exists (B.otext o). auto.
    - destruct (B.parse_number16 (B.otext o)) as [t|e'] eqn:Ep;
        simpl in Hj; [discriminate|].
      injection Hj as <-. eapply B_number_errors; eauto. }
  unfold B.opcode_of in H.
  destruct (iequals (B.op l) "NOP"); [discriminate|].
  destruct (iequals (B.op l) "HALT"); [discriminate|].
  destruct (iequals (B.op l) "ADD"); [exact (Hadd 5 H)|].
  destruct (iequals (B.op l) "JMP"); [exact (Hjmp 13 H)|].
  destruct (iequals (B.op l) "JZ"); [exact (Hjmp 14 H)|].
  injection H as <-. right. eexists. split; [reflexivity|].
  right. exists (B.op l). auto.
Qed.

Lemma B_pass2_loop_failure lines : forall st i ws e,
  Forall (fun l => Forall B_operand_ok (B.operands l)) lines ->
  B.pass2_loop lines st i ws = Err e -> B_exception e.
Proof.
  induction lines as [|l lines IH]; intros st i ws e Hops H;
    simpl in H; [discriminate|].
  apply Forall_cons in Hops as [Ho Hos].
  destruct (B.pass2_step l (B.symbols st) (B.line_addr st !!! i))
    as [ws'|e'] eqn:Es; simpl in H.
  - eapply IH; eassumption.
  - injection H as <-. eapply B_pass2_step_errors; eassumption.
Qed.

Lemma B_assemble_errors source e :
  B.assemble source = Err e -> B_exception e.
Proof.
  unfold B.assemble, B.assemble_words. intros H.
  destruct (B.read_lines (getlines source)) as [lines|e1] eqn:Er; simpl in H.
  2:{ injection H as <-. eapply B_read_lines_errors; exact Er. }
  pose proof (B_read_lines_ok _ _ Er) as Hok.
  destruct (B.pass1 lines) as [st|e2] eqn:E1; simpl in H.
  2:{ injection H as <-. unfold B.pass1 in E1.
      eapply B_pass1_loop_failure; [exact Hok | exact E1]. }
  destruct (B.pass2 lines st) as [ws|e3] eqn:E2; simpl in H; [discriminate|].
  injection H as <-. unfold B.pass2 in E2.
  eapply B_pass2_loop_failure; [exact Hok | exact E2].
Qed.

(** X21. The exceptions of the second version. An exception that leaves
    [assemble] is a [std::out_of_range], of [std::stoi] on a literal that
    does not fit an [int] or of [unordered_map::at] on a label that is not
    defined, or a [std::runtime_error] with one of thirteen fixed messages
    or with a message that names a duplicate label, an unsupported mnemonic
    or the unknown label of a jump; each of them is thrown for some source.
    [assemble] never throws [std::invalid_argument] and never throws the
    error for an unknown register. *)
Theorem B_assemble_exceptions :
  (forall source e, B.assemble source = Err e -> B_exception e) /\
  (forall m, m ∈ B_messages ->
     exists source, B.assemble source = Err (runtime_error m)) /\
  (exists source, B.assemble source = Err out_of_range) /\
  (exists source,
     B.assemble source = Err (runtime_error "Duplicate label: A")) /\
  (exists source,
     B.assemble source = Err (runtime_error "Unsupported instruction: FOO")) /\
  (exists source,
     B.assemble source = Err (runtime_error "Unknown label in jump: X")) /\
  (forall source,
     B.assemble source <> Err invalid_argument /\
     forall name,
       B.assemble source <>
         Err (runtime_error ("Unknown register: " +:+ name))).
Proof.
  split; [exact B_assemble_errors|].
  split.
  { intros m Hm. unfold B_messages in Hm.
    repeat (apply elem_of_cons in Hm as [-> | Hm]).
    - exists "@". reflexivity.
    - exists "#". reflexivity.
    - exists "ADD #". reflexivity.
    - exists "ADD R0 :". reflexivity.
    - exists ".org". reflexivity.
    - exists "ADD R0, #70000". reflexivity.
    - exists ".word". reflexivity.
    - exists ".word R0". reflexivity.
    - exists "ADD". reflexivity.
    - exists "ADD 1, R0". reflexivity.
    - exists "ADD R0, 5". reflexivity.
    - exists "JMP". reflexivity.
    - exists "JMP R0". reflexivity.
    - apply elem_of_nil in Hm. contradiction. }
  split; [exists ".word x"; reflexivity|].
  split; [exists ("a:" +:+ newline +:+ "a:"); reflexivity|].
  split; [exists "foo"; reflexivity|].
  split; [exists "JMP x"; reflexivity|].
  intros source. split.
  - intros H. apply B_assemble_errors in H.
    destruct H as [H | (m & H & _)]; discriminate H.
  - intros name H. apply B_assemble_errors in H.
    destruct H as [H | (m & H & [Hin | (nm & [Hnm | [Hnm | Hnm]])])];
      [discriminate H | | | |]; injection H as <-.
    + simpl in Hin.
      repeat (apply elem_of_cons in Hin as [Hin | Hin]; [discriminate Hin|]).
      apply elem_of_nil in Hin. contradiction.
    + simpl in Hnm. discriminate Hnm.
    + simpl in Hnm. discriminate Hnm.
    + simpl in Hnm. discriminate Hnm.
Qed.
(** ** When Pass 1 succeeds *)

Lemma A_pass1_loop_succeeds lines : forall i ctx,
  Forall (fun pl => A.lkind pl <> A.Directive) lines ->
  NoDup ((A.symbols ctx).*1 ++ A_defined_labels lines) ->
  exists ctx', A.pass1_loop lines i ctx = Ok ctx'.
Proof.
  unfold A_defined_labels.
  induction lines as [|pl lines IH]; intros i ctx Hk Hnd; simpl; [eauto|].
  apply Forall_cons in Hk as [Hpl Hk].
  assert (Hstep : exists c,
            A.pass1_step pl i ctx = Ok c /\
            (A.symbols c).*1 ++ filter (λ nm, nm <> EmptyString)
                                  (A.label <$> lines) =
            (A.symbols ctx).*1 ++ filter (λ nm, nm <> EmptyString)
                                    (A.label <$> pl :: lines)).
  { unfold A.pass1_step, A.define_label, A.symbol_exists.
    rewrite fmap_cons.
    destruct (String.eqb (A.label pl) EmptyString) eqn:El; simpl.
    - apply String.eqb_eq in El.
      destruct (A_advance_no_directive pl (A.record_line_addr i ctx) Hpl)
        as [c Hc].
      exists c. split; [exact Hc|].
      destruct (A_advance_tables _ _ _ Hc) as [-> _].
      rewrite filter_cons_False by (intros Hc'; apply Hc', El).
      reflexivity.
    - apply String.eqb_neq in El.
      rewrite fmap_cons, filter_cons_True in Hnd by exact El.
      destruct (A.symbol_exists_in (A.symbols ctx) (A.label pl)) eqn:Ex.
      { exfalso. apply A_symbol_exists_elem in Ex.
        apply NoDup_app in Hnd as (_ & Hdis & _).
        apply (Hdis _ Ex). left. }
      simpl.
      destruct (A_advance_no_directive pl
                  (A.mkAsmContext (A.current_addr_words ctx)
                     (A.symbols ctx ++ [(A.label pl, A.current_addr_words ctx)])
                     (<[i:=A.current_addr_words ctx]> (A.line_addr ctx))) Hpl)
        as [c Hc].
      exists c. split; [exact Hc|].
      destruct (A_advance_tables _ _ _ Hc) as [-> _]. simpl.
      rewrite fmap_app, filter_cons_True by exact El. simpl.
      rewrite <- app_assoc. reflexivity. }
  destruct Hstep as (c & Hc & Hnames). rewrite Hc. simpl.
  apply IH; [exact Hk|]. rewrite Hnames. exact Hnd.
Qed.

(** X22. When Pass 1 of the first version succeeds. On the lines that
    [assemble] reads, which hold no directive, Pass 1 succeeds exactly when
    no two lines carry the same label, and its only exception is the
    duplicate-label error. *)
Theorem A_pass1_succeeds_iff_labels_distinct (lines : list A.ParsedLine) :
  Forall (fun pl => A.lkind pl <> A.Directive) lines ->
  (is_ok (A.pass1 lines A.AsmContext_init) = true <->
   NoDup (A_defined_labels lines)) /\
  (forall e, A.pass1 lines A.AsmContext_init = Err e ->
             e = runtime_error "Duplicate label").
Proof.
  intros Hk. split; [split|].
  - destruct (A.pass1 lines A.AsmContext_init) as [ctx|e] eqn:E;
      [|discriminate].
    intros _. unfold A.pass1 in E.
    destruct (A_pass1_loop_names _ _ _ _ E) as [Hn Hd]. simpl in Hn, Hd.
    rewrite <- Hn. apply Hd. constructor.
  - intros Hnd.
    destruct (A_pass1_loop_succeeds lines 0 (A_pass1_init lines) Hk Hnd)
      as [ctx' Hc].
    change (A.pass1 lines A.AsmContext_init)
      with (A.pass1_loop lines 0 (A_pass1_init lines)).
    rewrite Hc. reflexivity.
  - intros e E. unfold A.pass1 in E.
    apply (A_pass1_loop_errors _ _ _ _ Hk E).
Qed.

(** ** The case of a mnemonic *)

Lemma iequals_upper_eq (a a' b : string) :
  upper_string a' = upper_string a -> iequals a' b = iequals a b.
Proof.
  intros H. rewrite <- (iequals_upper_l a'), <- (iequals_upper_l a), H.
  reflexivity.
Qed.

(** X23. In the first version the case of a mnemonic or of a directive
    does not matter to the two passes: two lines that differ in the case of
    the letters of [op] only are sized alike by Pass 1 and encoded alike, or
    rejected alike, by Pass 2. *)
Theorem A_mnemonic_case_is_ignored (pl pl' : A.ParsedLine) :
  A.lkind pl' = A.lkind pl -> A.operands pl' = A.operands pl ->
  upper_string (A.op pl') = upper_string (A.op pl) ->
  (forall ctx, A.advance pl' ctx = A.advance pl ctx) /\
  (forall ctx a, A.pass2_step pl' ctx a = A.pass2_step pl ctx a).
Proof.
  intros Hk Ho Hu. split.
  - intros ctx. unfold A.advance.
    rewrite Hk, Ho, Hu, !(iequals_upper_eq _ _ _ Hu). reflexivity.
  - intros ctx a. unfold A.pass2_step.
    rewrite Hk, Ho, Hu, !(iequals_upper_eq _ _ _ Hu). reflexivity.
Qed.
(** ** The emitted code does not depend on where it is placed *)

(** A jump to an absolute address, given as a number. *)
Definition A_absolute_jump (pl : A.ParsedLine) : Prop :=
  (A_mnemonic pl "JMP" \/ A_mnemonic pl "JZ") /\
  exists o, A.operands pl = [o] /\ A.kind o = A.RawNumber.

(** Two states of Pass 1 whose addresses differ by [d] modulo 2^16. *)
Definition A_shifted (d : Z) (i : nat) (ctx ctx' : A.AsmContext) : Prop :=
  A.current_addr_words ctx' = wrap16 (A.current_addr_words ctx + d) /\
  Forall2 (fun p p' => p'.1 = p.1 /\ p'.2 = wrap16 (p.2 + d))
          (A.symbols ctx) (A.symbols ctx') /\
  length (A.line_addr ctx') = length (A.line_addr ctx) /\
  forall k, (k < i)%nat ->
    A.line_addr ctx' !! k = (fun a => wrap16 (a + d)) <$> A.line_addr ctx !! k.

Lemma wrap16_shift_succ (a d : Z) :
  wrap16 (wrap16 (a + d) + 1) = wrap16 (wrap16 (a + 1) + d).
Proof. rewrite !wrap16_add_l. f_equal. lia. Qed.

Lemma A_shifted_symbol_exists d syms syms' nm :
  Forall2 (fun p p' => p'.1 = p.1 /\ p'.2 = wrap16 (p.2 + d)) syms syms' ->
  A.symbol_exists_in syms' nm = A.symbol_exists_in syms nm.
Proof.
  induction 1 as [|[k a] [k' a'] syms syms' [Hk _] _ IH]; simpl in *;
    [reflexivity|].
  subst k'. rewrite IH. reflexivity.
Qed.

Lemma A_shifted_lookup d syms syms' nm :
  Forall2 (fun p p' => p'.1 = p.1 /\ p'.2 = wrap16 (p.2 + d)) syms syms' ->
  A.lookup_symbol_in syms' nm =
  (fun a => wrap16 (a + d)) <$> A.lookup_symbol_in syms nm.
Proof.
  induction 1 as [|[k a] [k' a'] syms syms' [Hk Ha] _ IH]; simpl in *;
    [reflexivity|].
  subst k' a'. destruct (String.eqb k nm); [reflexivity | exact IH].
Qed.

Lemma A_advance_shift pl ctx ctx' d i :
  A.lkind pl <> A.Directive -> A_shifted d i ctx ctx' ->
  exists c c', A.advance pl ctx = Ok c /\ A.advance pl ctx' = Ok c' /\
               A_shifted d i c c'.
Proof.
  intros Hk (Ha & Hs & Hl & Hla). unfold A.advance.
  destruct (A.lkind pl); [| |contradiction].
  { exists ctx, ctx'. repeat split; assumption. }
  cbv zeta.
  assert (Hone : A_shifted d i
            (A.set_addr ctx (wrap16 (A.current_addr_words ctx + 1)))
            (A.set_addr ctx' (wrap16 (A.current_addr_words ctx' + 1)))).
  { repeat split; try assumption. simpl. rewrite Ha.
    apply wrap16_shift_succ. }
  assert (Htwo : A_shifted d i
            (A.set_addr (A.set_addr ctx (wrap16 (A.current_addr_words ctx + 1)))
               (wrap16 (wrap16 (A.current_addr_words ctx + 1) + 1)))
            (A.set_addr (A.set_addr ctx' (wrap16 (A.current_addr_words ctx' + 1)))
               (wrap16 (wrap16 (A.current_addr_words ctx' + 1) + 1)))).
  { repeat split; try assumption. simpl. rewrite Ha.
    unfold wrap16. Z.div_mod_to_equations. lia. }
  destruct (negb (A.has_instr _)); [exists ctx, ctx'; repeat split; assumption|].
  destruct (iequals _ "ADD").
  { destruct (A.operands pl) as [|? [|o1 [|? ?]]]; eauto.
    destruct (A.kind o1); eauto. }
  destruct (_ || _); eauto.
Qed.

Lemma A_pass1_step_shift pl ctx ctx' d i :
  A.lkind pl <> A.Directive -> (i < length (A.line_addr ctx))%nat ->
  A_shifted d i ctx ctx' ->
  match A.pass1_step pl i ctx, A.pass1_step pl i ctx' with
  | Ok c, Ok c' =>
      A_shifted d (S i) c c' /\
      length (A.line_addr c) = length (A.line_addr ctx)
  | Err e, Err e' => e = e'
  | _, _ => False
  end.
Proof.
  intros Hk Hi (Ha & Hs & Hl & Hla).
  unfold A.pass1_step, A.define_label, A.symbol_exists. simpl.
  rewrite (A_shifted_symbol_exists _ _ _ (A.label pl) Hs).
  assert (Hrec : forall syms syms',
            Forall2 (fun p p' => p'.1 = p.1 /\ p'.2 = wrap16 (p.2 + d))
                    syms syms' ->
            A_shifted d (S i)
              (A.mkAsmContext (A.current_addr_words ctx) syms
                 (<[i:=A.current_addr_words ctx]> (A.line_addr ctx)))
              (A.mkAsmContext (A.current_addr_words ctx') syms'
                 (<[i:=A.current_addr_words ctx']> (A.line_addr ctx')))).
  { intros syms syms' Hss. split; [exact Ha|]. split; [exact Hss|].
    split; [simpl; rewrite !length_insert; exact Hl|].
    intros k Hk'. simpl.
    destruct (decide (k = i)) as [-> | Hne].
    - rewrite !list_lookup_insert_eq by lia. simpl. rewrite Ha. reflexivity.
    - rewrite !list_lookup_insert_ne by lia. apply Hla. lia. }
  assert (Hfin : forall c0 c0',
            A_shifted d (S i) c0 c0' ->
            length (A.line_addr c0) = length (A.line_addr ctx) ->
            match A.advance pl c0, A.advance pl c0' with
            | Ok c, Ok c' =>
                A_shifted d (S i) c c' /\
                length (A.line_addr c) = length (A.line_addr ctx)
            | Err e, Err e' => e = e'
            | _, _ => False
            end).
  { intros c0 c0' Hsh Hlen.
    destruct (A_advance_shift pl c0 c0' d (S i) Hk Hsh)
      as (c & c' & Hc & Hc' & Hsh').
    rewrite Hc, Hc'. split; [exact Hsh'|].
    destruct (A_advance_tables _ _ _ Hc) as [_ ->]. exact Hlen. }
  destruct (negb (String.eqb (A.label pl) EmptyString)).
  - destruct (A.symbol_exists_in (A.symbols ctx) (A.label pl)); simpl;
      [reflexivity|].
    apply Hfin; [|simpl; apply length_insert].
    apply Hrec. apply Forall2_app; [exact Hs|].
    constructor; [|constructor]. simpl. auto.
  - simpl. apply Hfin; [|simpl; apply length_insert].
    apply Hrec. exact Hs.
Qed.

Lemma A_pass1_loop_shift lines d : forall i ctx ctx',
  Forall (fun pl => A.lkind pl <> A.Directive) lines ->
  (i + length lines <= length (A.line_addr ctx))%nat ->
  A_shifted d i ctx ctx' ->
  match A.pass1_loop lines i ctx, A.pass1_loop lines i ctx' with
  | Ok c, Ok c' => A_shifted d (i + length lines) c c'
  | Err e, Err e' => e = e'
  | _, _ => False
  end.
Proof.
  induction lines as [|pl lines IH]; intros i ctx ctx' Hk Hlen Hsh; simpl.
  { rewrite Nat.add_0_r. exact Hsh. }
  apply Forall_cons in Hk as [Hpl Hk]. simpl in Hlen.
  pose proof (A_pass1_step_shift pl ctx ctx' d i Hpl ltac:(lia) Hsh) as Hstep.
  destruct (A.pass1_step pl i ctx) as [c|e], (A.pass1_step pl i ctx') as [c'|e'];
    simpl; try contradiction; [|exact Hstep].
  destruct Hstep as [Hsh' Hlen'].
  replace (i + S (length lines))%nat with (S i + length lines)%nat by lia.
  apply IH; [exact Hk | lia | exact Hsh'].
Qed.

Lemma jump_offset_shift (t a d : Z) :
  wrap16 (Z.land (wrap16 (t + d) - (wrap16 (a + d) + 2)) 65535) =
  wrap16 (Z.land (t - (a + 2)) 65535).
Proof.
  rewrite !land65535_mod. f_equal. unfold wrap16.
  rewrite Zminus_mod_idemp_l.
  assert (E : forall x y, x - (y + 2) = x - 2 - y) by (intros; lia).
  rewrite E, Zminus_mod_idemp_r. f_equal. lia.
Qed.

Lemma A_pass2_step_shift pl ctx ctx' d i a :
  A.lkind pl <> A.Directive -> ~ A_absolute_jump pl ->
  A_shifted d i ctx ctx' ->
  A.pass2_step pl ctx' (wrap16 (a + d)) = A.pass2_step pl ctx a.
Proof.
  intros Hk Habs (_ & Hs & _). unfold A.pass2_step.
  destruct (A.lkind pl) eqn:Ek; [reflexivity | | contradiction].
  cbv zeta. destruct (A.find_instr _) as [info|]; [|reflexivity].
  destruct (iequals _ "NOP" || iequals _ "HALT"); [reflexivity|].
  destruct (iequals _ "ADD"); [reflexivity|].
  destruct (iequals (upper_string (A.op pl)) "JMP"
            || iequals (upper_string (A.op pl)) "JZ") eqn:Ej; [|reflexivity].
  destruct (A.operands pl) as [|o [|? ?]] eqn:Eo; try reflexivity.
  destruct (A.kind o) eqn:Ko; try reflexivity.
  - unfold A.lookup_symbol. rewrite (A_shifted_lookup _ _ _ (A.otext o) Hs).
    destruct (A.lookup_symbol_in (A.symbols ctx) (A.otext o)) as [t|e];
      simpl; [|reflexivity].
    rewrite jump_offset_shift. reflexivity.
  - exfalso. apply Habs. split; [|eauto].
    unfold A_mnemonic. rewrite Ek.
    apply orb_true_iff in Ej as [Ej | Ej]; auto.
Qed.

Lemma A_pass2_loop_shift lines d n ctx ctx' : forall i ws,
  Forall (fun pl => A.lkind pl <> A.Directive) lines ->
  Forall (fun pl => ~ A_absolute_jump pl) lines ->
  A_shifted d n ctx ctx' -> (i + length lines <= n)%nat ->
  (n <= length (A.line_addr ctx))%nat ->
  A.pass2_loop lines ctx' i ws = A.pass2_loop lines ctx i ws.
Proof.
  induction lines as [|pl lines IH]; intros i ws Hk Habs Hsh Hi Hn; simpl;
    [reflexivity|].
  apply Forall_cons in Hk as [Hpl Hk].
  apply Forall_cons in Habs as [Hab Habs]. simpl in Hi.
  assert (Ha : A.line_addr ctx' !!! i = wrap16 (A.line_addr ctx !!! i + d)).
  { destruct Hsh as (_ & _ & _ & Hla).
    rewrite !list_lookup_total_alt, (Hla i ltac:(lia)).
    destruct (lookup_lt_is_Some_2 (A.line_addr ctx) i ltac:(lia)) as [x ->].
    reflexivity. }
  rewrite Ha, (A_pass2_step_shift pl ctx ctx' d n _ Hpl Hab Hsh).
  destruct (A.pass2_step pl ctx (A.line_addr ctx !!! i)); simpl;
    [|reflexivity].
  apply IH; try assumption. lia.
Qed.

(** X24. The code that the first version emits is position-independent.
    On lines without directives, as [assemble] reads them, and without a
    jump to an address given as a number, the words that Pass 2 emits do
    not depend on the address at which Pass 1 starts to count: every label
    and every line moves by the same distance, and a jump stores the
    distance to its target only. The two passes also fail alike, with the
    same exception, whatever the start address. *)
Theorem A_code_is_position_independent (lines : list A.ParsedLine)
    (base base' : Z) :
  0 <= base < 65536 -> 0 <= base' < 65536 ->
  Forall (fun pl => A.lkind pl <> A.Directive) lines ->
  Forall (fun pl => ~ A_absolute_jump pl) lines ->
  (ctx ← A.pass1 lines (A.mkAsmContext base' [] []); A.pass2 lines ctx []) =
  (ctx ← A.pass1 lines (A.mkAsmContext base [] []); A.pass2 lines ctx []).
Proof.
  intros _ Hb Hk Habs. unfold A.pass1, A.pass2. simpl.
  set (c0 := A.mkAsmContext base [] (resize (length lines) 0 [])).
  set (c0' := A.mkAsmContext base' [] (resize (length lines) 0 [])).
  assert (Hsh : A_shifted (base' - base) 0 c0 c0').
  { split; [|split; [constructor | split; [reflexivity | intros k Hk'; lia]]].
    simpl. replace (base + (base' - base)) with base' by lia.
    symmetry. apply wrap16_small, Hb. }
  assert (Hlen : (0 + length lines <= length (A.line_addr c0))%nat)
    by (simpl; rewrite length_resize; lia).
  pose proof (A_pass1_loop_shift lines (base' - base) 0 c0 c0' Hk Hlen Hsh)
    as Hp.
  destruct (A.pass1_loop lines 0 c0) as [c|e] eqn:E,
           (A.pass1_loop lines 0 c0') as [c'|e'];
    simpl; try contradiction; [|congruence].
  apply (A_pass2_loop_shift lines (base' - base) (0 + length lines) c c');
    try assumption; [lia|].
  apply A_pass1_loop_spec in E; [|exact Hlen].
  destruct E as (-> & _). simpl. rewrite length_resize. lia.
Qed.
(** * The two passes without the vector of line addresses *)

(** ** The first version *)

(** What Pass 1 carries from line to line: the address counter and the
    symbol table. *)
Definition A_core : Type := (Z * list (string * Z))%type.

(** One line of Pass 1, on the address counter and the symbol table. *)
Definition A_core_step (pl : A.ParsedLine) (st : A_core) : result A_core :=
  (fun c => (A.current_addr_words c, A.symbols c)) <$>
    A.pass1_step pl 0 (A.mkAsmContext st.1 st.2 []).

(** The addresses of the lines, and what Pass 1 carries after the last
    one. *)
Fixpoint A_addresses (lines : list A.ParsedLine) (st : A_core)
  : result (list Z * A_core) :=
  match lines with
  | [] => Ok ([], st)
  | pl :: rest =>
      st1 ← A_core_step pl st;
      r ← A_addresses rest st1;
      Ok (st.1 :: r.1, r.2)
  end.

(** The words of the lines, each encoded at its address. *)
Fixpoint A_emit (syms : list (string * Z)) (lines : list A.ParsedLine)
    (addrs : list Z) : result (list Z) :=
  match lines, addrs with
  | pl :: rest, a :: addrs' =>
      ws ← A.pass2_step pl (A.mkAsmContext 0 syms []) a;
      ws' ← A_emit syms rest addrs';
      Ok (ws ++ ws')
  | _, _ => Ok []
  end.

Definition A_two_passes (lines : list A.ParsedLine) : result (list Z) :=
  r ← A_addresses lines (32768, []);
  A_emit r.2.2 lines r.1.

Lemma A_advance_frame pl a s l :
  A.advance pl (A.mkAsmContext a s l) =
  (fun v => A.mkAsmContext v s l) <$>
    (A.current_addr_words <$> A.advance pl (A.mkAsmContext a [] [])).
Proof.
  unfold A.advance, A.set_addr. simpl.
  destruct (A.lkind pl); [reflexivity | |].
  - destruct (negb _); [reflexivity|].
    destruct (iequals _ "ADD").
    + destruct (A.operands pl) as [|? [|o1 [|? ?]]]; try reflexivity.
      destruct (A.kind o1); reflexivity.
    + destruct (_ || _); reflexivity.
  - destruct (iequals _ ".org").
    + destruct (A.operands pl) as [|o [|? ?]]; try reflexivity.
      destruct (A.kind o); try reflexivity.
      destruct (A.parse_number16 _); reflexivity.
    + destruct (iequals _ ".word"); reflexivity.
Qed.

Lemma A_pass1_step_core pl i ctx :
  A.pass1_step pl i ctx =
  (fun st1 : A_core =>
     A.mkAsmContext st1.1 st1.2
       (<[i := A.current_addr_words ctx]> (A.line_addr ctx))) <$>
    A_core_step pl (A.current_addr_words ctx, A.symbols ctx).
Proof.
  unfold A_core_step, A.pass1_step, A.define_label, A.symbol_exists,
    A.record_line_addr. simpl.
  destruct (negb _); simpl.
  - destruct (A.symbol_exists_in _ _); simpl; [reflexivity|].
    rewrite A_advance_frame.
    rewrite (A_advance_frame pl _ (A.symbols ctx ++ _) []).
    destruct (A.advance pl _); reflexivity.
  - rewrite A_advance_frame.
    rewrite (A_advance_frame pl _ (A.symbols ctx) []).
    destruct (A.advance pl _); reflexivity.
Qed.

Lemma A_pass1_loop_addresses lines : forall pre mid post cur syms,
  length mid = length lines ->
  A.pass1_loop lines (length pre)
    (A.mkAsmContext cur syms (pre ++ mid ++ post)) =
  (fun r : list Z * A_core =>
     A.mkAsmContext r.2.1 r.2.2 (pre ++ r.1 ++ post)) <$>
    A_addresses lines (cur, syms).
Proof.
  induction lines as [|pl lines IH]; intros pre mid post cur syms Hlen.
  { destruct mid; [reflexivity | discriminate]. }
  destruct mid as [|m mid]; [discriminate|]. simpl in Hlen.
  simpl. rewrite A_pass1_step_core. simpl.
  destruct (A_core_step pl (cur, syms)) as [[cur1 syms1]|e]; simpl;
    [|reflexivity].
  rewrite insert_app_r_alt, Nat.sub_diag by lia. simpl.
  replace (pre ++ cur :: mid ++ post) with ((pre ++ [cur]) ++ mid ++ post)
    by (rewrite <- app_assoc; reflexivity).
  replace (S (length pre)) with (length (pre ++ [cur]))
    by (rewrite length_app; simpl; lia).
  rewrite IH by lia.
  destruct (A_addresses lines (cur1, syms1)) as [[addrs st]|e]; simpl;
    [|reflexivity].
  rewrite <- app_assoc. reflexivity.
Qed.

Lemma A_addresses_length lines : forall st addrs st',
  A_addresses lines st = Ok (addrs, st') -> length addrs = length lines.
Proof.
  induction lines as [|pl lines IH]; intros st addrs st' H; simpl in H.
  { injection H as <- <-. reflexivity. }
  apply bind_Ok in H as (st1 & _ & H).
  apply bind_Ok in H as ([addrs' st''] & Hr & H).
  injection H as <- <-. simpl. f_equal. eapply IH. exact Hr.
Qed.

Lemma A_pass2_loop_emit lines : forall ctx pre addrs post ws,
  A.line_addr ctx = pre ++ addrs ++ post -> length addrs = length lines ->
  A.pass2_loop lines ctx (length pre) ws =
  (fun ws' => ws ++ ws') <$> A_emit (A.symbols ctx) lines addrs.
Proof.
  induction lines as [|pl lines IH]; intros ctx pre addrs post ws Hla Hlen.
  { simpl. rewrite app_nil_r. destruct addrs; reflexivity. }
  destruct addrs as [|a addrs]; [discriminate|]. simpl in Hlen. simpl.
  assert (Ha : A.line_addr ctx !!! length pre = a).
  { rewrite Hla. apply list_lookup_total_middle. reflexivity. }
  rewrite Ha.
  change (A.pass2_step pl (A.mkAsmContext 0 (A.symbols ctx) []) a)
    with (A.pass2_step pl ctx a).
  destruct (A.pass2_step pl ctx a) as [ws1|e]; simpl; [|reflexivity].
  replace (S (length pre)) with (length (pre ++ [a]))
    by (rewrite length_app; simpl; lia).
  rewrite (IH ctx (pre ++ [a]) addrs post)
    by (rewrite ?Hla, <- ?app_assoc; simpl; auto; lia).
  destruct (A_emit (A.symbols ctx) lines addrs); simpl; [|reflexivity].
  rewrite app_assoc. reflexivity.
Qed.

Lemma A_two_passes_spec (lines : list A.ParsedLine) :
  (ctx ← A.pass1 lines A.AsmContext_init; A.pass2 lines ctx []) =
  A_two_passes lines.
Proof.
  unfold A.pass1, A.pass2, A_two_passes. simpl.
  pose proof (A_pass1_loop_addresses lines [] (resize (length lines) 0 []) []
                32768 [] ltac:(apply length_resize)) as H.
  simpl in H. rewrite app_nil_r in H. rewrite H. clear H.
  destruct (A_addresses lines (32768, [])) as [[addrs [cur syms]]|e] eqn:E;
    simpl; [|reflexivity].
  rewrite app_nil_r.
  pose proof (A_pass2_loop_emit lines (A.mkAsmContext cur syms addrs)
                [] addrs [] [] ltac:(simpl; rewrite app_nil_r; reflexivity)
                (A_addresses_length _ _ _ _ E)) as H.
  simpl in H. rewrite H.
  destruct (A_emit syms lines addrs); reflexivity.
Qed.
(** ** The second version *)

Definition B_core : Type := (Z * gmap string Z)%type.

Definition B_core_step (l : B.Line) (st : B_core) : result B_core :=
  (fun s => (B.addr s, B.symbols s)) <$>
    B.pass1_step l 0 (B.mkPass1 st.2 [] st.1).

Fixpoint B_addresses (lines : list B.Line) (st : B_core)
  : result (list Z * B_core) :=
  match lines with
  | [] => Ok ([], st)
  | l :: rest =>
      st1 ← B_core_step l st;
      r ← B_addresses rest st1;
      Ok (st.1 :: r.1, r.2)
  end.

Fixpoint B_emit (syms : gmap string Z) (lines : list B.Line)
    (addrs : list Z) : result (list Z) :=
  match lines, addrs with
  | l :: rest, a :: addrs' =>
      ws ← B.pass2_step l syms a;
      ws' ← B_emit syms rest addrs';
      Ok (ws ++ ws')
  | _, _ => Ok []
  end.

Definition B_two_passes (lines : list B.Line) : result (list Z) :=
  r ← B_addresses lines (32768, ∅);
  B_emit r.2.2 lines r.1.

Lemma B_advance_frame l s la a :
  B.advance l (B.mkPass1 s la a) =
  (fun v => B.mkPass1 s la v) <$>
    (B.addr <$> B.advance l (B.mkPass1 s [] a)).
Proof.
  unfold B.advance, B.set_addr. simpl.
  destruct (String.eqb _ _); [reflexivity|].
  destruct (B.is_directive l).
  - destruct (iequals _ ".ORG").
    + destruct (B.operands l) as [|o [|? ?]]; try reflexivity.
      destruct (B.kind o); try reflexivity.
      * destruct (B.symbols_at _ _); reflexivity.
      * destruct (B.parse_number16 _); reflexivity.
    + destruct (iequals _ ".WORD"); reflexivity.
  - destruct (_ || _); [reflexivity|].
    destruct (iequals _ "ADD").
    + destruct (B.operands l) as [|? [|o1 [|? ?]]]; try reflexivity.
      destruct (B.kind o1); reflexivity.
    + destruct (_ || _); reflexivity.
Qed.

Lemma B_pass1_step_core l i st :
  B.pass1_step l i st =
  (fun st1 : B_core =>
     B.mkPass1 st1.2 (<[i := B.addr st]> (B.line_addr st)) st1.1) <$>
    B_core_step l (B.addr st, B.symbols st).
Proof.
  unfold B_core_step, B.pass1_step, B.define_label, B.record_line_addr.
  simpl.
  destruct (negb _); simpl.
  - case_bool_decide; simpl; [reflexivity|].
    rewrite B_advance_frame.
    rewrite (B_advance_frame l (<[_:=_]> _) [] _).
    destruct (B.advance l _); reflexivity.
  - rewrite B_advance_frame.
    rewrite (B_advance_frame l (B.symbols st) [] _).
    destruct (B.advance l _); reflexivity.
Qed.

Lemma B_pass1_loop_addresses lines : forall pre mid post cur syms,
  length mid = length lines ->
  B.pass1_loop lines (length pre)
    (B.mkPass1 syms (pre ++ mid ++ post) cur) =
  (fun r : list Z * B_core =>
     B.mkPass1 r.2.2 (pre ++ r.1 ++ post) r.2.1) <$>
    B_addresses lines (cur, syms).
Proof.
  induction lines as [|l lines IH]; intros pre mid post cur syms Hlen.
  { destruct mid; [reflexivity | discriminate]. }
  destruct mid as [|m mid]; [discriminate|]. simpl in Hlen.
  simpl. rewrite B_pass1_step_core. simpl.
  destruct (B_core_step l (cur, syms)) as [[cur1 syms1]|e]; simpl;
    [|reflexivity].
  rewrite insert_app_r_alt, Nat.sub_diag by lia. simpl.
  replace (pre ++ cur :: mid ++ post) with ((pre ++ [cur]) ++ mid ++ post)
    by (rewrite <- app_assoc; reflexivity).
  replace (S (length pre)) with (length (pre ++ [cur]))
    by (rewrite length_app; simpl; lia).
  rewrite IH by lia.
  destruct (B_addresses lines (cur1, syms1)) as [[addrs st]|e]; simpl;
    [|reflexivity].
  rewrite <- app_assoc. reflexivity.
Qed.

Lemma B_addresses_length lines : forall st addrs st',
  B_addresses lines st = Ok (addrs, st') -> length addrs = length lines.
Proof.
  induction lines as [|l lines IH]; intros st addrs st' H; simpl in H.
  { injection H as <- <-. reflexivity. }
  apply bind_Ok in H as (st1 & _ & H).
  apply bind_Ok in H as ([addrs' st''] & Hr & H).
  injection H as <- <-. simpl. f_equal. eapply IH. exact Hr.
Qed.

Lemma B_pass2_loop_emit lines : forall st pre addrs post ws,
  B.line_addr st = pre ++ addrs ++ post -> length addrs = length lines ->
  B.pass2_loop lines st (length pre) ws =
  (fun ws' => ws ++ ws') <$> B_emit (B.symbols st) lines addrs.
Proof.
  induction lines as [|l lines IH]; intros st pre addrs post ws Hla Hlen.
  { simpl. rewrite app_nil_r. destruct addrs; reflexivity. }
  destruct addrs as [|a addrs]; [discriminate|]. simpl in Hlen. simpl.
  assert (Ha : B.line_addr st !!! length pre = a).
  { rewrite Hla. apply list_lookup_total_middle. reflexivity. }
  rewrite Ha.
  destruct (B.pass2_step l (B.symbols st) a) as [ws1|e]; simpl;
    [|reflexivity].
  replace (S (length pre)) with (length (pre ++ [a]))
    by (rewrite length_app; simpl; lia).
  rewrite (IH st (pre ++ [a]) addrs post)
    by (rewrite ?Hla, <- ?app_assoc; simpl; auto; lia).
  destruct (B_emit (B.symbols st) lines addrs); simpl; [|reflexivity].
  rewrite app_assoc. reflexivity.
Qed.

Lemma B_two_passes_spec (lines : list B.Line) :
  (st ← B.pass1 lines; B.pass2 lines st) = B_two_passes lines.
Proof.
  unfold B.pass1, B.pass2, B_two_passes.
  pose proof (B_pass1_loop_addresses lines [] (replicate (length lines) 0) []
                32768 ∅ ltac:(apply length_replicate)) as H.
  simpl in H. rewrite app_nil_r in H. rewrite H. clear H.
  destruct (B_addresses lines (32768, ∅)) as [[addrs [cur syms]]|e] eqn:E;
    simpl; [|reflexivity].
  rewrite app_nil_r.
  pose proof (B_pass2_loop_emit lines (B.mkPass1 syms addrs cur)
                [] addrs [] [] ltac:(simpl; rewrite app_nil_r; reflexivity)
                (B_addresses_length _ _ _ _ E)) as H.
  simpl in H. rewrite H.
  destruct (B_emit syms lines addrs); reflexivity.
Qed.

(** X25. The two passes without their vectors and indices. What [pass1]
    and [pass2] compute together, over the vector [line_addr] and the index
    of each line, is this: every line is given the value that the address
    counter has when Pass 1 reaches it, and is encoded at that address with
    the symbol table that Pass 1 ends with; the output is the words of the
    lines in the order of the source. An exception of Pass 1 comes before
    any exception of Pass 2. This holds of both versions. *)
Theorem two_passes_without_indices :
  (forall lines,
     (ctx ← A.pass1 lines A.AsmContext_init; A.pass2 lines ctx []) =
     A_two_passes lines) /\
  (forall lines,
     (st ← B.pass1 lines; B.pass2 lines st) = B_two_passes lines).
Proof. split; [exact A_two_passes_spec | exact B_two_passes_spec]. Qed.

(** ** Lines that can be added or split *)

Lemma A_addresses_app l1 l2 st :
  A_addresses (l1 ++ l2) st =
  r1 ← A_addresses l1 st;
  r2 ← A_addresses l2 r1.2;
  Ok (r1.1 ++ r2.1, r2.2).
Proof.
  revert st. induction l1 as [|pl l1 IH]; intros st; simpl.
  - destruct (A_addresses l2 st) as [[a s]|e]; reflexivity.
  - destruct (A_core_step pl st) as [st1|e]; simpl; [|reflexivity].
    rewrite IH.
    destruct (A_addresses l1 st1) as [[a1 s1]|e]; simpl; [|reflexivity].
    destruct (A_addresses l2 s1) as [[a2 s2]|e]; reflexivity.
Qed.

Lemma A_emit_app syms l1 : forall a1 l2 a2,
  length a1 = length l1 ->
  A_emit syms (l1 ++ l2) (a1 ++ a2) =
  w1 ← A_emit syms l1 a1; w2 ← A_emit syms l2 a2; Ok (w1 ++ w2).
Proof.
  induction l1 as [|pl l1 IH]; intros a1 l2 a2 Hlen.
  - destruct a1; [|discriminate]. simpl.
    destruct (A_emit syms l2 a2); reflexivity.
  - destruct a1 as [|a a1]; [discriminate|]. simpl in Hlen. simpl.
    destruct (A.pass2_step pl _ a); simpl; [|reflexivity].
    rewrite IH by lia.
    destruct (A_emit syms l1 a1); simpl; [|reflexivity].
    destruct (A_emit syms l2 a2); simpl; [|reflexivity].
    rewrite app_assoc. reflexivity.
Qed.

Lemma B_addresses_app l1 l2 st :
  B_addresses (l1 ++ l2) st =
  r1 ← B_addresses l1 st;
  r2 ← B_addresses l2 r1.2;
  Ok (r1.1 ++ r2.1, r2.2).
Proof.
  revert st. induction l1 as [|l l1 IH]; intros st; simpl.
  - destruct (B_addresses l2 st) as [[a s]|e]; reflexivity.
  - destruct (B_core_step l st) as [st1|e]; simpl; [|reflexivity].
    rewrite IH.
    destruct (B_addresses l1 st1) as [[a1 s1]|e]; simpl; [|reflexivity].
    destruct (B_addresses l2 s1) as [[a2 s2]|e]; reflexivity.
Qed.

Lemma B_emit_app syms l1 : forall a1 l2 a2,
  length a1 = length l1 ->
  B_emit syms (l1 ++ l2) (a1 ++ a2) =
  w1 ← B_emit syms l1 a1; w2 ← B_emit syms l2 a2; Ok (w1 ++ w2).
Proof.
  induction l1 as [|l l1 IH]; intros a1 l2 a2 Hlen.
  - destruct a1; [|discriminate]. simpl.
    destruct (B_emit syms l2 a2); reflexivity.
  - destruct a1 as [|a a1]; [discriminate|]. simpl in Hlen. simpl.
    destruct (B.pass2_step l syms a); simpl; [|reflexivity].
    rewrite IH by lia.
    destruct (B_emit syms l1 a1); simpl; [|reflexivity].
    destruct (B_emit syms l2 a2); simpl; [|reflexivity].
    rewrite app_assoc. reflexivity.
Qed.

(** The lines in the middle of which one line is replaced by the lines
    [mid']: when the lines [mid] and [mid'] move the address counter and the
    symbol table alike, and are encoded alike, the output is the same. *)
Lemma A_two_passes_replace l1 mid mid' l2 :
  (forall st,
     match A_addresses mid st, A_addresses mid' st with
     | Ok r, Ok r' =>
         r.2 = r'.2 /\
         forall syms, A_emit syms mid r.1 = A_emit syms mid' r'.1
     | Err e, Err e' => e = e'
     | _, _ => False
     end) ->
  A_two_passes (l1 ++ mid ++ l2) = A_two_passes (l1 ++ mid' ++ l2).
Proof.
  intros Hmid. unfold A_two_passes. rewrite !A_addresses_app.
  destruct (A_addresses l1 (32768, [])) as [[a1 s1]|e] eqn:E1; simpl;
    [|reflexivity].
  specialize (Hmid s1). rewrite !A_addresses_app.
  destruct (A_addresses mid s1) as [[am sm]|e] eqn:Em;
    destruct (A_addresses mid' s1) as [[am' sm']|e'] eqn:Em';
    simpl in Hmid |- *; try contradiction;
    [|rewrite Hmid; reflexivity].
  destruct Hmid as [<- Hemit].
  destruct (A_addresses l2 sm) as [[a2 s2]|e] eqn:E2; simpl; [|reflexivity].
  pose proof (A_addresses_length _ _ _ _ E1) as L1.
  pose proof (A_addresses_length _ _ _ _ Em) as Lm.
  pose proof (A_addresses_length _ _ _ _ Em') as Lm'.
  rewrite !A_emit_app by assumption.
  rewrite Hemit. reflexivity.
Qed.

Lemma B_two_passes_replace l1 mid mid' l2 :
  (forall st,
     match B_addresses mid st, B_addresses mid' st with
     | Ok r, Ok r' =>
         r.2 = r'.2 /\
         forall syms, B_emit syms mid r.1 = B_emit syms mid' r'.1
     | Err e, Err e' => e = e'
     | _, _ => False
     end) ->
  B_two_passes (l1 ++ mid ++ l2) = B_two_passes (l1 ++ mid' ++ l2).
Proof.
  intros Hmid. unfold B_two_passes. rewrite !B_addresses_app.
  destruct (B_addresses l1 (32768, ∅)) as [[a1 s1]|e] eqn:E1; simpl;
    [|reflexivity].
  specialize (Hmid s1). rewrite !B_addresses_app.
  destruct (B_addresses mid s1) as [[am sm]|e] eqn:Em;
    destruct (B_addresses mid' s1) as [[am' sm']|e'] eqn:Em';
    simpl in Hmid |- *; try contradiction;
    [|rewrite Hmid; reflexivity].
  destruct Hmid as [<- Hemit].
  destruct (B_addresses l2 sm) as [[a2 s2]|e] eqn:E2; simpl; [|reflexivity].
  pose proof (B_addresses_length _ _ _ _ E1) as L1.
  pose proof (B_addresses_length _ _ _ _ Em) as Lm.
  pose proof (B_addresses_length _ _ _ _ Em') as Lm'.
  rewrite !B_emit_app by assumption.
  rewrite Hemit. reflexivity.
Qed.

(** The output of the two passes on the lines of a source. *)
Definition A_encode (lines : list A.ParsedLine) : result (list Z) :=
  ctx ← A.pass1 lines A.AsmContext_init; A.pass2 lines ctx [].

Definition B_encode (lines : list B.Line) : result (list Z) :=
  st ← B.pass1 lines; B.pass2 lines st.

(** What a line that holds only a comment is parsed to. *)
Definition A_empty_line : A.ParsedLine :=
  A.mkParsedLine 0 EmptyString A.Empty EmptyString [].

Definition B_empty_line : B.Line := B.mkLine EmptyString EmptyString false [].

(** X26. A line that holds only a comment changes nothing. Such a line is
    read as a line without label, mnemonic and operands, and a line of this
    kind can be added anywhere among the lines, or taken away: the two
    passes return the same words, or fail with the same exception. This
    holds of both versions. *)
Theorem comment_lines_change_nothing :
  (forall w c ln, blank w = true ->
     A_parse_line (w +:+ String ";" c) ln = Ok A_empty_line) /\
  (forall w c, blank w = true ->
     B.tokenize_line (trim (w +:+ String ";" c)) ≫= B.parse_line_tokens =
     Ok B_empty_line) /\
  (forall l1 l2 pl,
     A.lkind pl = A.Empty -> A.label pl = EmptyString ->
     A_encode (l1 ++ pl :: l2) = A_encode (l1 ++ l2)) /\
  (forall l1 l2 l,
     B.op l = EmptyString -> B.label l = EmptyString ->
     B_encode (l1 ++ l :: l2) = B_encode (l1 ++ l2)).
Proof.
  split; [|split; [|split]].
  - intros w c ln Hw. unfold A_parse_line, A.tokenize_line.
    rewrite (strip_comment_app _ _ (blank_no_semicolon _ Hw)).
    rewrite (A_tokenize_blank _ Hw). reflexivity.
  - intros w c Hw. rewrite B_tokenize_line_trim. unfold B.tokenize_line.
    rewrite (strip_comment_app _ _ (blank_no_semicolon _ Hw)).
    rewrite (B_tokenize_blank _ Hw). reflexivity.
  - intros l1 l2 pl Hk Hl. unfold A_encode. rewrite !A_two_passes_spec.
    apply (A_two_passes_replace l1 [pl] [] l2).
    intros [cur syms]. simpl.
    unfold A_core_step, A.pass1_step, A.define_label, A.advance.
    rewrite Hk, Hl. simpl. split; [reflexivity|].
    intros syms'. unfold A.pass2_step. rewrite Hk. reflexivity.
  - intros l1 l2 l Ho Hl. unfold B_encode. rewrite !B_two_passes_spec.
    apply (B_two_passes_replace l1 [l] [] l2).
    intros [cur syms]. simpl.
    unfold B_core_step, B.pass1_step, B.define_label, B.advance.
    rewrite Ho, Hl. simpl. split; [reflexivity|].
    intros syms'. unfold B.pass2_step. rewrite Ho. reflexivity.
Qed.

(** A line without its label, and its label on a line of its own. *)
Definition A_unlabelled (pl : A.ParsedLine) : A.ParsedLine :=
  A.mkParsedLine (A.line_no pl) EmptyString (A.lkind pl) (A.op pl)
    (A.operands pl).

Definition A_label_line (ln : Z) (pl : A.ParsedLine) : A.ParsedLine :=
  A.mkParsedLine ln (A.label pl) A.Empty EmptyString [].

Definition B_unlabelled (l : B.Line) : B.Line :=
  B.mkLine EmptyString (B.op l) (B.is_directive l) (B.operands l).

Definition B_label_line (l : B.Line) : B.Line :=
  B.mkLine (B.label l) EmptyString false [].

Lemma A_label_line_step ln pl cur syms :
  A_core_step (A_label_line ln pl) (cur, syms) =
  (fun c => (A.current_addr_words c, A.symbols c)) <$>
    A.define_label pl (A.mkAsmContext cur syms []).
Proof.
  unfold A_core_step, A.pass1_step, A.define_label, A.symbol_exists. simpl.
  destruct (negb _); [|reflexivity].
  destruct (A.symbol_exists_in syms (A.label pl)); reflexivity.
Qed.

Lemma A_unlabelled_step pl cur syms :
  A_core_step (A_unlabelled pl) (cur, syms) =
  (fun c => (A.current_addr_words c, A.symbols c)) <$>
    A.advance pl (A.mkAsmContext cur syms []).
Proof. reflexivity. Qed.

Lemma A_define_label_keeps pl cur syms ctx :
  A.define_label pl (A.mkAsmContext cur syms []) = Ok ctx ->
  ctx = A.mkAsmContext cur (A.symbols ctx) [].
Proof.
  unfold A.define_label, A.symbol_exists. simpl.
  destruct (negb _); [|intros [= <-]; reflexivity].
  destruct (A.symbol_exists_in syms (A.label pl)); [discriminate|].
  intros [= <-]. reflexivity.
Qed.

Lemma A_label_split ln pl st :
  match A_addresses [A_label_line ln pl; A_unlabelled pl] st,
        A_addresses [pl] st with
  | Ok r, Ok r' =>
      r.2 = r'.2 /\
      forall syms,
        A_emit syms [A_label_line ln pl; A_unlabelled pl] r.1 =
        A_emit syms [pl] r'.1
  | Err e, Err e' => e = e'
  | _, _ => False
  end.
Proof.
  destruct st as [cur syms]. cbn [A_addresses].
  rewrite A_label_line_step.
  assert (Hstep : A_core_step pl (cur, syms) =
            (fun c => (A.current_addr_words c, A.symbols c)) <$>
              (ctx ← A.define_label pl (A.mkAsmContext cur syms []);
               A.advance pl ctx)) by reflexivity.
  rewrite Hstep. clear Hstep.
  destruct (A.define_label pl (A.mkAsmContext cur syms [])) as [ctx|e] eqn:D;
    [|reflexivity].
  apply A_define_label_keeps in D. rewrite D.
  cbn [fmap result_fmap mbind result_bind fst snd].
  rewrite A_unlabelled_step.
  destruct (A.advance pl _) as [ctx'|e]; [|reflexivity].
  split; [reflexivity|]. intros syms'. cbn [A_emit fst snd].
  change (A.pass2_step (A_unlabelled pl)) with (A.pass2_step pl).
  change (A.pass2_step (A_label_line ln pl) (A.mkAsmContext 0 syms' []) cur)
    with (@Ok (list Z) []).
  cbn. destruct (A.pass2_step pl _ cur); reflexivity.
Qed.

Lemma B_label_line_step l cur syms :
  B_core_step (B_label_line l) (cur, syms) =
  (fun s => (B.addr s, B.symbols s)) <$>
    B.define_label l (B.mkPass1 syms [] cur).
Proof.
  unfold B_core_step, B.pass1_step, B.define_label. simpl.
  destruct (negb _); [|reflexivity].
  case_bool_decide; reflexivity.
Qed.

Lemma B_unlabelled_step l cur syms :
  B_core_step (B_unlabelled l) (cur, syms) =
  (fun s => (B.addr s, B.symbols s)) <$>
    B.advance l (B.mkPass1 syms [] cur).
Proof. reflexivity. Qed.

Lemma B_define_label_keeps l cur syms st :
  B.define_label l (B.mkPass1 syms [] cur) = Ok st ->
  st = B.mkPass1 (B.symbols st) [] cur.
Proof.
  unfold B.define_label. simpl.
  destruct (negb _); [|intros [= <-]; reflexivity].
  case_bool_decide; [discriminate|].
  intros [= <-]. reflexivity.
Qed.

Lemma B_label_split l st :
  match B_addresses [B_label_line l; B_unlabelled l] st,
        B_addresses [l] st with
  | Ok r, Ok r' =>
      r.2 = r'.2 /\
      forall syms,
        B_emit syms [B_label_line l; B_unlabelled l] r.1 =
        B_emit syms [l] r'.1
  | Err e, Err e' => e = e'
  | _, _ => False
  end.
Proof.
  destruct st as [cur syms]. cbn [B_addresses].
  rewrite B_label_line_step.
  assert (Hstep : B_core_step l (cur, syms) =
            (fun s => (B.addr s, B.symbols s)) <$>
              (st ← B.define_label l (B.mkPass1 syms [] cur);
               B.advance l st)) by reflexivity.
  rewrite Hstep. clear Hstep.
  destruct (B.define_label l (B.mkPass1 syms [] cur)) as [st|e] eqn:D;
    [|reflexivity].
  apply B_define_label_keeps in D. rewrite D.
  cbn [fmap result_fmap mbind result_bind fst snd].
  rewrite B_unlabelled_step.
  destruct (B.advance l _) as [st'|e]; [|reflexivity].
  split; [reflexivity|]. intros syms'. cbn [B_emit fst snd].
  change (B.pass2_step (B_unlabelled l)) with (B.pass2_step l).
  change (B.pass2_step (B_label_line l) syms' cur) with (@Ok (list Z) []).
  cbn. destruct (B.pass2_step l syms' cur); reflexivity.
Qed.

(** X27. A label can stand on a line of its own. A line that carries a
    label is worth a line with the label alone followed by the line without
    its label: the label names the same address, and the two passes return
    the same words, or fail with the same exception. This holds of both
    versions. *)
Theorem label_on_a_line_of_its_own :
  (forall l1 l2 pl ln,
     A_encode (l1 ++ A_label_line ln pl :: A_unlabelled pl :: l2) =
     A_encode (l1 ++ pl :: l2)) /\
  (forall l1 l2 l,
     B_encode (l1 ++ B_label_line l :: B_unlabelled l :: l2) =
     B_encode (l1 ++ l :: l2)).
Proof.
  split.
  - intros l1 l2 pl ln. unfold A_encode. rewrite !A_two_passes_spec.
    apply (A_two_passes_replace l1 [A_label_line ln pl; A_unlabelled pl]
             [pl] l2).
    intros st. apply A_label_split.
  - intros l1 l2 l. unfold B_encode. rewrite !B_two_passes_spec.
    apply (B_two_passes_replace l1 [B_label_line l; B_unlabelled l] [l] l2).
    intros st. apply B_label_split.
Qed.
(** * Further instances *)

(** ** X1 on an indented line with a trailing blank. *)
Lemma trim_strips_outer_blanks_witness :
  trim (trim "  ADD R0 ") = trim "  ADD R0 ".
Proof.
  exact (proj2 (proj2 (proj2 (proj2 (trim_strips_outer_blanks "  ADD R0 "))))).
Defined.

(** ** X2 on a mnemonic in lower case. *)
Lemma iequals_equivalence_witness : iequals "jz" "JZ" = true.
Proof. exact (proj2 (proj1 iequals_equivalence "jz" "JZ") eq_refl). Defined.

(** ** X3 on the token [12ab], read as 12. *)
Lemma parse_number16_decimal_witness : A.parse_number16 "12ab" = Ok 12.
Proof.
  exact (parse_number16_decimal _ "12" "ab" ltac:(discriminate) eq_refl eq_refl).
Defined.

(** ** X4 on the token [0x1Fg], read as 31. *)
Lemma parse_number16_hex_witness : B.parse_number16 "0x1Fg" = Ok 31.
Proof.
  exact (parse_number16_hex _ "x" "1F" "g" (or_introl eq_refl) eq_refl eq_refl).
Defined.

(** ** X5 on [r2]. *)
Lemma reg_id_from_name_registers_witness :
  0 <= 2 <= 3 /\ register_names !! Z.to_nat 2 = Some (upper_string "r2").
Proof.
  exact (proj1 (proj2 (reg_id_from_name_registers "Unknown register" "r2"))
           2 eq_refl).
Defined.

(** ** X6 on [jmp]. *)
Lemma find_instr_table_witness : B.opcode_of "jmp" = Ok 13.
Proof. exact (proj2 (proj2 (proj2 (proj2 (find_instr_table "jmp"))))). Defined.

(** ** X7 on the word of [ADD R3, #imm]. *)
Lemma make_instr_word_decode_witness :
  Z.land (Z.shiftr (make_instr_word 5 1 3 0) 11) 31 = 5.
Proof. exact (proj1 (proj1 (make_instr_word_decode 5 1 3 0))). Defined.

(** ** X9, X10 and X11 on the line [ADD r0, #5]. *)
Definition add_imm_tokens : list A.Token :=
  [ A.mkToken A.Identifier "ADD" 1 0; A.mkToken A.Register "R0" 1 4;
    A.mkToken A.Comma "," 1 6; A.mkToken A.Hash "#" 1 8;
    A.mkToken A.Number "5" 1 9 ].

Lemma token_classes_witness : Forall A_token_class add_imm_tokens.
Proof. exact (proj1 token_classes "ADD r0, #5" 1 add_imm_tokens eq_refl). Defined.

Lemma A_token_positions_witness :
  Forall (A_token_recorded "ADD r0, #5" 1) add_imm_tokens /\
  A_tokens_apart add_imm_tokens.
Proof. exact (A_token_positions "ADD r0, #5" 1 add_imm_tokens eq_refl). Defined.

Lemma tokens_keep_the_text_witness :
  upper_string (joined (A.text <$> add_imm_tokens)) = "ADDR0,#5".
Proof.
  exact (proj1 tokens_keep_the_text "ADD r0, #5" 1 add_imm_tokens eq_refl).
Defined.

(** ** X12 on a comment that holds characters the lexer rejects. *)
Lemma comments_are_ignored_witness :
  A.tokenize_line "NOP ;@@" 1 = A.tokenize_line "NOP " 1.
Proof. exact (proj1 (comments_are_ignored "NOP " "@@" eq_refl) 1). Defined.

(** ** X13 on an indented line that ends with a carriage return. *)
Lemma outer_blanks_are_ignored_witness :
  B.tokenize_line ("  NOP" +:+ String "013" EmptyString) =
  B.tokenize_line "NOP".
Proof.
  exact (proj2 (proj2 (proj1 outer_blanks_are_ignored "NOP" _
           (ex_intro _ "  " (ex_intro _ (String "013" EmptyString)
              (conj eq_refl (conj eq_refl eq_refl))))))).
Defined.

(** ** X14 on a register-indirect operand. *)
Lemma indexed_addressing_is_rejected_witness :
  exists e, A.assemble "ADD R0, [R1]" = Err e.
Proof.
  destruct (indexed_addressing_is_rejected "ADD R0, [R1]" "ADD R0, [R1]")
    as (_ & _ & H & _).
  - vm_compute. apply list_elem_of_here.
  - exists "["%char. split; [vm_compute; auto 20 | reflexivity].
  - exact H.
Defined.

(** ** X16, X18 and X22 on two labelled [NOP] lines. *)
Definition labelled_lines : list A.ParsedLine :=
  [ A.mkParsedLine 1 "a" A.Instruction "NOP" [];
    A.mkParsedLine 2 "b" A.Instruction "NOP" [] ].

Definition labelled_ctx : A.AsmContext :=
  A.mkAsmContext 32770 [("a", 32768); ("b", 32769)] [32768; 32769].

Lemma labelled_lines_no_directive :
  Forall (fun pl => A.lkind pl <> A.Directive) labelled_lines.
Proof. repeat constructor; discriminate. Qed.

Lemma labelled_lines_no_org : Forall (fun pl => ~ A_org pl) labelled_lines.
Proof. repeat constructor; intros [H _]; discriminate H. Qed.

Lemma symbol_tables_witness : NoDup (A_defined_labels labelled_lines).
Proof.
  exact (proj1 (proj2 (proj1 symbol_tables labelled_lines labelled_ctx
                         eq_refl))).
Defined.

Lemma A_addresses_are_word_positions_witness :
  A.current_addr_words labelled_ctx =
  wrap16 (32768 + Z.of_nat (length [0; 0])).
Proof.
  exact (proj1 (proj1 A_addresses_are_word_positions labelled_lines
                  labelled_ctx [0; 0] labelled_lines_no_org eq_refl eq_refl)).
Defined.

Lemma A_pass1_succeeds_iff_labels_distinct_witness :
  is_ok (A.pass1 labelled_lines A.AsmContext_init) = true <->
  NoDup (A_defined_labels labelled_lines).
Proof.
  exact (proj1 (A_pass1_succeeds_iff_labels_distinct labelled_lines
                  labelled_lines_no_directive)).
Defined.

(** ** X17 on the first label of a source. *)
Lemma define_then_lookup_witness :
  A.lookup_symbol (A.mkAsmContext 32768 [("a", 32768)] []) "a" = Ok 32768.
Proof.
  exact (proj1 (proj2 (proj2
           (proj1 define_then_lookup
              (A.mkParsedLine 1 "a" A.Instruction "NOP" [])
              A.AsmContext_init
              (A.mkAsmContext 32768 [("a", 32768)] [])
              eq_refl ltac:(discriminate))))).
Defined.

(** ** X19 on two [NOP] lines. *)
Definition nop_lines : list B.Line :=
  [ B.mkLine "" "NOP" false []; B.mkLine "" "NOP" false [] ].

Lemma nop_lines_no_org : Forall (fun l => ~ B_org l) nop_lines.
Proof. repeat constructor; intros (_ & H & _); discriminate H. Qed.

Lemma B_addresses_are_word_positions_witness :
  B.addr (B.mkPass1 ∅ [32768; 32769] 32770) =
  wrap16 (32768 + Z.of_nat (length [0; 0])).
Proof.
  exact (proj1 (B_addresses_are_word_positions nop_lines
                  (B.mkPass1 ∅ [32768; 32769] 32770) [0; 0]
                  nop_lines_no_org eq_refl eq_refl)).
Defined.

(** ** X20 and X21 on the source [FOO]. *)
Lemma A_assemble_exceptions_witness :
  A_exception (runtime_error "Unknown instruction").
Proof. exact (proj1 A_assemble_exceptions "FOO" _ eq_refl). Defined.

Lemma B_assemble_exceptions_witness :
  B_exception (runtime_error "Unsupported instruction: FOO").
Proof. exact (proj1 B_assemble_exceptions "FOO" _ eq_refl). Defined.

(** ** X23 on [add R0, R1] and [ADD R0, R1]. *)
Lemma A_mnemonic_case_is_ignored_witness :
  A.pass2_step
    (A.mkParsedLine 1 "" A.Instruction "add"
       [A.mkOperand A.Reg "R0"; A.mkOperand A.Reg "R1"])
    A.AsmContext_init 32768 =
  A.pass2_step
    (A.mkParsedLine 1 "" A.Instruction "ADD"
       [A.mkOperand A.Reg "R0"; A.mkOperand A.Reg "R1"])
    A.AsmContext_init 32768.
Proof.
  exact (proj2 (A_mnemonic_case_is_ignored
                  (A.mkParsedLine 1 "" A.Instruction "ADD"
                     [A.mkOperand A.Reg "R0"; A.mkOperand A.Reg "R1"])
                  (A.mkParsedLine 1 "" A.Instruction "add"
                     [A.mkOperand A.Reg "R0"; A.mkOperand A.Reg "R1"])
                  eq_refl eq_refl eq_refl) A.AsmContext_init 32768).
Defined.

(** ** X24 on a forward jump, counted from 0 and from 0x8000. *)
Definition jump_lines : list A.ParsedLine :=
  [ A.mkParsedLine 1 "" A.Instruction "JMP" [A.mkOperand A.LabelRef "end"];
    A.mkParsedLine 2 "end" A.Instruction "HALT" [] ].

Lemma A_code_is_position_independent_witness :
  (ctx ← A.pass1 jump_lines (A.mkAsmContext 0 [] []);
   A.pass2 jump_lines ctx []) =
  (ctx ← A.pass1 jump_lines (A.mkAsmContext 32768 [] []);
   A.pass2 jump_lines ctx []).
Proof.
  apply A_code_is_position_independent; [lia | lia | |].
  - repeat constructor; discriminate.
  - repeat constructor; intros (_ & o & Ho & Hr);
      first [discriminate Ho | injection Ho as <-; discriminate Hr].
Defined.

Lemma comment_lines_change_nothing_witness :
  A_parse_line "  ; only a note" 7 = Ok A_empty_line /\
  A_encode (labelled_lines ++ A_empty_line :: jump_lines) =
  A_encode (labelled_lines ++ jump_lines).
Proof.
  split.
  - exact (proj1 comment_lines_change_nothing "  " " only a note" 7
             eq_refl).
  - exact (proj1 (proj2 (proj2 comment_lines_change_nothing))
             labelled_lines jump_lines A_empty_line eq_refl eq_refl).
Defined.
